(** * 2048 robot: the move engine and the search strategies

    A shallow embedding of [GameManager] (move resolution, legality and
    termination checks) and of the strategies of [js/strategies.js]
    (greedy, expectimax, alpha-beta), with the properties of the
    specification stated against it.

    Conventions.
    - JavaScript integers (coordinates, tile values, the score) are [Z].
    - JavaScript numbers used as search scores are [JSNum.t]: exact
      rationals extended with [Infinity], [-Infinity] and [NaN]; rounding
      of doubles and the sign of zero are not modelled.
    - Objects mutated in place ([this], the live grid, its tiles) are
      threaded explicitly; a tile object is held by the cell that refers
      to it, and by the [mergedFrom] pair of the tile merged from it. *)

From Stdlib Require Import ZArith QArith Qabs Lia List Bool Permutation.
From Stdlib Require Strings.String.
From stdpp Require Import base list sorting.

Set Warnings "-register-all".
Local Open Scope Z_scope.

(** ** JavaScript numbers *)

Module JSNum.

Inductive t := NaN | NegInf | Fin (q : Q) | PosInf.

(** Finite values are kept in lowest terms, so that equal numbers are
    equal terms. *)
Definition fin (q : Q) : t := Fin (Qred q).
Definition of_Z (z : Z) : t := fin (inject_Z z).

Definition sgn (q : Q) : comparison := (q ?= 0)%Q.

Definition neg (a : t) : t :=
  match a with
  | NaN => NaN
  | NegInf => PosInf
  | PosInf => NegInf
  | Fin q => fin (- q)
  end.

Definition add (a b : t) : t :=
  match a, b with
  | NaN, _ | _, NaN => NaN
  | Fin p, Fin q => fin (p + q)
  | PosInf, NegInf | NegInf, PosInf => NaN
  | PosInf, _ | _, PosInf => PosInf
  | NegInf, _ | _, NegInf => NegInf
  end.

Definition sub (a b : t) : t := add a (neg b).

Definition inf_of (c : comparison) : t :=
  match c with Eq => NaN | Lt => NegInf | Gt => PosInf end.

Definition mul (a b : t) : t :=
  match a, b with
  | NaN, _ | _, NaN => NaN
  | Fin p, Fin q => fin (p * q)
  | Fin p, PosInf | PosInf, Fin p => inf_of (sgn p)
  | Fin p, NegInf | NegInf, Fin p => inf_of (CompOpp (sgn p))
  | PosInf, PosInf | NegInf, NegInf => PosInf
  | PosInf, NegInf | NegInf, PosInf => NegInf
  end.

(** [a / b]; a zero divisor is taken as [+0]. *)
Definition div (a b : t) : t :=
  match a, b with
  | NaN, _ | _, NaN => NaN
  | Fin p, Fin q =>
      match sgn q with
      | Eq => inf_of (sgn p)
      | _ => fin (p / q)
      end
  | Fin _, (PosInf | NegInf) => Fin 0
  | PosInf, Fin q => match sgn q with Lt => NegInf | _ => PosInf end
  | NegInf, Fin q => match sgn q with Lt => PosInf | _ => NegInf end
  | (PosInf | NegInf), (PosInf | NegInf) => NaN
  end.

(** [Math.abs] *)
Definition abs (a : t) : t :=
  match a with
  | NaN => NaN
  | NegInf | PosInf => PosInf
  | Fin q => fin (Qabs q)
  end.

(** [a < b]; every comparison with [NaN] is false *)
Definition ltb (a b : t) : bool :=
  match a, b with
  | NaN, _ | _, NaN => false
  | NegInf, NegInf => false
  | NegInf, _ => true
  | _, NegInf => false
  | PosInf, _ => false
  | Fin _, PosInf => true
  | Fin p, Fin q => match (p ?= q)%Q with Lt => true | _ => false end
  end.

(** [a === b] *)
Definition eqb (a b : t) : bool :=
  match a, b with
  | NegInf, NegInf | PosInf, PosInf => true
  | Fin p, Fin q => Qeq_bool p q
  | _, _ => false
  end.

Definition gtb (a b : t) : bool := ltb b a.
Definition leb (a b : t) : bool := ltb a b || eqb a b.

(** [Math.max(a, b)] and [Math.min(a, b)]: [NaN] when either is *)
Definition max (a b : t) : t :=
  match a, b with
  | NaN, _ | _, NaN => NaN
  | _, _ => if ltb a b then b else a
  end.

Definition min (a b : t) : t :=
  match a, b with
  | NaN, _ | _, NaN => NaN
  | _, _ => if ltb b a then b else a
  end.

(** [Math.log2] of an integer. The value is exact on the powers of two,
    which is the domain of tile values; elsewhere the model rounds the
    logarithm down. *)
Definition log2 (v : Z) : t :=
  if v <? 0 then NaN
  else if v =? 0 then NegInf
  else of_Z (Z.log2 v).

(** Neither [NaN] nor [-Infinity]: what a search score has to be for
    the comparison with the initial [-Infinity] to succeed. *)
Definition above_neginf (a : t) : Prop := ltb NegInf a = true.

Definition is_fin (a : t) : Prop := exists q, a = Fin q.

End JSNum.

(** ** Positions, directions and tiles *)

Record Position := mkPos { pos_x : Z; pos_y : Z }.

#[global] Instance Position_eq_dec : EqDecision Position.
Proof. solve_decision. Defined.

(** 0: up, 1: right, 2: down, 3: left *)
Inductive Direction := Up | Right | Down | Left.

#[global] Instance Direction_eq_dec : EqDecision Direction.
Proof. solve_decision. Defined.

Definition direction_code (d : Direction) : Z :=
  match d with Up => 0 | Right => 1 | Down => 2 | Left => 3 end.

Definition directions : list Direction := [Up; Right; Down; Left].

(** A tile object. [mergedFrom] is [null] or the two-element array
    [[tile, next]] of the tiles it was merged from. *)
Inductive Tile := mkTile {
  tile_x : Z;
  tile_y : Z;
  value : Z;
  previousPosition : option Position;
  mergedFrom : option (Tile * Tile)
}.

(** What [serialize] stores for a tile: the fields the strategies read
    back ([cell.x], [cell.y], [cell.value]). *)
Record SerializedTile := mkSerializedTile { ser_x : Z; ser_y : Z; ser_value : Z }.

Module TileOps.

(** Modelled from the spec: the [Tile] constructor is not among the
    sources. A tile is created at a position with a value and no merge
    sources (spec, data model). *)
Definition new (position : Position) (v : Z) : Tile :=
  mkTile (pos_x position) (pos_y position) v None None.

(** Modelled from the spec: [savePosition] is not among the sources; it
    records the tile's current position ("save all tile positions"). *)
Definition savePosition (t : Tile) : Tile :=
  mkTile (tile_x t) (tile_y t) (value t)
         (Some (mkPos (tile_x t) (tile_y t))) (mergedFrom t).

(** Modelled from the spec: [updatePosition] is not among the sources;
    it moves the tile to [position] (a tile has a mutable position). *)
Definition updatePosition (t : Tile) (position : Position) : Tile :=
  mkTile (pos_x position) (pos_y position) (value t)
         (previousPosition t) (mergedFrom t).

(** [tile.mergedFrom = m] *)
Definition set_mergedFrom (t : Tile) (m : option (Tile * Tile)) : Tile :=
  mkTile (tile_x t) (tile_y t) (value t) (previousPosition t) m.

(** Modelled from the spec: [serialize] of a tile is not among the
    sources; the snapshot of a tile is a value with no reference to
    the live tile. *)
Definition serialize (t : Tile) : SerializedTile :=
  mkSerializedTile (tile_x t) (tile_y t) (value t).

(** [new Tile({ x: cell.x, y: cell.y }, cell.value)] *)
Definition of_serialized (c : SerializedTile) : Tile :=
  new (mkPos (ser_x c) (ser_y c)) (ser_value c).

Definition position (t : Tile) : Position := mkPos (tile_x t) (tile_y t).

(** [!tile.mergedFrom] *)
Definition unmerged (t : Tile) : bool :=
  match mergedFrom t with None => true | Some _ => false end.

End TileOps.

(** ** The grid *)

Module Grid.

Record t := mk { size : Z; cells : list (list (option Tile)) }.

(** [cells[x][y]]; an index outside the arrays reads as empty. *)
Definition cell_at (cs : list (list (option Tile))) (x y : Z) : option Tile :=
  if (0 <=? x) && (0 <=? y) then
    match cs !! Z.to_nat x with
    | Some row =>
        match row !! Z.to_nat y with
        | Some c => c
        | None => None
        end
    | None => None
    end
  else None.

(** [cells[x][y] = v]. A write outside the arrays leaves them as they
    are (JavaScript would raise or extend the row); it does not occur
    on a grid whose tiles lie at their own cells. *)
Definition set_cell (cs : list (list (option Tile))) (x y : Z) (v : option Tile)
  : list (list (option Tile)) :=
  if (0 <=? x) && (0 <=? y) then
    alter (fun row => <[Z.to_nat y := v]> row) (Z.to_nat x) cs
  else cs.

(** Modelled from the spec: the [Grid] constructor is not among the
    sources; a new grid is a square board of empty cells. *)
Definition new (n : Z) : t :=
  mk n (replicate (Z.to_nat n) (replicate (Z.to_nat n) None)).

(** Modelled from the spec: [withinBounds] is not among the sources. *)
Definition withinBounds (g : t) (p : Position) : bool :=
  (0 <=? pos_x p) && (pos_x p <? size g) && (0 <=? pos_y p) && (pos_y p <? size g).

(** Modelled from the spec: [cellContent] is not among the sources; an
    out-of-bounds query returns empty rather than raising. *)
Definition cellContent (g : t) (p : Position) : option Tile :=
  if withinBounds g p then cell_at (cells g) (pos_x p) (pos_y p) else None.

(** Modelled from the spec: [cellAvailable] is not among the sources;
    a cell is available when it is in bounds and empty. *)
Definition cellAvailable (g : t) (p : Position) : bool :=
  withinBounds g p && negb (bool_decide (is_Some (cellContent g p))).

(** Modelled from the spec: [insertTile] is not among the sources; the
    tile is stored at the cell of its own position. *)
Definition insertTile (g : t) (tile : Tile) : t :=
  mk (size g) (set_cell (cells g) (tile_x tile) (tile_y tile) (Some tile)).

(** Modelled from the spec: [removeTile] is not among the sources; the
    cell of the tile's position is emptied. *)
Definition removeTile (g : t) (tile : Tile) : t :=
  mk (size g) (set_cell (cells g) (tile_x tile) (tile_y tile) None).

(** All coordinates of the board, [x] outermost. *)
Definition positions (n : Z) : list Position :=
  x ← seqZ 0 n; y ← seqZ 0 n; [mkPos x y].

(** Modelled from the spec: [eachCell] is not among the sources; it
    visits all [(x, y, tile)] triples. The visitor is applied by the
    callers, which fold over this list. *)
Definition eachCell (g : t) : list (Z * Z * option Tile) :=
  (fun p => (pos_x p, pos_y p, cell_at (cells g) (pos_x p) (pos_y p)))
    <$> positions (size g).

(** Modelled from the spec: [availableCells] is not among the sources;
    the empty cells, in [eachCell] order. *)
Definition availableCells (g : t) : list Position :=
  omap (fun '(x, y, tile) =>
          match tile with None => Some (mkPos x y) | Some _ => None end)
       (eachCell g).

(** Modelled from the spec: [cellsAvailable] is not among the sources. *)
Definition cellsAvailable (g : t) : bool :=
  match availableCells g with [] => false | _ => true end.

(** Modelled from the spec: [randomAvailableCell] is not among the
    sources; it picks an empty cell uniformly and fails with
    [NoSpaceError] ([None]) when there is none. [choice] is the
    random draw. *)
Definition randomAvailableCell (g : t) (choice : nat) : option Position :=
  let cs := availableCells g in
  match cs with
  | [] => None
  | _ => cs !! (choice mod length cs)%nat
  end.

(** Modelled from the spec: [serialize] is not among the sources; it
    produces a snapshot of the cell values that shares nothing with
    the live tiles. *)
Definition serialize_cells (g : t) : list (list (option SerializedTile)) :=
  map (map (option_map TileOps.serialize)) (cells g).

End Grid.


(** ** A small state monad

    The strategies call into the shared [GameManager] object, which
    [tryMove] mutates; their code is written in this monad over the
    state it is run against. *)

Definition State (S A : Type) : Type := S -> A * S.

Definition ret {S A : Type} (a : A) : State S A := fun s => (a, s).

Definition bind {S A B : Type} (m : State S A) (k : A -> State S B) : State S B :=
  fun s => let '(a, s') := m s in k a s'.

Definition gets {S A : Type} (f : S -> A) : State S A := fun s => (f s, s).

Notation "'let*' x ':=' m 'in' k" := (bind m (fun x => k))
  (at level 10, x name, m at level 100, k at level 200).

(** [for (const b of l) { a = f(a, b) }] *)
Fixpoint foldM {S A B : Type} (f : A -> B -> State S A) (a : A) (l : list B)
  : State S A :=
  match l with
  | [] => ret a
  | b :: l' => let* a' := f a b in foldM f a' l'
  end.

(** ** The game manager *)

Module GameManager.

(** What the actuator is handed besides the grid. *)
Record Metadata := mkMetadata {
  meta_score : Z;
  meta_over : bool;
  meta_won : bool;
  meta_bestScore : Z;
  meta_terminated : bool
}.

(** [serialize()]: the persisted game state. *)
Record SerializedState := mkSerializedState {
  ser_grid_size : Z;
  ser_grid_cells : list (list (option SerializedTile));
  ser_score : Z;
  ser_over : bool;
  ser_won : bool;
  ser_keepPlaying : bool
}.

(** Modelled from the spec: the storage manager is not among the sources;
    it holds the best score and the saved game state. *)
Record StorageManager := mkStorage {
  bestScore : Z;
  gameState : option SerializedState
}.

(** The fields of [this] the engine reads and writes. [actuator] is the
    log of the calls made to the actuator, oldest first (modelled from
    the spec: a rendering sink that returns nothing). *)
Record t := mk {
  size : Z;
  grid : Grid.t;
  score : Z;
  over : bool;
  won : bool;
  keepPlaying : bool;
  storageManager : StorageManager;
  actuator : list (Grid.t * Metadata)
}.

Definition set_grid (self : t) (g : Grid.t) : t :=
  mk (size self) g (score self) (over self) (won self) (keepPlaying self)
     (storageManager self) (actuator self).

Definition set_score (self : t) (s : Z) : t :=
  mk (size self) (grid self) s (over self) (won self) (keepPlaying self)
     (storageManager self) (actuator self).

Definition set_over (self : t) (b : bool) : t :=
  mk (size self) (grid self) (score self) b (won self) (keepPlaying self)
     (storageManager self) (actuator self).

Definition set_won (self : t) (b : bool) : t :=
  mk (size self) (grid self) (score self) (over self) b (keepPlaying self)
     (storageManager self) (actuator self).

(** The random draws of one [addRandomTile]: whether
    [Math.random() < 0.9], and the draw handed to
    [randomAvailableCell]. *)
Record Random := mkRandom { value_draw : bool; cell_draw : nat }.

Definition isGameTerminated (self : t) : bool :=
  if over self || (won self && negb (keepPlaying self)) then true else false.

Definition addRandomTile (rnd : Random) (self : t) : t :=
  if Grid.cellsAvailable (grid self) then
    let v := if value_draw rnd then 2 else 4 in
    match Grid.randomAvailableCell (grid self) (cell_draw rnd) with
    | Some position => set_grid self (Grid.insertTile (grid self) (TileOps.new position v))
    | None => self
    end
  else self.

Definition serialize (self : t) : SerializedState :=
  mkSerializedState (Grid.size (grid self)) (Grid.serialize_cells (grid self))
                    (score self) (over self) (won self) (keepPlaying self).

Definition actuate (self : t) : t :=
  let st := storageManager self in
  let st1 := if bestScore st <? score self
             then mkStorage (score self) (gameState st) else st in
  let st2 := if over self
             then mkStorage (bestScore st1) None
             else mkStorage (bestScore st1) (Some (serialize self)) in
  mk (size self) (grid self) (score self) (over self) (won self)
     (keepPlaying self) st2
     (actuator self ++
        [(grid self,
          mkMetadata (score self) (over self) (won self) (bestScore st2)
                     (isGameTerminated self))]).

(** [tile.mergedFrom = null; tile.savePosition()] *)
Definition prepareTile (tile : Tile) : Tile :=
  TileOps.savePosition (TileOps.set_mergedFrom tile None).

(** [prepareTiles] takes no parameter: it always works on [this.grid]. *)
Definition prepareTiles (self : t) : t :=
  set_grid self
    (Grid.mk (Grid.size (grid self))
       (foldl (fun cs '(x, y, tile) =>
                 match tile with
                 | Some tile => Grid.set_cell cs x y (Some (prepareTile tile))
                 | None => cs
                 end)
              (Grid.cells (grid self)) (Grid.eachCell (grid self)))).

Definition moveTile (self : t) (tile : Tile) (cell : Position) : t :=
  let cs1 := Grid.set_cell (Grid.cells (grid self)) (tile_x tile) (tile_y tile) None in
  let cs2 := Grid.set_cell cs1 (pos_x cell) (pos_y cell)
                           (Some (TileOps.updatePosition tile cell)) in
  set_grid self (Grid.mk (Grid.size (grid self)) cs2).

Definition getVector (direction : Direction) : Position :=
  match direction with
  | Up => mkPos 0 (-1)
  | Right => mkPos 1 0
  | Down => mkPos 0 1
  | Left => mkPos (-1) 0
  end.

Record Traversals := mkTraversals { trav_x : list Z; trav_y : list Z }.

Definition buildTraversals (self : t) (vector : Position) : Traversals :=
  let xs := seqZ 0 (size self) in
  let ys := seqZ 0 (size self) in
  mkTraversals (if pos_x vector =? 1 then reverse xs else xs)
               (if pos_y vector =? 1 then reverse ys else ys).

Record Farthest := mkFarthest { farthest : Position; next : Position }.

(** The [do ... while] loop of [findFarthestPosition]; [fuel] bounds the
    number of further iterations. *)
Fixpoint findFarthest_loop (fuel : nat) (g : Grid.t) (previous vector : Position)
  : Farthest :=
  let cell := mkPos (pos_x previous + pos_x vector) (pos_y previous + pos_y vector) in
  if Grid.withinBounds g cell && Grid.cellAvailable g cell then
    match fuel with
    | O => mkFarthest previous cell
    | S fuel' => findFarthest_loop fuel' g cell vector
    end
  else mkFarthest previous cell.

(** [findFarthestPosition] has two parameters and walks [this.grid]. The
    walk leaves the board after at most [size] steps, which is the fuel
    given ([findFarthest_loop_fuel] below). *)
Definition findFarthestPosition (self : t) (cell vector : Position) : Farthest :=
  findFarthest_loop (Z.to_nat (Grid.size (grid self))) (grid self) cell vector.

Definition positionsEqual (first second : Position) : bool :=
  (pos_x first =? pos_x second) && (pos_y first =? pos_y second).

(** The body of the inner [forEach] callback of [move], for one cell. *)
Definition move_cell (vector : Position) (st : t * bool) (cell : Position) : t * bool :=
  let '(self, moved) := st in
  match Grid.cellContent (grid self) cell with
  | None => st
  | Some tile =>
      let positions := findFarthestPosition self cell vector in
      let next_tile := Grid.cellContent (grid self) (next positions) in
      let '(self', tile') :=
        match next_tile with
        | Some nxt =>
            if (value nxt =? value tile) && TileOps.unmerged nxt then
              let tile' := TileOps.updatePosition tile (next positions) in
              let merged :=
                TileOps.set_mergedFrom
                  (TileOps.new (next positions) (value tile * 2))
                  (Some (tile', nxt)) in
              let g1 := Grid.insertTile (grid self) merged in
              let g2 := Grid.removeTile g1 tile in
              let self1 := set_score (set_grid self g2) (score self + value merged) in
              let self2 := if value merged =? 2048 then set_won self1 true else self1 in
              (self2, tile')
            else
              (moveTile self tile (farthest positions),
               TileOps.updatePosition tile (farthest positions))
        | None =>
            (moveTile self tile (farthest positions),
             TileOps.updatePosition tile (farthest positions))
        end in
      (self', if negb (positionsEqual cell (TileOps.position tile')) then true else moved)
  end.

(** The two nested [forEach] loops over the traversals. *)
Definition traverse {A : Type} (f : A -> Position -> A) (traversals : Traversals) (a : A) : A :=
  foldl (fun a x => foldl (fun a y => f a (mkPos x y)) a (trav_y traversals))
        a (trav_x traversals).

(** [move] up to the test of [moved]: the terminated check is the
    caller's, the spawn and the actuation follow. *)
Definition resolve (direction : Direction) (self : t) : t * bool :=
  let vector := getVector direction in
  let traversals := buildTraversals self vector in
  traverse (move_cell vector) traversals (prepareTiles self, false).

Definition tileMatchesAvailable (self : t) : bool :=
  existsb (fun x =>
    existsb (fun y =>
      match Grid.cellContent (grid self) (mkPos x y) with
      | Some tile =>
          existsb (fun direction =>
            let vector := getVector direction in
            let cell := mkPos (x + pos_x vector) (y + pos_y vector) in
            match Grid.cellContent (grid self) cell with
            | Some other => value other =? value tile
            | None => false
            end) directions
      | None => false
      end) (seqZ 0 (size self))) (seqZ 0 (size self)).

Definition movesAvailable (self : t) : bool :=
  Grid.cellsAvailable (grid self) || tileMatchesAvailable self.

Definition move (direction : Direction) (rnd : Random) (self : t) : t :=
  if isGameTerminated self then self
  else
    let '(self1, moved) := resolve direction self in
    if moved then
      let self2 := addRandomTile rnd self1 in
      let self3 := if negb (movesAvailable self2) then set_over self2 true else self2 in
      actuate self3
    else self1.

(** The body of the inner callback of [tryMove]. The tiles are read from
    the [grid] argument, the walk of [findFarthestPosition] is on
    [this.grid]: the third argument the call passes is dropped by the
    callee. [return true] leaves the callback only. *)
Definition tryMove_cell (self : t) (grid : Grid.t) (vector : Position)
  (moved : bool) (cell : Position) : bool :=
  match Grid.cellContent grid cell with
  | None => moved
  | Some tile =>
      let positions := findFarthestPosition self cell vector in
      match Grid.cellContent grid (next positions) with
      | Some nxt =>
          if (value nxt =? value tile) && TileOps.unmerged nxt then true
          else if negb (pos_x (farthest positions) =? pos_x cell)
                  || negb (pos_y (farthest positions) =? pos_y cell)
          then true else moved
      | None =>
          if negb (pos_x (farthest positions) =? pos_x cell)
             || negb (pos_y (farthest positions) =? pos_y cell)
          then true else moved
      end
  end.

(** [tryMove(direction, grid)]: the result and the game manager after
    the call. [this.prepareTiles(grid)] is [prepareTiles] on [this],
    whatever is passed. *)
Definition tryMove (direction : Direction) (grid : Grid.t) : State t bool :=
  fun self =>
    let vector := getVector direction in
    let traversals := buildTraversals self vector in
    let self' := prepareTiles self in
    (traverse (tryMove_cell self' grid vector) traversals false, self').

End GameManager.


(** ** The strategies *)

(** [new Grid(size)] whose cells are then replaced by the snapshot
    [grid.serialize().cells], every stored cell read back as a fresh
    tile. [NaiveStrategy] assigns the serialized cells as they are; only
    their [value] is read afterwards, which is the same. *)
Definition copyGrid (size : Z) (grid : Grid.t) : Grid.t :=
  Grid.mk size (map (map (option_map TileOps.of_serialized)) (Grid.serialize_cells grid)).

(** The empty cells collected with [eachCell]. *)
Definition emptyCellsOf (grid : Grid.t) : list Position :=
  omap (fun '(x, y, tile) =>
          match tile with None => Some (mkPos x y) | Some _ => None end)
       (Grid.eachCell grid).

(** [bestScore] and [bestMove] of the top-level loops. *)
Record Best := mkBest { bestScore : JSNum.t; bestMove : Direction }.

Definition better (score : JSNum.t) (direction : Direction) (b : Best) : Best :=
  if JSNum.gtb score (bestScore b) then mkBest score direction else b.

Module NaiveStrategy.

Definition evaluatePosition (grid : Grid.t) : JSNum.t :=
  JSNum.of_Z
    (foldl (fun score '(_, _, tile) =>
              match tile with Some tile => score + value tile | None => score end)
           0 (Grid.eachCell grid)).

Definition getNextMove : State GameManager.t Direction :=
  let* best :=
    foldM (fun best direction =>
             let* size := gets GameManager.size in
             let* live := gets GameManager.grid in
             let gridCopy := copyGrid size live in
             let* moved := GameManager.tryMove direction gridCopy in
             if (moved : bool) then ret (better (evaluatePosition gridCopy) direction best)
             else ret best)
          (mkBest (JSNum.of_Z (-1)) Up) directions in
  ret (bestMove best).

End NaiveStrategy.

Module AdvancedStrategy.

Record t := mk {
  SEARCH_DEPTH : nat;
  EMPTY_WEIGHT : Z;
  MONOTONICITY_WEIGHT : Z;
  SMOOTHNESS_WEIGHT : Z;
  CORNER_WEIGHT : Z;
  SNAKE_PATTERN_WEIGHT : Z
}.

(** The constructor's constants, for a given search depth. *)
Definition make (depth : nat) : t := mk depth 12000 80 60 25000 100.
Definition new : t := make 5.

Definition snakePattern : list (list Position) :=
  [ [mkPos 0 0; mkPos 1 0; mkPos 2 0; mkPos 3 0];
    [mkPos 3 1; mkPos 2 1; mkPos 1 1; mkPos 0 1];
    [mkPos 0 2; mkPos 1 2; mkPos 2 2; mkPos 3 2];
    [mkPos 3 3; mkPos 2 3; mkPos 1 3; mkPos 0 3] ].

Definition corners : list Position :=
  [mkPos 0 0; mkPos 0 3; mkPos 3 0; mkPos 3 3].

(** [maxTile] and [emptyCells] after the [eachCell] pass *)
Definition scan_cells (grid : Grid.t) : Z * Z :=
  foldl (fun '(maxTile, emptyCells) '(_, _, tile) =>
           match tile with
           | Some tile => (Z.max maxTile (value tile), emptyCells)
           | None => (maxTile, emptyCells + 1)
           end)
        (0, 0) (Grid.eachCell grid).

(** [snakePatternScore] and [lastValue] after the zig-zag pass *)
Definition scan_snake (grid : Grid.t) : JSNum.t * JSNum.t :=
  foldl (fun acc row =>
           foldl (fun '(snakePatternScore, lastValue) pos =>
                    match Grid.cellContent grid pos with
                    | Some tile =>
                        (if JSNum.leb (JSNum.of_Z (value tile)) lastValue
                         then JSNum.add snakePatternScore
                                (JSNum.mul (JSNum.log2 (value tile)) (JSNum.fin (3 # 2)))
                         else snakePatternScore,
                         JSNum.of_Z (value tile))
                    | None => (snakePatternScore, lastValue)
                    end)
                 acc row)
        (JSNum.of_Z 0, JSNum.PosInf) snakePattern.

(** [smoothness] and [monotonicity] after the pass over the right and
    bottom neighbours *)
Definition scan_neighbours (grid : Grid.t) : JSNum.t * JSNum.t :=
  foldl (fun acc x =>
    foldl (fun acc y =>
      match Grid.cellContent grid (mkPos x y) with
      | Some currentTile =>
          let currentValue := JSNum.log2 (value currentTile) in
          foldl (fun '(smoothness, monotonicity) '(dx, dy) =>
                   if (x + dx <? 4) && (y + dy <? 4) then
                     match Grid.cellContent grid (mkPos (x + dx) (y + dy)) with
                     | Some neighborTile =>
                         let neighborValue := JSNum.log2 (value neighborTile) in
                         (JSNum.sub smoothness
                            (JSNum.abs (JSNum.sub currentValue neighborValue)),
                          if JSNum.gtb currentValue neighborValue
                          then JSNum.add monotonicity (JSNum.sub currentValue neighborValue)
                          else monotonicity)
                     | None => (smoothness, monotonicity)
                     end
                   else (smoothness, monotonicity))
                acc [(1, 0); (0, 1)]
      | None => acc
      end) acc (seqZ 0 4)) (JSNum.of_Z 0, JSNum.of_Z 0) (seqZ 0 4).

Definition evaluatePosition (s : t) (grid : Grid.t) : JSNum.t :=
  let '(maxTile, emptyCells) := scan_cells grid in
  let '(snakePatternScore, _) := scan_snake grid in
  let '(smoothness, monotonicity) := scan_neighbours grid in
  let maxTileInCorner :=
    existsb (fun corner =>
               match Grid.cellContent grid corner with
               | Some tile => value tile =? maxTile
               | None => false
               end) corners in
  let score := JSNum.of_Z 0 in
  let score := JSNum.add score (JSNum.of_Z (emptyCells * EMPTY_WEIGHT s)) in
  let score := JSNum.add score (JSNum.mul smoothness (JSNum.of_Z (SMOOTHNESS_WEIGHT s))) in
  let score := JSNum.add score (JSNum.mul monotonicity (JSNum.of_Z (MONOTONICITY_WEIGHT s))) in
  let score := JSNum.add score (JSNum.of_Z (if maxTileInCorner then CORNER_WEIGHT s else 0)) in
  let score := JSNum.add score (JSNum.mul snakePatternScore (JSNum.of_Z (SNAKE_PATTERN_WEIGHT s))) in
  if negb maxTileInCorner
  then JSNum.sub score (JSNum.mul (JSNum.log2 maxTile) (JSNum.of_Z 1000))
  else score.

Fixpoint expectimax (s : t) (grid : Grid.t) (depth : nat) (isMax : bool)
  : State GameManager.t JSNum.t :=
  match depth with
  | O => ret (evaluatePosition s grid)
  | S depth' =>
      if isMax then
        let* bestScore :=
          foldM (fun bestScore direction =>
                   let* size := gets GameManager.size in
                   let gridCopy := copyGrid size grid in
                   let* moved := GameManager.tryMove direction gridCopy in
                   if (moved : bool) then
                     let* v := expectimax s gridCopy depth' false in
                     ret (JSNum.max bestScore v)
                   else ret bestScore)
                JSNum.NegInf directions in
        ret (if JSNum.eqb bestScore JSNum.NegInf then evaluatePosition s grid
             else bestScore)
      else
        let emptyCells := emptyCellsOf grid in
        if (length emptyCells =? 0)%nat then ret (evaluatePosition s grid)
        else
          let* sc :=
            foldM (fun '(score, count) '(mkPos x y) =>
                     let* size := gets GameManager.size in
                     let gridWith2 :=
                       Grid.insertTile (copyGrid size grid) (TileOps.new (mkPos x y) 2) in
                     let* v2 := expectimax s gridWith2 depth' true in
                     let score := JSNum.add score (JSNum.mul (JSNum.fin (9 # 10)) v2) in
                     let* size := gets GameManager.size in
                     let gridWith4 :=
                       Grid.insertTile (copyGrid size grid) (TileOps.new (mkPos x y) 4) in
                     let* v4 := expectimax s gridWith4 depth' true in
                     let score := JSNum.add score (JSNum.mul (JSNum.fin (1 # 10)) v4) in
                     ret (score, count + 1))
                  (JSNum.of_Z 0, 0) emptyCells in
          ret (JSNum.div (fst sc) (JSNum.of_Z (snd sc)))
  end.

Definition getNextMove (s : t) : State GameManager.t Direction :=
  let* best :=
    foldM (fun best direction =>
             let* size := gets GameManager.size in
             let* live := gets GameManager.grid in
             let gridCopy := copyGrid size live in
             let* moved := GameManager.tryMove direction gridCopy in
             if (moved : bool) then
               let* score := expectimax s gridCopy (SEARCH_DEPTH s) false in
               ret (better score direction best)
             else ret best)
          (mkBest JSNum.NegInf Up) directions in
  ret (bestMove best).

End AdvancedStrategy.


(** *** Randomness of [sampleCells]

    [[...cells].sort(() => 0.5 - Math.random())] orders the cells by a
    comparator that answers at random: the outcome is a permutation of
    the cells fixed by the draws. The draws are a list of naturals, the
    [i]-th one choosing which of the remaining cells comes [i]-th;
    missing draws count as 0. *)

Fixpoint shuffle {A : Type} (fuel : nat) (draws : list nat) (l : list A) : list A :=
  match fuel with
  | O => []
  | S fuel' =>
      let i := (hd 0%nat draws mod length l)%nat in
      match l !! i with
      | Some a => a :: shuffle fuel' (tl draws) (delete i l)
      | None => []
      end
  end.

(** The game manager the strategy holds, and the random draws left. *)
Record World := mkWorld { manager : GameManager.t; draws : list nat }.

Definition liftGM {A : Type} (m : State GameManager.t A) : State World A :=
  fun w => let '(a, gm) := m (manager w) in (a, mkWorld gm (draws w)).

Module MasterStrategy.

Record t := mk {
  SEARCH_DEPTH : nat;
  CORNER_WEIGHT : Z;
  CHAIN_WEIGHT : Z;
  EMPTY_WEIGHT : Z;
  EDGE_WEIGHT : Z;
  GRADIENT_WEIGHT : Z;
  EARLY_GAME_WEIGHTS : list (list Z);
  LATE_GAME_WEIGHTS : list (list Z)
}.

(** The constructor's constants, for a given search depth. *)
Definition make (depth : nat) : t :=
  mk depth 30000 15000 10000 2000 5000
     [ [2048; 1024; 512; 256];
       [128; 256; 384; 512];
       [64; 128; 256; 384];
       [32; 64; 128; 256] ]
     [ [65536; 32768; 16384; 8192];
       [32768; 16384; 8192; 4096];
       [16384; 8192; 4096; 2048];
       [8192; 4096; 2048; 1024] ].
Definition new : t := make 4.

(** [weights[x][y]]; a missing entry is [undefined], which makes the
    product [NaN]. *)
Definition weight_at (weights : list (list Z)) (x y : Z) : JSNum.t :=
  match weights !! Z.to_nat x with
  | Some row =>
      match row !! Z.to_nat y with
      | Some w => JSNum.of_Z w
      | None => JSNum.NaN
      end
  | None => JSNum.NaN
  end.

Definition isValidChain (value1 value2 : Z) : bool :=
  (value1 =? value2 * 2) || (value2 =? value1 * 2).

Definition getMaxTile (grid : Grid.t) : Z :=
  foldl (fun max '(_, _, tile) =>
           match tile with
           | Some tile => if value tile >? max then value tile else max
           | None => max
           end)
        0 (Grid.eachCell grid).

(** [sampleCells(cells, count)], and the draws consumed *)
Definition sampleCells (cells : list Position) (count : nat) : State World (list Position) :=
  fun w =>
    (take count (shuffle (length cells) (draws w) cells),
     mkWorld (manager w) (drop (length cells) (draws w))).

(** The variables of the main loop of [evaluatePosition]. *)
Record Scan := mkScan {
  sc_score : JSNum.t;
  sc_emptyCells : Z;
  sc_chainScore : JSNum.t;
  sc_edgeScore : Z;
  sc_maxTile : Z;
  sc_maxTilePos : option Position
}.

Definition scan_cell (weights : list (list Z)) (grid : Grid.t) (x y : Z) (a : Scan) : Scan :=
  match Grid.cellContent grid (mkPos x y) with
  | None =>
      mkScan (sc_score a) (sc_emptyCells a + 1) (sc_chainScore a) (sc_edgeScore a)
             (sc_maxTile a) (sc_maxTilePos a)
  | Some tile =>
      let '(maxTile, maxTilePos) :=
        if value tile >? sc_maxTile a then (value tile, Some (mkPos x y))
        else (sc_maxTile a, sc_maxTilePos a) in
      let score :=
        JSNum.add (sc_score a) (JSNum.mul (JSNum.of_Z (value tile)) (weight_at weights x y)) in
      let chainScore := sc_chainScore a in
      let chainScore :=
        if x <? 3 then
          match Grid.cellContent grid (mkPos (x + 1) y) with
          | Some rightTile =>
              if isValidChain (value tile) (value rightTile)
              then JSNum.add chainScore (JSNum.log2 (value tile)) else chainScore
          | None => chainScore
          end
        else chainScore in
      let chainScore :=
        if y <? 3 then
          match Grid.cellContent grid (mkPos x (y + 1)) with
          | Some bottomTile =>
              if isValidChain (value tile) (value bottomTile)
              then JSNum.add chainScore (JSNum.log2 (value tile)) else chainScore
          | None => chainScore
          end
        else chainScore in
      let edgeScore :=
        if (x =? 0) || (x =? 3) || (y =? 0) || (y =? 3)
        then sc_edgeScore a + value tile else sc_edgeScore a in
      mkScan score (sc_emptyCells a) chainScore edgeScore maxTile maxTilePos
  end.

Definition evaluatePosition (s : t) (grid : Grid.t) (isLateGame : bool) : JSNum.t :=
  let weights := if isLateGame then LATE_GAME_WEIGHTS s else EARLY_GAME_WEIGHTS s in
  let gradientScore := 0 in
  let a :=
    foldl (fun a x => foldl (fun a y => scan_cell weights grid x y a) a (seqZ 0 4))
          (mkScan (JSNum.of_Z 0) 0 (JSNum.of_Z 0) 0 0 None) (seqZ 0 4) in
  let cornerScore :=
    match sc_maxTilePos a with
    | Some p =>
        if ((pos_x p =? 0) && (pos_y p =? 0)) || ((pos_x p =? 0) && (pos_y p =? 3))
           || ((pos_x p =? 3) && (pos_y p =? 0)) || ((pos_x p =? 3) && (pos_y p =? 3))
        then sc_maxTile a * 2 else 0
    | None => 0
    end in
  let score :=
    JSNum.add (sc_score a)
      (JSNum.add
         (JSNum.add
            (JSNum.add
               (JSNum.add (JSNum.of_Z (sc_emptyCells a * EMPTY_WEIGHT s))
                          (JSNum.mul (sc_chainScore a) (JSNum.of_Z (CHAIN_WEIGHT s))))
               (JSNum.of_Z (cornerScore * CORNER_WEIGHT s)))
            (JSNum.of_Z (sc_edgeScore a * EDGE_WEIGHT s)))
         (JSNum.of_Z (gradientScore * GRADIENT_WEIGHT s))) in
  if isLateGame && (cornerScore =? 0)
  then JSNum.sub score (JSNum.of_Z (sc_maxTile a * CORNER_WEIGHT s))
  else score.

(** The variables of a pruning loop: the running [value], the bound the
    loop updates ([alpha] in the move layer, [beta] in the chance
    layer), and whether [break] was taken. *)
Record Loop := mkLoop { lp_value : JSNum.t; lp_bound : JSNum.t; lp_broken : bool }.

Fixpoint alphaBeta (s : t) (grid : Grid.t) (depth : nat) (alpha beta : JSNum.t)
  (isMax isLateGame : bool) : State World JSNum.t :=
  match depth with
  | O => ret (evaluatePosition s grid isLateGame)
  | S depth' =>
      if isMax then
        let* l :=
          foldM (fun l direction =>
                   if lp_broken l then ret l
                   else
                     let* size := gets (fun w => GameManager.size (manager w)) in
                     let gridCopy := copyGrid size grid in
                     let* moved := liftGM (GameManager.tryMove direction gridCopy) in
                     if (moved : bool) then
                       let* v := alphaBeta s gridCopy depth' (lp_bound l) beta false isLateGame in
                       let value := JSNum.max (lp_value l) v in
                       let alpha := JSNum.max (lp_bound l) value in
                       ret (mkLoop value alpha (JSNum.leb beta alpha))
                     else ret l)
                (mkLoop JSNum.NegInf alpha false) directions in
        ret (if JSNum.eqb (lp_value l) JSNum.NegInf
             then evaluatePosition s grid isLateGame
             else lp_value l)
      else
        let emptyCells := emptyCellsOf grid in
        if (length emptyCells =? 0)%nat then ret (evaluatePosition s grid isLateGame)
        else
          let sampleSize := Nat.min 3 (length emptyCells) in
          let* sampledCells := sampleCells emptyCells sampleSize in
          let* l :=
            foldM (fun l '(mkPos x y) =>
                     if lp_broken l then ret l
                     else
                       let* size := gets (fun w => GameManager.size (manager w)) in
                       let gridWith2 :=
                         Grid.insertTile (copyGrid size grid) (TileOps.new (mkPos x y) 2) in
                       let* v2 := alphaBeta s gridWith2 depth' alpha (lp_bound l) true isLateGame in
                       let value := JSNum.min (lp_value l) (JSNum.mul (JSNum.fin (9 # 10)) v2) in
                       let* size := gets (fun w => GameManager.size (manager w)) in
                       let gridWith4 :=
                         Grid.insertTile (copyGrid size grid) (TileOps.new (mkPos x y) 4) in
                       let* v4 := alphaBeta s gridWith4 depth' alpha (lp_bound l) true isLateGame in
                       let value := JSNum.min value (JSNum.mul (JSNum.fin (1 # 10)) v4) in
                       let beta := JSNum.min (lp_bound l) value in
                       ret (mkLoop value beta (JSNum.leb beta alpha)))
                  (mkLoop JSNum.PosInf beta false) sampledCells in
          ret (lp_value l)
  end.

Definition getNextMove (s : t) : State World Direction :=
  let* live := gets (fun w => GameManager.grid (manager w)) in
  let maxTile := getMaxTile live in
  let isLateGame := maxTile >=? 1024 in
  let alpha := JSNum.NegInf in
  let beta := JSNum.PosInf in
  let* best :=
    foldM (fun best direction =>
             let* size := gets (fun w => GameManager.size (manager w)) in
             let* live := gets (fun w => GameManager.grid (manager w)) in
             let gridCopy := copyGrid size live in
             let* moved := liftGM (GameManager.tryMove direction gridCopy) in
             if (moved : bool) then
               let* score := alphaBeta s gridCopy (SEARCH_DEPTH s) alpha beta false isLateGame in
               ret (better score direction best)
             else ret best)
          (mkBest JSNum.NegInf Up) directions in
  ret (bestMove best).

End MasterStrategy.


(** ** The rest of the game manager *)

(** [GameManager.prototype.getNextMove] and
    [GameManager.prototype.evaluatePosition]: the search the manager
    carries itself, the same as the naive strategy's. *)
Module ManagerSearch.

Definition evaluatePosition (grid : Grid.t) : JSNum.t :=
  JSNum.of_Z
    (foldl (fun score '(_, _, tile) =>
              match tile with Some tile => score + value tile | None => score end)
           0 (Grid.eachCell grid)).

Definition getNextMove : State GameManager.t Direction :=
  let* best :=
    foldM (fun best direction =>
             let* size := gets GameManager.size in
             let* live := gets GameManager.grid in
             let gridCopy := copyGrid size live in
             let* moved := GameManager.tryMove direction gridCopy in
             if (moved : bool) then ret (better (evaluatePosition gridCopy) direction best)
             else ret best)
          (mkBest (JSNum.of_Z (-1)) Up) directions in
  ret (bestMove best).

End ManagerSearch.

(** [setup], [addStartTiles], [restart] and [keepPlaying] of the game
    manager. *)
Module Lifecycle.

Import GameManager.

(** [this.startTiles = 2] *)
Definition startTiles : nat := 2.

(** Modelled from the spec: [new Grid(size, previousState)] is not among
    the sources; the grid is rebuilt from the snapshot, a fresh tile for
    every stored value ([fromSerialized]). *)
Definition fromState (n : Z) (cells : list (list (option SerializedTile))) : Grid.t :=
  Grid.mk n (map (map (option_map TileOps.of_serialized)) cells).

(** [rnds i] holds the draws of the [i]-th call of [addRandomTile]. *)
Definition addStartTiles (rnds : nat -> Random) (self : t) : t :=
  foldl (fun s i => addRandomTile (rnds i) s) self (seq 0 startTiles).

Definition setup (rnds : nat -> Random) (self : t) : t :=
  match gameState (storageManager self) with
  | Some previousState =>
      actuate
        (mk (size self)
            (fromState (ser_grid_size previousState) (ser_grid_cells previousState))
            (ser_score previousState) (ser_over previousState)
            (ser_won previousState) (ser_keepPlaying previousState)
            (storageManager self) (actuator self))
  | None =>
      actuate
        (addStartTiles rnds
           (mk (size self) (Grid.new (size self)) 0 false false false
               (storageManager self) (actuator self)))
  end.

(** [storageManager.clearGameState()] (modelled from the spec: the saved
    game is dropped, the best score stays). *)
Definition clearGameState (self : t) : t :=
  mk (size self) (grid self) (score self) (over self) (won self) (keepPlaying self)
     (mkStorage (bestScore (storageManager self)) None) (actuator self).

(** The game manager with the number of calls made to
    [actuator.continueGame], which clears the message on the screen and
    is not a call of [actuate]. *)
Record Session := mkSession { game : t; continueGame_calls : nat }.

Definition restart (rnds : nat -> Random) (ss : Session) : Session :=
  mkSession (setup rnds (clearGameState (game ss))) (S (continueGame_calls ss)).

(** [keepPlaying]: [this.keepPlaying = true]. *)
Definition keepPlaying_ (ss : Session) : Session :=
  mkSession
    (mk (size (game ss)) (grid (game ss)) (score (game ss)) (over (game ss))
        (won (game ss)) true (storageManager (game ss)) (actuator (game ss)))
    (S (continueGame_calls ss)).

End Lifecycle.

(** ** The other strategies *)

Module SmartStrategy.

Definition corners : list Position :=
  [mkPos 0 0; mkPos 0 3; mkPos 3 0; mkPos 3 3].

(** [tileSum] and [emptyCells] after the first [eachCell] pass *)
Definition scan_cells (grid : Grid.t) : Z * Z :=
  foldl (fun '(tileSum, emptyCells) '(_, _, tile) =>
           match tile with
           | Some tile => (tileSum + value tile, emptyCells)
           | None => (tileSum, emptyCells + 1)
           end)
        (0, 0) (Grid.eachCell grid).

(** One neighbour of the pass over the right and bottom neighbours:
    [smoothness -= Math.abs(...)] and [monotonicity++]. *)
Definition neighbour_step (grid : Grid.t) (currentValue : JSNum.t)
  (acc : JSNum.t * Z) (inside : bool) (cell : Position) : JSNum.t * Z :=
  let '(smoothness, monotonicity) := acc in
  if inside then
    match Grid.cellContent grid cell with
    | Some neighbour =>
        let neighbourValue := JSNum.log2 (value neighbour) in
        (JSNum.sub smoothness (JSNum.abs (JSNum.sub currentValue neighbourValue)),
         if JSNum.gtb currentValue neighbourValue then monotonicity + 1 else monotonicity)
    | None => acc
    end
  else acc.

(** [smoothness] and [monotonicity] after the two nested loops *)
Definition scan_neighbours (grid : Grid.t) : JSNum.t * Z :=
  foldl (fun acc x =>
    foldl (fun acc y =>
      match Grid.cellContent grid (mkPos x y) with
      | Some currentTile =>
          let currentValue := JSNum.log2 (value currentTile) in
          let acc := neighbour_step grid currentValue acc (x <? 3) (mkPos (x + 1) y) in
          neighbour_step grid currentValue acc (y <? 3) (mkPos x (y + 1))
      | None => acc
      end) acc (seqZ 0 4)) (JSNum.of_Z 0, 0) (seqZ 0 4).

(** [maxTile] and [maxTileInCorner] after the last [eachCell] pass *)
Definition scan_max (grid : Grid.t) : Z * bool :=
  foldl (fun '(maxTile, maxTileInCorner) '(x, y, tile) =>
           match tile with
           | Some tile =>
               if value tile >? maxTile
               then (value tile,
                     existsb (fun corner => (pos_x corner =? x) && (pos_y corner =? y))
                             corners)
               else (maxTile, maxTileInCorner)
           | None => (maxTile, maxTileInCorner)
           end)
        (0, false) (Grid.eachCell grid).

Definition evaluatePosition (grid : Grid.t) : JSNum.t :=
  let '(tileSum, emptyCells) := scan_cells grid in
  let '(smoothness, monotonicity) := scan_neighbours grid in
  let '(_, maxTileInCorner) := scan_max grid in
  let score := JSNum.of_Z 0 in
  let score := JSNum.add score (JSNum.of_Z (tileSum * 1)) in
  let score := JSNum.add score (JSNum.of_Z (emptyCells * 10000)) in
  let score := JSNum.add score (JSNum.mul smoothness (JSNum.of_Z 40)) in
  let score := JSNum.add score (JSNum.of_Z (monotonicity * 50)) in
  JSNum.add score (JSNum.of_Z (if maxTileInCorner then 20000 else 0)).

Definition getNextMove : State GameManager.t Direction :=
  let* best :=
    foldM (fun best direction =>
             let* size := gets GameManager.size in
             let* live := gets GameManager.grid in
             let gridCopy := copyGrid size live in
             let* moved := GameManager.tryMove direction gridCopy in
             if (moved : bool) then ret (better (evaluatePosition gridCopy) direction best)
             else ret best)
          (mkBest JSNum.NegInf Up) directions in
  ret (bestMove best).

End SmartStrategy.

Module Custom_1.

Definition DOWN_PENALTY : Z := 10000.
Definition TOP_MERGE_BONUS : Z := 5000.

(** What [checkTopRowMerge] returns; [lowest] is [None] for
    [Infinity], the value when the top row holds no tile. *)
Record TopRowMerge := mkTopRowMerge { possible : bool; lowest : option Z }.

Definition checkTopRowMerge (grid : Grid.t) : TopRowMerge :=
  let '(lowestValue, lowestValueCount) :=
    foldl (fun '(lowestValue, lowestValueCount) x =>
             match Grid.cellContent grid (mkPos x 0) with
             | Some tile =>
                 match lowestValue with
                 | None => (Some (value tile), 1)
                 | Some lowest =>
                     if value tile <? lowest then (Some (value tile), 1)
                     else if value tile =? lowest then (lowestValue, lowestValueCount + 1)
                     else (lowestValue, lowestValueCount)
                 end
             | None => (lowestValue, lowestValueCount)
             end)
          (None, 0) (seqZ 0 4) in
  let hasMatchInSecondRow :=
    existsb (fun x =>
               match Grid.cellContent grid (mkPos x 1), lowestValue with
               | Some tile, Some lowest => value tile =? lowest
               | _, _ => false
               end) (seqZ 0 4) in
  mkTopRowMerge ((lowestValueCount >? 1) || hasMatchInSecondRow) lowestValue.

Definition isHorizontalMovePossible (grid : Grid.t) : bool :=
  existsb (fun y =>
    existsb (fun x =>
      match Grid.cellContent grid (mkPos x y), Grid.cellContent grid (mkPos (x + 1) y) with
      | None, Some _ => true
      | Some current, Some next => value current =? value next
      | Some _, None => true
      | None, None => false
      end) (seqZ 0 3)) (seqZ 0 4).

(** [direction] is not read. *)
Definition evaluatePosition (grid : Grid.t) (direction : Direction) : Z :=
  let emptyCells :=
    foldl (fun emptyCells '(_, _, tile) =>
             match tile with None => emptyCells + 1 | Some _ => emptyCells end)
          0 (Grid.eachCell grid) in
  let score := 0 + emptyCells * 100 in
  let topRowValue :=
    foldl (fun topRowValue x =>
             match Grid.cellContent grid (mkPos x 0) with
             | Some tile => topRowValue + value tile
             | None => topRowValue
             end) 0 (seqZ 0 4) in
  let score := score + topRowValue * 2 in
  let bottomRowCount :=
    foldl (fun bottomRowCount x =>
             match Grid.cellContent grid (mkPos x 3) with
             | Some _ => bottomRowCount + 1
             | None => bottomRowCount
             end) 0 (seqZ 0 4) in
  score - bottomRowCount * 500.

(** One round of the loop over the directions. *)
Definition score_direction (gridCopy : Grid.t) (direction : Direction) : Z :=
  let score := evaluatePosition gridCopy direction in
  let score := if bool_decide (direction = Down) then score - DOWN_PENALTY else score in
  if bool_decide (direction = Up) && negb (isHorizontalMovePossible gridCopy)
  then score - DOWN_PENALTY else score.

Definition getNextMove : State GameManager.t Direction :=
  let* live := gets GameManager.grid in
  let topRowMerge := checkTopRowMerge live in
  let* up :=
    if possible topRowMerge then
      let* size := gets GameManager.size in
      let* live := gets GameManager.grid in
      let gridCopy := copyGrid size live in
      let* moved := GameManager.tryMove Up gridCopy in
      ret ((moved : bool) && isHorizontalMovePossible gridCopy)
    else ret false in
  if (up : bool) then ret Up
  else
    let* best :=
      foldM (fun best direction =>
               let* size := gets GameManager.size in
               let* live := gets GameManager.grid in
               let gridCopy := copyGrid size live in
               let* moved := GameManager.tryMove direction gridCopy in
               if (moved : bool)
               then ret (better (JSNum.of_Z (score_direction gridCopy direction))
                                direction best)
               else ret best)
            (mkBest JSNum.NegInf Up) directions in
    ret (bestMove best).

End Custom_1.

(** ** The controls: [toggleStrategy] and [autoSolve] *)

Module Controls.

Import Stdlib.Strings.String.
Local Open Scope string_scope.

(** The class of the strategy object held in [this.strategy]. *)
Inductive Strategy :=
  Master | Naive | Smart | Advanced | Custom1 | Custom2 | Custom3 | Custom4.

#[global] Instance Strategy_eq_dec : EqDecision Strategy.
Proof. solve_decision. Defined.

(** [class C extends D]: the parent class, the root [GameStrategy]
    left out. *)
Definition parent (c : Strategy) : option Strategy :=
  match c with
  | Custom2 | Custom3 | Custom4 => Some Custom1
  | _ => None
  end.

(** [s instanceof c] *)
Definition instanceof (s c : Strategy) : bool :=
  bool_decide (s = c) || bool_decide (parent s = Some c).

(** What [toggleStrategy] does: the strategy it installs, the text it
    writes on the strategy button, and the line it logs, if any. *)
Record Toggled := mkToggled {
  strategy : Strategy;
  textContent : string;
  logged : option string
}.

Definition toggleStrategy (current : Strategy) : Toggled :=
  if instanceof current Master then mkToggled Naive ": Naive" None
  else if instanceof current Naive then
    mkToggled Smart ": Smart" (Some "Naive -> Smart")
  else if instanceof current Smart then
    mkToggled Advanced ": Advanced" (Some "Smart -> Advanced")
  else if instanceof current Advanced then
    mkToggled Custom1 ": Custom_1" (Some "Advanced -> Custom_1")
  else if instanceof current Custom1
          && negb (instanceof current Custom2)
          && negb (instanceof current Custom3)
          && negb (instanceof current Custom4) then
    mkToggled Custom2 ": Custom_2" (Some "Custom_1 -> Custom_2")
  else if instanceof current Custom2 then
    mkToggled Custom3 ": Custom_3" (Some "Custom_2 -> Custom_3")
  else if instanceof current Custom3 then
    mkToggled Master ": Custom_4" (Some "Custom_3 -> Custom_4")
  else if instanceof current Custom4 then
    mkToggled Master ": Master" (Some "Custom_4 -> Master")
  else mkToggled Master ": Master" (Some "Default -> Master").

(** The game, the random draws left for the search, whether
    [autoSolveInterval] holds a timer, and the text of the auto-solve
    button. *)
Record t := mk {
  world : World;
  autoSolveInterval : bool;
  buttonText : string
}.

(** [autoSolve]: stops the timer when there is one, starts it
    otherwise. *)
Definition autoSolve (c : t) : t :=
  if autoSolveInterval c then mk (world c) false "Solve"
  else mk (world c) true "Stop".

(** The callback of the timer, for the [getNextMove] of the strategy
    installed and the draws of the spawn. [this.grid] is an object, so
    the test is on [over]. *)
Definition tick (getNextMove : State World Direction) (rnd : GameManager.Random) (c : t)
  : t :=
  if negb (GameManager.over (manager (world c))) then
    let '(nextMove, w) := getNextMove (world c) in
    mk (mkWorld (GameManager.move nextMove rnd (manager w)) (draws w))
       (autoSolveInterval c) (buttonText c)
  else mk (world c) false "Solve".

End Controls.

(** * Predicates and example boards *)

(** ** Boards used in the examples *)

Module Boards.

Definition tile (x y v : Z) : Tile := TileOps.new (mkPos x y) v.

Definition board (size : Z) (tiles : list Tile) : Grid.t :=
  foldl Grid.insertTile (Grid.new size) tiles.

Definition game (g : Grid.t) : GameManager.t :=
  GameManager.mk (Grid.size g) g 0 false false false (GameManager.mkStorage 0 None) [].

(** The values on the board, column by column ([cells[x][y]]). *)
Definition values (g : Grid.t) : list (list (option Z)) :=
  map (map (option_map value)) (Grid.cells g).

(** [{(0,0):2, (1,0):2, (2,0):2}] *)
Definition three_twos : Grid.t := board 4 [tile 0 0 2; tile 1 0 2; tile 2 0 2].

(** [{(0,0):2, (1,0):2, (2,0):4}]: moved left, the merge of the two
    2s leaves a 4 beside the 4. *)
Definition two_two_four : Grid.t := board 4 [tile 0 0 2; tile 1 0 2; tile 2 0 4].

(** [{(1,0):4}] and the same board with a 2 spawned at [(0,0)] *)
Definition lone_four : Grid.t := board 4 [tile 1 0 4].
Definition two_four : Grid.t := board 4 [tile 0 0 2; tile 1 0 4].

(** [{(0,0):2}] *)
Definition lone_two : Grid.t := board 4 [tile 0 0 2].

(** A board with two empty cells, [(3,2)] and [(3,3)], on which up is
    not a legal direction and right is. *)
Definition crowded : Grid.t :=
  board 4 [tile 0 0 2; tile 0 1 4; tile 0 2 8; tile 0 3 16;
           tile 1 0 32; tile 1 1 64; tile 1 2 128; tile 1 3 256;
           tile 2 0 2; tile 2 1 4; tile 2 2 8; tile 2 3 16;
           tile 3 0 4; tile 3 1 2].

End Boards.

(** ** Well-formed states

    The data model of the specification: the board is [size] by [size],
    every tile lies at the cell that holds it, and tile values are
    powers of two. All three are checked by computation. *)

Definition is_pow2 (v : Z) : bool := (0 <? v) && (2 ^ Z.log2 v =? v).

Definition tile_okb (x y : Z) (t : Tile) : bool :=
  (tile_x t =? x) && (tile_y t =? y) && is_pow2 (value t).

Definition grid_wfb (g : Grid.t) : bool :=
  (0 <=? Grid.size g)
  && (length (Grid.cells g) =? Z.to_nat (Grid.size g))%nat
  && forallb (fun row => (length row =? Z.to_nat (Grid.size g))%nat) (Grid.cells g)
  && forallb (fun p =>
                match Grid.cellContent g p with
                | Some t => tile_okb (pos_x p) (pos_y p) t
                | None => true
                end) (Grid.positions (Grid.size g)).

Definition grid_wf (g : Grid.t) : Prop := grid_wfb g = true.

Definition game_wfb (self : GameManager.t) : bool :=
  (GameManager.size self =? Grid.size (GameManager.grid self))
  && grid_wfb (GameManager.grid self).

Definition game_wf (self : GameManager.t) : Prop := game_wfb self = true.

(** [g] with the cell at [p] set to [v]: what [insertTile],
    [removeTile] and [moveTile] do to the board. *)
Definition put (g : Grid.t) (p : Position) (v : option Tile) : Grid.t :=
  Grid.mk (Grid.size g) (Grid.set_cell (Grid.cells g) (pos_x p) (pos_y p) v).

(** The cell [k] steps from [p] along [vector]. *)
Definition ahead (p vector : Position) (k : Z) : Position :=
  mkPos (pos_x p + k * pos_x vector) (pos_y p + k * pos_y vector).

(** ** Notions used in the statements and proofs *)

(** The board is square: [size] columns of [size] cells. *)
Definition shaped (g : Grid.t) : Prop :=
  0 <= Grid.size g
  /\ length (Grid.cells g) = Z.to_nat (Grid.size g)
  /\ Forall (fun row => length row = Z.to_nat (Grid.size g)) (Grid.cells g).

(** [cs[x][y]] for cells of any content. *)
Definition lookup2 {A : Type} (cs : list (list (option A))) (x y : Z) : option A :=
  if (0 <=? x) && (0 <=? y) then
    match cs !! Z.to_nat x with
    | Some row => match row !! Z.to_nat y with Some c => c | None => None end
    | None => None
    end
  else None.

(** One callback of [prepareTiles]. *)
Definition prepare_step (cs : list (list (option Tile))) (c : Z * Z * option Tile)
  : list (list (option Tile)) :=
  let '(x, y, tile) := c in
  match tile with
  | Some tile => Grid.set_cell cs x y (Some (GameManager.prepareTile tile))
  | None => cs
  end.

(** The cells of a traversal in the order the nested loops visit them. *)
Definition traversalCells (t : GameManager.Traversals) : list Position :=
  x ← GameManager.trav_x t; y ← GameManager.trav_y t; [mkPos x y].

(** The index of a coordinate along an axis that is walked backwards
    when the vector component is 1. *)
Definition axis_index (n v x : Z) : Z := if v =? 1 then n - 1 - x else x.

(** The place of a cell in the traversal for [vector] on a board of
    size [n]. *)
Definition rank (n : Z) (vector p : Position) : Z :=
  axis_index n (pos_x vector) (pos_x p) * n + axis_index n (pos_y vector) (pos_y p).

(** The steps left before the walk from [p] leaves the board. *)
Definition room (g : Grid.t) (d : Direction) (p : Position) : Z :=
  match d with
  | Up => pos_y p
  | Right => Grid.size g - 1 - pos_x p
  | Down => Grid.size g - 1 - pos_y p
  | Left => pos_x p
  end.

Definition sumZ (l : list Z) : Z := foldr Z.add 0 l.

(** The sum over the board of a quantity of each cell. *)
Definition total (F : Position -> option Tile -> Z) (g : Grid.t) : Z :=
  sumZ ((fun p => F p (Grid.cellContent g p)) <$> Grid.positions (Grid.size g)).

(** The value of a tile that was created by a merge, 0 for any other
    cell. *)
Definition merged_value (c : option Tile) : Z :=
  match c with
  | Some t => if TileOps.unmerged t then 0 else value t
  | None => 0
  end.

(** The sum of the values of the tiles created by a merge. *)
Definition merged_total (g : Grid.t) : Z := total (fun _ c => merged_value c) g.

(** How far a cell is from the edge the tiles slide to. *)
Definition slack (n : Z) (vector p : Position) : Z :=
  n - (pos_x p * pos_x vector + pos_y p * pos_y vector).

Definition occupied_slack (n : Z) (vector p : Position) (c : option Tile) : Z :=
  match c with Some _ => slack n vector p | None => 0 end.

(** The sum of [slack] over the occupied cells: it depends on which
    cells are occupied only, and every slide or merge lowers it. *)
Definition potential (vector : Position) (g : Grid.t) : Z :=
  total (occupied_slack (Grid.size g) vector) g.

(** The sources of a merged tile are two unmerged tiles of equal value,
    half its own. *)
Definition merge_once (c : option Tile) : Prop :=
  match c with
  | Some t =>
      match mergedFrom t with
      | Some (a, b) =>
          mergedFrom a = None /\ mergedFrom b = None
          /\ value a = value b /\ value t = value a * 2
      | None => True
      end
  | None => True
  end.

(** Every tile of the board is as [prepareTiles] leaves it. *)
Definition all_unmerged (g : Grid.t) : Prop :=
  forall p t, Grid.cellContent g p = Some t -> mergedFrom t = None.

(** The tile [move] creates when [tile] merges into [nxt] at [n]. *)
Definition merged_tile (tile nxt : Tile) (n : Position) : Tile :=
  TileOps.set_mergedFrom (TileOps.new n (value tile * 2))
    (Some (TileOps.updatePosition tile n, nxt)).

(** The state after [tile] at [c] merged into [nxt] at [n]. *)
Definition after_merge (s : GameManager.t) (c n : Position) (tile nxt : Tile)
  : GameManager.t :=
  let g := put (put (GameManager.grid s) n (Some (merged_tile tile nxt n))) c None in
  let s1 := GameManager.set_score (GameManager.set_grid s g)
              (GameManager.score s + value tile * 2) in
  if value tile * 2 =? 2048 then GameManager.set_won s1 true else s1.

(** The state after [tile] at [c] slid to [f]. *)
Definition after_slide (s : GameManager.t) (c f : Position) (tile : Tile)
  : GameManager.t :=
  GameManager.set_grid s
    (put (put (GameManager.grid s) c None) f (Some (TileOps.updatePosition tile f))).

(** [tile] cannot merge into what the cell holds. *)
Definition no_merge (tile : Tile) (c : option Tile) : Prop :=
  match c with
  | Some nxt => value nxt <> value tile \/ mergedFrom nxt <> None
  | None => True
  end.

(** What one callback of [move] does at an occupied cell [c]: the tile
    merges into the next tile along the vector, or slides to the
    farthest free cell ([k = 0]: it stays). *)
Inductive cell_outcome (d : Direction) (s : GameManager.t) (m : bool) (c : Position)
  (tile : Tile) (s' : GameManager.t) (m' : bool) : Prop :=
| outcome_merge (k : Z) (nxt : Tile) :
    0 <= k ->
    (forall j, 1 <= j <= k ->
       Grid.withinBounds (GameManager.grid s) (ahead c (GameManager.getVector d) j) = true
       /\ Grid.cellContent (GameManager.grid s) (ahead c (GameManager.getVector d) j) = None) ->
    Grid.cellContent (GameManager.grid s) (ahead c (GameManager.getVector d) (k + 1))
    = Some nxt ->
    value nxt = value tile ->
    mergedFrom nxt = None ->
    s' = after_merge s c (ahead c (GameManager.getVector d) (k + 1)) tile nxt ->
    m' = true ->
    cell_outcome d s m c tile s' m'
| outcome_slide (k : Z) :
    0 <= k ->
    (forall j, 1 <= j <= k ->
       Grid.withinBounds (GameManager.grid s) (ahead c (GameManager.getVector d) j) = true
       /\ Grid.cellContent (GameManager.grid s) (ahead c (GameManager.getVector d) j) = None) ->
    no_merge tile
      (Grid.cellContent (GameManager.grid s) (ahead c (GameManager.getVector d) (k + 1))) ->
    (Grid.withinBounds (GameManager.grid s) (ahead c (GameManager.getVector d) (k + 1)) = true ->
     Grid.cellContent (GameManager.grid s) (ahead c (GameManager.getVector d) (k + 1)) <> None) ->
    s' = after_slide s c (ahead c (GameManager.getVector d) k) tile ->
    m' = (if k =? 0 then m else true) ->
    cell_outcome d s m c tile s' m'.

(** What holds of the state [s] and the flag [m] of [move] once the
    cells [visited] have been handled, starting from [s0]. *)
Record step_inv (d : Direction) (s0 : GameManager.t) (visited : list Position)
  (s : GameManager.t) (m : bool) : Prop := mk_step_inv {
  inv_wf : grid_wf (GameManager.grid s);
  inv_size : GameManager.size s = GameManager.size s0;
  inv_gsize : Grid.size (GameManager.grid s) = Grid.size (GameManager.grid s0);
  inv_over : GameManager.over s = GameManager.over s0;
  inv_keep : GameManager.keepPlaying s = GameManager.keepPlaying s0;
  inv_store : GameManager.storageManager s = GameManager.storageManager s0;
  inv_act : GameManager.actuator s = GameManager.actuator s0;
  inv_untouched : forall p, p ∉ visited ->
    Grid.cellContent (GameManager.grid s) p = Grid.cellContent (GameManager.grid s0) p;
  inv_merge_once : forall p, merge_once (Grid.cellContent (GameManager.grid s) p);
  inv_score : GameManager.score s
              = GameManager.score s0 + merged_total (GameManager.grid s);
  inv_pot_le : potential (GameManager.getVector d) (GameManager.grid s)
               <= potential (GameManager.getVector d) (GameManager.grid s0);
  inv_pot_lt : m = true <->
               potential (GameManager.getVector d) (GameManager.grid s)
               < potential (GameManager.getVector d) (GameManager.grid s0);
  inv_room : m = true ->
             exists p, Grid.withinBounds (GameManager.grid s) p = true
                       /\ Grid.cellContent (GameManager.grid s) p = None;
  inv_still : m = false -> s = s0
}.

(** A game played from [self]: the moves asked for, each with the random
    draws of its spawn. *)
Definition play (moves : list (Direction * GameManager.Random)) (self : GameManager.t)
  : GameManager.t :=
  foldl (fun s '(d, rnd) => GameManager.move d rnd s) self moves.

(** ** The termination check, as the specification words it *)

(** Orthogonal neighbours. *)
Definition adjacent (p q : Position) : Prop :=
  Z.abs (pos_x p - pos_x q) + Z.abs (pos_y p - pos_y q) = 1.

(** The specification's [existsAdjacentEqualPair]: some occupied cell
    has, among its four neighbours along the direction vectors, a tile
    of equal value. *)
Definition existsAdjacentEqualPair (g : Grid.t) : bool :=
  existsb (fun p =>
    match Grid.cellContent g p with
    | Some tile =>
        existsb (fun d =>
          match Grid.cellContent g (ahead p (GameManager.getVector d) 1) with
          | Some other => value other =? value tile
          | None => false
          end) directions
    | None => false
    end) (Grid.positions (Grid.size g)).

(** The board has no empty cell. *)
Definition board_full (g : Grid.t) : Prop :=
  forall p, Grid.withinBounds g p = true -> Grid.cellContent g p <> None.

(** No two orthogonally adjacent tiles have the same value. *)
Definition no_equal_neighbours (g : Grid.t) : Prop :=
  forall p q t u,
    adjacent p q ->
    Grid.cellContent g p = Some t -> Grid.cellContent g q = Some u ->
    value t <> value u.

(** ** Notions for the strategies *)

(** Two game managers show the same board: the same sizes and the same
    snapshot of the cells. What [tryMove] does to the live tiles keeps a
    manager in this relation with itself. *)
Definition same_snapshot (a b : GameManager.t) : Prop :=
  shaped (GameManager.grid a) /\ shaped (GameManager.grid b)
  /\ GameManager.size a = GameManager.size b
  /\ Grid.size (GameManager.grid a) = Grid.size (GameManager.grid b)
  /\ Grid.serialize_cells (GameManager.grid a) = Grid.serialize_cells (GameManager.grid b).

(** A computation over the game manager whose result depends on the
    snapshot only, and which leaves the snapshot as it is. *)
Definition stable {A : Type} (m : State GameManager.t A) : Prop :=
  forall a b, same_snapshot a b ->
    fst (m a) = fst (m b) /\ same_snapshot (snd (m a)) a.

(** The same for a computation that also consumes random draws. *)
Definition stableW {A : Type} (m : State World A) : Prop :=
  forall w1 w2, same_snapshot (manager w1) (manager w2) -> draws w1 = draws w2 ->
    fst (m w1) = fst (m w2)
    /\ same_snapshot (manager (snd (m w1))) (manager w1)
    /\ draws (snd (m w1)) = draws (snd (m w2)).

(** What the legality probe answers for a direction on a copy of the
    live grid. *)
Definition legal (live : GameManager.t) (d : Direction) : bool :=
  fst (GameManager.tryMove d
         (copyGrid (GameManager.size live) (GameManager.grid live)) live).

(** The first legal direction in the order up, right, down, left; up
    when there is none. *)
Definition first_legal (live : GameManager.t) : Direction :=
  match List.find (legal live) directions with
  | Some d => d
  | None => Up
  end.

(** A tile as the constructor leaves it. *)
Definition fresh (t : Tile) : Prop :=
  previousPosition t = None /\ mergedFrom t = None.

(** Every stored tile has a positive value. *)
Definition cells_positive (cs : list (list (option Tile))) : Prop :=
  forall x y t, Grid.cell_at cs x y = Some t -> 0 < value t.

(** Every stored tile is fresh. *)
Definition cells_fresh (cs : list (list (option Tile))) : Prop :=
  forall x y t, Grid.cell_at cs x y = Some t -> fresh t.

(** One round of the chance layer of [alphaBeta] on the values [A c]
    and [B c] of a cell: the running minimum. *)
Definition min_step (A B : Position -> JSNum.t) (v : JSNum.t) (c : Position) : JSNum.t :=
  JSNum.min (JSNum.min v (A c)) (B c).

(** [v] is the least of the values [A c] and [B c] over the cells [l]. *)
Definition is_min_of (A B : Position -> JSNum.t) (l : list Position) (v : JSNum.t) : Prop :=
  JSNum.is_fin v
  /\ (forall c, c ∈ l -> JSNum.ltb (A c) v = false /\ JSNum.ltb (B c) v = false)
  /\ (exists c, c ∈ l /\ (v = A c \/ v = B c)).

(** The board the chance layers evaluate for a tile of value [v] spawned
    at [c]. *)
Definition spawn (size : Z) (g : Grid.t) (c : Position) (v : Z) : Grid.t :=
  Grid.insertTile (copyGrid size g) (TileOps.new c v).

(** The two values the chance layer of [alphaBeta] takes the minimum of
    at a cell, one level above the static evaluation. *)
Definition master_two (s : MasterStrategy.t) (size : Z) (g : Grid.t) (late : bool)
  (c : Position) : JSNum.t :=
  JSNum.mul (JSNum.fin (9 # 10)) (MasterStrategy.evaluatePosition s (spawn size g c 2) late).

Definition master_four (s : MasterStrategy.t) (size : Z) (g : Grid.t) (late : bool)
  (c : Position) : JSNum.t :=
  JSNum.mul (JSNum.fin (1 # 10)) (MasterStrategy.evaluatePosition s (spawn size g c 4) late).

(** The cells [sampleCells] hands to the chance layer for the draws
    [ds]. *)
Definition sampled (cells : list Position) (ds : list nat) : list Position :=
  take (Nat.min 3 (length cells)) (shuffle (length cells) ds cells).

(** The state the strategy runs in shows the live board [live], and has
    the draws [ds] left. *)
Definition world_at (live : GameManager.t) (ds : list nat) (w : World) : Prop :=
  same_snapshot (manager w) live /\ draws w = ds.

(** The variables of the chance loop of [alphaBeta] before a round, in a
    call with [alpha = -Infinity]: no [break] yet, the running value and
    [beta] finite or still [+Infinity]. *)
Definition chance_inv (l : MasterStrategy.Loop) : Prop :=
  MasterStrategy.lp_broken l = false
  /\ (MasterStrategy.lp_value l = JSNum.PosInf \/ JSNum.is_fin (MasterStrategy.lp_value l))
  /\ (MasterStrategy.lp_bound l = JSNum.PosInf \/ JSNum.is_fin (MasterStrategy.lp_bound l)).

(** The score the top-level loop of the alpha-beta strategy gives a
    direction of [live] when the search is at most two levels deep: the
    static evaluation of the copied board when the depth is 0 or no cell
    is empty, and otherwise the least of [0.9 * evaluation] with a 2 and
    [0.1 * evaluation] with a 4 over cells [l] that are the empty cells
    of the board. *)
Definition shallow_score (s : MasterStrategy.t) (live : GameManager.t) (late : bool)
  (v : JSNum.t) : Prop :=
  let G0 := copyGrid (GameManager.size live) (GameManager.grid live) in
  let E := Grid.availableCells (GameManager.grid live) in
  ((MasterStrategy.SEARCH_DEPTH s = 0%nat \/ E = [])
   /\ v = MasterStrategy.evaluatePosition s G0 late)
  \/ (MasterStrategy.SEARCH_DEPTH s <> 0%nat /\ E <> []
      /\ exists l, (forall c, c ∈ l <-> c ∈ E)
                   /\ is_min_of (master_two s (GameManager.size live) G0 late)
                                (master_four s (GameManager.size live) G0 late) l v).

(** ** Notions for the further properties of the engine *)

(** Some tile of the board has, one step along the direction, an empty
    cell of the board or a tile of its own value. *)
Definition can_move (g : Grid.t) (d : Direction) : Prop :=
  exists p t,
    Grid.cellContent g p = Some t
    /\ Grid.withinBounds g (ahead p (GameManager.getVector d) 1) = true
    /\ (Grid.cellContent g (ahead p (GameManager.getVector d) 1) = None
        \/ exists u, Grid.cellContent g (ahead p (GameManager.getVector d) 1) = Some u
                     /\ value u = value t).

(** The value of the tile of a cell, 0 for an empty cell, and the sum
    of the tile values of the board. *)
Definition tile_value (c : option Tile) : Z :=
  match c with Some t => value t | None => 0 end.

Definition value_sum (g : Grid.t) : Z := total (fun _ c => tile_value c) g.

(** The number of tiles of the board. *)
Definition occupied (c : option Tile) : Z :=
  match c with Some _ => 1 | None => 0 end.

Definition tile_count (g : Grid.t) : Z := total (fun _ c => occupied c) g.

(** The number of tiles of the board that were created by a merge. *)
Definition merged_one (c : option Tile) : Z :=
  match c with
  | Some t => if TileOps.unmerged t then 0 else 1
  | None => 0
  end.

Definition merged_count (g : Grid.t) : Z := total (fun _ c => merged_one c) g.

(** The number of tiles of value 2048 that were created by a merge. *)
Definition winning (c : option Tile) : Z :=
  match c with
  | Some t => if TileOps.unmerged t then 0 else if value t =? 2048 then 1 else 0
  | None => 0
  end.

Definition winning_count (g : Grid.t) : Z := total (fun _ c => winning c) g.

(** What the move counts besides the score, once the cells [visited]
    are handled: the sum of the values is kept, every merge takes one
    tile off the board, and [won] is raised by a merge into 2048. *)
Definition ledger (s0 s : GameManager.t) : Prop :=
  value_sum (GameManager.grid s) = value_sum (GameManager.grid s0)
  /\ tile_count (GameManager.grid s) + merged_count (GameManager.grid s)
     = tile_count (GameManager.grid s0)
  /\ 0 <= winning_count (GameManager.grid s)
  /\ GameManager.won s = GameManager.won s0 || (0 <? winning_count (GameManager.grid s)).

(** What a board holds after spawns on an empty board: tiles 2 or 4,
    as the constructor leaves them. *)
Definition spawned_only (g : Grid.t) : Prop :=
  forall p t, Grid.cellContent g p = Some t ->
    (value t = 2 \/ value t = 4) /\ previousPosition t = None /\ mergedFrom t = None.

(** The values of the tiles of the row [y], from the left, for the
    four columns the custom strategy looks at. *)
Definition row_values (g : Grid.t) (y : Z) : list Z :=
  omap (fun x => value <$> Grid.cellContent g (mkPos x y)) (seqZ 0 4).

(** One round of the first loop of [checkTopRowMerge], on the value of
    a tile. *)
Definition lowest_step (acc : option Z * Z) (v : Z) : option Z * Z :=
  match fst acc with
  | None => (Some v, 1)
  | Some lowest =>
      if v <? lowest then (Some v, 1)
      else if v =? lowest then (fst acc, snd acc + 1)
      else acc
  end.

(** ** Notions for the merges of a move *)

(** The points it takes to build the tile of a cell out of tiles of
    value 2, each merge paying the value it creates:
    [v * (log2 v - 1)], and 0 for an empty cell. It is read off the
    board alone. *)
Definition tile_points (c : option Tile) : Z :=
  match c with
  | Some t => value t * (Z.log2 (value t) - 1)
  | None => 0
  end.

Definition board_points (g : Grid.t) : Z := total (fun _ c => tile_points c) g.

(** Where the tiles of the board [g0] before a move are on the board
    [g] after its traversal: [dest p] is the cell that holds the tile
    of the cell [p].
    - every tile of [g] holds a tile of [g0];
    - a tile of [g0] went some steps along the vector of the move;
    - the tile it is in either holds it alone, has its value and is not
      marked as merged, or holds it and exactly one other tile of [g0],
      of the same value, has twice that value and is marked as merged.
    No tile of [g] holds three tiles of [g0] or more. *)
Record merges_once (d : Direction) (g0 g : Grid.t) (dest : Position -> Position)
  : Prop := mk_merges_once {
  mo_sources : forall q t, Grid.cellContent g q = Some t ->
    exists p t0, Grid.cellContent g0 p = Some t0 /\ dest p = q;
  mo_along : forall p t0, Grid.cellContent g0 p = Some t0 ->
    exists k, 0 <= k /\ dest p = ahead p (GameManager.getVector d) k;
  mo_dest : forall p t0, Grid.cellContent g0 p = Some t0 ->
    exists t, Grid.cellContent g (dest p) = Some t
      /\ ((value t = value t0 /\ mergedFrom t = None
           /\ forall p' t0', Grid.cellContent g0 p' = Some t0' ->
                dest p' = dest p -> p' = p)
          \/ (value t = value t0 * 2 /\ mergedFrom t <> None
              /\ exists p2 t2,
                   p2 <> p /\ Grid.cellContent g0 p2 = Some t2
                   /\ value t2 = value t0 /\ dest p2 = dest p
                   /\ forall p' t0', Grid.cellContent g0 p' = Some t0' ->
                        dest p' = dest p -> p' = p \/ p' = p2))
}.

(** * Lemmas and theorems *)

(** ** Cell arrays and grids *)

Section CellArrays.

Implicit Types (cs : list (list (option Tile))) (x y : Z) (v : option Tile).

Lemma cell_at_neg cs x y : x < 0 \/ y < 0 -> Grid.cell_at cs x y = None.
Proof.
  intros H. unfold Grid.cell_at.
  destruct (Z.leb_spec 0 x), (Z.leb_spec 0 y); simpl; auto; lia.
Qed.

Lemma cell_at_set_cell_ne cs x y x' y' v :
  (x, y) <> (x', y') ->
  Grid.cell_at (Grid.set_cell cs x y v) x' y' = Grid.cell_at cs x' y'.
Proof.
  intros Hne. unfold Grid.cell_at, Grid.set_cell.
  destruct (Z.leb_spec 0 x), (Z.leb_spec 0 y); simpl; auto.
  destruct (Z.leb_spec 0 x'), (Z.leb_spec 0 y'); simpl; auto.
  destruct (decide (Z.to_nat x = Z.to_nat x')) as [Hx|Hx].
  - assert (x = x') by lia. subst x'.
    assert (Z.to_nat y <> Z.to_nat y') by (intros E; apply Hne; f_equal; lia).
    rewrite list_lookup_alter_eq.
    destruct (cs !! Z.to_nat x) as [row|]; simpl; auto.
    now rewrite list_lookup_insert_ne.
  - now rewrite list_lookup_alter_ne.
Qed.

Lemma cell_at_set_cell_eq cs x y v row :
  0 <= x -> 0 <= y ->
  cs !! Z.to_nat x = Some row -> (Z.to_nat y < length row)%nat ->
  Grid.cell_at (Grid.set_cell cs x y v) x y = v.
Proof.
  intros Hx Hy Hrow Hlen. unfold Grid.cell_at, Grid.set_cell.
  destruct (Z.leb_spec 0 x), (Z.leb_spec 0 y); simpl; try lia.
  rewrite list_lookup_alter_eq, Hrow. simpl.
  rewrite list_lookup_insert_eq by done. now destruct v.
Qed.

Lemma cell_at_Some_row cs x y t :
  Grid.cell_at cs x y = Some t ->
  0 <= x /\ 0 <= y /\ exists row, cs !! Z.to_nat x = Some row /\ row !! Z.to_nat y = Some (Some t).
Proof.
  unfold Grid.cell_at.
  destruct (Z.leb_spec 0 x), (Z.leb_spec 0 y); simpl; try discriminate.
  destruct (cs !! Z.to_nat x) as [row|] eqn:E; try discriminate.
  destruct (row !! Z.to_nat y) as [c|] eqn:E'; try discriminate.
  intros ->. eauto.
Qed.

Lemma set_cell_length cs x y v : length (Grid.set_cell cs x y v) = length cs.
Proof.
  unfold Grid.set_cell. destruct (_ && _); auto. apply length_alter.
Qed.

Lemma set_cell_rows (n : nat) cs x y v :
  Forall (fun row => length row = n) cs ->
  Forall (fun row => length row = n) (Grid.set_cell cs x y v).
Proof.
  intros H. unfold Grid.set_cell. destruct (_ && _); auto.
  apply Forall_alter; auto.
  intros row Hr. rewrite length_insert; auto.
Qed.

(** Writing back what a cell holds changes nothing. *)
Lemma set_cell_id cs x y (t : Tile) :
  Grid.cell_at cs x y = Some t -> Grid.set_cell cs x y (Some t) = cs.
Proof.
  intros H. apply cell_at_Some_row in H as (Hx & Hy & row & Hr & Hc).
  unfold Grid.set_cell.
  destruct (Z.leb_spec 0 x), (Z.leb_spec 0 y); simpl; try lia.
  apply list_eq. intros i. rewrite list_lookup_alter.
  destruct (decide (Z.to_nat x = i)); subst; auto.
  rewrite Hr. simpl. f_equal. now apply list_insert_id.
Qed.

Lemma set_cell_set_cell cs x y v w :
  Grid.set_cell (Grid.set_cell cs x y v) x y w = Grid.set_cell cs x y w.
Proof.
  unfold Grid.set_cell. destruct (_ && _); auto.
  apply list_eq. intros i. rewrite !list_lookup_alter.
  destruct (decide (Z.to_nat x = i)); subst; auto.
  rewrite decide_True by done.
  destruct (cs !! Z.to_nat x); simpl; auto.
  now rewrite list_insert_insert_eq.
Qed.

End CellArrays.

Section Grids.

Implicit Types (g : Grid.t) (p q : Position) (v : option Tile).

Lemma elem_of_positions n p :
  p ∈ Grid.positions n <-> 0 <= pos_x p < n /\ 0 <= pos_y p < n.
Proof.
  unfold Grid.positions. rewrite list_elem_of_bind. split.
  - intros (x & Hp & Hx). apply list_elem_of_bind in Hp as (y & Hp & Hy).
    apply list_elem_of_singleton in Hp. subst p. simpl.
    apply elem_of_seqZ in Hx, Hy. lia.
  - intros [Hx Hy]. exists (pos_x p). split; [|apply elem_of_seqZ; lia].
    apply list_elem_of_bind. exists (pos_y p). split; [|apply elem_of_seqZ; lia].
    destruct p. simpl. apply list_elem_of_singleton. reflexivity.
Qed.

Lemma NoDup_positions n : NoDup (Grid.positions n).
Proof.
  unfold Grid.positions. apply NoDup_bind.
  - intros x1 x2 p _ _ H1 H2.
    apply list_elem_of_bind in H1 as (y1 & H1 & _), H2 as (y2 & H2 & _).
    apply list_elem_of_singleton in H1, H2. congruence.
  - intros x _. apply NoDup_bind.
    + intros y1 y2 p _ _ H1 H2.
      apply list_elem_of_singleton in H1, H2. congruence.
    + intros y _. apply NoDup_singleton.
    + apply NoDup_seqZ.
  - apply NoDup_seqZ.
Qed.

Lemma withinBounds_spec g p :
  Grid.withinBounds g p = true <->
  0 <= pos_x p < Grid.size g /\ 0 <= pos_y p < Grid.size g.
Proof. unfold Grid.withinBounds. rewrite !andb_true_iff. lia. Qed.

Lemma withinBounds_positions g p :
  Grid.withinBounds g p = true <-> p ∈ Grid.positions (Grid.size g).
Proof. now rewrite withinBounds_spec, elem_of_positions. Qed.

Lemma cellContent_Some_bounds g p t :
  Grid.cellContent g p = Some t -> Grid.withinBounds g p = true.
Proof. unfold Grid.cellContent. now destruct (Grid.withinBounds g p). Qed.

Lemma cellContent_in g p :
  Grid.withinBounds g p = true ->
  Grid.cellContent g p = Grid.cell_at (Grid.cells g) (pos_x p) (pos_y p).
Proof. unfold Grid.cellContent. now intros ->. Qed.

Lemma cellContent_out g p :
  Grid.withinBounds g p = false -> Grid.cellContent g p = None.
Proof. unfold Grid.cellContent. now intros ->. Qed.

Lemma cellAvailable_spec g p :
  Grid.cellAvailable g p = true <->
  Grid.withinBounds g p = true /\ Grid.cellContent g p = None.
Proof.
  unfold Grid.cellAvailable. rewrite andb_true_iff, negb_true_iff.
  rewrite bool_decide_eq_false. rewrite <- eq_None_not_Some. tauto.
Qed.



Lemma grid_wf_spec g :
  grid_wf g <->
  shaped g
  /\ forall p t, Grid.cellContent g p = Some t ->
       tile_x t = pos_x p /\ tile_y t = pos_y p /\ is_pow2 (value t) = true.
Proof.
  unfold grid_wf, grid_wfb, shaped. rewrite !andb_true_iff.
  rewrite Z.leb_le, Nat.eqb_eq, !forallb_forall.
  rewrite Forall_forall.
  split.
  - intros [[[H0 H1] H2] H3]. repeat split; auto.
    + intros row Hr. apply Nat.eqb_eq, H2. now apply list_elem_of_In.
    + pose proof (cellContent_Some_bounds _ _ _ H) as Hb.
      apply withinBounds_positions, list_elem_of_In in Hb.
      specialize (H3 _ Hb). rewrite H in H3. unfold tile_okb in H3.
      rewrite !andb_true_iff, !Z.eqb_eq in H3. tauto.
    + pose proof (cellContent_Some_bounds _ _ _ H) as Hb.
      apply withinBounds_positions, list_elem_of_In in Hb.
      specialize (H3 _ Hb). rewrite H in H3. unfold tile_okb in H3.
      rewrite !andb_true_iff, !Z.eqb_eq in H3. tauto.
    + pose proof (cellContent_Some_bounds _ _ _ H) as Hb.
      apply withinBounds_positions, list_elem_of_In in Hb.
      specialize (H3 _ Hb). rewrite H in H3. unfold tile_okb in H3.
      rewrite !andb_true_iff, !Z.eqb_eq in H3. tauto.
  - intros [(H0 & H1 & H2) H3]. repeat split; auto.
    + intros row Hr. apply Nat.eqb_eq, H2. now apply list_elem_of_In.
    + intros p _. destruct (Grid.cellContent g p) as [t|] eqn:E; auto.
      destruct (H3 _ _ E) as (? & ? & ?). unfold tile_okb.
      rewrite !andb_true_iff, !Z.eqb_eq. tauto.
Qed.

Lemma grid_wf_shaped g : grid_wf g -> shaped g.
Proof. intros H. now apply grid_wf_spec in H. Qed.

Lemma shaped_row g p :
  shaped g -> Grid.withinBounds g p = true ->
  exists row, Grid.cells g !! Z.to_nat (pos_x p) = Some row
              /\ (Z.to_nat (pos_y p) < length row)%nat.
Proof.
  intros (H0 & H1 & H2) Hb. apply withinBounds_spec in Hb.
  destruct (lookup_lt_is_Some_2 (Grid.cells g) (Z.to_nat (pos_x p))) as [row Hr];
    [lia|].
  exists row. split; auto.
  rewrite Forall_lookup in H2. rewrite (H2 _ _ Hr). lia.
Qed.

Lemma put_size g p v : Grid.size (put g p v) = Grid.size g.
Proof. reflexivity. Qed.

Lemma put_withinBounds g p v q :
  Grid.withinBounds (put g p v) q = Grid.withinBounds g q.
Proof. reflexivity. Qed.

Lemma put_shaped g p v : shaped g -> shaped (put g p v).
Proof.
  intros (H0 & H1 & H2). unfold shaped, put. simpl.
  rewrite set_cell_length. repeat split; auto. now apply set_cell_rows.
Qed.

Lemma cellContent_put_eq g p v :
  shaped g -> Grid.withinBounds g p = true ->
  Grid.cellContent (put g p v) p = v.
Proof.
  intros Hs Hb. rewrite cellContent_in by done. unfold put. simpl.
  destruct (shaped_row g p Hs Hb) as (row & Hr & Hl).
  apply withinBounds_spec in Hb.
  apply cell_at_set_cell_eq with row; auto; lia.
Qed.

Lemma cellContent_put_ne g p v q :
  p <> q -> Grid.cellContent (put g p v) q = Grid.cellContent g q.
Proof.
  intros Hne. unfold Grid.cellContent. rewrite put_withinBounds.
  destruct (Grid.withinBounds g q); auto. unfold put. simpl.
  apply cell_at_set_cell_ne. destruct p, q. simpl. congruence.
Qed.

Lemma cellContent_put g p v q :
  shaped g -> Grid.withinBounds g p = true ->
  Grid.cellContent (put g p v) q = if decide (p = q) then v else Grid.cellContent g q.
Proof.
  intros Hs Hb. destruct (decide (p = q)) as [<-|Hne].
  - now apply cellContent_put_eq.
  - now apply cellContent_put_ne.
Qed.

Lemma put_wf g p v :
  grid_wf g -> Grid.withinBounds g p = true ->
  (forall t, v = Some t ->
     tile_x t = pos_x p /\ tile_y t = pos_y p /\ is_pow2 (value t) = true) ->
  grid_wf (put g p v).
Proof.
  intros Hwf Hb Hv. apply grid_wf_spec in Hwf as [Hs Ht].
  apply grid_wf_spec. split; [now apply put_shaped|].
  intros q t. rewrite cellContent_put by done.
  destruct (decide (p = q)) as [<-|Hne]; auto.
Qed.

Lemma insertTile_put g t : Grid.insertTile g t = put g (TileOps.position t) (Some t).
Proof. reflexivity. Qed.

Lemma removeTile_put g t : Grid.removeTile g t = put g (TileOps.position t) None.
Proof. reflexivity. Qed.

(** Grids are equal when their sizes and cell arrays are. *)
Lemma put_id g p t :
  Grid.withinBounds g p = true ->
  Grid.cellContent g p = Some t -> put g p (Some t) = g.
Proof.
  intros Hb H. rewrite cellContent_in in H by done.
  unfold put. rewrite set_cell_id by done. now destruct g.
Qed.

Lemma put_put g p v w : put (put g p v) p w = put g p w.
Proof. unfold put. simpl. now rewrite set_cell_set_cell. Qed.

End Grids.

Section Prepare.

Import GameManager.

Implicit Types (cs : list (list (option Tile))) (g : Grid.t) (p q : Position).

(** Cell arrays of the same square shape are equal when they agree at
    every cell. *)
Lemma cells_ext (n : nat) cs cs' :
  length cs = n -> Forall (fun row => length row = n) cs ->
  length cs' = n -> Forall (fun row => length row = n) cs' ->
  (forall x y, 0 <= x < Z.of_nat n -> 0 <= y < Z.of_nat n ->
     Grid.cell_at cs x y = Grid.cell_at cs' x y) ->
  cs = cs'.
Proof.
  intros Hl Hr Hl' Hr' Hext. apply list_eq_same_length with n; auto.
  intros i row row' Hi Hrow Hrow'.
  rewrite Forall_lookup in Hr, Hr'.
  apply list_eq_same_length with n; eauto.
  intros j c c' Hj Hc Hc'.
  specialize (Hext (Z.of_nat i) (Z.of_nat j) ltac:(lia) ltac:(lia)).
  unfold Grid.cell_at in Hext.
  destruct (Z.leb_spec 0 (Z.of_nat i)), (Z.leb_spec 0 (Z.of_nat j)); try lia.
  simpl in Hext. rewrite !Nat2Z.id, Hrow, Hrow', Hc, Hc' in Hext. exact Hext.
Qed.


Lemma prepare_fold_length cs0 ps cs :
  length (foldl prepare_step cs
            ((fun p => (pos_x p, pos_y p, Grid.cell_at cs0 (pos_x p) (pos_y p))) <$> ps))
  = length cs.
Proof.
  revert cs. induction ps as [|p ps IH]; intros cs; simpl; auto.
  rewrite IH. destruct (Grid.cell_at cs0 _ _); auto. apply set_cell_length.
Qed.

Lemma prepare_fold_rows (n : nat) cs0 ps cs :
  Forall (fun row => length row = n) cs ->
  Forall (fun row => length row = n)
    (foldl prepare_step cs
       ((fun p => (pos_x p, pos_y p, Grid.cell_at cs0 (pos_x p) (pos_y p))) <$> ps)).
Proof.
  revert cs. induction ps as [|p ps IH]; intros cs H; simpl; auto.
  apply IH. destruct (Grid.cell_at cs0 _ _); auto. now apply set_cell_rows.
Qed.

Lemma prepare_fold_cell cs0 ps cs x y :
  NoDup ps ->
  (forall p, p ∈ ps ->
     Grid.cell_at cs (pos_x p) (pos_y p) = Grid.cell_at cs0 (pos_x p) (pos_y p)) ->
  Grid.cell_at
    (foldl prepare_step cs
       ((fun p => (pos_x p, pos_y p, Grid.cell_at cs0 (pos_x p) (pos_y p))) <$> ps))
    x y
  = if decide (mkPos x y ∈ ps) then prepareTile <$> Grid.cell_at cs0 x y
    else Grid.cell_at cs x y.
Proof.
  revert cs. induction ps as [|p ps IH]; intros cs Hnd Hagree.
  - rewrite decide_False; auto. apply not_elem_of_nil.
  - cbn [fmap list_fmap foldl].
    apply NoDup_cons in Hnd as [Hp Hnd].
    assert (Hcs : forall q, q <> p ->
              Grid.cell_at (prepare_step cs (pos_x p, pos_y p,
                              Grid.cell_at cs0 (pos_x p) (pos_y p))) (pos_x q) (pos_y q)
              = Grid.cell_at cs (pos_x q) (pos_y q)).
    { intros q Hq. simpl. destruct (Grid.cell_at cs0 (pos_x p) (pos_y p)); auto.
      apply cell_at_set_cell_ne. destruct p, q; simpl in *. congruence. }
    rewrite IH; auto.
    + destruct (decide (mkPos x y ∈ ps)) as [Hin|Hin].
      * rewrite decide_True; auto. now apply list_elem_of_further.
      * destruct (decide (mkPos x y = p)) as [<-|Hne].
        -- rewrite decide_True by apply list_elem_of_here. simpl.
           specialize (Hagree (mkPos x y) ltac:(apply list_elem_of_here)). simpl in Hagree.
           destruct (Grid.cell_at cs0 x y) as [t|] eqn:E; simpl; auto.
           apply cell_at_Some_row in Hagree as (Hx & Hy & row & Hr & Hc).
           apply cell_at_set_cell_eq with row; auto.
           now apply lookup_lt_Some in Hc.
        -- rewrite decide_False.
           ++ apply (Hcs (mkPos x y)). exact Hne.
           ++ intros H. apply elem_of_cons in H as [H|H]; auto.
    + intros q Hq. rewrite Hcs.
      * apply Hagree. now apply list_elem_of_further.
      * intros ->. auto.
Qed.

Lemma prepareTiles_fields (self : t) :
  size (prepareTiles self) = size self
  /\ Grid.size (grid (prepareTiles self)) = Grid.size (grid self)
  /\ score (prepareTiles self) = score self
  /\ over (prepareTiles self) = over self
  /\ won (prepareTiles self) = won self
  /\ keepPlaying (prepareTiles self) = keepPlaying self
  /\ storageManager (prepareTiles self) = storageManager self
  /\ actuator (prepareTiles self) = actuator self.
Proof. repeat split. Qed.

Lemma prepareTiles_withinBounds (self : t) p :
  Grid.withinBounds (grid (prepareTiles self)) p = Grid.withinBounds (grid self) p.
Proof. reflexivity. Qed.

(** [prepareTiles] resets every tile of the board and nothing else. *)
Lemma prepareTiles_cellContent (self : t) p :
  Grid.cellContent (grid (prepareTiles self)) p
  = prepareTile <$> Grid.cellContent (grid self) p.
Proof.
  unfold Grid.cellContent. rewrite prepareTiles_withinBounds.
  destruct (Grid.withinBounds (grid self) p) eqn:Hb; auto.
  unfold prepareTiles, Grid.eachCell. simpl.
  change (fun (cs : list (list (option Tile))) '(x, y, tile) =>
            match tile with
            | Some tile => Grid.set_cell cs x y (Some (prepareTile tile))
            | None => cs
            end) with prepare_step.
  rewrite prepare_fold_cell; auto using NoDup_positions.
  apply withinBounds_positions in Hb. destruct p as [x y]. simpl.
  now rewrite decide_True.
Qed.

Lemma prepareTiles_shaped (self : t) :
  shaped (grid self) -> shaped (grid (prepareTiles self)).
Proof.
  intros (H0 & H1 & H2). unfold shaped, prepareTiles, Grid.eachCell. simpl.
  change (fun (cs : list (list (option Tile))) '(x, y, tile) =>
            match tile with
            | Some tile => Grid.set_cell cs x y (Some (prepareTile tile))
            | None => cs
            end) with prepare_step.
  rewrite prepare_fold_length. repeat split; auto.
  now apply prepare_fold_rows.
Qed.

Lemma prepareTiles_grid_wf (self : t) :
  grid_wf (grid self) -> grid_wf (grid (prepareTiles self)).
Proof.
  intros Hwf. apply grid_wf_spec in Hwf as [Hs Ht]. apply grid_wf_spec.
  split; [now apply prepareTiles_shaped|].
  intros p t. rewrite prepareTiles_cellContent.
  destruct (Grid.cellContent (grid self) p) as [t0|] eqn:E; simpl; try discriminate.
  intros [= <-]. apply (Ht p t0 E).
Qed.

Lemma prepareTiles_wf (self : t) : game_wf self -> game_wf (prepareTiles self).
Proof.
  unfold game_wf, game_wfb. rewrite !andb_true_iff. intros [H1 H2].
  split; auto. now apply prepareTiles_grid_wf.
Qed.

End Prepare.

Section Walk.

Import GameManager.

Implicit Types (g : Grid.t) (p q c : Position) (d : Direction).

Lemma ahead_0 p v : ahead p v 0 = p.
Proof. destruct p. unfold ahead. simpl. f_equal; lia. Qed.

Lemma ahead_step p v k :
  mkPos (pos_x (ahead p v k) + pos_x v) (pos_y (ahead p v k) + pos_y v) = ahead p v (k + 1).
Proof. unfold ahead. simpl. f_equal; lia. Qed.

Lemma ahead_inj d p k k' : ahead p (getVector d) k = ahead p (getVector d) k' -> k = k'.
Proof. unfold ahead. destruct d; simpl; intros [=]; lia. Qed.



Lemma room_step g d p :
  Grid.withinBounds g (ahead p (getVector d) 1) = true ->
  room g d (ahead p (getVector d) 1) = room g d p - 1 /\ 0 < room g d p.
Proof.
  intros H. apply withinBounds_spec in H. destruct d; simpl in *; lia.
Qed.

(** What the walk of [findFarthestPosition] returns, when the fuel
    covers the room left: the cells passed are empty, and the cell after
    the farthest one is off the board or occupied. *)
Lemma findFarthest_loop_spec g d (fuel : nat) c :
  Grid.withinBounds g c = true ->
  room g d c <= Z.of_nat fuel ->
  exists k, 0 <= k
    /\ findFarthest_loop fuel g c (getVector d)
       = mkFarthest (ahead c (getVector d) k) (ahead c (getVector d) (k + 1))
    /\ Grid.withinBounds g (ahead c (getVector d) k) = true
    /\ (forall j, 1 <= j <= k -> Grid.cellAvailable g (ahead c (getVector d) j) = true)
    /\ Grid.cellAvailable g (ahead c (getVector d) (k + 1)) = false.
Proof.
  revert c. induction fuel as [|fuel IH]; intros c Hb Hroom.
  - exists 0. rewrite ahead_0. split; [lia|]. cbn [findFarthest_loop].
    assert (E : mkPos (pos_x c + pos_x (getVector d)) (pos_y c + pos_y (getVector d))
                = ahead c (getVector d) 1).
    { unfold ahead. f_equal; lia. }
    rewrite E.
    destruct (Grid.withinBounds g (ahead c (getVector d) 1)) eqn:Hb1.
    + apply room_step in Hb1. lia.
    + cbn [andb]. repeat split; auto; try (intros; lia).
      change (0 + 1) with 1.
      unfold Grid.cellAvailable. now rewrite Hb1.
  - cbn [findFarthest_loop].
    assert (E : mkPos (pos_x c + pos_x (getVector d)) (pos_y c + pos_y (getVector d))
                = ahead c (getVector d) 1).
    { unfold ahead. f_equal; lia. }
    rewrite E.
    destruct (Grid.withinBounds g (ahead c (getVector d) 1)
              && Grid.cellAvailable g (ahead c (getVector d) 1)) eqn:Hc.
    + apply andb_true_iff in Hc as [Hb1 Ha1].
      destruct (room_step g d c Hb1) as [Hr Hpos].
      destruct (IH (ahead c (getVector d) 1) Hb1 ltac:(lia))
        as (k & Hk & Heq & Hbk & Hav & Hnx).
      assert (A : forall j, ahead (ahead c (getVector d) 1) (getVector d) j
                            = ahead c (getVector d) (j + 1)).
      { intros j. unfold ahead. simpl. f_equal; lia. }
      rewrite !A in *. exists (k + 1). repeat split; auto; try lia.
      intros j Hj. destruct (decide (j = 1)) as [->|Hne]; auto.
      specialize (Hav (j - 1) ltac:(lia)). rewrite A in Hav.
      now replace (j - 1 + 1) with j in Hav by lia.
    + exists 0. rewrite ahead_0. repeat split; auto; try lia.
      change (0 + 1) with 1. apply andb_false_iff in Hc as [Hc|Hc]; auto.
      unfold Grid.cellAvailable. now rewrite Hc.
Qed.

Lemma room_lt_size g d c : Grid.withinBounds g c = true -> room g d c < Grid.size g.
Proof. intros H. apply withinBounds_spec in H. destruct d; simpl; lia. Qed.

(** More fuel than the size of the board changes nothing: the walk
    never runs out of it. *)
Lemma findFarthest_loop_fuel g d (fuel : nat) c :
  Grid.withinBounds g c = true ->
  (Z.to_nat (Grid.size g) <= fuel)%nat ->
  findFarthest_loop fuel g c (getVector d)
  = findFarthest_loop (Z.to_nat (Grid.size g)) g c (getVector d).
Proof.
  intros Hb Hf. pose proof (room_lt_size g d c Hb) as Hr.
  destruct (findFarthest_loop_spec g d fuel c Hb ltac:(lia))
    as (k & Hk & Heq & _ & Hav & Hnx).
  destruct (findFarthest_loop_spec g d (Z.to_nat (Grid.size g)) c Hb ltac:(lia))
    as (k' & Hk' & Heq' & _ & Hav' & Hnx').
  rewrite Heq, Heq'.
  assert (k = k'); [|now subst].
  destruct (Z.lt_trichotomy k k') as [Hlt|[->|Hlt]]; auto.
  - rewrite (Hav' (k + 1)) in Hnx by lia. discriminate.
  - rewrite (Hav (k' + 1)) in Hnx' by lia. discriminate.
Qed.

Lemma findFarthestPosition_spec (self : t) d c :
  Grid.withinBounds (grid self) c = true ->
  exists k, 0 <= k
    /\ findFarthestPosition self c (getVector d)
       = mkFarthest (ahead c (getVector d) k) (ahead c (getVector d) (k + 1))
    /\ Grid.withinBounds (grid self) (ahead c (getVector d) k) = true
    /\ (forall j, 1 <= j <= k ->
          Grid.cellAvailable (grid self) (ahead c (getVector d) j) = true)
    /\ Grid.cellAvailable (grid self) (ahead c (getVector d) (k + 1)) = false.
Proof.
  intros Hb. apply findFarthest_loop_spec; auto.
  pose proof (room_lt_size (grid self) d c Hb). lia.
Qed.

End Walk.

Section Traversal.

Import GameManager.

Lemma foldl_bind {A B C : Type} (f : A -> C -> A) (g : B -> list C) (l : list B) (a : A) :
  foldl f a (l ≫= g) = foldl (fun a x => foldl f a (g x)) a l.
Proof.
  revert a. induction l as [|x l IH]; intros a; simpl; auto.
  rewrite foldl_app. apply IH.
Qed.

Lemma foldl_ext_all {A B : Type} (f g : A -> B -> A) (l : list B) (a : A) :
  (forall a x, f a x = g a x) -> foldl f a l = foldl g a l.
Proof.
  intros H. revert a. induction l as [|x l IH]; intros a; simpl; auto.
  now rewrite H, IH.
Qed.

Lemma traverse_flat {A : Type} (f : A -> Position -> A) (trav : Traversals) (a : A) :
  traverse f trav a = foldl f a (traversalCells trav).
Proof.
  unfold traverse, traversalCells. rewrite foldl_bind.
  apply foldl_ext_all. intros a' x. rewrite foldl_bind.
  apply foldl_ext_all. reflexivity.
Qed.

End Traversal.

Section Order.

Import GameManager.

Lemma sorted_mono {A : Type} (R1 R2 : relation A) (l : list A) :
  (forall x y, R1 x y -> R2 x y) -> StronglySorted R1 l -> StronglySorted R2 l.
Proof.
  intros H Hs. rewrite <- (list_fmap_id l). now apply StronglySorted_fmap with R1.
Qed.

Lemma sorted_bind {A B : Type} (R : relation B) (R' : relation A)
  (f : A -> list B) (l : list A) :
  StronglySorted R' l ->
  (forall x, x ∈ l -> StronglySorted R (f x)) ->
  (forall x x' a b, x ∈ l -> x' ∈ l -> R' x x' -> a ∈ f x -> b ∈ f x' -> R a b) ->
  StronglySorted R (l ≫= f).
Proof.
  induction l as [|x l IH]; intros Hs Hf Hc.
  - constructor.
  - apply StronglySorted_cons in Hs as [Hx Hs].
    change ((x :: l) ≫= f) with (f x ++ (l ≫= f)).
    apply StronglySorted_app_2.
    + intros a b Ha Hb. apply list_elem_of_bind in Hb as (x' & Hb & Hx').
      apply (Hc x x'); auto.
      * apply list_elem_of_here.
      * now apply list_elem_of_further.
      * rewrite Forall_forall in Hx. now apply Hx.
    + apply Hf. apply list_elem_of_here.
    + apply IH; auto.
      * intros x' Hx'. apply Hf. now apply list_elem_of_further.
      * intros x1 x2 a b H1 H2. apply Hc; now apply list_elem_of_further.
Qed.

Lemma sorted_reverse {A : Type} (R : relation A) (l : list A) :
  StronglySorted R l -> StronglySorted (flip R) (reverse l).
Proof.
  induction 1 as [|x l Hs IH Hx].
  - constructor.
  - rewrite reverse_cons. apply StronglySorted_app_2; auto.
    + intros a b Ha Hb. apply list_elem_of_singleton in Hb. subst b.
      rewrite elem_of_reverse in Ha. rewrite Forall_forall in Hx.
      unfold flip. now apply Hx.
    + repeat constructor.
Qed.

Lemma sorted_seqZ (m n : Z) : StronglySorted Z.lt (seqZ m n).
Proof.
  remember (Z.to_nat n) as k eqn:Hk. revert m n Hk.
  induction k as [|k IH]; intros m n Hk.
  - rewrite seqZ_nil by lia. constructor.
  - rewrite seqZ_cons by lia. constructor.
    + apply IH. lia.
    + apply Forall_seqZ. intros; lia.
Qed.


Lemma sorted_axis (n v : Z) :
  StronglySorted (fun x x' => axis_index n v x < axis_index n v x')
    (if v =? 1 then reverse (seqZ 0 n) else seqZ 0 n).
Proof.
  unfold axis_index. destruct (v =? 1).
  - apply sorted_mono with (flip Z.lt).
    + unfold flip. intros; lia.
    + apply sorted_reverse, sorted_seqZ.
  - apply sorted_seqZ.
Qed.

Lemma elem_of_axis (n v x : Z) :
  x ∈ (if v =? 1 then reverse (seqZ 0 n) else seqZ 0 n) <-> 0 <= x < n.
Proof.
  destruct (v =? 1); [rewrite elem_of_reverse|]; rewrite elem_of_seqZ; lia.
Qed.

Lemma elem_of_traversalCells (self : t) vector p :
  p ∈ traversalCells (buildTraversals self vector)
  <-> 0 <= pos_x p < size self /\ 0 <= pos_y p < size self.
Proof.
  unfold traversalCells, buildTraversals. simpl.
  rewrite list_elem_of_bind. split.
  - intros (x & Hp & Hx). apply list_elem_of_bind in Hp as (y & Hp & Hy).
    apply list_elem_of_singleton in Hp. subst p. simpl.
    apply elem_of_axis in Hx, Hy. lia.
  - intros [Hx Hy]. exists (pos_x p). split; [|now apply elem_of_axis].
    apply list_elem_of_bind. exists (pos_y p). split; [|now apply elem_of_axis].
    destruct p. apply list_elem_of_singleton. reflexivity.
Qed.

Lemma traversalCells_sorted (self : t) vector :
  StronglySorted (fun p q => rank (size self) vector p < rank (size self) vector q)
    (traversalCells (buildTraversals self vector)).
Proof.
  unfold traversalCells, buildTraversals. simpl.
  eapply sorted_bind; [apply sorted_axis| |].
  - intros x Hx.
    eapply sorted_bind; [apply sorted_axis| |].
    + intros y Hy. repeat constructor.
    + intros y y' a b Hy Hy' Hlt Ha Hb.
      apply list_elem_of_singleton in Ha, Hb. subst a b.
      unfold rank, axis_index in *. simpl. lia.
  - intros x x' a b Hx Hx' Hlt Ha Hb.
    apply list_elem_of_bind in Ha as (y & Ha & Hy), Hb as (y' & Hb & Hy').
    apply list_elem_of_singleton in Ha, Hb. subst a b.
    apply elem_of_axis in Hx, Hx', Hy, Hy'.
    unfold rank, axis_index in *. simpl.
    destruct (pos_x vector =? 1), (pos_y vector =? 1); nia.
Qed.

Lemma NoDup_traversalCells (self : t) vector :
  NoDup (traversalCells (buildTraversals self vector)).
Proof.
  pose proof (traversalCells_sorted self vector) as Hs.
  induction Hs as [|p l Hs IH Hp]; constructor; auto.
  intros Hin. rewrite Forall_forall in Hp.
  apply Hp in Hin. lia.
Qed.

(** The cells ahead of [c] in the direction of travel are visited
    before [c]. *)
Lemma ahead_visited (self : t) d pre c post k :
  traversalCells (buildTraversals self (getVector d)) = pre ++ c :: post ->
  1 <= k ->
  0 <= pos_x (ahead c (getVector d) k) < size self ->
  0 <= pos_y (ahead c (getVector d) k) < size self ->
  ahead c (getVector d) k ∈ pre.
Proof.
  intros HT Hk Hx Hy.
  pose proof (traversalCells_sorted self (getVector d)) as Hs.
  assert (Hc : c ∈ traversalCells (buildTraversals self (getVector d))).
  { rewrite HT. apply elem_of_app. right. apply list_elem_of_here. }
  apply elem_of_traversalCells in Hc.
  assert (Hin : ahead c (getVector d) k
                ∈ traversalCells (buildTraversals self (getVector d))).
  { apply elem_of_traversalCells. auto. }
  rewrite HT in Hs, Hin. apply StronglySorted_app in Hs as (_ & _ & Hs).
  apply StronglySorted_cons in Hs as [Hfa _].
  apply elem_of_app in Hin as [Hin|Hin]; auto.
  exfalso. assert (Hr : rank (size self) (getVector d) (ahead c (getVector d) k)
                        < rank (size self) (getVector d) c).
  { unfold rank, axis_index, ahead in *. destruct d; simpl in *; nia. }
  apply elem_of_cons in Hin as [Hin|Hin].
  - rewrite Hin in Hr. lia.
  - rewrite Forall_forall in Hfa. apply Hfa in Hin. lia.
Qed.

End Order.

Section Sums.

Implicit Types (g : Grid.t).

Lemma sumZ_cons (a : Z) (l : list Z) : sumZ (a :: l) = a + sumZ l.
Proof. reflexivity. Qed.

Lemma sumZ_change {A : Type} `{EqDecision A} (h h' : A -> Z) (l : list A) (p : A) :
  NoDup l -> p ∈ l -> (forall q, q <> p -> h' q = h q) ->
  sumZ (h' <$> l) = sumZ (h <$> l) - h p + h' p.
Proof.
  intros Hnd Hin Hext. induction l as [|a l IH]; [now apply elem_of_nil in Hin|].
  apply NoDup_cons in Hnd as [Ha Hnd]. rewrite !fmap_cons, !sumZ_cons.
  destruct (decide (a = p)) as [->|Hne].
  - assert (E : h' <$> l = h <$> l).
    { apply list_fmap_ext. intros i q Hq. apply Hext. intros ->.
      apply Ha. eapply list_elem_of_lookup_2; eauto. }
    rewrite E. lia.
  - apply elem_of_cons in Hin as [Hin|Hin]; [congruence|].
    rewrite IH by auto. rewrite (Hext a) by auto. lia.
Qed.

Lemma sumZ_ext {A : Type} (h h' : A -> Z) (l : list A) :
  (forall q, q ∈ l -> h' q = h q) -> sumZ (h' <$> l) = sumZ (h <$> l).
Proof.
  intros H. f_equal. apply list_fmap_ext. intros i q Hq. apply H.
  eapply list_elem_of_lookup_2; eauto.
Qed.

Lemma sumZ_nonneg {A : Type} (h : A -> Z) (l : list A) :
  (forall q, q ∈ l -> 0 <= h q) -> 0 <= sumZ (h <$> l).
Proof.
  induction l as [|a l IH]; intros H; [simpl; lia|].
  rewrite fmap_cons, sumZ_cons.
  pose proof (H a ltac:(apply list_elem_of_here)).
  pose proof (IH ltac:(intros; apply H; now apply list_elem_of_further)). lia.
Qed.

Lemma total_put F g (p : Position) v :
  shaped g -> Grid.withinBounds g p = true ->
  total F (put g p v) = total F g - F p (Grid.cellContent g p) + F p v.
Proof.
  intros Hs Hb. unfold total. rewrite put_size.
  rewrite (sumZ_change (fun q => F q (Grid.cellContent g q))
             (fun q => F q (Grid.cellContent (put g p v) q)) _ p).
  - now rewrite cellContent_put_eq.
  - apply NoDup_positions.
  - now apply withinBounds_positions.
  - intros q Hq. now rewrite cellContent_put_ne.
Qed.

Lemma total_ext F g g' :
  Grid.size g = Grid.size g' ->
  (forall p, F p (Grid.cellContent g p) = F p (Grid.cellContent g' p)) ->
  total F g = total F g'.
Proof.
  intros Hs H. unfold total. rewrite Hs. apply sumZ_ext. intros; apply H.
Qed.

End Sums.

Section Step.

Import GameManager.

Implicit Types (s : t) (c p : Position) (d : Direction).



Lemma unmerged_spec (t0 : Tile) : TileOps.unmerged t0 = true <-> mergedFrom t0 = None.
Proof. unfold TileOps.unmerged. destruct (mergedFrom t0); split; congruence. Qed.

Lemma positionsEqual_ahead d c k :
  positionsEqual c (ahead c (getVector d) k) = (k =? 0).
Proof.
  unfold positionsEqual, ahead. destruct d; simpl;
    destruct (Z.eqb_spec k 0); subst; rewrite ?andb_true_iff, ?andb_false_iff, ?Z.eqb_eq, ?Z.eqb_neq;
    try lia.
Qed.

Lemma move_cell_empty d s m c :
  Grid.cellContent (grid s) c = None ->
  move_cell (getVector d) (s, m) c = (s, m).
Proof. intros H. unfold move_cell. now rewrite H. Qed.

Lemma move_cell_cases d s m c tile :
  Grid.cellContent (grid s) c = Some tile ->
  tile_x tile = pos_x c -> tile_y tile = pos_y c ->
  cell_outcome d s m c tile
    (fst (move_cell (getVector d) (s, m) c))
    (snd (move_cell (getVector d) (s, m) c)).
Proof.
  intros Hc Hx Hy. pose proof (cellContent_Some_bounds _ _ _ Hc) as Hb.
  destruct (findFarthestPosition_spec s d c Hb) as (k & Hk & Heq & Hbk & Hav & Hnx).
  assert (Hfree : forall j, 1 <= j <= k ->
            Grid.withinBounds (grid s) (ahead c (getVector d) j) = true
            /\ Grid.cellContent (grid s) (ahead c (getVector d) j) = None).
  { intros j Hj. now apply cellAvailable_spec, Hav. }
  assert (Hpos : TileOps.position tile = c).
  { destruct c. unfold TileOps.position. simpl in *. congruence. }
  unfold move_cell. rewrite Hc, Heq. cbn [next farthest].
  destruct (Grid.cellContent (grid s) (ahead c (getVector d) (k + 1))) as [nxt|] eqn:Hn.
  - destruct ((value nxt =? value tile) && TileOps.unmerged nxt) eqn:Hg.
    + apply andb_true_iff in Hg as [Hv Hu].
      apply Z.eqb_eq in Hv. apply unmerged_spec in Hu.
      cbn [fst snd].
      eapply outcome_merge with (k := k) (nxt := nxt); eauto.
      * unfold after_merge, merged_tile. rewrite insertTile_put, removeTile_put.
        rewrite Hpos. reflexivity.
      * unfold TileOps.position, TileOps.updatePosition. cbn [tile_x tile_y].
        change (mkPos (pos_x (ahead c (getVector d) (k + 1)))
                      (pos_y (ahead c (getVector d) (k + 1))))
          with (ahead c (getVector d) (k + 1)).
        rewrite positionsEqual_ahead. destruct (Z.eqb_spec (k + 1) 0); auto; lia.
    + cbn [fst snd].
      eapply outcome_slide with (k := k); eauto.
      * rewrite Hn. simpl. apply andb_false_iff in Hg as [Hg|Hg].
        -- left. now apply Z.eqb_neq.
        -- right. intros E. apply unmerged_spec in E. congruence.
      * rewrite Hn. congruence.
      * unfold after_slide, moveTile. rewrite Hx, Hy. reflexivity.
      * unfold TileOps.position, TileOps.updatePosition. cbn [tile_x tile_y].
        change (mkPos (pos_x (ahead c (getVector d) k)) (pos_y (ahead c (getVector d) k)))
          with (ahead c (getVector d) k).
        rewrite positionsEqual_ahead. now destruct (k =? 0).
  - cbn [fst snd].
    eapply outcome_slide with (k := k); eauto.
    + rewrite Hn. exact I.
    + intros Hbn. exfalso.
      assert (Grid.cellAvailable (grid s) (ahead c (getVector d) (k + 1)) = true)
        by now apply cellAvailable_spec.
      congruence.
    + unfold after_slide, moveTile. rewrite Hx, Hy. reflexivity.
    + unfold TileOps.position, TileOps.updatePosition. cbn [tile_x tile_y].
      change (mkPos (pos_x (ahead c (getVector d) k)) (pos_y (ahead c (getVector d) k)))
        with (ahead c (getVector d) k).
      rewrite positionsEqual_ahead. now destruct (k =? 0).
Qed.

End Step.

Section Invariant.

Import GameManager.

Implicit Types (s : t) (g : Grid.t) (c p : Position) (d : Direction).

Lemma is_pow2_pos v : is_pow2 v = true -> 0 < v.
Proof. unfold is_pow2. rewrite andb_true_iff, Z.ltb_lt. tauto. Qed.

Lemma is_pow2_double v : is_pow2 v = true -> is_pow2 (v * 2) = true.
Proof.
  unfold is_pow2. rewrite !andb_true_iff, !Z.ltb_lt, !Z.eqb_eq. intros [Hp He].
  split; [lia|]. rewrite Z.mul_comm, Z.log2_double by lia.
  rewrite Z.pow_succ_r by apply Z.log2_nonneg. lia.
Qed.

Lemma potential_put vector g p v :
  shaped g -> Grid.withinBounds g p = true ->
  potential vector (put g p v)
  = potential vector g
    - occupied_slack (Grid.size g) vector p (Grid.cellContent g p)
    + occupied_slack (Grid.size g) vector p v.
Proof. intros Hs Hb. unfold potential. rewrite put_size. now rewrite total_put. Qed.

Lemma merged_total_put g p v :
  shaped g -> Grid.withinBounds g p = true ->
  merged_total (put g p v)
  = merged_total g - merged_value (Grid.cellContent g p) + merged_value v.
Proof. intros Hs Hb. unfold merged_total. now rewrite total_put. Qed.

Lemma merged_total_unmerged g : all_unmerged g -> merged_total g = 0.
Proof.
  intros H. unfold merged_total, total.
  assert (E : forall l : list Position,
            sumZ ((fun p => merged_value (Grid.cellContent g p)) <$> l) = 0).
  { induction l as [|p l IH]; auto. rewrite fmap_cons, sumZ_cons, IH.
    unfold merged_value. destruct (Grid.cellContent g p) as [t0|] eqn:E; auto.
    apply H in E. apply unmerged_spec in E. now rewrite E. }
  apply E.
Qed.

Lemma slack_pos d g p :
  Grid.withinBounds g p = true -> 0 < slack (Grid.size g) (getVector d) p.
Proof. intros H. apply withinBounds_spec in H. unfold slack. destruct d; simpl; lia. Qed.

Lemma slack_ahead d n p k :
  slack n (getVector d) (ahead p (getVector d) k) = slack n (getVector d) p - k.
Proof. unfold slack, ahead. destruct d; simpl; lia. Qed.

Lemma ahead_ne d p k : k <> 0 -> ahead p (getVector d) k <> p.
Proof.
  intros Hk E. apply Hk. apply (ahead_inj d p). now rewrite ahead_0.
Qed.

Lemma set_grid_same s : set_grid s (grid s) = s.
Proof. now destruct s. Qed.

Lemma updatePosition_same (tile : Tile) c :
  tile_x tile = pos_x c -> tile_y tile = pos_y c -> TileOps.updatePosition tile c = tile.
Proof. destruct tile, c. unfold TileOps.updatePosition. simpl. now intros -> ->. Qed.

Lemma after_slide_same s c tile :
  Grid.cellContent (grid s) c = Some tile ->
  tile_x tile = pos_x c -> tile_y tile = pos_y c ->
  after_slide s c c tile = s.
Proof.
  intros Hc Hx Hy. unfold after_slide.
  rewrite put_put, updatePosition_same by auto.
  rewrite put_id; auto using set_grid_same.
  eapply cellContent_Some_bounds; eauto.
Qed.

Lemma step_inv_start d s0 :
  grid_wf (grid s0) -> all_unmerged (grid s0) -> step_inv d s0 [] s0 false.
Proof.
  intros Hwf Hun. constructor; auto; try lia; try discriminate.
  - intros p. unfold merge_once. destruct (Grid.cellContent (grid s0) p) as [t0|] eqn:E; auto.
    now rewrite (Hun _ _ E).
  - rewrite merged_total_unmerged by auto. lia.
Qed.

Lemma step_inv_visit d s0 visited s m c :
  step_inv d s0 visited s m -> step_inv d s0 (visited ++ [c]) s m.
Proof.
  intros []. constructor; auto.
  intros p Hp. apply inv_untouched0. intros H. apply Hp, elem_of_app. now left.
Qed.

(** One callback of [move] keeps the invariant. *)
Lemma step_inv_step d s0 pre c post s m :
  size s0 = Grid.size (grid s0) ->
  all_unmerged (grid s0) ->
  traversalCells (buildTraversals s0 (getVector d)) = pre ++ c :: post ->
  step_inv d s0 pre s m ->
  step_inv d s0 (pre ++ [c])
    (fst (move_cell (getVector d) (s, m) c))
    (snd (move_cell (getVector d) (s, m) c)).
Proof.
  intros Hsz Hun HT Hinv.
  destruct (Grid.cellContent (grid s) c) as [tile|] eqn:Hc;
    [|rewrite move_cell_empty by auto; now apply step_inv_visit].
  pose proof Hinv as [].
  pose proof (NoDup_traversalCells s0 (getVector d)) as Hnd.
  rewrite HT in Hnd. apply NoDup_app in Hnd as (_ & Hnd & _).
  assert (Hcpre : c ∉ pre).
  { intros H. apply (Hnd c H). apply list_elem_of_here. }
  pose proof (grid_wf_shaped _ inv_wf0) as Hshape.
  pose proof inv_wf0 as Hwf. apply grid_wf_spec in Hwf as [_ Htiles].
  destruct (Htiles _ _ Hc) as (Hx & Hy & Hp2).
  assert (Hum : mergedFrom tile = None).
  { apply (Hun c). now rewrite <- inv_untouched0. }
  pose proof (cellContent_Some_bounds _ _ _ Hc) as Hb.
  assert (Hvis : forall k, 1 <= k ->
            Grid.withinBounds (grid s) (ahead c (getVector d) k) = true ->
            ahead c (getVector d) k ∈ pre).
  { intros k Hk Hbk. apply withinBounds_spec in Hbk.
    rewrite inv_gsize0, <- Hsz in Hbk.
    eapply ahead_visited; eauto; tauto. }
  destruct (move_cell_cases d s m c tile Hc Hx Hy)
    as [k nxt Hk Hfree Hn Hv Hnu Hs' Hm'|k Hk Hfree Hno Hocc Hs' Hm'];
    rewrite Hs', Hm'; clear Hs' Hm'.
  - (* merge *)
    set (n := ahead c (getVector d) (k + 1)) in *.
    pose proof (cellContent_Some_bounds _ _ _ Hn) as Hbn.
    assert (Hnc : n <> c) by (apply ahead_ne; lia).
    assert (Hnpre : n ∈ pre) by (apply Hvis; auto; lia).
    set (g1 := put (grid s) n (Some (merged_tile tile nxt n))).
    assert (Hshape1 : shaped g1) by now apply put_shaped.
    assert (Hwf1 : grid_wf g1).
    { apply put_wf; auto. intros t0 [= <-]. unfold merged_tile. simpl.
      repeat split; auto. now apply is_pow2_double. }
    assert (Hg : grid (after_merge s c n tile nxt) = put g1 c None).
    { unfold after_merge. now destruct (value tile * 2 =? 2048). }
    assert (Hc1 : Grid.cellContent g1 c = Some tile).
    { unfold g1. rewrite cellContent_put_ne; auto. }
    constructor; rewrite ?Hg.
    + apply put_wf; auto. discriminate.
    + unfold after_merge. now destruct (value tile * 2 =? 2048).
    + now rewrite put_size.
    + unfold after_merge. now destruct (value tile * 2 =? 2048).
    + unfold after_merge. now destruct (value tile * 2 =? 2048).
    + unfold after_merge. now destruct (value tile * 2 =? 2048).
    + unfold after_merge. now destruct (value tile * 2 =? 2048).
    + intros p Hp. unfold g1. rewrite !cellContent_put_ne;
        try (intros <-; apply Hp, elem_of_app;
             first [left; assumption | right; apply list_elem_of_here]).
      apply inv_untouched0. intros H. apply Hp, elem_of_app. now left.
    + intros p. rewrite cellContent_put by auto.
      destruct (decide (c = p)); [exact I|].
      unfold g1. rewrite cellContent_put by auto.
      destruct (decide (n = p)); auto.
      unfold merge_once, merged_tile. simpl. repeat split; auto.
    + assert (Hsc : score (after_merge s c n tile nxt) = score s + value tile * 2).
      { unfold after_merge. now destruct (value tile * 2 =? 2048). }
      rewrite Hsc, inv_score0. rewrite merged_total_put by auto.
      rewrite Hc1. unfold g1. rewrite merged_total_put by auto.
      rewrite Hn. unfold merged_value, merged_tile, TileOps.unmerged.
      simpl. rewrite Hum, Hnu. lia.
    + rewrite potential_put by auto. rewrite Hc1.
      unfold g1. rewrite potential_put by auto.
      rewrite Hn, ?put_size. unfold occupied_slack.
      pose proof (slack_pos d _ _ Hb). lia.
    + split; auto. intros _.
      rewrite potential_put by auto. rewrite Hc1.
      unfold g1. rewrite potential_put by auto.
      rewrite Hn, ?put_size. unfold occupied_slack.
      pose proof (slack_pos d _ _ Hb). lia.
    + intros _. exists c. split; auto. now rewrite cellContent_put_eq.
    + discriminate.
  - (* slide *)
    destruct (Z.eqb_spec k 0) as [->|Hk0].
    + rewrite ahead_0, after_slide_same by auto. now apply step_inv_visit.
    + set (f := ahead c (getVector d) k) in *.
      destruct (Hfree k ltac:(lia)) as [Hbf Hf].
      assert (Hfc : f <> c) by (apply ahead_ne; lia).
      assert (Hfpre : f ∈ pre) by (apply Hvis; auto; lia).
      set (g1 := put (grid s) c None).
      assert (Hshape1 : shaped g1) by now apply put_shaped.
      assert (Hwf1 : grid_wf g1) by (apply put_wf; auto; discriminate).
      assert (Hf1 : Grid.cellContent g1 f = None).
      { unfold g1. rewrite cellContent_put_ne; auto. }
      change (after_slide s c f tile)
        with (set_grid s (put g1 f (Some (TileOps.updatePosition tile f)))).
      constructor; cbn [grid set_grid size over keepPlaying storageManager actuator score];
        auto.
      * apply put_wf; auto. intros t0 [= <-]. simpl. auto.
      * intros p Hp. unfold g1. rewrite !cellContent_put_ne;
          try (intros <-; apply Hp, elem_of_app;
               first [left; assumption | right; apply list_elem_of_here]).
        apply inv_untouched0. intros H. apply Hp, elem_of_app. now left.
      * intros p. rewrite cellContent_put by auto.
        destruct (decide (f = p)).
        -- unfold merge_once. simpl. now rewrite Hum.
        -- unfold g1. rewrite cellContent_put by auto.
           destruct (decide (c = p)); [exact I|auto].
      * rewrite inv_score0. rewrite merged_total_put by auto.
        rewrite Hf1. unfold g1. rewrite merged_total_put by auto.
        rewrite Hc. unfold merged_value, TileOps.unmerged. simpl.
        rewrite Hum. lia.
      * rewrite potential_put by auto. rewrite Hf1.
        unfold g1. rewrite potential_put by auto.
        rewrite Hc, ?put_size. unfold occupied_slack.
        unfold f. rewrite slack_ahead. lia.
      * split; auto. intros _.
        rewrite potential_put by auto. rewrite Hf1.
        unfold g1. rewrite potential_put by auto.
        rewrite Hc, ?put_size. unfold occupied_slack.
        unfold f. rewrite slack_ahead. lia.
      * intros _. exists c. split; auto.
        rewrite cellContent_put_ne by auto. unfold g1. now rewrite cellContent_put_eq.
      * discriminate.
Qed.

End Invariant.

Section Resolve.

Import GameManager.

Implicit Types (s self : t) (g : Grid.t) (c p : Position) (d : Direction).

Lemma foldl_prefix_inv {A B : Type} (f : A -> B -> A) (P : list B -> A -> Prop)
  (l : list B) (a : A) :
  P [] a ->
  (forall pre b post a, l = pre ++ b :: post -> P pre a -> P (pre ++ [b]) (f a b)) ->
  P l (foldl f a l).
Proof.
  intros H0 Hstep.
  assert (G : forall rest pre a, l = pre ++ rest -> P pre a ->
                                 P (pre ++ rest) (foldl f a rest)).
  { induction rest as [|b rest IH]; intros pre a' El Hp; simpl.
    - now rewrite app_nil_r.
    - replace (pre ++ b :: rest) with ((pre ++ [b]) ++ rest)
        by now rewrite <- app_assoc.
      apply IH.
      + now rewrite <- app_assoc.
      + eapply Hstep; eauto. }
  apply (G l [] a); auto.
Qed.

Lemma prepareTiles_all_unmerged self : all_unmerged (grid (prepareTiles self)).
Proof.
  intros p t0. rewrite prepareTiles_cellContent.
  destruct (Grid.cellContent (grid self) p); simpl; [|discriminate].
  now intros [= <-].
Qed.

Lemma game_wf_spec self :
  game_wf self <-> size self = Grid.size (grid self) /\ grid_wf (grid self).
Proof.
  unfold game_wf, game_wfb. rewrite andb_true_iff, Z.eqb_eq. reflexivity.
Qed.

(** The invariant holds when the traversal of [move] is over. *)
Lemma resolve_inv d self :
  game_wf self ->
  step_inv d (prepareTiles self)
    (traversalCells (buildTraversals self (getVector d)))
    (fst (resolve d self)) (snd (resolve d self)).
Proof.
  intros Hwf. apply game_wf_spec in Hwf as [Hsz Hwf].
  unfold resolve. rewrite traverse_flat.
  apply (foldl_prefix_inv (move_cell (getVector d))
           (fun pre st => step_inv d (prepareTiles self) pre (fst st) (snd st))).
  - apply step_inv_start.
    + now apply prepareTiles_grid_wf.
    + apply prepareTiles_all_unmerged.
  - intros pre c post [s m] HT Hinv. cbn [fst snd] in Hinv.
    apply step_inv_step with post; auto.
    apply prepareTiles_all_unmerged.
Qed.

End Resolve.

Section Cells2.

Context {A B : Type}.

Lemma cell_at_lookup2 (cs : list (list (option Tile))) x y :
  Grid.cell_at cs x y = lookup2 cs x y.
Proof. reflexivity. Qed.

Lemma lookup2_fmap (F : A -> B) (cs : list (list (option A))) x y :
  lookup2 (map (map (option_map F)) cs) x y = option_map F (lookup2 cs x y).
Proof.
  unfold lookup2. destruct ((0 <=? x) && (0 <=? y)); auto.
  change (map (map (option_map F)) cs) with (map (option_map F) <$> cs).
  rewrite list_lookup_fmap. destruct (cs !! Z.to_nat x) as [row|]; simpl; auto.
  change (map (option_map F) row) with (option_map F <$> row).
  rewrite list_lookup_fmap. now destruct (row !! Z.to_nat y).
Qed.

Lemma lookup2_ext (n : nat) (cs cs' : list (list (option A))) :
  length cs = n -> Forall (fun row => length row = n) cs ->
  length cs' = n -> Forall (fun row => length row = n) cs' ->
  (forall x y, 0 <= x < Z.of_nat n -> 0 <= y < Z.of_nat n ->
     lookup2 cs x y = lookup2 cs' x y) ->
  cs = cs'.
Proof.
  intros Hl Hr Hl' Hr' Hext. apply list_eq_same_length with n; auto.
  intros i row row' Hi Hrow Hrow'.
  rewrite Forall_lookup in Hr, Hr'.
  apply list_eq_same_length with n; eauto.
  intros j c c' Hj Hc Hc'.
  specialize (Hext (Z.of_nat i) (Z.of_nat j) ltac:(lia) ltac:(lia)).
  unfold lookup2 in Hext.
  destruct (Z.leb_spec 0 (Z.of_nat i)), (Z.leb_spec 0 (Z.of_nat j)); try lia.
  simpl in Hext. rewrite !Nat2Z.id, Hrow, Hrow', Hc, Hc' in Hext. exact Hext.
Qed.

End Cells2.

Section Snapshots.

Import GameManager.

Implicit Types (s self : t) (g : Grid.t) (c p : Position) (d : Direction).

Lemma serialize_cells_shape g :
  shaped g ->
  length (Grid.serialize_cells g) = Z.to_nat (Grid.size g)
  /\ Forall (fun row => length row = Z.to_nat (Grid.size g)) (Grid.serialize_cells g).
Proof.
  intros (H0 & H1 & H2). unfold Grid.serialize_cells. split.
  - now rewrite length_map.
  - change (Forall (fun row => length row = Z.to_nat (Grid.size g))
              (map (option_map TileOps.serialize) <$> Grid.cells g)).
    rewrite Forall_fmap. eapply Forall_impl; eauto.
    intros row Hrow. simpl. now rewrite length_map.
Qed.

(** Two boards of the same size have the same snapshot when every cell
    has the same tile position and value. *)
Lemma serialize_cells_ext g g' :
  shaped g -> shaped g' -> Grid.size g = Grid.size g' ->
  (forall p, TileOps.serialize <$> Grid.cellContent g p
             = TileOps.serialize <$> Grid.cellContent g' p) ->
  Grid.serialize_cells g = Grid.serialize_cells g'.
Proof.
  intros Hs Hs' Hsz Hext.
  destruct (serialize_cells_shape g Hs) as [Hl Hr].
  destruct (serialize_cells_shape g' Hs') as [Hl' Hr'].
  rewrite <- Hsz in Hl', Hr'.
  apply (lookup2_ext (Z.to_nat (Grid.size g))); auto.
  intros x y Hx Hy. unfold Grid.serialize_cells. rewrite !lookup2_fmap.
  specialize (Hext (mkPos x y)).
  rewrite !cellContent_in in Hext
    by (apply withinBounds_spec; simpl; destruct Hs as [? _]; lia).
  exact Hext.
Qed.

Lemma serialize_cells_cellContent g g' p :
  Grid.size g = Grid.size g' ->
  Grid.serialize_cells g = Grid.serialize_cells g' ->
  TileOps.serialize <$> Grid.cellContent g p = TileOps.serialize <$> Grid.cellContent g' p.
Proof.
  intros Hsz E. unfold Grid.cellContent, Grid.withinBounds. rewrite Hsz.
  destruct (_ && _); auto.
  rewrite !cell_at_lookup2.
  change (@fmap option _ _ _ TileOps.serialize) with (option_map TileOps.serialize).
  rewrite <- !lookup2_fmap.
  unfold Grid.serialize_cells in E. rewrite E, lookup2_fmap. reflexivity.
Qed.

Lemma prepareTiles_serialize_cells self :
  shaped (grid self) ->
  Grid.serialize_cells (grid (prepareTiles self)) = Grid.serialize_cells (grid self).
Proof.
  intros Hs. apply serialize_cells_ext; auto using prepareTiles_shaped.
  intros p. rewrite prepareTiles_cellContent.
  now destruct (Grid.cellContent (grid self) p).
Qed.

Lemma potential_occupancy vector g g' :
  Grid.size g = Grid.size g' ->
  (forall p, is_Some (Grid.cellContent g p) <-> is_Some (Grid.cellContent g' p)) ->
  potential vector g = potential vector g'.
Proof.
  intros Hsz H. unfold potential. rewrite Hsz. apply total_ext; auto.
  intros p. specialize (H p).
  destruct (Grid.cellContent g p), (Grid.cellContent g' p); auto.
  - destruct H as [H _]. destruct (H ltac:(eauto)). discriminate.
  - destruct H as [_ H]. destruct (H ltac:(eauto)). discriminate.
Qed.

Lemma potential_serialize vector g g' :
  Grid.size g = Grid.size g' ->
  Grid.serialize_cells g = Grid.serialize_cells g' ->
  potential vector g = potential vector g'.
Proof.
  intros Hsz E. apply potential_occupancy; auto.
  intros p. pose proof (serialize_cells_cellContent g g' p Hsz E) as H.
  destruct (Grid.cellContent g p), (Grid.cellContent g' p); simpl in H;
    try discriminate; split; intros [? ?]; eauto; discriminate.
Qed.

End Snapshots.

Section Spawn.

Import GameManager.

Implicit Types (s self : t) (g : Grid.t) (c p : Position) (d : Direction).

Lemma elem_of_availableCells g p :
  p ∈ Grid.availableCells g
  <-> Grid.withinBounds g p = true /\ Grid.cellContent g p = None.
Proof.
  unfold Grid.availableCells, Grid.eachCell. rewrite list_elem_of_omap. split.
  - intros ([[x y] tile] & Hin & Hf).
    apply list_elem_of_fmap in Hin as (q & [= -> -> ->] & Hq).
    apply withinBounds_positions in Hq.
    destruct (Grid.cell_at (Grid.cells g) (pos_x q) (pos_y q)) eqn:E; [discriminate|].
    injection Hf as <-. destruct q as [qx qy]. simpl in *. split; auto.
    now rewrite cellContent_in.
  - intros [Hb Hc]. exists (pos_x p, pos_y p, None). split.
    + apply list_elem_of_fmap. exists p. split.
      * rewrite cellContent_in in Hc by auto. now rewrite Hc.
      * now apply withinBounds_positions.
    + now destruct p.
Qed.

Lemma cellsAvailable_spec g :
  Grid.cellsAvailable g = true
  <-> exists p, Grid.withinBounds g p = true /\ Grid.cellContent g p = None.
Proof.
  unfold Grid.cellsAvailable. split.
  - destruct (Grid.availableCells g) as [|p l] eqn:E; [discriminate|].
    intros _. exists p. apply elem_of_availableCells. rewrite E. apply list_elem_of_here.
  - intros (p & Hp). apply elem_of_availableCells in Hp.
    destruct (Grid.availableCells g); auto. now apply elem_of_nil in Hp.
Qed.

Lemma randomAvailableCell_spec g choice :
  Grid.cellsAvailable g = true ->
  exists p, Grid.randomAvailableCell g choice = Some p
            /\ Grid.withinBounds g p = true /\ Grid.cellContent g p = None.
Proof.
  unfold Grid.cellsAvailable, Grid.randomAvailableCell.
  destruct (Grid.availableCells g) as [|q l] eqn:E; [discriminate|]. intros _.
  destruct (lookup_lt_is_Some_2 (q :: l) (choice mod length (q :: l))%nat) as [p Hp].
  { apply Nat.mod_upper_bound. simpl. lia. }
  exists p. split; auto. apply elem_of_availableCells. rewrite E.
  eapply list_elem_of_lookup_2; eauto.
Qed.

(** What [addRandomTile] does when the board has room: a 2 or a 4 on a
    cell that was empty. *)
Lemma addRandomTile_spec rnd self :
  Grid.cellsAvailable (grid self) = true ->
  exists p v, (v = 2 \/ v = 4)
    /\ Grid.withinBounds (grid self) p = true
    /\ Grid.cellContent (grid self) p = None
    /\ addRandomTile rnd self
       = set_grid self (Grid.insertTile (grid self) (TileOps.new p v)).
Proof.
  intros Hav. unfold addRandomTile. rewrite Hav.
  destruct (randomAvailableCell_spec (grid self) (cell_draw rnd) Hav)
    as (p & -> & Hb & Hc).
  exists p, (if value_draw rnd then 2 else 4). repeat split; auto.
  destruct (value_draw rnd); auto.
Qed.

Lemma addRandomTile_full rnd self :
  Grid.cellsAvailable (grid self) = false -> addRandomTile rnd self = self.
Proof. intros H. unfold addRandomTile. now rewrite H. Qed.

Lemma new_tile_put g p v :
  Grid.insertTile g (TileOps.new p v) = put g p (Some (TileOps.new p v)).
Proof. rewrite insertTile_put. now destruct p. Qed.

Lemma addRandomTile_inv rnd self :
  grid_wf (grid self) ->
  grid_wf (grid (addRandomTile rnd self))
  /\ size (addRandomTile rnd self) = size self
  /\ Grid.size (grid (addRandomTile rnd self)) = Grid.size (grid self)
  /\ score (addRandomTile rnd self) = score self
  /\ over (addRandomTile rnd self) = over self
  /\ won (addRandomTile rnd self) = won self
  /\ keepPlaying (addRandomTile rnd self) = keepPlaying self
  /\ storageManager (addRandomTile rnd self) = storageManager self
  /\ actuator (addRandomTile rnd self) = actuator self
  /\ merged_total (grid (addRandomTile rnd self)) = merged_total (grid self)
  /\ (forall q, merge_once (Grid.cellContent (grid self) q) ->
                merge_once (Grid.cellContent (grid (addRandomTile rnd self)) q)).
Proof.
  intros Hwf. destruct (Grid.cellsAvailable (grid self)) eqn:Hav.
  - destruct (addRandomTile_spec rnd self Hav) as (p & v & Hv & Hb & Hc & ->).
    rewrite new_tile_put. cbn [grid set_grid size score over won keepPlaying
                                 storageManager actuator].
    pose proof (grid_wf_shaped _ Hwf) as Hs.
    repeat split; auto.
    + apply put_wf; auto. intros t0 [= <-]. destruct p. simpl.
      repeat split; auto. destruct Hv as [-> | ->]; reflexivity.
    + rewrite merged_total_put, Hc by auto. simpl. lia.
    + intros q Hq. rewrite cellContent_put by auto.
      destruct (decide (p = q)); auto. exact I.
  - rewrite addRandomTile_full by auto. repeat split; auto.
Qed.

Lemma actuate_fields self :
  size (actuate self) = size self
  /\ grid (actuate self) = grid self
  /\ score (actuate self) = score self
  /\ over (actuate self) = over self
  /\ won (actuate self) = won self
  /\ keepPlaying (actuate self) = keepPlaying self.
Proof. repeat split. Qed.

End Spawn.

Section MoveTheorems.

Import GameManager.

Implicit Types (s self : t) (g : Grid.t) (c p : Position) (d : Direction).

Lemma resolve_still d self :
  game_wf self -> snd (resolve d self) = false ->
  fst (resolve d self) = prepareTiles self.
Proof. intros Hwf Hm. now apply (inv_still _ _ _ _ _ (resolve_inv d self Hwf)). Qed.

(** The traversal sets [moved] exactly when the snapshot of the board
    changes. *)
Lemma resolve_moved_iff d self :
  game_wf self ->
  snd (resolve d self) = true
  <-> Grid.serialize_cells (grid (fst (resolve d self))) <> Grid.serialize_cells (grid self).
Proof.
  intros Hwf. pose proof (resolve_inv d self Hwf) as Hinv.
  pose proof Hwf as Hwf'. apply game_wf_spec in Hwf' as [Hsz Hg].
  pose proof (grid_wf_shaped _ Hg) as Hs.
  assert (Hpot : potential (getVector d) (grid (prepareTiles self))
                 = potential (getVector d) (grid self)).
  { apply potential_serialize; auto. now apply prepareTiles_serialize_cells. }
  split.
  - intros Hm E. apply (inv_pot_lt _ _ _ _ _ Hinv) in Hm.
    rewrite Hpot in Hm.
    rewrite (potential_serialize (getVector d) _ (grid self)) in Hm; auto; [lia|].
    now rewrite (inv_gsize _ _ _ _ _ Hinv).
  - intros Hne. destruct (snd (resolve d self)) eqn:Hm; auto.
    exfalso. apply Hne. rewrite resolve_still by auto.
    now apply prepareTiles_serialize_cells.
Qed.

Lemma resolve_room d self :
  game_wf self -> snd (resolve d self) = true ->
  Grid.cellsAvailable (grid (fst (resolve d self))) = true.
Proof.
  intros Hwf Hm. apply cellsAvailable_spec.
  now apply (inv_room _ _ _ _ _ (resolve_inv d self Hwf)).
Qed.

Lemma prepareTiles_serialize self :
  shaped (grid self) -> serialize (prepareTiles self) = serialize self.
Proof.
  intros Hs. unfold serialize. rewrite prepareTiles_serialize_cells by auto.
  reflexivity.
Qed.

(** C4 (amended): in a game that is not terminated, a move is accepted
    exactly when a tile changed cell or was merged, that is when the
    snapshot of the board changes. An accepted move spawns a 2 or a 4 on
    an empty cell and calls the actuator once; a move that changes
    nothing leaves the cells and their values, the score, the flags
    over, won and keepPlaying, the storage and the actuator log as they
    were: all it does is the reset of the tiles' saved positions and
    merge information that starts every move. *)
Theorem move_accepted_iff_changed self d rnd :
  game_wf self -> isGameTerminated self = false ->
  let moved := snd (resolve d self) in
  let resolved := fst (resolve d self) in
  (moved = true <->
   Grid.serialize_cells (grid resolved) <> Grid.serialize_cells (grid self))
  /\ (moved = true ->
      exists p v,
        (v = 2 \/ v = 4)
        /\ Grid.withinBounds (grid resolved) p = true
        /\ Grid.cellContent (grid resolved) p = None
        /\ grid (move d rnd self) = Grid.insertTile (grid resolved) (TileOps.new p v)
        /\ exists call, actuator (move d rnd self) = actuator self ++ [call]
                        /\ fst call = grid (move d rnd self))
  /\ (moved = false ->
      move d rnd self = prepareTiles self
      /\ serialize (move d rnd self) = serialize self
      /\ storageManager (move d rnd self) = storageManager self
      /\ actuator (move d rnd self) = actuator self).
Proof.
  intros Hwf Hterm moved resolved.
  pose proof (resolve_inv d self Hwf) as Hinv.
  pose proof Hwf as Hwf'. apply game_wf_spec in Hwf' as [Hsz Hg].
  split; [now apply resolve_moved_iff|]. split.
  - intros Hm. unfold move. rewrite Hterm.
    destruct (resolve d self) as [s1 m] eqn:Hres. subst moved resolved.
    cbn [fst snd] in *. subst m.
    assert (Hav : Grid.cellsAvailable (grid s1) = true).
    { pose proof (resolve_room d self Hwf) as H. rewrite Hres in H. now apply H. }
    destruct (addRandomTile_spec rnd s1 Hav) as (p & v & Hv & Hb & Hc & Hadd).
    exists p, v. repeat split; auto.
    + rewrite Hadd. now destruct (negb (movesAvailable _)).
    + eexists. split.
      * unfold actuate. cbn [actuator].
        assert (Ha : actuator (if negb (movesAvailable (addRandomTile rnd s1))
                               then set_over (addRandomTile rnd s1) true
                               else addRandomTile rnd s1) = actuator self).
        { destruct (negb _); cbn [set_over actuator];
            rewrite Hadd; cbn [set_grid actuator]; apply (inv_act _ _ _ _ _ Hinv). }
        rewrite Ha. reflexivity.
      * reflexivity.
  - intros Hm. unfold move. rewrite Hterm.
    pose proof (resolve_still d self Hwf Hm) as Hstill.
    destruct (resolve d self) as [s1 m] eqn:Hres. subst moved resolved.
    cbn [fst snd] in *. subst m s1.
    repeat split; auto.
    apply prepareTiles_serialize. now apply grid_wf_shaped.
Qed.

(** The sources of every merged tile on the board are unmerged. *)
Lemma resolve_merge_once d self p :
  game_wf self -> merge_once (Grid.cellContent (grid (fst (resolve d self))) p).
Proof. intros Hwf. apply (inv_merge_once _ _ _ _ _ (resolve_inv d self Hwf)). Qed.

Lemma resolve_score d self :
  game_wf self ->
  score (fst (resolve d self)) = score self + merged_total (grid (fst (resolve d self))).
Proof. intros Hwf. apply (inv_score _ _ _ _ _ (resolve_inv d self Hwf)). Qed.

Lemma merged_total_nonneg g : grid_wf g -> 0 <= merged_total g.
Proof.
  intros Hwf. apply grid_wf_spec in Hwf as [_ Ht].
  unfold merged_total, total. apply sumZ_nonneg. intros p _.
  unfold merged_value. destruct (Grid.cellContent g p) as [t0|] eqn:E; [|lia].
  destruct (TileOps.unmerged t0); [lia|].
  destruct (Ht _ _ E) as (_ & _ & Hp). apply is_pow2_pos in Hp. lia.
Qed.

(** What [move] does to a game that is not terminated, in terms of the
    state [resolve] leaves. *)
Lemma move_not_terminated d rnd self :
  isGameTerminated self = false ->
  move d rnd self
  = if snd (resolve d self)
    then actuate (let s2 := addRandomTile rnd (fst (resolve d self)) in
                  if negb (movesAvailable s2) then set_over s2 true else s2)
    else fst (resolve d self).
Proof.
  intros Hterm. unfold move. rewrite Hterm. now destruct (resolve d self) as [s1 []].
Qed.

Lemma move_score d rnd self :
  game_wf self -> isGameTerminated self = false ->
  score (move d rnd self) = score self + merged_total (grid (move d rnd self)).
Proof.
  intros Hwf Hterm. rewrite move_not_terminated by auto.
  pose proof (resolve_inv d self Hwf) as Hinv.
  pose proof (resolve_score d self Hwf) as Hsc.
  destruct (snd (resolve d self)); auto.
  destruct (addRandomTile_inv rnd (fst (resolve d self)) (inv_wf _ _ _ _ _ Hinv))
    as (_ & _ & _ & Hs & _ & _ & _ & _ & _ & Hmt & _).
  cbn zeta. destruct (negb _); cbn [actuate score grid set_over]; now rewrite Hs, Hmt.
Qed.

Lemma move_wf d rnd self : game_wf self -> game_wf (move d rnd self).
Proof.
  intros Hwf. destruct (isGameTerminated self) eqn:Hterm.
  - unfold move. now rewrite Hterm.
  - rewrite move_not_terminated by auto.
    pose proof (resolve_inv d self Hwf) as Hinv.
    pose proof Hwf as Hwf'. apply game_wf_spec in Hwf' as [Hsz Hg].
    destruct (snd (resolve d self)).
    + destruct (addRandomTile_inv rnd (fst (resolve d self)) (inv_wf _ _ _ _ _ Hinv))
        as (Hw & Hs1 & Hs2 & _).
      apply game_wf_spec. cbn zeta.
      destruct (negb _); cbn [actuate size grid set_over]; split; auto;
        rewrite Hs1, Hs2, (inv_size _ _ _ _ _ Hinv), (inv_gsize _ _ _ _ _ Hinv);
        exact Hsz.
    + apply game_wf_spec. split.
      * now rewrite (inv_size _ _ _ _ _ Hinv), (inv_gsize _ _ _ _ _ Hinv).
      * apply (inv_wf _ _ _ _ _ Hinv).
Qed.

Lemma move_score_le d rnd self : game_wf self -> score self <= score (move d rnd self).
Proof.
  intros Hwf. destruct (isGameTerminated self) eqn:Hterm.
  - unfold move. rewrite Hterm. lia.
  - rewrite move_score by auto.
    pose proof (move_wf d rnd self Hwf) as Hw. apply game_wf_spec in Hw as [_ Hw].
    pose proof (merged_total_nonneg _ Hw). lia.
Qed.

Lemma play_wf moves self : game_wf self -> game_wf (play moves self).
Proof.
  revert self. induction moves as [|[d rnd] moves IH]; intros self Hwf; simpl; auto.
  apply IH. now apply move_wf.
Qed.

End MoveTheorems.

Lemma move_accepted_iff_changed_witness :
  let self := Boards.game Boards.three_twos in
  snd (GameManager.resolve Left self) = true
  /\ GameManager.move Up (GameManager.mkRandom true 0) self
     = GameManager.prepareTiles self.
Proof.
  intros self.
  assert (Hwf : game_wf self) by (vm_compute; reflexivity).
  assert (Hterm : GameManager.isGameTerminated self = false) by reflexivity.
  destruct (move_accepted_iff_changed self Left (GameManager.mkRandom true 0) Hwf Hterm)
    as ([_ Hmoved] & _ & _).
  destruct (move_accepted_iff_changed self Up (GameManager.mkRandom true 0) Hwf Hterm)
    as (_ & _ & Hstill).
  split.
  - refine (Hmoved _). vm_compute. discriminate.
  - refine (proj1 (Hstill _)). vm_compute. reflexivity.
Defined.

(** C4 (as stated, refuted): after the move to the left on
    [{(0,0):2, (1,0):2, (2,0):2}] the game is not terminated and a move
    up moves and merges nothing, yet the state after it is not the
    state before: the merged tile at [(0,0)] has lost its merge
    information. *)
Lemma noop_move_resets_bookkeeping :
  let self := GameManager.move Left (GameManager.mkRandom true 0)
                (Boards.game Boards.three_twos) in
  let self' := GameManager.move Up (GameManager.mkRandom true 0) self in
  GameManager.isGameTerminated self = false
  /\ snd (GameManager.resolve Up self) = false
  /\ option_map TileOps.unmerged (Grid.cellContent (GameManager.grid self) (mkPos 0 0))
     = Some false
  /\ option_map TileOps.unmerged (Grid.cellContent (GameManager.grid self') (mkPos 0 0))
     = Some true
  /\ self' <> self.
Proof.
  vm_compute. repeat split; try reflexivity. discriminate.
Qed.

(** ** Terminated games *)

Section Terminated.

Import GameManager.

Lemma isGameTerminated_spec (self : t) :
  isGameTerminated self = true <->
  over self = true \/ (won self = true /\ keepPlaying self = false).
Proof.
  unfold isGameTerminated.
  destruct (over self), (won self), (keepPlaying self); simpl; intuition congruence.
Qed.

(** C10: in a terminated game (over, or won without keepPlaying),
    [move] returns at once and the whole state is as before: grid,
    score, flags, storage and actuator log. *)
Theorem move_terminated (self : t) (direction : Direction) (rnd : Random) :
  over self = true \/ (won self = true /\ keepPlaying self = false) ->
  move direction rnd self = self.
Proof.
  intros H. apply isGameTerminated_spec in H.
  unfold move. now rewrite H.
Qed.

End Terminated.

Lemma move_terminated_witness :
  let self := GameManager.set_over (Boards.game Boards.three_twos) true in
  GameManager.move Left (GameManager.mkRandom true 0) self = self.
Proof.
  intros self. apply (move_terminated self Left (GameManager.mkRandom true 0)).
  left. reflexivity.
Defined.

(** ** Termination check *)

Section MovesAvailable.

Import GameManager.

Implicit Types (s self : t) (g : Grid.t) (c p q : Position) (d : Direction).

Lemma existsb_bind {A B : Type} (f : B -> bool) (h : A -> list B) (l : list A) :
  existsb f (l ≫= h) = existsb (fun x => existsb f (h x)) l.
Proof.
  induction l as [|x l IH]; simpl; auto.
  change (existsb f (h x ++ (l ≫= h)) = existsb f (h x) || existsb (fun x => existsb f (h x)) l).
  now rewrite existsb_app, IH.
Qed.

Lemma existsb_ext_all {A : Type} (f h : A -> bool) (l : list A) :
  (forall x, f x = h x) -> existsb f l = existsb h l.
Proof. intros H. induction l as [|x l IH]; simpl; auto. now rewrite H, IH. Qed.

(** The scan of [tileMatchesAvailable] is the specification's
    [existsAdjacentEqualPair] on the live grid. *)
Lemma tileMatchesAvailable_spec self :
  size self = Grid.size (grid self) ->
  tileMatchesAvailable self = existsAdjacentEqualPair (grid self).
Proof.
  intros Hsz. unfold tileMatchesAvailable, existsAdjacentEqualPair, Grid.positions.
  rewrite Hsz, existsb_bind. apply existsb_ext_all. intros x.
  rewrite existsb_bind. apply existsb_ext_all. intros y.
  simpl. rewrite orb_false_r.
  destruct (Grid.cellContent (grid self) (mkPos x y)); auto.
Qed.

Lemma adjacent_ahead p q :
  adjacent p q <-> exists d, q = ahead p (getVector d) 1.
Proof.
  unfold adjacent, ahead. destruct p as [px py], q as [qx qy]. simpl. split.
  - intros H.
    destruct (Z.eq_dec qx px) as [->|Hx].
    + destruct (Z.eq_dec qy (py - 1)) as [->|Hy].
      * exists Up. simpl. f_equal; lia.
      * exists Down. simpl. f_equal; lia.
    + assert (qy = py) as -> by lia.
      destruct (Z.eq_dec qx (px + 1)) as [->|Hx1].
      * exists Right. simpl. f_equal; lia.
      * exists Left. simpl. f_equal; lia.
  - intros [d [= -> ->]]. destruct d; simpl; lia.
Qed.

Lemma existsAdjacentEqualPair_spec g :
  existsAdjacentEqualPair g = true
  <-> exists p q t u, adjacent p q
        /\ Grid.cellContent g p = Some t /\ Grid.cellContent g q = Some u
        /\ value t = value u.
Proof.
  unfold existsAdjacentEqualPair. rewrite existsb_exists. split.
  - intros (p & _ & H). destruct (Grid.cellContent g p) as [t0|] eqn:Ep; [|discriminate].
    apply existsb_exists in H as (d & _ & H).
    destruct (Grid.cellContent g (ahead p (getVector d) 1)) as [u|] eqn:Eq; [|discriminate].
    apply Z.eqb_eq in H. exists p, (ahead p (getVector d) 1), t0, u.
    repeat split; auto. apply adjacent_ahead. eauto.
  - intros (p & q & t0 & u & Hadj & Hp & Hq & Hv).
    exists p. split.
    + apply list_elem_of_In, withinBounds_positions.
      eapply cellContent_Some_bounds; eauto.
    + rewrite Hp. apply adjacent_ahead in Hadj as [d ->].
      apply existsb_exists. exists d. split.
      * destruct d; simpl; auto.
      * rewrite Hq. apply Z.eqb_eq. auto.
Qed.

(** C6: [movesAvailable] is [cellsAvailable] or the adjacent-equal-pair
    check of the specification, and it is false exactly when the board
    has no empty cell and no two orthogonally adjacent tiles of equal
    value. *)
Theorem movesAvailable_correct self :
  size self = Grid.size (grid self) ->
  movesAvailable self
  = (Grid.cellsAvailable (grid self) || existsAdjacentEqualPair (grid self))
  /\ (movesAvailable self = false
      <-> board_full (grid self) /\ no_equal_neighbours (grid self)).
Proof.
  intros Hsz. unfold movesAvailable. rewrite tileMatchesAvailable_spec by auto.
  split; auto. rewrite orb_false_iff. split.
  - intros [Hc He]. split.
    + intros p Hb Hp.
      assert (Grid.cellsAvailable (grid self) = true); [|congruence].
      apply cellsAvailable_spec. eauto.
    + intros p q t0 u Hadj Hp Hq Hv.
      assert (existsAdjacentEqualPair (grid self) = true); [|congruence].
      apply existsAdjacentEqualPair_spec. exists p, q, t0, u. auto.
  - intros [Hfull Hne]. split.
    + destruct (Grid.cellsAvailable (grid self)) eqn:E; auto.
      apply cellsAvailable_spec in E as (p & Hb & Hp). now apply Hfull in Hb.
    + destruct (existsAdjacentEqualPair (grid self)) eqn:E; auto.
      apply existsAdjacentEqualPair_spec in E as (p & q & t0 & u & Hadj & Hp & Hq & Hv).
      exfalso. eapply Hne; eauto.
Qed.

End MovesAvailable.

Lemma movesAvailable_correct_witness :
  let self := Boards.game Boards.three_twos in
  GameManager.movesAvailable self
  = (Grid.cellsAvailable (GameManager.grid self)
     || existsAdjacentEqualPair (GameManager.grid self)).
Proof.
  intros self. exact (proj1 (movesAvailable_correct self eq_refl)).
Defined.

(** ** Numbers *)

Section Numbers.

Import JSNum.

Implicit Types (a b c : JSNum.t).

(** A score the top-level loops accept over the initial [-Infinity]:
    finite or [+Infinity]. *)
Lemma above_neginf_spec a : above_neginf a <-> is_fin a \/ a = PosInf.
Proof.
  unfold above_neginf, is_fin. destruct a; simpl; split; intros H; auto;
    try discriminate; try (destruct H as [[q' H]|H]; discriminate); eauto.
Qed.

Lemma is_fin_fin q : is_fin (fin q).
Proof. unfold is_fin, fin. eauto. Qed.

Lemma is_fin_of_Z z : is_fin (of_Z z).
Proof. apply is_fin_fin. Qed.

Lemma is_fin_add a b : is_fin a -> is_fin b -> is_fin (add a b).
Proof. intros [p ->] [q ->]. apply is_fin_fin. Qed.

Lemma is_fin_neg a : is_fin a -> is_fin (neg a).
Proof. intros [p ->]. apply is_fin_fin. Qed.

Lemma is_fin_sub a b : is_fin a -> is_fin b -> is_fin (sub a b).
Proof. intros Ha Hb. apply is_fin_add; auto using is_fin_neg. Qed.

Lemma is_fin_mul a b : is_fin a -> is_fin b -> is_fin (mul a b).
Proof. intros [p ->] [q ->]. apply is_fin_fin. Qed.

Lemma is_fin_abs a : is_fin a -> is_fin (abs a).
Proof. intros [p ->]. apply is_fin_fin. Qed.

Lemma is_fin_log2 v : 0 < v -> is_fin (log2 v).
Proof.
  intros Hv. unfold log2.
  destruct (Z.ltb_spec v 0); [lia|]. destruct (Z.eqb_spec v 0); [lia|].
  apply is_fin_of_Z.
Qed.

Lemma is_fin_above a : is_fin a -> above_neginf a.
Proof. intros H. apply above_neginf_spec. now left. Qed.

Lemma above_add a b : above_neginf a -> above_neginf b -> above_neginf (add a b).
Proof.
  rewrite !above_neginf_spec. intros [[p ->] | ->] [[q ->] | ->]; simpl; auto.
  left. apply is_fin_fin.
Qed.

Lemma sgn_pos q : (0 < q)%Q -> sgn q = Gt.
Proof. intros H. unfold sgn. now apply Qgt_alt. Qed.

Lemma Qred_pos q : (0 < q)%Q -> (0 < Qred q)%Q.
Proof. intros H. now rewrite Qred_correct. Qed.

(** Scaling by a positive constant, as the chance layers do. *)
Lemma above_mul_pos q a :
  (0 < q)%Q -> above_neginf a -> above_neginf (mul (fin q) a).
Proof.
  intros Hq. rewrite !above_neginf_spec. intros [[p ->] | ->].
  - left. apply is_fin_fin.
  - right. unfold fin. simpl. rewrite sgn_pos; auto. now apply Qred_pos.
Qed.

Lemma is_fin_mul_fin q a : is_fin a -> is_fin (mul (fin q) a).
Proof. intros [p ->]. apply is_fin_fin. Qed.

Lemma above_div_pos a (n : Z) :
  0 < n -> above_neginf a -> above_neginf (div a (of_Z n)).
Proof.
  intros Hn. rewrite !above_neginf_spec.
  assert (Hs : sgn (Qred (inject_Z n)) = Gt).
  { apply sgn_pos, Qred_pos. unfold Qlt, inject_Z. simpl. lia. }
  intros [[p ->] | ->]; unfold of_Z, fin; simpl; rewrite Hs; auto.
  left. apply is_fin_fin.
Qed.

Lemma ltb_irrefl a : ltb a a = false.
Proof.
  destruct a; simpl; auto.
  destruct (q ?= q)%Q eqn:E; auto.
  rewrite <- Qlt_alt in E. now apply Qlt_irrefl in E.
Qed.

Lemma above_max a b : above_neginf a -> above_neginf b -> above_neginf (max a b).
Proof.
  rewrite !above_neginf_spec. intros [[p ->] | ->] [[q ->] | ->]; simpl; auto.
  - destruct (p ?= q)%Q; left; unfold is_fin; eauto.
Qed.

Lemma max_neginf a : above_neginf a -> max NegInf a = a.
Proof. rewrite above_neginf_spec. intros [[p ->] | ->]; reflexivity. Qed.

Lemma eqb_neginf_above a : above_neginf a -> eqb a NegInf = false.
Proof. rewrite above_neginf_spec. intros [[p ->] | ->]; reflexivity. Qed.

Lemma is_fin_min a b : is_fin a -> is_fin b -> is_fin (min a b).
Proof.
  intros [p ->] [q ->]. simpl. destruct (q ?= p)%Q; unfold is_fin; eauto.
Qed.

Lemma min_posinf a : is_fin a -> min PosInf a = a.
Proof. intros [p ->]. reflexivity. Qed.

(** Addition is associative, infinities and [NaN] included. *)
Lemma add_assoc a b c : add (add a b) c = add a (add b c).
Proof.
  destruct a as [| |p|], b as [| |q|], c as [| |r|]; simpl; auto.
  unfold fin. f_equal. apply Qred_complete.
  rewrite !Qred_correct. ring.
Qed.

End Numbers.

(** ** What the probes leave of the live board *)

Section Stability.

Import GameManager.

Implicit Types (a b self : t) (g : Grid.t) (c p q : Position) (d : Direction).

Lemma same_snapshot_refl a : shaped (grid a) -> same_snapshot a a.
Proof. unfold same_snapshot. intros Hs. repeat (split; [done|]). done. Qed.

Lemma same_snapshot_sym a b : same_snapshot a b -> same_snapshot b a.
Proof.
  unfold same_snapshot. intros (Ha&Hb&H1&H2&H3).
  split; [exact Hb|]. split; [exact Ha|]. repeat split; congruence.
Qed.

Lemma same_snapshot_trans a b (c' : t) :
  same_snapshot a b -> same_snapshot b c' -> same_snapshot a c'.
Proof.
  unfold same_snapshot. intros (Ha&Hb&H1&H2&H3) (Hb'&Hc&H4&H5&H6).
  split; [exact Ha|]. split; [exact Hc|]. repeat split; congruence.
Qed.

Lemma prepareTiles_same_snapshot a : shaped (grid a) -> same_snapshot (prepareTiles a) a.
Proof.
  intros Hs. unfold same_snapshot.
  split; [now apply prepareTiles_shaped|]. split; [exact Hs|].
  split; [reflexivity|]. split; [reflexivity|].
  now apply prepareTiles_serialize_cells.
Qed.

Lemma same_snapshot_copy a b :
  same_snapshot a b -> copyGrid (size a) (grid a) = copyGrid (size b) (grid b).
Proof. intros (_&_&Hs&_&Hc). unfold copyGrid. now rewrite Hs, Hc. Qed.

Lemma same_snapshot_withinBounds a b p :
  same_snapshot a b -> Grid.withinBounds (grid a) p = Grid.withinBounds (grid b) p.
Proof. intros (_&_&_&Hs&_). unfold Grid.withinBounds. now rewrite Hs. Qed.

Lemma same_snapshot_cellAvailable a b p :
  same_snapshot a b -> Grid.cellAvailable (grid a) p = Grid.cellAvailable (grid b) p.
Proof.
  intros H. unfold Grid.cellAvailable. rewrite (same_snapshot_withinBounds a b p H).
  destruct H as (_&_&_&Hs&Hc).
  pose proof (serialize_cells_cellContent _ _ p Hs Hc) as E.
  destruct (Grid.cellContent (grid a) p), (Grid.cellContent (grid b) p);
    simpl in E; try discriminate; auto.
Qed.

Lemma same_snapshot_loop a b (fuel : nat) c v :
  same_snapshot a b ->
  findFarthest_loop fuel (grid a) c v = findFarthest_loop fuel (grid b) c v.
Proof.
  intros H. revert c. induction fuel as [|fuel IH]; intros c; cbn [findFarthest_loop];
    rewrite (same_snapshot_withinBounds a b _ H), (same_snapshot_cellAvailable a b _ H);
    auto.
  destruct (_ && _); auto.
Qed.

Lemma same_snapshot_farthest a b c v :
  same_snapshot a b -> findFarthestPosition a c v = findFarthestPosition b c v.
Proof.
  intros H. unfold findFarthestPosition.
  destruct H as (H1&H2&H3&Hs&H5). rewrite Hs.
  apply same_snapshot_loop. unfold same_snapshot. auto.
Qed.

Lemma tryMove_state d g a : snd (tryMove d g a) = prepareTiles a.
Proof. reflexivity. Qed.

(** The answer of [tryMove] depends on the live grid through its
    snapshot only. *)
Lemma tryMove_stable d g : stable (tryMove d g).
Proof.
  intros a b H. split.
  - unfold tryMove. cbn [fst].
    assert (Hp : same_snapshot (prepareTiles a) (prepareTiles b)).
    { destruct H as (Ha & Hb & ?).
      eapply same_snapshot_trans; [now apply prepareTiles_same_snapshot|].
      eapply same_snapshot_trans; [|apply same_snapshot_sym;
                                     now apply prepareTiles_same_snapshot].
      unfold same_snapshot. auto. }
    assert (Hsz : size a = size b) by (destruct H as (_&_&?&_); auto).
    unfold buildTraversals. rewrite Hsz. rewrite !traverse_flat.
    apply foldl_ext_all. intros m c. unfold tryMove_cell.
    now rewrite (same_snapshot_farthest _ _ c _ Hp).
  - rewrite tryMove_state. apply prepareTiles_same_snapshot. now destruct H.
Qed.

Lemma stable_ret {A : Type} (x : A) : stable (ret x).
Proof. intros a b H. split; auto. apply same_snapshot_refl. now destruct H. Qed.

Lemma stable_bind {A B : Type} (m : State t A) (k : A -> State t B) :
  stable m -> (forall x, stable (k x)) -> stable (bind m k).
Proof.
  intros Hm Hk a b H. unfold bind.
  destruct (Hm a b H) as [E1 S1]. destruct (Hm b a (same_snapshot_sym _ _ H)) as [_ S2].
  destruct (m a) as [x a'], (m b) as [y b']. cbn [fst snd] in *. subst y.
  assert (H' : same_snapshot a' b').
  { eapply same_snapshot_trans; [exact S1|].
    eapply same_snapshot_trans; [exact H|]. now apply same_snapshot_sym. }
  destruct (Hk x a' b' H') as [E2 S3]. split; auto.
  eapply same_snapshot_trans; eauto.
Qed.

Lemma stable_gets_size : stable (gets size).
Proof.
  intros a b H. split.
  - now destruct H as (_&_&?&_).
  - apply same_snapshot_refl. now destruct H.
Qed.

(** [gets grid] followed by a copy of it. *)
Lemma stable_copy {B : Type} (k : Grid.t -> State t B) :
  (forall g, stable (k g)) ->
  stable (bind (gets size) (fun n => bind (gets grid) (fun live => k (copyGrid n live)))).
Proof.
  intros Hk a b H. unfold bind, gets. cbn [fst snd].
  rewrite (same_snapshot_copy a b H). now apply Hk.
Qed.

Lemma stable_foldM {A B : Type} (f : A -> B -> State t A) (l : list B) :
  (forall acc x, stable (f acc x)) -> forall acc, stable (foldM f acc l).
Proof.
  intros Hf. induction l as [|x l IH]; intros acc; cbn [foldM].
  - apply stable_ret.
  - apply stable_bind; auto.
Qed.

(** A loop with a stable body computes the fold of the results its body
    gives in the state the loop started in. *)
Lemma foldM_stable_fold {A B : Type} (f : A -> B -> State t A) (l : list B) :
  (forall acc x, stable (f acc x)) ->
  forall acc a, shaped (grid a) ->
    fst (foldM f acc l a) = foldl (fun acc x => fst (f acc x a)) acc l.
Proof.
  intros Hf. induction l as [|x l IH]; intros acc a Hs; cbn [foldM foldl]; auto.
  unfold bind. destruct (Hf acc x a a (same_snapshot_refl a Hs)) as [_ S].
  destruct (f acc x a) as [acc' a'] eqn:E. cbn [fst snd] in *.
  destruct (stable_foldM f l Hf acc' a' a S) as [E' _]. rewrite E'.
  now apply IH.
Qed.

End Stability.

(** ** The expectimax search *)

Section Expectimax.

Import GameManager AdvancedStrategy.

Implicit Types (a b live : GameManager.t) (g : Grid.t) (s : AdvancedStrategy.t).

Lemma stable_if {A : Type} (c : bool) (m1 m2 : State GameManager.t A) :
  stable m1 -> stable m2 -> stable (if c then m1 else m2).
Proof. now destruct c. Qed.

Lemma expectimax_stable s g (depth : nat) (isMax : bool) :
  stable (expectimax s g depth isMax).
Proof.
  revert g isMax. induction depth as [|depth IH]; intros g isMax; cbn [expectimax].
  - apply stable_ret.
  - destruct isMax.
    + apply stable_bind; [|intros; apply stable_ret].
      apply stable_foldM. intros acc d.
      apply stable_bind; [apply stable_gets_size|]. intros n.
      apply stable_bind; [apply tryMove_stable|]. intros moved.
      destruct moved; [|apply stable_ret].
      apply stable_bind; [apply IH|]. intros v. apply stable_ret.
    + destruct (length (emptyCellsOf g) =? 0)%nat; [apply stable_ret|].
      apply stable_bind; [|intros; apply stable_ret].
      apply stable_foldM. intros [score count] [x y].
      apply stable_bind; [apply stable_gets_size|]. intros n.
      apply stable_bind; [apply IH|]. intros v2.
      apply stable_bind; [apply stable_gets_size|]. intros n'.
      apply stable_bind; [apply IH|]. intros v4. apply stable_ret.
Qed.

(** The value of a call in a state with the same snapshot. *)
Lemma expectimax_value s g depth isMax a b :
  same_snapshot a b ->
  fst (expectimax s g depth isMax a) = fst (expectimax s g depth isMax b).
Proof. intros H. now apply expectimax_stable. Qed.

Lemma chance_fold (A B : Position -> JSNum.t) (l : list Position) (score : JSNum.t) (count : Z) :
  foldl (fun (acc : JSNum.t * Z) c =>
           (JSNum.add (JSNum.add (fst acc) (A c)) (B c), snd acc + 1))
        (score, count) l
  = (foldl JSNum.add score (map (fun c => JSNum.add (A c) (B c)) l),
     count + Z.of_nat (length l)).
Proof.
  revert score count. induction l as [|c l IH]; intros score count.
  - simpl. f_equal. lia.
  - cbn [foldl map length fst snd]. rewrite IH. rewrite add_assoc.
    f_equal. lia.
Qed.

(** C8: for a grid with an empty cell and a depth above 0, the chance
    layer of [expectimax] returns the sum over the empty cells of 0.9
    times the move-layer value with a 2 spawned there plus 0.1 times the
    move-layer value with a 4 spawned there, one level down, divided by
    the number of empty cells; for a grid without an empty cell it
    returns the static evaluation. *)
Theorem expectimax_chance_layer s live g (depth : nat) :
  game_wf live ->
  let cells := emptyCellsOf g in
  let spawn c v := Grid.insertTile (copyGrid (GameManager.size live) g) (TileOps.new c v) in
  let below g' := fst (expectimax s g' depth true live) in
  fst (expectimax s g (S depth) false live)
  = match cells with
    | [] => evaluatePosition s g
    | _ :: _ =>
        JSNum.div
          (foldl JSNum.add (JSNum.of_Z 0)
             (map (fun c => JSNum.add (JSNum.mul (JSNum.fin (9 # 10)) (below (spawn c 2)))
                                      (JSNum.mul (JSNum.fin (1 # 10)) (below (spawn c 4))))
                  cells))
          (JSNum.of_Z (Z.of_nat (length cells)))
    end.
Proof.
  intros Hwf cells spawn below.
  apply game_wf_spec in Hwf as [_ Hwf]. pose proof (grid_wf_shaped _ Hwf) as Hs.
  cbn [expectimax]. fold cells.
  destruct cells as [|c0 cells'] eqn:Ecells; [reflexivity|].
  cbn [length Nat.eqb]. unfold bind at 1. 
  match goal with
  | |- context [foldM ?f ?acc ?l live] =>
      pose proof (foldM_stable_fold f l) as Hfold;
      destruct (foldM f acc l live) as [sc live'] eqn:Erun
  end.
  cbn [ret fst snd].
  assert (Hbody : forall acc (c : Position),
            stable ((fun '(score, count) '(mkPos x y) =>
               bind (gets GameManager.size) (fun size =>
               bind (expectimax s (Grid.insertTile (copyGrid size g) (TileOps.new (mkPos x y) 2))
                       depth true) (fun v2 =>
               bind (gets GameManager.size) (fun size0 =>
               bind (expectimax s (Grid.insertTile (copyGrid size0 g) (TileOps.new (mkPos x y) 4))
                       depth true) (fun v4 =>
               ret (JSNum.add (JSNum.add score (JSNum.mul (JSNum.fin (9 # 10)) v2))
                              (JSNum.mul (JSNum.fin (1 # 10)) v4), count + 1))))))
              acc c)).
  { intros [score count] [x y].
    apply stable_bind; [apply stable_gets_size|]. intros n.
    apply stable_bind; [apply expectimax_stable|]. intros v2.
    apply stable_bind; [apply stable_gets_size|]. intros n'.
    apply stable_bind; [apply expectimax_stable|]. intros v4. apply stable_ret. }
  specialize (Hfold Hbody (JSNum.of_Z 0, 0) live Hs).
  rewrite Erun in Hfold. cbn [fst] in Hfold. rewrite Hfold.
  erewrite foldl_ext_all.
  - rewrite chance_fold. cbn [fst snd]. rewrite Z.add_0_l. reflexivity.
  - intros [score count] [x y]. unfold bind, gets. cbn [fst snd].
    destruct (expectimax_stable s (spawn (mkPos x y) 2) depth true live live
                (same_snapshot_refl live Hs)) as [_ S2].
    unfold spawn in S2.
    destruct (expectimax s (Grid.insertTile (copyGrid (GameManager.size live) g)
                              (TileOps.new (mkPos x y) 2)) depth true live)
      as [v2 live2] eqn:E2.
    cbn [fst snd] in *.
    assert (Hsz : GameManager.size live2 = GameManager.size live)
      by (destruct S2 as (_&_&?&_); auto).
    rewrite Hsz.
    pose proof (expectimax_value s (spawn (mkPos x y) 4) depth true live2 live S2) as E4.
    unfold spawn in E4.
    destruct (expectimax s (Grid.insertTile (copyGrid (GameManager.size live) g)
                              (TileOps.new (mkPos x y) 4)) depth true live2)
      as [v4 live4] eqn:E4'.
    cbn [fst snd] in *. unfold below, spawn. rewrite E2, <- E4. reflexivity.
Qed.

End Expectimax.

Lemma expectimax_chance_layer_witness :
  fst (AdvancedStrategy.expectimax AdvancedStrategy.new Boards.lone_two 1 false
         (Boards.game Boards.lone_two))
  = JSNum.Fin (955621 # 5).
Proof.
  rewrite (expectimax_chance_layer AdvancedStrategy.new (Boards.game Boards.lone_two)
             Boards.lone_two 0 ltac:(vm_compute; reflexivity)).
  vm_compute. reflexivity.
Defined.

Section Positive.

Implicit Types (cs : list (list (option Tile))) (g : Grid.t).

Lemma foldl_inv {A B : Type} (P : A -> Prop) (f : A -> B -> A) (l : list B) (a : A) :
  P a -> (forall a x, P a -> P (f a x)) -> P (foldl f a l).
Proof.
  intros Ha Hf. revert a Ha. induction l as [|x l IH]; intros a Ha; simpl; auto.
Qed.

Lemma cell_at_set_cell_cases cs x y v x' y' t :
  Grid.cell_at (Grid.set_cell cs x y v) x' y' = Some t ->
  v = Some t \/ Grid.cell_at cs x' y' = Some t.
Proof.
  destruct (decide ((x, y) = (x', y'))) as [[= <- <-]|Hne].
  - intros H. destruct (Grid.cell_at cs x y) as [t0|] eqn:E.
    + apply cell_at_Some_row in E as (Hx & Hy & row & Hr & Hc).
      rewrite (cell_at_set_cell_eq cs x y v row) in H; auto.
      now apply lookup_lt_Some in Hc.
    + apply cell_at_Some_row in H as (Hx & Hy & row & Hr & Hc).
      unfold Grid.set_cell in Hr.
      destruct (Z.leb_spec 0 x), (Z.leb_spec 0 y); simpl in Hr; try lia.
      rewrite list_lookup_alter_eq in Hr.
      destruct (cs !! Z.to_nat x) as [row0|] eqn:Er; [|discriminate].
      injection Hr as <-.
      destruct (decide (Z.to_nat y < length row0)%nat) as [Hl|Hl].
      * rewrite list_lookup_insert_eq in Hc by auto. left. congruence.
      * rewrite list_insert_ge in Hc by lia.
        unfold Grid.cell_at in E.
        destruct (Z.leb_spec 0 x), (Z.leb_spec 0 y); simpl in E; try lia.
        rewrite Er, Hc in E. discriminate.
  - rewrite cell_at_set_cell_ne by auto. auto.
Qed.

Lemma cells_positive_set cs x y t :
  cells_positive cs -> 0 < value t -> cells_positive (Grid.set_cell cs x y (Some t)).
Proof.
  intros Hp Ht x' y' t' H. apply cell_at_set_cell_cases in H as [[= <-]|H]; eauto.
Qed.

Lemma cell_at_copy (n : Z) g x y :
  Grid.cell_at (Grid.cells (copyGrid n g)) x y
  = (fun t => TileOps.of_serialized (TileOps.serialize t)) <$> Grid.cell_at (Grid.cells g) x y.
Proof.
  unfold copyGrid, Grid.serialize_cells. cbn [Grid.cells].
  change (Grid.cell_at (Grid.cells g) x y) with (lookup2 (Grid.cells g) x y).
  rewrite cell_at_lookup2, !lookup2_fmap.
  destruct (lookup2 (Grid.cells g) x y); reflexivity.
Qed.

Lemma cells_positive_copy (n : Z) g :
  cells_positive (Grid.cells g) -> cells_positive (Grid.cells (copyGrid n g)).
Proof.
  intros Hp x y t. rewrite cell_at_copy.
  destruct (Grid.cell_at (Grid.cells g) x y) as [t0|] eqn:E; [|discriminate].
  intros [= <-]. simpl. eauto.
Qed.

Lemma cells_positive_insert g t :
  cells_positive (Grid.cells g) -> 0 < value t ->
  cells_positive (Grid.cells (Grid.insertTile g t)).
Proof. intros Hp Ht. now apply cells_positive_set. Qed.

Lemma cells_positive_content g p t :
  cells_positive (Grid.cells g) -> Grid.cellContent g p = Some t -> 0 < value t.
Proof.
  intros Hp H. unfold Grid.cellContent in H.
  destruct (Grid.withinBounds g p); [eauto|discriminate].
Qed.

Lemma cell_at_shaped g x y t :
  shaped g -> Grid.cell_at (Grid.cells g) x y = Some t ->
  Grid.withinBounds g (mkPos x y) = true.
Proof.
  intros (H0 & H1 & H2) H. apply cell_at_Some_row in H as (Hx & Hy & row & Hr & Hc).
  apply withinBounds_spec. simpl.
  pose proof (lookup_lt_Some _ _ _ Hr) as Hlx.
  rewrite Forall_lookup in H2. pose proof (H2 _ _ Hr) as Hrow.
  pose proof (lookup_lt_Some _ _ _ Hc) as Hly. lia.
Qed.

Lemma grid_wf_positive g : grid_wf g -> cells_positive (Grid.cells g).
Proof.
  intros Hwf x y t H. pose proof (grid_wf_shaped _ Hwf) as Hs.
  pose proof (cell_at_shaped g x y t Hs H) as Hb.
  apply grid_wf_spec in Hwf as [_ Ht].
  destruct (Ht (mkPos x y) t) as (_ & _ & Hp).
  - now rewrite cellContent_in.
  - now apply is_pow2_pos.
Qed.

End Positive.

Section AdvancedEval.

Import AdvancedStrategy.

Implicit Types (g : Grid.t) (s : AdvancedStrategy.t).

Lemma scan_cells_nonneg g : 0 <= fst (scan_cells g).
Proof.
  unfold scan_cells.
  apply (foldl_inv (fun acc : Z * Z => 0 <= fst acc)); [simpl; lia|].
  intros [m e] [[x y] [t|]]; simpl; lia.
Qed.

Lemma scan_snake_fin g :
  cells_positive (Grid.cells g) -> JSNum.is_fin (fst (scan_snake g)).
Proof.
  intros Hp. unfold scan_snake.
  apply (foldl_inv (fun acc : JSNum.t * JSNum.t => JSNum.is_fin (fst acc)));
    [apply is_fin_of_Z|].
  intros acc row Hacc.
  apply (foldl_inv (fun acc : JSNum.t * JSNum.t => JSNum.is_fin (fst acc))); auto.
  intros [sc lastValue] pos Hsc. cbn [fst] in *.
  destruct (Grid.cellContent g pos) as [tile|] eqn:E; auto. cbn [fst].
  destruct (JSNum.leb _ _); auto.
  apply is_fin_add; auto. apply is_fin_mul; [|apply is_fin_fin].
  apply is_fin_log2. eapply cells_positive_content; eauto.
Qed.

Lemma scan_neighbours_fin g :
  cells_positive (Grid.cells g) ->
  JSNum.is_fin (fst (scan_neighbours g)) /\ JSNum.is_fin (snd (scan_neighbours g)).
Proof.
  intros Hp. unfold scan_neighbours.
  apply (foldl_inv (fun acc : JSNum.t * JSNum.t =>
                      JSNum.is_fin (fst acc) /\ JSNum.is_fin (snd acc)));
    [split; apply is_fin_of_Z|].
  intros acc x Hacc.
  apply (foldl_inv (fun acc : JSNum.t * JSNum.t =>
                      JSNum.is_fin (fst acc) /\ JSNum.is_fin (snd acc))); auto.
  intros acc' y Hacc'.
  destruct (Grid.cellContent g (mkPos x y)) as [cur|] eqn:E; auto.
  pose proof (cells_positive_content _ _ _ Hp E) as Hcur.
  apply (foldl_inv (fun acc : JSNum.t * JSNum.t =>
                      JSNum.is_fin (fst acc) /\ JSNum.is_fin (snd acc))); auto.
  intros [sm mo] [dx dy] [Hsm Hmo]. cbn [fst snd] in *.
  destruct ((x + dx <? 4) && (y + dy <? 4)); auto.
  destruct (Grid.cellContent g (mkPos (x + dx) (y + dy))) as [nb|] eqn:En; auto.
  pose proof (cells_positive_content _ _ _ Hp En) as Hnb.
  cbn [fst snd]. split.
  - apply is_fin_sub; auto. apply is_fin_abs, is_fin_sub; now apply is_fin_log2.
  - destruct (JSNum.gtb _ _); auto.
    apply is_fin_add; auto. apply is_fin_sub; now apply is_fin_log2.
Qed.

(** The static evaluation of a board of positive tiles is finite, or
    [+Infinity] on a board without tiles. *)
Lemma evaluatePosition_above s g :
  cells_positive (Grid.cells g) -> JSNum.above_neginf (evaluatePosition s g).
Proof.
  intros Hp. unfold evaluatePosition.
  pose proof (scan_cells_nonneg g) as Hmax.
  destruct (scan_cells g) as [maxTile emptyCells]. cbn [fst] in Hmax.
  pose proof (scan_snake_fin g Hp) as Hsn.
  destruct (scan_snake g) as [snake lastValue]. cbn [fst] in Hsn.
  destruct (scan_neighbours_fin g Hp) as [Hsm Hmo].
  destruct (scan_neighbours g) as [smoothness monotonicity]. cbn [fst snd] in *.
  match goal with
  | |- JSNum.above_neginf (if negb ?c then JSNum.sub ?sc ?pen else _) =>
      assert (Hscore : JSNum.is_fin sc); [|destruct c; cbn [negb]]
  end.
  - repeat apply is_fin_add; try apply is_fin_of_Z;
      apply is_fin_mul; auto; apply is_fin_of_Z.
  - now apply is_fin_above.
  - destruct (Z.eq_dec maxTile 0) as [->|Hne].
    + destruct Hscore as [q ->]. reflexivity.
    + apply is_fin_above, is_fin_sub; auto.
      apply is_fin_mul; [|apply is_fin_of_Z]. apply is_fin_log2. lia.
Qed.

End AdvancedEval.

Section Loops.

Lemma foldM_inv {S A B : Type} (P : A -> Prop) (f : A -> B -> State S A) (l : list B) :
  (forall acc x st, P acc -> P (fst (f acc x st))) ->
  forall acc st, P acc -> P (fst (foldM f acc l st)).
Proof.
  intros Hf. induction l as [|x l IH]; intros acc st Hacc; cbn [foldM]; auto.
  unfold bind. pose proof (Hf acc x st Hacc) as H.
  destruct (f acc x st) as [acc' st']. now apply IH.
Qed.

Lemma foldM_count {S B : Type} (P : JSNum.t -> Prop)
  (f : JSNum.t * Z -> B -> State S (JSNum.t * Z)) (l : list B) :
  (forall acc x st, P (fst acc) ->
     P (fst (fst (f acc x st))) /\ snd (fst (f acc x st)) = snd acc + 1) ->
  forall acc st, P (fst acc) ->
    P (fst (fst (foldM f acc l st)))
    /\ snd (fst (foldM f acc l st)) = snd acc + Z.of_nat (length l).
Proof.
  intros Hf. induction l as [|x l IH]; intros acc st Hacc; cbn [foldM].
  - simpl. split; auto. lia.
  - unfold bind. destruct (Hf acc x st Hacc) as [H1 H2].
    destruct (f acc x st) as [acc' st']. cbn [fst snd] in *.
    destruct (IH acc' st' H1) as [H3 H4]. split; auto. rewrite H4, H2.
    cbn [length]. lia.
Qed.

End Loops.

Section AdvancedSearch.

Import GameManager AdvancedStrategy.

Implicit Types (a b live : GameManager.t) (g : Grid.t) (s : AdvancedStrategy.t).

(** Every value [expectimax] returns on a board of positive tiles is
    finite or [+Infinity]. *)
Lemma expectimax_above s g (depth : nat) (isMax : bool) a :
  cells_positive (Grid.cells g) ->
  JSNum.above_neginf (fst (expectimax s g depth isMax a)).
Proof.
  revert g isMax a. induction depth as [|depth IH]; intros g isMax a Hp; cbn [expectimax].
  - now apply evaluatePosition_above.
  - destruct isMax.
    + unfold bind at 1.
      match goal with
      | |- context [foldM ?f ?acc ?l a] =>
          pose proof (foldM_inv (fun v => v = JSNum.NegInf \/ JSNum.above_neginf v) f l) as Hl;
          destruct (foldM f acc l a) as [best a'] eqn:Erun
      end.
      cbn [ret fst].
      assert (Hbest : best = JSNum.NegInf \/ JSNum.above_neginf best).
      { change best with (fst (best, a')). rewrite <- Erun. apply Hl; auto.
        intros acc d st Hacc. unfold bind, gets. cbn [fst snd].
        destruct (tryMove d _ st) as [[] st1]; cbn [ret fst]; auto.
        pose proof (IH (copyGrid (GameManager.size st) g) false st1
                      (cells_positive_copy _ _ Hp)) as Hv.
        destruct (expectimax s _ depth false st1) as [v st2]. cbn [fst] in *.
        right. destruct Hacc as [->|Hacc].
        - now rewrite max_neginf.
        - now apply above_max. }
      destruct Hbest as [->|Hbest].
      * simpl. now apply evaluatePosition_above.
      * rewrite eqb_neginf_above by auto. exact Hbest.
    + destruct (length (emptyCellsOf g)) as [|n] eqn:El; cbn [Nat.eqb];
        [now apply evaluatePosition_above|].
      unfold bind at 1.
      match goal with
      | |- context [foldM ?f ?acc ?l a] =>
          pose proof (foldM_count JSNum.above_neginf f l) as Hl;
          destruct (foldM f acc l a) as [sc a'] eqn:Erun
      end.
      cbn [ret fst].
      destruct (Hl) with (acc := (JSNum.of_Z 0, 0)) (st := a) as [H1 H2].
      * intros [score count] [x y] st Hacc. unfold bind, gets. cbn [fst snd] in *.
        pose proof (IH (Grid.insertTile (copyGrid (GameManager.size st) g)
                          (TileOps.new (mkPos x y) 2)) true st) as Hv2.
        destruct (expectimax s _ depth true st) as [v2 st2]. cbn [fst snd] in *.
        pose proof (IH (Grid.insertTile (copyGrid (GameManager.size st2) g)
                          (TileOps.new (mkPos x y) 4)) true st2) as Hv4.
        destruct (expectimax s _ depth true st2) as [v4 st4]. cbn [ret fst snd] in *.
        split; auto.
        apply above_add; [apply above_add; auto|]; apply above_mul_pos;
          try reflexivity.
        -- apply Hv2. apply cells_positive_insert; [now apply cells_positive_copy|].
           simpl. lia.
        -- apply Hv4. apply cells_positive_insert; [now apply cells_positive_copy|].
           simpl. lia.
      * apply is_fin_above, is_fin_of_Z.
      * rewrite Erun in H1, H2. cbn [fst snd] in H1, H2.
        rewrite H2, El. apply above_div_pos; auto. lia.
Qed.

End AdvancedSearch.

Section TopLoop.

Context {S : Type}.
Variable lg : Direction -> bool.
Variable Q : JSNum.t -> Prop.
Variable I : S -> Prop.
Variable f : Best -> Direction -> State S Best.

Hypothesis Q_above : forall v, Q v -> JSNum.above_neginf v.

(** What one round of a top-level loop does: nothing for an illegal
    direction, [better] with a score in [Q] for a legal one. *)
Hypothesis f_spec : forall best d st, I st ->
  I (snd (f best d st))
  /\ ((lg d = false /\ fst (f best d st) = best)
      \/ (lg d = true /\ exists v, Q v /\ fst (f best d st) = better v d best)).

Lemma top_loop_state (l : list Direction) best st :
  I st -> I (snd (foldM f best l st)).
Proof.
  revert best st. induction l as [|d l IH]; intros best st Hst; cbn [foldM]; auto.
  unfold bind. destruct (f_spec best d st Hst) as [Hst' _].
  destruct (f best d st) as [best' st']. now apply IH.
Qed.

(** Once a legal direction is held, the loop keeps holding a legal
    direction, with a score above [-Infinity]. *)
Lemma top_loop_keeps_legal (l : list Direction) best st :
  I st -> lg (bestMove best) = true -> JSNum.above_neginf (bestScore best) ->
  lg (bestMove (fst (foldM f best l st))) = true.
Proof.
  revert best st. induction l as [|d l IH]; intros best st Hst Hl Ha; cbn [foldM]; auto.
  unfold bind. destruct (f_spec best d st Hst) as [Hst' Hf].
  destruct (f best d st) as [best' st']. cbn [fst snd] in *.
  destruct Hf as [[_ ->]|(Hd & v & Hv & ->)]; [now apply IH|].
  unfold better. destruct (JSNum.gtb v (bestScore best)); apply IH; auto.
Qed.

Lemma top_loop_none (l : list Direction) best st :
  I st -> (forall d, d ∈ l -> lg d = false) -> fst (foldM f best l st) = best.
Proof.
  revert best st. induction l as [|d l IH]; intros best st Hst Hl; cbn [foldM]; auto.
  unfold bind. destruct (f_spec best d st Hst) as [Hst' Hf].
  destruct (f best d st) as [best' st']. cbn [fst snd] in *.
  destruct Hf as [[_ ->]|(Hd & _)].
  - apply IH; auto. intros d' Hd'. apply Hl. now apply list_elem_of_further.
  - rewrite Hl in Hd by apply list_elem_of_here. discriminate.
Qed.

(** The loop returns a legal direction when there is one, and the
    initial [Up] otherwise. *)
Lemma top_loop_legal (l : list Direction) st :
  I st ->
  let r := bestMove (fst (foldM f (mkBest JSNum.NegInf Up) l st)) in
  ((exists d, d ∈ l /\ lg d = true) -> lg r = true)
  /\ ((forall d, d ∈ l -> lg d = false) -> r = Up).
Proof.
  intros Hst r. split.
  - subst r. revert st Hst. induction l as [|d l IH]; intros st Hst (d0 & Hin & Hd0).
    + now apply elem_of_nil in Hin.
    + cbn [foldM]. unfold bind. destruct (f_spec (mkBest JSNum.NegInf Up) d st Hst) as [Hst' Hf].
      destruct (f (mkBest JSNum.NegInf Up) d st) as [best' st']. cbn [fst snd] in *.
      destruct Hf as [[Hd ->]|(Hd & v & Hv & ->)].
      * apply IH; auto. exists d0. split; auto.
        apply elem_of_cons in Hin as [->|Hin]; auto. congruence.
      * unfold better. cbn [bestScore]. unfold JSNum.gtb.
        rewrite (Q_above v Hv). apply top_loop_keeps_legal; auto.
  - intros Hl. subst r. now rewrite top_loop_none.
Qed.

Hypothesis Q_ties : forall v v', Q v -> Q v' -> JSNum.gtb v' v = false.

Lemma top_loop_keeps_first (l : list Direction) best st :
  I st -> Q (bestScore best) -> fst (foldM f best l st) = best.
Proof.
  revert best st. induction l as [|d l IH]; intros best st Hst Hq; cbn [foldM]; auto.
  unfold bind. destruct (f_spec best d st Hst) as [Hst' Hf].
  destruct (f best d st) as [best' st']. cbn [fst snd] in *.
  destruct Hf as [[_ ->]|(Hd & v & Hv & ->)]; [now apply IH|].
  unfold better. rewrite Q_ties by auto. now apply IH.
Qed.

(** When no score of a legal direction beats another, the loop returns
    the first legal direction. *)
Lemma top_loop_first (l : list Direction) st :
  I st ->
  bestMove (fst (foldM f (mkBest JSNum.NegInf Up) l st))
  = match List.find lg l with Some d => d | None => Up end.
Proof.
  revert st. induction l as [|d l IH]; intros st Hst; cbn [foldM List.find]; auto.
  unfold bind. destruct (f_spec (mkBest JSNum.NegInf Up) d st Hst) as [Hst' Hf].
  destruct (f (mkBest JSNum.NegInf Up) d st) as [best' st']. cbn [fst snd] in *.
  destruct Hf as [[Hd ->]|(Hd & v & Hv & ->)]; rewrite Hd.
  - now apply IH.
  - unfold better. cbn [bestScore]. unfold JSNum.gtb. rewrite (Q_above v Hv).
    rewrite top_loop_keeps_first; auto.
Qed.

End TopLoop.

Section AdvancedTop.

Import GameManager AdvancedStrategy.

Implicit Types (a b live : GameManager.t) (g : Grid.t) (s : AdvancedStrategy.t).

Lemma legal_same a live d :
  same_snapshot a live ->
  fst (tryMove d (copyGrid (GameManager.size a) (GameManager.grid a)) a) = legal live d.
Proof.
  intros H. unfold legal. rewrite (same_snapshot_copy a live H).
  now apply tryMove_stable.
Qed.

(** The top-level loop of the expectimax strategy returns the first
    legal direction: every legal direction is scored on the same
    untouched copy of the live grid. *)
Lemma advanced_getNextMove_first s live :
  game_wf live -> fst (getNextMove s live) = first_legal live.
Proof.
  intros Hwf. pose proof Hwf as Hwf'. apply game_wf_spec in Hwf' as [Hsz Hg].
  pose proof (grid_wf_shaped _ Hg) as Hs.
  set (G0 := copyGrid (GameManager.size live) (GameManager.grid live)).
  set (V := fst (expectimax s G0 (SEARCH_DEPTH s) false live)).
  unfold getNextMove, first_legal. unfold bind at 1.
  match goal with
  | |- context [foldM ?f ?acc ?l live] =>
      pose proof (top_loop_first (legal live) (fun v => v = V)
                    (fun st => same_snapshot st live) f) as Hloop;
      destruct (foldM f acc l live) as [best live'] eqn:Erun
  end.
  cbn [ret fst]. change best with (fst (best, live')). rewrite <- Erun.
  apply Hloop; [| | |now apply same_snapshot_refl].
  - intros v ->. apply expectimax_above. apply cells_positive_copy.
    now apply grid_wf_positive.
  - intros best0 d st Hst. unfold bind, gets. cbn [fst snd].
    pose proof (legal_same st live d Hst) as Hl.
    pose proof (tryMove_stable d (copyGrid (GameManager.size st) (GameManager.grid st))
                  st st (same_snapshot_refl st ltac:(now destruct Hst))) as [_ S1].
    rewrite (same_snapshot_copy st live Hst) in *. fold G0 in Hl, S1 |- *.
    destruct (tryMove d G0 st) as [moved st1]. cbn [fst snd] in *. subst moved.
    assert (S1' : same_snapshot st1 live) by (eapply same_snapshot_trans; eauto).
    destruct (legal live d).
    + pose proof (expectimax_stable s G0 (SEARCH_DEPTH s) false st1 live S1') as [E S2].
      destruct (expectimax s G0 (SEARCH_DEPTH s) false st1) as [score st2].
      cbn [ret fst snd] in *. split.
      * eapply same_snapshot_trans; eauto.
      * right. split; auto. exists score. split; auto.
    + cbn [ret fst snd]. split; auto.
  - intros v v' -> ->. apply ltb_irrefl.
Qed.

End AdvancedTop.

(** ** The alpha-beta search *)

Section Loops2.

Lemma foldl_inv_in {A B : Type} (P : A -> Prop) (f : A -> B -> A) (l : list B) (a : A) :
  P a -> (forall a x, x ∈ l -> P a -> P (f a x)) -> P (foldl f a l).
Proof.
  revert a. induction l as [|x l IH]; intros a Ha Hf; simpl; auto.
  apply IH.
  - apply Hf; auto. apply list_elem_of_here.
  - intros a' x' Hx'. apply Hf. now apply list_elem_of_further.
Qed.

Lemma foldM_inv2 {S A B : Type} (P : A -> Prop) (I : S -> Prop)
  (f : A -> B -> State S A) (l : list B) :
  (forall acc x st, P acc -> I st -> P (fst (f acc x st)) /\ I (snd (f acc x st))) ->
  forall acc st, P acc -> I st ->
    P (fst (foldM f acc l st)) /\ I (snd (foldM f acc l st)).
Proof.
  intros Hf. induction l as [|x l IH]; intros acc st Hacc Hst; cbn [foldM]; auto.
  unfold bind. destruct (Hf acc x st Hacc Hst) as [H1 H2].
  destruct (f acc x st) as [acc' st']. now apply IH.
Qed.

End Loops2.

Section MasterEval.

Import MasterStrategy.

Implicit Types (g : Grid.t).

Lemma weight_at_fin (n : nat) (late : bool) x y :
  0 <= x < 4 -> 0 <= y < 4 ->
  JSNum.is_fin (weight_at (if late then LATE_GAME_WEIGHTS (make n)
                           else EARLY_GAME_WEIGHTS (make n)) x y).
Proof.
  intros Hx Hy.
  assert (Ex : x = 0 \/ x = 1 \/ x = 2 \/ x = 3) by lia.
  assert (Ey : y = 0 \/ y = 1 \/ y = 2 \/ y = 3) by lia.
  destruct late;
    destruct Ex as [->|[->|[->| ->]]]; destruct Ey as [->|[->|[->| ->]]];
    apply is_fin_of_Z.
Qed.

Lemma scan_cell_fin (n : nat) (late : bool) g x y a :
  cells_positive (Grid.cells g) -> 0 <= x < 4 -> 0 <= y < 4 ->
  JSNum.is_fin (sc_score a) /\ JSNum.is_fin (sc_chainScore a) ->
  let a' := scan_cell (if late then LATE_GAME_WEIGHTS (make n)
                       else EARLY_GAME_WEIGHTS (make n)) g x y a in
  JSNum.is_fin (sc_score a') /\ JSNum.is_fin (sc_chainScore a').
Proof.
  intros Hp Hx Hy [Hs Hc]. unfold scan_cell.
  destruct (Grid.cellContent g (mkPos x y)) as [tile|] eqn:E; [|now split].
  pose proof (cells_positive_content _ _ _ Hp E) as Ht.
  destruct (value tile >? sc_maxTile a); cbn [sc_score sc_chainScore]; split.
  all: try (apply is_fin_add; auto; apply is_fin_mul;
            [apply is_fin_of_Z|now apply weight_at_fin]).
  all: repeat match goal with
         | |- JSNum.is_fin (if ?c then _ else _) => destruct c
         | |- JSNum.is_fin (match ?c with Some _ => _ | None => _ end) => destruct c
         | |- JSNum.is_fin (JSNum.add _ _) => apply is_fin_add
         | |- JSNum.is_fin (JSNum.log2 _) => now apply is_fin_log2
         end; auto.
Qed.

(** The static evaluation of the alpha-beta strategy is finite on a
    board of positive tiles. *)
Lemma master_evaluatePosition_fin (n : nat) g (late : bool) :
  cells_positive (Grid.cells g) ->
  JSNum.is_fin (evaluatePosition (make n) g late).
Proof.
  intros Hp. unfold evaluatePosition.
  match goal with
  | |- context [foldl ?f ?a0 (seqZ 0 4)] =>
      assert (Ha : JSNum.is_fin (sc_score (foldl f a0 (seqZ 0 4)))
                   /\ JSNum.is_fin (sc_chainScore (foldl f a0 (seqZ 0 4))));
      [|destruct Ha as [Hs Hc]; generalize dependent (foldl f a0 (seqZ 0 4))]
  end.
  - apply (foldl_inv_in (fun a => JSNum.is_fin (sc_score a)
                                  /\ JSNum.is_fin (sc_chainScore a))).
    + split; apply is_fin_of_Z.
    + intros a x Hx Ha. apply elem_of_seqZ in Hx.
      apply (foldl_inv_in (fun a => JSNum.is_fin (sc_score a)
                                    /\ JSNum.is_fin (sc_chainScore a))); auto.
      intros a' y Hy Ha'. apply elem_of_seqZ in Hy.
      apply scan_cell_fin; auto; lia.
  - intros a Hs Hc.
    match goal with
    | |- JSNum.is_fin (if ?c then JSNum.sub ?sc _ else _) =>
        assert (Hscore : JSNum.is_fin sc); [|destruct c; auto]
    end.
    + repeat apply is_fin_add; auto; try apply is_fin_of_Z.
      apply is_fin_mul; auto. apply is_fin_of_Z.
    + apply is_fin_sub; auto. apply is_fin_of_Z.
Qed.

End MasterEval.

Section MasterSearch.

Import GameManager MasterStrategy.

Implicit Types (live : GameManager.t) (g : Grid.t) (w : World).

Lemma above_min a b :
  JSNum.above_neginf a -> JSNum.above_neginf b -> JSNum.above_neginf (JSNum.min a b).
Proof.
  rewrite !above_neginf_spec. intros [[p ->] | ->] [[q ->] | ->]; simpl; auto.
  - destruct (q ?= p)%Q; left; unfold JSNum.is_fin; eauto.
  - left. unfold JSNum.is_fin. eauto.
  - left. unfold JSNum.is_fin. eauto.
Qed.

Lemma bind_unfold {S A B : Type} (m : State S A) (k : A -> State S B) (st : S) :
  bind m k st = let '(x, st') := m st in k x st'.
Proof. reflexivity. Qed.

Lemma liftGM_tryMove d g w :
  liftGM (tryMove d g) w
  = (fst (tryMove d g (manager w)), mkWorld (prepareTiles (manager w)) (draws w)).
Proof. reflexivity. Qed.

(** Every value [alphaBeta] returns on a board of positive tiles is
    finite or [+Infinity], and the live board keeps its snapshot. *)
Lemma alphaBeta_above (n : nat) live g (depth : nat) alpha beta (isMax late : bool) w :
  cells_positive (Grid.cells g) ->
  same_snapshot (manager w) live ->
  JSNum.above_neginf (fst (alphaBeta (make n) g depth alpha beta isMax late w))
  /\ same_snapshot (manager (snd (alphaBeta (make n) g depth alpha beta isMax late w))) live.
Proof.
  revert g alpha beta isMax w.
  induction depth as [|depth IH]; intros g alpha beta isMax w Hp Hw; cbn [alphaBeta].
  - split; auto. apply is_fin_above. now apply master_evaluatePosition_fin.
  - destruct isMax.
    + rewrite bind_unfold.
      match goal with
      | |- context [foldM ?f ?acc ?l w] =>
          pose proof (foldM_inv2
                        (fun lp0 => lp_value lp0 = JSNum.NegInf \/ JSNum.above_neginf (lp_value lp0))
                        (fun w => same_snapshot (manager w) live) f l) as Hl;
          destruct (foldM f acc l w) as [lp w'] eqn:Erun
      end.
      cbn [ret fst snd].
      destruct (Hl) with (acc := mkLoop JSNum.NegInf alpha false) (st := w)
        as [Hv Hw']; auto.
      * intros acc d st Hacc Hst. destruct (lp_broken acc); [now split|].
        unfold bind, gets. cbn [fst snd]. rewrite liftGM_tryMove.
        cbn [fst snd manager].
        assert (Hst1 : same_snapshot (prepareTiles (manager st)) live).
        { eapply same_snapshot_trans; [|exact Hst].
          apply prepareTiles_same_snapshot. now destruct Hst. }
        destruct (fst (tryMove d _ (manager st))); cbn [ret fst snd]; [|now split].
        destruct (IH (copyGrid (GameManager.size (manager st)) g) (lp_bound acc) beta false
                    (mkWorld (prepareTiles (manager st)) (draws st))
                    (cells_positive_copy _ _ Hp) Hst1) as [Hv Hst2].
        destruct (alphaBeta (make n) _ depth (lp_bound acc) beta false late _) as [v st2].
        cbn [fst snd lp_value] in *. split; auto.
        right. destruct Hacc as [->|Hacc].
        -- now rewrite max_neginf.
        -- now apply above_max.
      * rewrite Erun in Hv, Hw'. cbn [fst snd] in *. split; auto.
        destruct Hv as [->|Hv].
        -- simpl. apply is_fin_above. now apply master_evaluatePosition_fin.
        -- rewrite eqb_neginf_above by auto. exact Hv.
    + destruct (length (emptyCellsOf g) =? 0)%nat.
      { split; auto. apply is_fin_above. now apply master_evaluatePosition_fin. }
      rewrite bind_unfold. unfold sampleCells. cbv beta iota.
      rewrite bind_unfold.
      match goal with
      | |- context [foldM ?f ?acc ?l ?w0] =>
          pose proof (foldM_inv2
                        (fun lp0 => JSNum.above_neginf (lp_value lp0))
                        (fun w => same_snapshot (manager w) live) f l) as Hl;
          destruct (foldM f acc l w0) as [lp w'] eqn:Erun
      end.
      cbn [ret fst snd].
      match type of Erun with
      | foldM _ ?acc0 _ ?w0 = _ =>
          destruct (Hl) with (acc := acc0) (st := w0) as [Hv Hw']; auto
      end.
      * intros acc [x y] st Hacc Hst. destruct (lp_broken acc); [now split|].
        unfold bind, gets. cbn [fst snd].
        destruct (IH (Grid.insertTile (copyGrid (GameManager.size (manager st)) g)
                        (TileOps.new (mkPos x y) 2)) alpha (lp_bound acc) true st) as [Hv2 Hst2];
          auto.
        { apply cells_positive_insert; [now apply cells_positive_copy|]. simpl. lia. }
        destruct (alphaBeta (make n) _ depth alpha (lp_bound acc) true late st) as [v2 st2].
        cbn [fst snd] in *.
        destruct (IH (Grid.insertTile (copyGrid (GameManager.size (manager st2)) g)
                        (TileOps.new (mkPos x y) 4)) alpha (lp_bound acc) true st2) as [Hv4 Hst4];
          auto.
        { apply cells_positive_insert; [now apply cells_positive_copy|]. simpl. lia. }
        destruct (alphaBeta (make n) _ depth alpha (lp_bound acc) true late st2) as [v4 st4].
        cbn [ret fst snd lp_value] in *. split; auto.
        apply above_min; [apply above_min; auto|]; apply above_mul_pos; auto; reflexivity.
      * reflexivity.
      * rewrite Erun in Hv, Hw'. cbn [fst snd] in *. split; auto.
Qed.

(** One round of the top-level loop of the alpha-beta strategy. *)
Lemma master_round (n : nat) live (late : bool) best d w :
  game_wf live -> same_snapshot (manager w) live ->
  let r :=
    (bind (gets (fun w => GameManager.size (manager w))) (fun size =>
     bind (gets (fun w => GameManager.grid (manager w))) (fun snapshot =>
     bind (liftGM (tryMove d (copyGrid size snapshot))) (fun moved : bool =>
       if moved then
         bind (alphaBeta (make n) (copyGrid size snapshot) (SEARCH_DEPTH (make n))
                 JSNum.NegInf JSNum.PosInf false late)
              (fun score => ret (better score d best))
       else ret best)))) w in
  same_snapshot (manager (snd r)) live
  /\ ((legal live d = false /\ fst r = best)
      \/ (legal live d = true
          /\ exists v, JSNum.above_neginf v /\ fst r = better v d best)).
Proof.
  intros Hwf Hw r. subst r. unfold bind, gets. cbn [fst snd].
  rewrite liftGM_tryMove. cbn [fst snd].
  rewrite (legal_same (manager w) live d Hw).
  assert (Hw1 : same_snapshot (prepareTiles (manager w)) live).
  { eapply same_snapshot_trans; [|exact Hw].
    apply prepareTiles_same_snapshot. now destruct Hw. }
  destruct (legal live d); cbn [ret fst snd manager]; [|split; auto].
  apply game_wf_spec in Hwf as [_ Hg].
  destruct (alphaBeta_above n live
              (copyGrid (GameManager.size (manager w)) (GameManager.grid (manager w)))
              (SEARCH_DEPTH (make n)) JSNum.NegInf JSNum.PosInf false late
              (mkWorld (prepareTiles (manager w)) (draws w))) as [Hv Hw2]; auto.
  { rewrite (same_snapshot_copy _ _ Hw). apply cells_positive_copy.
    now apply grid_wf_positive. }
  destruct (alphaBeta (make n) _ _ _ _ _ _ _) as [score w2].
  cbn [ret fst snd] in *. split; auto. right. split; auto. eauto.
Qed.

End MasterSearch.

Section Agreement.

Import GameManager.

Implicit Types (s live : GameManager.t) (g : Grid.t) (c : Position) (d : Direction).

Lemma tryMove_cell_orb s g v (m : bool) c :
  tryMove_cell s g v m c = m || tryMove_cell s g v false c.
Proof.
  unfold tryMove_cell. destruct (Grid.cellContent g c); [|now rewrite orb_false_r].
  destruct (Grid.cellContent g _).
  - destruct (_ && _); [now rewrite orb_true_r|].
    destruct (_ || _); [now rewrite orb_true_r|now rewrite orb_false_r].
  - destruct (_ || _); [now rewrite orb_true_r|now rewrite orb_false_r].
Qed.

Lemma tryMove_fold s g v (l : list Position) (m : bool) :
  foldl (tryMove_cell s g v) m l = m || existsb (tryMove_cell s g v false) l.
Proof.
  revert m. induction l as [|c l IH]; intros m; simpl.
  - now rewrite orb_false_r.
  - rewrite IH, tryMove_cell_orb. now rewrite orb_assoc.
Qed.

Lemma move_cell_keeps_true v s c : snd (move_cell v (s, true) c) = true.
Proof.
  unfold move_cell. destruct (Grid.cellContent (grid s) c); auto.
  destruct (Grid.cellContent (grid s) _) as [nxt|].
  - destruct (_ && _); cbn [snd]; now destruct (negb _).
  - cbn [snd]. now destruct (negb _).
Qed.

Lemma move_fold_keeps_true v (l : list Position) s :
  snd (foldl (move_cell v) (s, true) l) = true.
Proof.
  revert s. induction l as [|c l IH]; intros s; cbn [foldl]; auto.
  pose proof (move_cell_keeps_true v s c) as H.
  destruct (move_cell v (s, true) c) as [s' m]. cbn [snd] in H. subst m. apply IH.
Qed.

Lemma cellContent_copy (n : Z) g c :
  n = Grid.size g ->
  Grid.cellContent (copyGrid n g) c
  = (fun t => TileOps.of_serialized (TileOps.serialize t)) <$> Grid.cellContent g c.
Proof.
  intros ->. unfold Grid.cellContent, Grid.withinBounds. cbn [Grid.size copyGrid].
  destruct (_ && _); auto. apply cell_at_copy.
Qed.

(** On the prepared live board, one callback of [move] sets [moved]
    exactly when the callback of [tryMove] over a copy does, and leaves
    the state as it is otherwise. *)
Lemma step_agree d live c :
  game_wf live ->
  let s0 := prepareTiles live in
  let G0 := copyGrid (GameManager.size live) (grid live) in
  snd (move_cell (getVector d) (s0, false) c) = tryMove_cell s0 G0 (getVector d) false c
  /\ (snd (move_cell (getVector d) (s0, false) c) = false ->
      fst (move_cell (getVector d) (s0, false) c) = s0).
Proof.
  intros Hwf s0 G0. pose proof Hwf as Hwf'. apply game_wf_spec in Hwf' as [Hsz Hg].
  assert (Hg0 : grid_wf (grid s0)) by now apply prepareTiles_grid_wf.
  assert (Hcopy : forall p, Grid.cellContent G0 p
            = (fun t => TileOps.of_serialized (TileOps.serialize t))
                <$> Grid.cellContent (grid live) p).
  { intros p. now apply cellContent_copy. }
  assert (Hprep : forall p, Grid.cellContent (grid s0) p
            = prepareTile <$> Grid.cellContent (grid live) p).
  { intros p. apply prepareTiles_cellContent. }
  unfold move_cell, tryMove_cell. rewrite Hcopy, Hprep.
  destruct (Grid.cellContent (grid live) c) as [tile|] eqn:Ec; cbn [fmap option_fmap option_map];
    [|split; auto].
  assert (Hb : Grid.withinBounds (grid s0) c = true).
  { eapply cellContent_Some_bounds. rewrite Hprep, Ec. reflexivity. }
  destruct (findFarthestPosition_spec s0 d c Hb) as (k & Hk & -> & Hbk & Hav & Hnx).
  cbn [next farthest]. rewrite Hcopy, Hprep.
  apply grid_wf_spec in Hg as [_ Ht]. destruct (Ht _ _ Ec) as (Hx & Hy & _).
  assert (Hslide : forall f,
            f = ahead c (getVector d) k ->
            snd (moveTile s0 (prepareTile tile) f,
                 if negb (positionsEqual c
                            (TileOps.position (TileOps.updatePosition (prepareTile tile) f)))
                 then true else false)
            = (if negb (pos_x f =? pos_x c) || negb (pos_y f =? pos_y c) then true else false)
            /\ (snd (moveTile s0 (prepareTile tile) f,
                     if negb (positionsEqual c
                                (TileOps.position (TileOps.updatePosition (prepareTile tile) f)))
                     then true else false) = false ->
                fst (moveTile s0 (prepareTile tile) f,
                     if negb (positionsEqual c
                                (TileOps.position (TileOps.updatePosition (prepareTile tile) f)))
                     then true else false) = s0)).
  { intros f ->. cbn [fst snd].
    unfold TileOps.position, TileOps.updatePosition. cbn [tile_x tile_y].
    change (mkPos (pos_x (ahead c (getVector d) k)) (pos_y (ahead c (getVector d) k)))
      with (ahead c (getVector d) k).
    rewrite positionsEqual_ahead. split.
    - destruct (Z.eqb_spec k 0) as [->|Hne].
      + rewrite ahead_0, !Z.eqb_refl. reflexivity.
      + cbn [negb].
        assert (E : negb (pos_x (ahead c (getVector d) k) =? pos_x c)
                    || negb (pos_y (ahead c (getVector d) k) =? pos_y c) = true).
        { apply orb_true_iff. rewrite !negb_true_iff, !Z.eqb_neq.
          unfold ahead. destruct d; simpl; lia. }
        now rewrite E.
    - destruct (Z.eqb_spec k 0) as [->|Hne]; [|discriminate]. intros _.
      rewrite ahead_0.
      change (moveTile s0 (prepareTile tile) c)
        with (after_slide s0 (mkPos (tile_x tile) (tile_y tile)) c (prepareTile tile)).
      replace (mkPos (tile_x tile) (tile_y tile)) with c
        by (destruct c; simpl in *; congruence).
      apply after_slide_same; auto.
      rewrite Hprep, Ec. reflexivity. }
  destruct (Grid.cellContent (grid live) (ahead c (getVector d) (k + 1))) as [nxt|] eqn:En;
    cbn [fmap option_fmap option_map]; [|now apply Hslide].
  change (value (prepareTile nxt)) with (value nxt).
  change (value (prepareTile tile)) with (value tile).
  change (value (TileOps.of_serialized (TileOps.serialize nxt))) with (value nxt).
  change (value (TileOps.of_serialized (TileOps.serialize tile))) with (value tile).
  change (TileOps.unmerged (prepareTile nxt)) with true.
  change (TileOps.unmerged (TileOps.of_serialized (TileOps.serialize nxt))) with true.
  destruct ((value nxt =? value tile) && true); [|now apply Hslide].
  cbn [fst snd]. unfold TileOps.position, TileOps.updatePosition. cbn [tile_x tile_y].
  change (mkPos (pos_x (ahead c (getVector d) (k + 1))) (pos_y (ahead c (getVector d) (k + 1))))
    with (ahead c (getVector d) (k + 1)).
  rewrite positionsEqual_ahead.
  destruct (Z.eqb_spec (k + 1) 0); [lia|]. split; [reflexivity|discriminate].
Qed.

Lemma resolve_fold_agree d live (l : list Position) :
  game_wf live ->
  snd (foldl (move_cell (getVector d)) (prepareTiles live, false) l)
  = existsb (tryMove_cell (prepareTiles live)
               (copyGrid (GameManager.size live) (grid live)) (getVector d) false) l.
Proof.
  intros Hwf. induction l as [|c l IH]; auto.
  cbn [foldl existsb]. destruct (step_agree d live c Hwf) as [E Hs]. rewrite <- E.
  destruct (move_cell (getVector d) (prepareTiles live, false) c) as [s' m].
  cbn [fst snd] in *. destruct m.
  - apply move_fold_keeps_true.
  - rewrite Hs by auto. exact IH.
Qed.

(** On a copy of the live grid, [tryMove] answers what [move] would
    find: whether the traversal moves or merges a tile. *)
Lemma legal_resolve d live : game_wf live -> legal live d = snd (resolve d live).
Proof.
  intros Hwf. unfold legal, tryMove, resolve. cbn [fst].
  rewrite !traverse_flat, tryMove_fold, orb_false_l.
  symmetry. now apply resolve_fold_agree.
Qed.

End Agreement.

Section NextMove.

Import GameManager.

Lemma gets_unfold {S A : Type} (f : S -> A) (st : S) : gets f st = (f st, st).
Proof. reflexivity. Qed.

Lemma elem_of_directions (d : Direction) : d ∈ directions.
Proof. unfold directions. destruct d; repeat constructor. Qed.

Lemma master_getNextMove_legal (n : nat) live (ds : list nat) :
  game_wf live ->
  let r := fst (MasterStrategy.getNextMove (MasterStrategy.make n) (mkWorld live ds)) in
  ((exists d, legal live d = true) -> legal live r = true)
  /\ ((forall d, legal live d = false) -> r = Up).
Proof.
  intros Hwf r. subst r. unfold MasterStrategy.getNextMove.
  rewrite bind_unfold, gets_unfold. cbv beta iota.
  rewrite bind_unfold.
  match goal with
  | |- context [foldM ?f ?acc ?l ?w0] =>
      pose proof (top_loop_legal (legal live) JSNum.above_neginf
                    (fun w => same_snapshot (manager w) live) f
                    ltac:(auto)) as Hloop;
      destruct (foldM f acc l w0) as [best w'] eqn:Erun
  end.
  cbn [ret fst].
  assert (Hs : same_snapshot live live).
  { apply same_snapshot_refl. apply game_wf_spec in Hwf as [_ Hg].
    now apply grid_wf_shaped. }
  specialize (Hloop
    ltac:(intros best0 d st Hst; now apply (master_round n live _ best0 d st Hwf Hst))
    directions (mkWorld live ds) Hs).
  cbv zeta in Hloop. rewrite Erun in Hloop. cbn [fst] in Hloop.
  destruct Hloop as [H1 H2]. split.
  - intros [d Hd]. apply H1. exists d. split; auto. apply elem_of_directions.
  - intros Hn. apply H2. intros d _. apply Hn.
Qed.

(** C9: the top-level [getNextMove] of the expectimax and of the
    alpha-beta strategy returns a direction for every well-formed game;
    when no direction is legal it is the default, up, and when some
    direction is legal the returned direction is legal: [move] in that
    direction moves or merges a tile. The expectimax strategy returns
    the first legal direction in the order up, right, down, left. *)
Theorem getNextMove_legal (depth depth' : nat) (live : GameManager.t) (ds : list nat) :
  game_wf live ->
  let moves d := snd (resolve d live) in
  let advanced := fst (AdvancedStrategy.getNextMove (AdvancedStrategy.make depth) live) in
  let master :=
    fst (MasterStrategy.getNextMove (MasterStrategy.make depth') (mkWorld live ds)) in
  ((forall d, moves d = false) -> advanced = Up /\ master = Up)
  /\ ((exists d, moves d = true) -> moves advanced = true /\ moves master = true)
  /\ advanced = match List.find moves directions with Some d => d | None => Up end.
Proof.
  intros Hwf moves advanced master.
  assert (Hm : forall d, moves d = legal live d)
    by (intros d; symmetry; now apply legal_resolve).
  assert (Ha : advanced = first_legal live) by now apply advanced_getNextMove_first.
  destruct (master_getNextMove_legal depth' live ds Hwf) as [M1 M2].
  fold master in M1, M2. unfold first_legal in Ha.
  assert (Hfind : List.find moves directions = List.find (legal live) directions).
  { unfold directions. simpl. now rewrite !Hm. }
  split; [|split].
  - intros Hn. split.
    + rewrite Ha. unfold directions. simpl. rewrite <- !Hm, !Hn. reflexivity.
    + apply M2. intros d. rewrite <- Hm. apply Hn.
  - intros [d Hd]. split.
    + rewrite Ha. destruct (List.find (legal live) directions) as [d'|] eqn:Ef.
      * apply find_some in Ef as [_ Ef]. now rewrite Hm.
      * exfalso. pose proof (find_none _ _ Ef d) as Hc.
        rewrite <- Hm, Hd in Hc. discriminate Hc.
        apply list_elem_of_In, elem_of_directions.
    + rewrite Hm. apply M1. exists d. now rewrite <- Hm.
  - now rewrite Hfind.
Qed.

End NextMove.

Lemma getNextMove_legal_witness :
  let live := Boards.game Boards.lone_two in
  fst (AdvancedStrategy.getNextMove (AdvancedStrategy.make 1) live) = Right
  /\ snd (GameManager.resolve
            (fst (MasterStrategy.getNextMove (MasterStrategy.make 1) (mkWorld live [])))
            live) = true.
Proof.
  intros live.
  assert (Hwf : game_wf live) by (vm_compute; reflexivity).
  pose proof (getNextMove_legal 1 1 live [] Hwf) as H. cbv zeta in H.
  destruct H as (_ & H & Hfirst).
  split.
  - rewrite Hfirst. vm_compute. reflexivity.
  - refine (proj2 (H _)). exists Right. vm_compute. reflexivity.
Defined.

(** ** Shallow alpha-beta searches *)

Section Minimum.

Import JSNum.

Implicit Types (a b v : JSNum.t).

Lemma ltb_fin_false p q : ltb (Fin q) (Fin p) = false <-> (p <= q)%Q.
Proof.
  simpl. destruct (q ?= p)%Q eqn:E.
  - apply Qeq_alt in E. split; auto. intros _. rewrite E. apply Qle_refl.
  - apply Qlt_alt in E. split; [discriminate|]. intros H.
    exfalso. apply (Qlt_not_le _ _ E H).
  - apply Qgt_alt in E. split; auto. intros _. now apply Qlt_le_weak.
Qed.

Lemma min_fin_l p q : ltb (Fin p) (min (Fin p) (Fin q)) = false.
Proof.
  simpl (min _ _). destruct (q ?= p)%Q eqn:E.
  - apply ltb_irrefl.
  - apply Qlt_alt in E. apply ltb_fin_false. now apply Qlt_le_weak.
  - apply ltb_irrefl.
Qed.

Lemma min_fin_r p q : ltb (Fin q) (min (Fin p) (Fin q)) = false.
Proof.
  simpl (min _ _). destruct (q ?= p)%Q eqn:E.
  - apply Qeq_alt in E. apply ltb_fin_false. rewrite E. apply Qle_refl.
  - apply ltb_irrefl.
  - apply Qgt_alt in E. apply ltb_fin_false. now apply Qlt_le_weak.
Qed.

Lemma min_fin_cases p q : min (Fin p) (Fin q) = Fin p \/ min (Fin p) (Fin q) = Fin q.
Proof. simpl. destruct (q ?= p)%Q; auto. Qed.

Lemma ltb_fin_trans p q r :
  ltb (Fin q) (Fin p) = false -> ltb (Fin r) (Fin q) = false -> ltb (Fin r) (Fin p) = false.
Proof. rewrite !ltb_fin_false. intros H1 H2. eapply Qle_trans; eauto. Qed.

Variables A B : Position -> JSNum.t.
Hypothesis A_fin : forall c, is_fin (A c).
Hypothesis B_fin : forall c, is_fin (B c).

Lemma min_step_fin v c : v = PosInf \/ is_fin v -> is_fin (min_step A B v c).
Proof.
  intros Hv. unfold min_step. apply is_fin_min; auto.
  destruct Hv as [->|Hv]; [rewrite min_posinf|apply is_fin_min]; auto.
Qed.

(** The running minimum over [l], started from a finite [v]. *)
Lemma min_fold_from_fin (l : list Position) v :
  is_fin v ->
  let r := foldl (min_step A B) v l in
  is_fin r
  /\ ltb v r = false
  /\ (forall c, c ∈ l -> ltb (A c) r = false /\ ltb (B c) r = false)
  /\ (r = v \/ exists c, c ∈ l /\ (r = A c \/ r = B c)).
Proof.
  revert v. induction l as [|c l IH]; intros v Hv r; subst r; cbn [foldl].
  - repeat split; auto using ltb_irrefl;
      match goal with H : _ ∈ [] |- _ => now apply elem_of_nil in H end.
  - assert (Hs : is_fin (min_step A B v c)) by (apply min_step_fin; auto).
    destruct (IH _ Hs) as (Hr & Hle & Hall & Hatt).
    destruct Hv as [p ->]. destruct (A_fin c) as [qa Ea]. destruct (B_fin c) as [qb Eb].
    set (r := foldl (min_step A B) (min_step A B (Fin p) c) l) in *.
    destruct Hr as [pr Er]. rewrite Er in *.
    assert (Hm : exists pm, min (Fin p) (A c) = Fin pm
                 /\ ltb (Fin p) (Fin pm) = false /\ ltb (A c) (Fin pm) = false
                 /\ (Fin pm = Fin p \/ Fin pm = A c)).
    { rewrite Ea. destruct (min_fin_cases p qa) as [E|E]; rewrite E.
      - exists p. repeat split; auto using ltb_irrefl.
        rewrite <- E. apply min_fin_r.
      - exists qa. repeat split; auto using ltb_irrefl.
        rewrite <- E. apply min_fin_l. }
    destruct Hm as (pm & Em & Hm1 & Hm2 & Hm3).
    assert (Hs2 : exists ps, min_step A B (Fin p) c = Fin ps
                  /\ ltb (Fin pm) (Fin ps) = false /\ ltb (B c) (Fin ps) = false
                  /\ (Fin ps = Fin pm \/ Fin ps = B c)).
    { unfold min_step. rewrite Em, Eb.
      destruct (min_fin_cases pm qb) as [E|E]; rewrite E.
      - exists pm. repeat split; auto using ltb_irrefl.
        rewrite <- E. apply min_fin_r.
      - exists qb. repeat split; auto using ltb_irrefl.
        rewrite <- E. apply min_fin_l. }
    destruct Hs2 as (ps & Es & Hs1 & Hs3 & Hs4).
    rewrite Es in Hle, Hatt. rewrite Ea, Eb in *.
    repeat split.
    + unfold is_fin. eauto.
    + eapply ltb_fin_trans; [exact Hle|]. exact (ltb_fin_trans _ _ _ Hs1 Hm1).
    + apply elem_of_cons in H as [->|H]; [|now apply Hall].
      rewrite Ea. eapply ltb_fin_trans; [exact Hle|].
      exact (ltb_fin_trans _ _ _ Hs1 Hm2).
    + apply elem_of_cons in H as [->|H]; [|now apply Hall].
      rewrite Eb. eapply ltb_fin_trans; [exact Hle|]. exact Hs3.
    + destruct Hatt as [Hatt|(c' & Hc' & Hatt)].
      * rewrite Hatt. destruct Hs4 as [Hs4|Hs4]; rewrite Hs4.
        -- destruct Hm3 as [Hm3|Hm3]; rewrite Hm3; auto.
           right. exists c. split; [apply list_elem_of_here|]. left. now rewrite Ea.
        -- right. exists c. split; [apply list_elem_of_here|]. right. now rewrite Eb.
      * right. exists c'. split; [now apply list_elem_of_further|]. exact Hatt.
Qed.

(** The chance layer's minimum over a non-empty list of cells. *)
Lemma min_fold_spec (l : list Position) :
  l <> [] -> is_min_of A B l (foldl (min_step A B) PosInf l).
Proof.
  destruct l as [|c l]; [congruence|]. intros _. cbn [foldl].
  assert (Hs : is_fin (min_step A B PosInf c)) by (apply min_step_fin; auto).
  destruct (min_fold_from_fin l _ Hs) as (Hr & Hle & Hall & Hatt).
  set (r := foldl (min_step A B) (min_step A B PosInf c) l) in *.
  destruct (A_fin c) as [qa Ea]. destruct (B_fin c) as [qb Eb].
  assert (Es : min_step A B PosInf c = min (Fin qa) (Fin qb)).
  { unfold min_step. now rewrite Ea, Eb. }
  destruct Hr as [pr Er]. rewrite Er, Es in *.
  split; [unfold is_fin; eauto|]. split.
  - intros c' Hc'. apply elem_of_cons in Hc' as [->|Hc']; [|now apply Hall].
    rewrite Ea, Eb. destruct (min_fin_cases qa qb) as [E|E]; rewrite E in Hle.
    + split; auto. eapply ltb_fin_trans; [exact Hle|].
      rewrite <- E. apply min_fin_r.
    + split; auto. eapply ltb_fin_trans; [exact Hle|].
      rewrite <- E. apply min_fin_l.
  - destruct Hatt as [Hatt|(c' & Hc' & Hatt)].
    + exists c. split; [apply list_elem_of_here|]. rewrite Hatt, Ea, Eb.
      destruct (min_fin_cases qa qb) as [E|E]; rewrite E; auto.
    + exists c'. split; [now apply list_elem_of_further|]. exact Hatt.
Qed.

(** Two minima over the same cells do not beat each other. *)
Lemma is_min_of_ties (l l' : list Position) v v' :
  (forall c, c ∈ l <-> c ∈ l') ->
  is_min_of A B l v -> is_min_of A B l' v' -> gtb v' v = false.
Proof.
  intros Hl (_ & _ & c & Hc & Hatt) (_ & Hlow & _). unfold gtb.
  apply Hl in Hc. destruct (Hlow c Hc) as [Ha Hb].
  destruct Hatt as [-> | ->]; auto.
Qed.

End Minimum.

Section Shuffle.

Lemma shuffle_perm {A : Type} (l : list A) (ds : list nat) :
  shuffle (length l) ds l ≡ₚ l.
Proof.
  remember (length l) as n eqn:Hn. revert l ds Hn.
  induction n as [|n IH]; intros l ds Hn; cbn [shuffle].
  - destruct l; [reflexivity|discriminate].
  - destruct (lookup_lt_is_Some_2 l (hd 0%nat ds mod length l)%nat) as [a Ha].
    { apply Nat.mod_upper_bound. lia. }
    rewrite Ha.
    etransitivity; [|symmetry; apply (delete_Permutation l _ a Ha)].
    constructor. apply IH. rewrite length_delete by eauto. lia.
Qed.

Lemma sample_all {A : Type} (l : list A) (ds : list nat) (x : A) :
  (length l <= 3)%nat ->
  x ∈ take (Nat.min 3 (length l)) (shuffle (length l) ds l) <-> x ∈ l.
Proof.
  intros Hl. rewrite take_ge.
  - now rewrite shuffle_perm.
  - rewrite (Permutation_length (shuffle_perm l ds)). lia.
Qed.

Lemma sample_nonempty {A : Type} (l : list A) (ds : list nat) :
  l <> [] -> take (Nat.min 3 (length l)) (shuffle (length l) ds l) <> [].
Proof.
  intros Hl E. apply (f_equal length) in E.
  rewrite length_take, (Permutation_length (shuffle_perm l ds)) in E.
  destruct l; [congruence|]. simpl in E. lia.
Qed.

End Shuffle.

Section Fresh.

Implicit Types (cs : list (list (option Tile))) (g : Grid.t).

Lemma of_serialized_fresh (t : Tile) :
  fresh t -> TileOps.of_serialized (TileOps.serialize t) = t.
Proof. destruct t. unfold fresh. simpl. now intros [-> ->]. Qed.

Lemma fresh_copy (t : Tile) : fresh (TileOps.of_serialized (TileOps.serialize t)).
Proof. split; reflexivity. Qed.

Lemma cells_fresh_copy (n : Z) g : cells_fresh (Grid.cells (copyGrid n g)).
Proof.
  intros x y t. rewrite cell_at_copy.
  destruct (Grid.cell_at (Grid.cells g) x y); [|discriminate].
  intros [= <-]. apply fresh_copy.
Qed.

Lemma cells_fresh_insert g c v :
  cells_fresh (Grid.cells g) ->
  cells_fresh (Grid.cells (Grid.insertTile g (TileOps.new c v))).
Proof.
  intros Hf x y t H. apply cell_at_set_cell_cases in H as [[= <-]|H]; eauto.
  split; reflexivity.
Qed.

(** Copying a grid of fresh tiles gives the grid back. *)
Lemma copy_fresh (n : Z) g :
  cells_fresh (Grid.cells g) -> Grid.size g = n -> copyGrid n g = g.
Proof.
  intros Hf <-. destruct g as [n cs]. unfold copyGrid, Grid.serialize_cells.
  cbn [Grid.size Grid.cells] in *. f_equal.
  rewrite map_map. apply list_eq. intros i.
  change (map ?f cs) with (f <$> cs). rewrite list_lookup_fmap.
  destruct (cs !! i) as [row|] eqn:Er; [|reflexivity]. simpl. f_equal.
  rewrite map_map. apply list_eq. intros j.
  change (map ?f row) with (f <$> row). rewrite list_lookup_fmap.
  destruct (row !! j) as [[t|]|] eqn:Ec; [|reflexivity|reflexivity]. simpl.
  do 2 f_equal. apply of_serialized_fresh. apply (Hf (Z.of_nat i) (Z.of_nat j)).
  unfold Grid.cell_at.
  destruct (Z.leb_spec 0 (Z.of_nat i)), (Z.leb_spec 0 (Z.of_nat j)); try lia.
  simpl. now rewrite !Nat2Z.id, Er, Ec.
Qed.

Lemma spawn_size (n : Z) g c v : Grid.size (spawn n g c v) = n.
Proof. reflexivity. Qed.

Lemma spawn_fresh (n : Z) g c v : cells_fresh (Grid.cells (spawn n g c v)).
Proof. apply cells_fresh_insert, cells_fresh_copy. Qed.

Lemma spawn_positive (n : Z) g c v :
  cells_positive (Grid.cells g) -> 0 < v -> cells_positive (Grid.cells (spawn n g c v)).
Proof.
  intros Hp Hv. apply cells_positive_insert; [now apply cells_positive_copy|]. exact Hv.
Qed.

Lemma omap_fmap_ext {A B C : Type} (f f' : B -> option C) (h h' : A -> B) (l : list A) :
  (forall x, f (h x) = f' (h' x)) -> omap f (h <$> l) = omap f' (h' <$> l).
Proof.
  intros H. induction l as [|x l IH]; auto.
  simpl. rewrite H. destruct (f' (h' x)); [f_equal|]; exact IH.
Qed.

(** The empty cells of a copy are the empty cells of the grid. *)
Lemma emptyCellsOf_copy g :
  emptyCellsOf (copyGrid (Grid.size g) g) = Grid.availableCells g.
Proof.
  unfold emptyCellsOf, Grid.availableCells, Grid.eachCell. cbn [Grid.size copyGrid].
  apply omap_fmap_ext. intros p. rewrite cell_at_copy.
  now destruct (Grid.cell_at (Grid.cells g) (pos_x p) (pos_y p)).
Qed.

End Fresh.

Section ShallowAlphaBeta.

Import GameManager MasterStrategy.

Variable n : nat.
Variable live : GameManager.t.
Variable late : bool.

Implicit Types (g : Grid.t) (w : World) (ds : list nat).

Lemma world_at_size ds w : world_at live ds w -> GameManager.size (manager w) = GameManager.size live.
Proof. intros [(_&_&H&_) _]. exact H. Qed.

Lemma max_same a : JSNum.max a a = a.
Proof.
  destruct a; simpl; auto.
  destruct (q ?= q)%Q; reflexivity.
Qed.

Lemma leb_fin_neginf q : JSNum.leb (JSNum.Fin q) JSNum.NegInf = false.
Proof. reflexivity. Qed.

(** With one level left, the move layer returns the static evaluation
    of its grid: every legal direction is evaluated on an untouched
    copy of it. *)
Lemma alphaBeta_move_layer_1 g alpha beta ds w :
  cells_positive (Grid.cells g) -> cells_fresh (Grid.cells g) ->
  Grid.size g = GameManager.size live ->
  world_at live ds w ->
  fst (alphaBeta (make n) g 1 alpha beta true late w) = evaluatePosition (make n) g late
  /\ world_at live ds (snd (alphaBeta (make n) g 1 alpha beta true late w)).
Proof.
  intros Hp Hf Hsz Hw. cbn [alphaBeta]. rewrite bind_unfold.
  set (e := evaluatePosition (make n) g late).
  assert (He : JSNum.is_fin e) by now apply master_evaluatePosition_fin.
  match goal with
  | |- context [foldM ?f ?acc ?l w] =>
      pose proof (foldM_inv2
                    (fun lp0 => lp_value lp0 = JSNum.NegInf \/ lp_value lp0 = e)
                    (world_at live ds) f l) as Hl;
      destruct (foldM f acc l w) as [lp w'] eqn:Erun
  end.
  cbn [ret fst snd].
  destruct (Hl) with (acc := mkLoop JSNum.NegInf alpha false) (st := w) as [Hv Hw']; auto.
  - intros acc d st Hacc Hst. destruct (lp_broken acc); [now split|].
    rewrite bind_unfold, gets_unfold. cbv beta iota.
    rewrite bind_unfold, liftGM_tryMove. cbv beta iota.
    assert (Hst1 : world_at live ds (mkWorld (prepareTiles (manager st)) (draws st))).
    { destruct Hst as [Hs Hd]. split; auto. cbn [manager].
      eapply same_snapshot_trans; [|exact Hs].
      apply prepareTiles_same_snapshot. now destruct Hs. }
    destruct (fst (tryMove d _ (manager st))); [|now split].
    rewrite (copy_fresh _ g Hf) by (rewrite (world_at_size ds st Hst); auto).
    cbn [ret fst snd lp_value]. fold e. split; auto. right.
    destruct Hacc as [-> | ->].
    + apply max_neginf. now apply is_fin_above.
    + apply max_same.
  - rewrite Erun in Hv, Hw'. cbn [fst snd] in *. split; auto.
    destruct Hv as [-> | ->]; [reflexivity|].
    rewrite eqb_neginf_above; auto. now apply is_fin_above.
Qed.

(** With at most one level left, the move layer returns the static
    evaluation of a spawned board. *)
Lemma alphaBeta_below (depth : nat) g c v alpha beta ds w :
  (depth <= 1)%nat -> cells_positive (Grid.cells g) -> 0 < v ->
  world_at live ds w ->
  let g' := spawn (GameManager.size live) g c v in
  fst (alphaBeta (make n) g' depth alpha beta true late w) = evaluatePosition (make n) g' late
  /\ world_at live ds (snd (alphaBeta (make n) g' depth alpha beta true late w)).
Proof.
  intros Hd Hp Hv Hw g'. destruct depth as [|[|depth]]; [| |lia].
  - cbn [alphaBeta ret fst snd]. auto.
  - apply alphaBeta_move_layer_1; auto.
    + now apply spawn_positive.
    + apply spawn_fresh.
Qed.

Variable g : Grid.t.
Hypothesis g_positive : cells_positive (Grid.cells g).

Local Abbreviation A := (master_two (make n) (GameManager.size live) g late).
Local Abbreviation B := (master_four (make n) (GameManager.size live) g late).

Lemma master_two_fin c : JSNum.is_fin (A c).
Proof.
  apply is_fin_mul_fin, master_evaluatePosition_fin, spawn_positive; auto. lia.
Qed.

Lemma master_four_fin c : JSNum.is_fin (B c).
Proof.
  apply is_fin_mul_fin, master_evaluatePosition_fin, spawn_positive; auto. lia.
Qed.

Lemma min_posinf_or_fin a b :
  a = JSNum.PosInf \/ JSNum.is_fin a -> JSNum.is_fin b -> JSNum.is_fin (JSNum.min a b).
Proof.
  intros [-> |Ha] Hb; [now rewrite min_posinf|now apply is_fin_min].
Qed.

(** The chance loop of [alphaBeta], called with [alpha = -Infinity] and
    at most two levels left, never breaks and computes the running
    minimum of [0.9 * evaluation] with a 2 and [0.1 * evaluation] with a
    4 over the cells it is given. *)
Lemma chance_loop (depth : nat) (l : list Position) ds :
  (depth <= 1)%nat ->
  forall acc w, chance_inv acc -> world_at live ds w ->
  let r :=
    foldM (fun lp '(mkPos x y) =>
             if lp_broken lp then ret lp
             else
               bind (gets (fun w => GameManager.size (manager w))) (fun size =>
               bind (alphaBeta (make n)
                       (Grid.insertTile (copyGrid size g) (TileOps.new (mkPos x y) 2))
                       depth JSNum.NegInf (lp_bound lp) true late) (fun v2 =>
               bind (gets (fun w => GameManager.size (manager w))) (fun size0 =>
               bind (alphaBeta (make n)
                       (Grid.insertTile (copyGrid size0 g) (TileOps.new (mkPos x y) 4))
                       depth JSNum.NegInf (lp_bound lp) true late) (fun v4 =>
               ret (mkLoop
                      (JSNum.min (JSNum.min (lp_value lp) (JSNum.mul (JSNum.fin (9 # 10)) v2))
                                 (JSNum.mul (JSNum.fin (1 # 10)) v4))
                      (JSNum.min (lp_bound lp)
                         (JSNum.min (JSNum.min (lp_value lp) (JSNum.mul (JSNum.fin (9 # 10)) v2))
                                    (JSNum.mul (JSNum.fin (1 # 10)) v4)))
                      (JSNum.leb
                         (JSNum.min (lp_bound lp)
                            (JSNum.min (JSNum.min (lp_value lp)
                                          (JSNum.mul (JSNum.fin (9 # 10)) v2))
                                       (JSNum.mul (JSNum.fin (1 # 10)) v4)))
                         JSNum.NegInf)))))))
          acc l w in
  lp_value (fst r) = foldl (min_step A B) (lp_value acc) l
  /\ world_at live ds (snd r).
Proof.
  intros Hd. induction l as [|[x y] l IH]; intros acc w Hacc Hw r; subst r.
  - cbn [foldM ret fst snd foldl]. auto.
  - cbn [foldM foldl]. rewrite bind_unfold.
    destruct Hacc as (Hb & Hv & Hbd). rewrite Hb.
    rewrite bind_unfold, gets_unfold. cbv beta iota.
    rewrite (world_at_size ds w Hw).
    rewrite bind_unfold.
    destruct (alphaBeta_below depth g (mkPos x y) 2 JSNum.NegInf (lp_bound acc) ds w
                Hd g_positive ltac:(lia) Hw) as [E2 Hw2].
    unfold spawn in E2, Hw2.
    destruct (alphaBeta (make n) _ depth JSNum.NegInf (lp_bound acc) true late w)
      as [v2 w2]. cbn [fst snd] in E2, Hw2. subst v2.
    rewrite bind_unfold, gets_unfold. cbv beta iota.
    rewrite (world_at_size ds w2 Hw2).
    rewrite bind_unfold.
    destruct (alphaBeta_below depth g (mkPos x y) 4 JSNum.NegInf (lp_bound acc) ds w2
                Hd g_positive ltac:(lia) Hw2) as [E4 Hw4].
    unfold spawn in E4, Hw4.
    destruct (alphaBeta (make n) _ depth JSNum.NegInf (lp_bound acc) true late w2)
      as [v4 w4]. cbn [fst snd] in E4, Hw4. subst v4.
    cbn [ret].
    match goal with
    | |- context [foldM _ ?acc' l w4] =>
        destruct (IH acc' w4) as [E Hw']; auto
    end.
    + pose proof (master_two_fin (mkPos x y)) as Ha.
      pose proof (master_four_fin (mkPos x y)) as Hb4.
      unfold master_two, master_four, spawn in Ha, Hb4.
      assert (Hval : JSNum.is_fin
                (JSNum.min (JSNum.min (lp_value acc)
                   (JSNum.mul (JSNum.fin (9 # 10))
                      (evaluatePosition (make n)
                         (Grid.insertTile (copyGrid (GameManager.size live) g)
                            (TileOps.new (mkPos x y) 2)) late)))
                   (JSNum.mul (JSNum.fin (1 # 10))
                      (evaluatePosition (make n)
                         (Grid.insertTile (copyGrid (GameManager.size live) g)
                            (TileOps.new (mkPos x y) 4)) late)))).
      { apply is_fin_min; auto. now apply min_posinf_or_fin. }
      unfold chance_inv. cbn [lp_broken lp_value lp_bound].
      assert (Hbeta : JSNum.is_fin (JSNum.min (lp_bound acc)
                (JSNum.min (JSNum.min (lp_value acc)
                   (JSNum.mul (JSNum.fin (9 # 10))
                      (evaluatePosition (make n)
                         (Grid.insertTile (copyGrid (GameManager.size live) g)
                            (TileOps.new (mkPos x y) 2)) late)))
                   (JSNum.mul (JSNum.fin (1 # 10))
                      (evaluatePosition (make n)
                         (Grid.insertTile (copyGrid (GameManager.size live) g)
                            (TileOps.new (mkPos x y) 4)) late))))).
      { now apply min_posinf_or_fin. }
      split; [|split; auto].
      destruct Hbeta as [q ->]. reflexivity.
Qed.

End ShallowAlphaBeta.

Section ShallowSearch.

Import GameManager MasterStrategy.

Lemma bind_ret_fst {S A B : Type} (m : State S A) (f : A -> B) (st : S) :
  fst (bind m (fun x => ret (f x)) st) = f (fst (m st)).
Proof. unfold bind, ret. now destruct (m st). Qed.

Lemma bind_ret_snd {S A B : Type} (m : State S A) (f : A -> B) (st : S) :
  snd (bind m (fun x => ret (f x)) st) = snd (m st).
Proof. unfold bind, ret. now destruct (m st). Qed.

(** The score of a direction at the top of a search of depth at most 2,
    on a board with at most three empty cells. *)
Lemma master_score (n : nat) live (late : bool) w :
  game_wf live -> same_snapshot (manager w) live -> (n <= 2)%nat ->
  (length (Grid.availableCells (grid live)) <= 3)%nat ->
  let r := alphaBeta (make n) (copyGrid (size live) (grid live)) n
             JSNum.NegInf JSNum.PosInf false late w in
  shallow_score (make n) live late (fst r) /\ same_snapshot (manager (snd r)) live.
Proof.
  intros Hwf Hw Hn Hlen r. subst r.
  pose proof Hwf as Hwf'. apply game_wf_spec in Hwf' as [Hsz Hg].
  assert (Hpos : cells_positive (Grid.cells (copyGrid (size live) (grid live)))).
  { apply cells_positive_copy. now apply grid_wf_positive. }
  unfold shallow_score. change (SEARCH_DEPTH (make n)) with n.
  destruct n as [|n].
  { cbn [alphaBeta ret fst snd]. split; auto. }
  assert (Hcp : emptyCellsOf (copyGrid (size live) (grid live))
                = Grid.availableCells (grid live))
    by (rewrite Hsz; apply emptyCellsOf_copy).
  cbn [alphaBeta]. rewrite Hcp.
  destruct (Grid.availableCells (grid live)) as [|c0 E] eqn:EE.
  { cbn [length Nat.eqb ret fst snd]. split; auto. }
  set (cells := c0 :: E) in *.
  change (length cells =? 0)%nat with false. cbv iota.
  rewrite bind_unfold. unfold sampleCells. cbv beta iota.
  rewrite bind_ret_fst, bind_ret_snd.
  fold (sampled cells (draws w)).
  pose proof (chance_loop (S n) live late _ Hpos n (sampled cells (draws w))
                (drop (length cells) (draws w)) ltac:(lia)
                (mkLoop JSNum.PosInf JSNum.PosInf false)
                (mkWorld (manager w) (drop (length cells) (draws w)))) as Hloop.
  cbv zeta in Hloop.
  assert (Hinv : chance_inv (mkLoop JSNum.PosInf JSNum.PosInf false))
    by (unfold chance_inv; cbn; auto).
  assert (Hat : world_at live (drop (length cells) (draws w))
                  (mkWorld (manager w) (drop (length cells) (draws w))))
    by (split; [exact Hw|reflexivity]).
  destruct (Hloop Hinv Hat) as [Hv Hw'].
  split; [|destruct Hw' as [Hs _]; exact Hs].
  right. split; [lia|]. split; [discriminate|].
  exists (sampled cells (draws w)). split.
  - intros c. now apply sample_all.
  - cbn [lp_value] in Hv.
    match goal with
    | |- is_min_of ?A ?B ?l ?v =>
        replace v with (foldl (min_step A B) JSNum.PosInf l) by (symmetry; exact Hv)
    end.
    apply min_fold_spec.
    + now apply master_two_fin.
    + now apply master_four_fin.
    + now apply sample_nonempty.
Qed.

Lemma shallow_score_above s live late v :
  (exists n, s = make n) -> game_wf live ->
  shallow_score s live late v -> JSNum.above_neginf v.
Proof.
  intros [n ->] Hwf. apply game_wf_spec in Hwf as [_ Hg].
  intros [[_ ->] | (_ & _ & l & _ & Hfin & _)]; apply is_fin_above; auto.
  apply master_evaluatePosition_fin, cells_positive_copy. now apply grid_wf_positive.
Qed.

(** On the same board, two such scores do not beat each other. *)
Lemma shallow_score_ties s live late v v' :
  shallow_score s live late v -> shallow_score s live late v' -> JSNum.gtb v' v = false.
Proof.
  intros [[H ->] | (Hn & He & l & Hl & Hm)] [[H' ->] | (Hn' & He' & l' & Hl' & Hm')].
  - apply ltb_irrefl.
  - destruct H; contradiction.
  - destruct H'; contradiction.
  - eapply is_min_of_ties; [|exact Hm|exact Hm'].
    intros c. now rewrite Hl, Hl'.
Qed.

(** One round of the top-level loop of a shallow alpha-beta search. *)
Lemma master_round_shallow (n : nat) live (late : bool) best d w :
  game_wf live -> (n <= 2)%nat ->
  (length (Grid.availableCells (grid live)) <= 3)%nat ->
  same_snapshot (manager w) live ->
  let r :=
    (bind (gets (fun w => GameManager.size (manager w))) (fun size =>
     bind (gets (fun w => GameManager.grid (manager w))) (fun snapshot =>
     bind (liftGM (tryMove d (copyGrid size snapshot))) (fun moved : bool =>
       if moved then
         bind (alphaBeta (make n) (copyGrid size snapshot) (SEARCH_DEPTH (make n))
                 JSNum.NegInf JSNum.PosInf false late)
              (fun score => ret (better score d best))
       else ret best)))) w in
  same_snapshot (manager (snd r)) live
  /\ ((legal live d = false /\ fst r = best)
      \/ (legal live d = true
          /\ exists v, shallow_score (make n) live late v /\ fst r = better v d best)).
Proof.
  intros Hwf Hn Hlen Hw r. subst r. unfold bind, gets. cbn [fst snd].
  rewrite liftGM_tryMove. cbn [fst snd].
  rewrite (legal_same (manager w) live d Hw).
  assert (Hw1 : same_snapshot (prepareTiles (manager w)) live).
  { eapply same_snapshot_trans; [|exact Hw].
    apply prepareTiles_same_snapshot. now destruct Hw. }
  destruct (legal live d); cbn [ret fst snd manager]; [|split; auto].
  rewrite (same_snapshot_copy _ _ Hw). change (SEARCH_DEPTH (make n)) with n.
  destruct (master_score n live late (mkWorld (prepareTiles (manager w)) (draws w))
              Hwf Hw1 Hn Hlen) as [Hv Hw2].
  destruct (alphaBeta (make n) _ _ _ _ _ _ _) as [score w2].
  cbn [ret fst snd] in *. split; auto. right. split; auto. eauto.
Qed.

(** A shallow alpha-beta search on a board with at most three empty
    cells returns the first legal direction. *)
Lemma master_getNextMove_first (n : nat) live (ds : list nat) :
  game_wf live -> (n <= 2)%nat ->
  (length (Grid.availableCells (grid live)) <= 3)%nat ->
  fst (MasterStrategy.getNextMove (make n) (mkWorld live ds)) = first_legal live.
Proof.
  intros Hwf Hn Hlen. unfold MasterStrategy.getNextMove, first_legal.
  rewrite bind_unfold, gets_unfold. cbv beta iota.
  rewrite bind_ret_fst.
  match goal with
  | |- context [getMaxTile ?g >=? 1024] => set (late := getMaxTile g >=? 1024)
  end.
  apply (top_loop_first (legal live) (shallow_score (make n) live late)
           (fun w => same_snapshot (manager w) live)).
  - intros v. apply shallow_score_above; eauto.
  - intros best d st Hst. now apply (master_round_shallow n live late best d st).
  - intros v v'. apply shallow_score_ties.
  - apply same_snapshot_refl. apply game_wf_spec in Hwf as [_ Hg].
    now apply grid_wf_shaped.
Qed.

(** C3 (amended): on every well-formed board with at most three empty
    cells, the alpha-beta search of depth at most 2 and the expectimax
    search return the same top-level direction, whatever the random
    draws of the sampling. The score the alpha-beta search gives a
    direction there is the static evaluation of the board when the
    depth is 0 or the board is full, and otherwise the minimum, over
    the empty cells, of 0.9 times the evaluation with a spawned 2 and
    0.1 times the evaluation with a spawned 4: both spawns are
    weighted, and the least weighted value is kept. *)
Theorem searches_agree_small (depth depth' : nat) (live : GameManager.t) (ds : list nat) :
  game_wf live -> (depth' <= 2)%nat ->
  (length (Grid.availableCells (grid live)) <= 3)%nat ->
  let late := getMaxTile (grid live) >=? 1024 in
  fst (AdvancedStrategy.getNextMove (AdvancedStrategy.make depth) live)
  = fst (MasterStrategy.getNextMove (make depth') (mkWorld live ds))
  /\ shallow_score (make depth') live late
       (fst (alphaBeta (make depth') (copyGrid (size live) (grid live)) depth'
               JSNum.NegInf JSNum.PosInf false late (mkWorld live ds))).
Proof.
  intros Hwf Hd Hlen late.
  rewrite advanced_getNextMove_first by exact Hwf.
  rewrite master_getNextMove_first by assumption.
  split; [reflexivity|].
  apply master_score; auto.
  apply same_snapshot_refl. apply game_wf_spec in Hwf as [_ Hg].
  now apply grid_wf_shaped.
Qed.

End ShallowSearch.

Lemma searches_agree_small_witness :
  let live := Boards.game Boards.crowded in
  fst (AdvancedStrategy.getNextMove (AdvancedStrategy.make 2) live) = Right
  /\ fst (MasterStrategy.getNextMove (MasterStrategy.make 2) (mkWorld live [1; 0]%nat)) = Right.
Proof.
  intros live.
  assert (Hwf : game_wf live) by (vm_compute; reflexivity).
  assert (Hlen : (length (Grid.availableCells (GameManager.grid live)) <= 3)%nat)
    by (vm_compute; lia).
  destruct (searches_agree_small 2 2 live [1; 0]%nat Hwf ltac:(lia) Hlen) as [Ha _].
  assert (Hr : fst (AdvancedStrategy.getNextMove (AdvancedStrategy.make 2) live) = Right)
    by (vm_compute; reflexivity).
  split; [exact Hr|].
  etransitivity; [symmetry; exact Ha|exact Hr].
Defined.

(** C3 (as stated, refuted): on the board with a single 2 at [(0,0)]
    and search depth 2, the expectimax search returns right and the
    alpha-beta search, when its first sample is the three cells of the
    last column, returns down. *)
Lemma searches_disagree :
  let live := Boards.game Boards.lone_two in
  fst (AdvancedStrategy.getNextMove (AdvancedStrategy.make 2) live) = Right
  /\ fst (MasterStrategy.getNextMove (MasterStrategy.make 2)
            (mkWorld live [14; 13; 12]%nat)) = Down
  /\ fst (AdvancedStrategy.getNextMove (AdvancedStrategy.make 2) live)
     <> fst (MasterStrategy.getNextMove (MasterStrategy.make 2)
               (mkWorld live [14; 13; 12]%nat)).
Proof.
  intros live.
  assert (Ha : fst (AdvancedStrategy.getNextMove (AdvancedStrategy.make 2) live) = Right)
    by (vm_compute; reflexivity).
  assert (Hm : fst (MasterStrategy.getNextMove (MasterStrategy.make 2)
                      (mkWorld live [14; 13; 12]%nat)) = Down)
    by (vm_compute; reflexivity).
  split; [exact Ha|]. split; [exact Hm|].
  rewrite Ha, Hm. discriminate.
Qed.

(** ** The probe and the live board *)

(** C1 (defect): [tryMove] walks the live grid, not the grid it is
    given. With the live board [{(1,0):4}] and the copy
    [{(0,0):2, (1,0):4}], [tryMove] to the left on the copy reports a
    move, although resolving the move to the left on the copy moves
    nothing and leaves every cell as it was; with the copy itself as
    the live board the same call reports no move. *)
Example tryMove_walks_live_grid :
  let copy := Boards.two_four in
  fst (GameManager.tryMove Left copy (Boards.game Boards.lone_four)) = true
  /\ fst (GameManager.tryMove Left copy (Boards.game copy)) = false
  /\ snd (GameManager.resolve Left (Boards.game copy)) = false
  /\ Boards.values (GameManager.grid (fst (GameManager.resolve Left (Boards.game copy))))
     = Boards.values copy.
Proof. vm_compute. repeat split; reflexivity. Qed.

(** C2 (defect): [getNextMove] of the naive strategy resets the
    bookkeeping of the live tiles. After the move to the left on
    [{(0,0):2, (1,0):2, (2,0):2}], the live tile at [(0,0)] is a merge
    product with no saved position and the live tile at [(1,0)] has the
    saved position [(2,0)]; after [getNextMove] the first has lost its
    [mergedFrom] and both have their own cell as saved position. The
    serialized state (cells, values, score and flags) is the same. *)
Example getNextMove_resets_live_tiles :
  let live := GameManager.move Left (GameManager.mkRandom true 0)
                (Boards.game Boards.three_twos) in
  let live' := snd (NaiveStrategy.getNextMove live) in
  let at_ (g : GameManager.t) x y := Grid.cellContent (GameManager.grid g) (mkPos x y) in
  option_map TileOps.unmerged (at_ live 0 0) = Some false
  /\ option_map TileOps.unmerged (at_ live' 0 0) = Some true
  /\ option_map previousPosition (at_ live 0 0) = Some None
  /\ option_map previousPosition (at_ live' 0 0) = Some (Some (mkPos 0 0))
  /\ option_map previousPosition (at_ live 1 0) = Some (Some (mkPos 2 0))
  /\ option_map previousPosition (at_ live' 1 0) = Some (Some (mkPos 1 0))
  /\ GameManager.grid live' <> GameManager.grid live
  /\ GameManager.serialize live' = GameManager.serialize live.
Proof.
  vm_compute. repeat split; try reflexivity. discriminate.
Qed.

(** * Further properties of the code *)

(** ** The walk, the traversal and the spawn *)

Section EngineWalk.

Import GameManager.

Implicit Types (self : t) (g : Grid.t) (c p q : Position) (d : Direction).

(** X1: from a cell of the board, [findFarthestPosition] stops after
    [k] steps along the vector: [farthest] is the cell [k] steps ahead,
    [next] the one after it; the [k] cells walked over are empty cells
    of the board, and [next] is outside the board or holds a tile. The
    walk stays where it is exactly when [k = 0]. *)
Theorem findFarthestPosition_walk self d c :
  Grid.withinBounds (grid self) c = true ->
  exists k, 0 <= k
    /\ farthest (findFarthestPosition self c (getVector d)) = ahead c (getVector d) k
    /\ next (findFarthestPosition self c (getVector d)) = ahead c (getVector d) (k + 1)
    /\ Grid.withinBounds (grid self) (ahead c (getVector d) k) = true
    /\ (forall j, 1 <= j <= k ->
          Grid.withinBounds (grid self) (ahead c (getVector d) j) = true
          /\ Grid.cellContent (grid self) (ahead c (getVector d) j) = None)
    /\ (Grid.withinBounds (grid self) (ahead c (getVector d) (k + 1)) = false
        \/ is_Some (Grid.cellContent (grid self) (ahead c (getVector d) (k + 1))))
    /\ (farthest (findFarthestPosition self c (getVector d)) = c <-> k = 0).
Proof.
  intros Hb. destruct (findFarthestPosition_spec self d c Hb) as (k & Hk & E & Hf & Hfree & Hn).
  exists k. rewrite E. cbn [farthest next]. repeat split; auto.
  - apply cellAvailable_spec, Hfree. lia.
  - apply cellAvailable_spec, Hfree. lia.
  - destruct (Grid.withinBounds (grid self) (ahead c (getVector d) (k + 1))) eqn:Hw; auto.
    right. destruct (Grid.cellContent (grid self) (ahead c (getVector d) (k + 1))) eqn:Hc; eauto.
    assert (Grid.cellAvailable (grid self) (ahead c (getVector d) (k + 1)) = true)
      by (apply cellAvailable_spec; auto).
    congruence.
  - intros H. destruct (decide (k = 0)) as [|Hne]; auto.
    now apply (ahead_ne d c k) in Hne.
  - intros ->. apply ahead_0.
Qed.

(** X2: the two nested loops of a move visit every cell of the board
    exactly once, and a cell only after every cell of the board that
    lies ahead of it along the vector. *)
Theorem traversal_order self d :
  let cells := traversalCells (buildTraversals self (getVector d)) in
  NoDup cells
  /\ (forall p, p ∈ cells <-> 0 <= pos_x p < size self /\ 0 <= pos_y p < size self)
  /\ (forall pre c post k,
        cells = pre ++ c :: post -> 1 <= k ->
        0 <= pos_x (ahead c (getVector d) k) < size self ->
        0 <= pos_y (ahead c (getVector d) k) < size self ->
        ahead c (getVector d) k ∈ pre).
Proof.
  intros cells. split; [apply NoDup_traversalCells|]. split.
  - intros p. apply elem_of_traversalCells.
  - intros pre c post k. apply ahead_visited.
Qed.

Lemma addRandomTile_spawn rnd self :
  shaped (grid self) -> Grid.cellsAvailable (grid self) = true ->
  exists p,
    let tile := TileOps.new p (if value_draw rnd then 2 else 4) in
    Grid.withinBounds (grid self) p = true
    /\ Grid.cellContent (grid self) p = None
    /\ addRandomTile rnd self = set_grid self (Grid.insertTile (grid self) tile)
    /\ Grid.cellContent (grid (addRandomTile rnd self)) p = Some tile
    /\ forall q, q <> p ->
         Grid.cellContent (grid (addRandomTile rnd self)) q
         = Grid.cellContent (grid self) q.
Proof.
  intros Hs Hav. destruct (randomAvailableCell_spec (grid self) (cell_draw rnd) Hav)
    as (p & Hp & Hb & Hc).
  exists p. cbv zeta. unfold addRandomTile. rewrite Hav, Hp.
  repeat split; auto; cbn [grid set_grid]; rewrite new_tile_put.
  - now apply cellContent_put_eq.
  - intros q Hq. apply cellContent_put_ne. congruence.
Qed.

(** X3: [addRandomTile] does nothing on a board without an empty cell;
    otherwise it puts one new tile, a 2 or a 4 as drawn, on a cell that
    was empty, and leaves every other cell and every other field of the
    game as they were. *)
Theorem addRandomTile_effect rnd self :
  shaped (grid self) ->
  (Grid.cellsAvailable (grid self) = false -> addRandomTile rnd self = self)
  /\ (Grid.cellsAvailable (grid self) = true ->
      exists p,
        let tile := TileOps.new p (if value_draw rnd then 2 else 4) in
        Grid.withinBounds (grid self) p = true
        /\ Grid.cellContent (grid self) p = None
        /\ addRandomTile rnd self = set_grid self (Grid.insertTile (grid self) tile)
        /\ Grid.cellContent (grid (addRandomTile rnd self)) p = Some tile
        /\ forall q, q <> p ->
             Grid.cellContent (grid (addRandomTile rnd self)) q
             = Grid.cellContent (grid self) q).
Proof.
  intros Hs. split; [apply addRandomTile_full|]. now apply addRandomTile_spawn.
Qed.

End EngineWalk.

Lemma findFarthestPosition_walk_witness :
  exists k, 0 <= k
    /\ GameManager.farthest
         (GameManager.findFarthestPosition (Boards.game Boards.lone_four) (mkPos 1 0)
            (GameManager.getVector Down))
       = ahead (mkPos 1 0) (GameManager.getVector Down) k.
Proof.
  destruct (findFarthestPosition_walk (Boards.game Boards.lone_four) Down (mkPos 1 0))
    as (k & Hk & Hf & _); [reflexivity|].
  exists k. split; [exact Hk|exact Hf].
Defined.

Lemma addRandomTile_effect_witness :
  exists p,
    Grid.cellContent
      (GameManager.grid
         (GameManager.addRandomTile (GameManager.mkRandom true 0)
            (Boards.game Boards.lone_four))) p
    = Some (TileOps.new p 2).
Proof.
  assert (Hs : shaped (GameManager.grid (Boards.game Boards.lone_four)))
    by (apply grid_wf_shaped; vm_compute; reflexivity).
  destruct (proj2 (addRandomTile_effect (GameManager.mkRandom true 0)
                     (Boards.game Boards.lone_four) Hs) eq_refl)
    as (p & _ & _ & _ & Hp & _).
  exists p. exact Hp.
Defined.

(** ** When a move changes the board *)

Section Legality.

Import GameManager.

Implicit Types (self live : t) (g : Grid.t) (c p q : Position) (d : Direction).

Lemma moved_ahead d c k :
  negb (pos_x (ahead c (getVector d) k) =? pos_x c)
  || negb (pos_y (ahead c (getVector d) k) =? pos_y c)
  = negb (k =? 0).
Proof.
  destruct d; cbn [ahead getVector pos_x pos_y];
    repeat match goal with
           | |- context [?a =? ?b] => destruct (Z.eqb_spec a b)
           end; cbn [negb orb]; try reflexivity; exfalso; lia.
Qed.

Lemma cellAvailable_prepare live p :
  Grid.cellAvailable (grid (prepareTiles live)) p = Grid.cellAvailable (grid live) p.
Proof.
  apply eq_true_iff_eq. rewrite !cellAvailable_spec.
  rewrite prepareTiles_withinBounds, prepareTiles_cellContent.
  destruct (Grid.cellContent (grid live) p); simpl; intuition congruence.
Qed.

(** What the probe answers at one cell of the snapshot of the live
    board. *)
Lemma tryMove_cell_true live d c :
  game_wf live ->
  tryMove_cell (prepareTiles live) (copyGrid (size live) (grid live)) (getVector d) false c
  = true
  <-> exists t,
        Grid.cellContent (grid live) c = Some t
        /\ Grid.withinBounds (grid live) (ahead c (getVector d) 1) = true
        /\ (Grid.cellContent (grid live) (ahead c (getVector d) 1) = None
            \/ exists u, Grid.cellContent (grid live) (ahead c (getVector d) 1) = Some u
                         /\ value u = value t).
Proof.
  intros Hwf. pose proof Hwf as Hwf'. apply game_wf_spec in Hwf' as [Hsz Hg].
  unfold tryMove_cell. rewrite !cellContent_copy by exact Hsz.
  destruct (Grid.cellContent (grid live) c) as [t|] eqn:Hc; cbn [fmap option_fmap option_map].
  2: { split; [discriminate|]. intros (t & Ht & _). discriminate. }
  assert (Hb : Grid.withinBounds (grid (prepareTiles live)) c = true).
  { rewrite prepareTiles_withinBounds. eapply cellContent_Some_bounds; eauto. }
  destruct (findFarthestPosition_spec (prepareTiles live) d c Hb)
    as (k & Hk & E & _ & Hfree & Hn).
  rewrite E. cbn [farthest next]. rewrite moved_ahead.
  rewrite cellAvailable_prepare in Hn.
  destruct (Z.eqb_spec k 0) as [->|Hk0]; cbn [negb].
  - change (0 + 1) with 1 in *.
    destruct (Grid.cellContent (grid live) (ahead c (getVector d) 1)) as [u|] eqn:Hu;
      cbn [fmap option_fmap option_map].
    + change (TileOps.unmerged (TileOps.of_serialized (TileOps.serialize u))) with true.
      change (value (TileOps.of_serialized (TileOps.serialize u))) with (value u).
      change (value (TileOps.of_serialized (TileOps.serialize t))) with (value t).
      rewrite andb_true_r. destruct (Z.eqb_spec (value u) (value t)) as [Hv|Hv].
      * split; auto. intros _. exists t. split; auto. split; [|eauto].
        eapply cellContent_Some_bounds; eauto.
      * split; [discriminate|]. intros (t' & Ht' & _ & [?|(u' & Hu' & Hv')]); congruence.
    + split; [discriminate|]. intros (t' & _ & Hw & _).
      assert (Grid.cellAvailable (grid live) (ahead c (getVector d) 1) = true)
        by (apply cellAvailable_spec; auto).
      congruence.
  - assert (H1 : Grid.cellAvailable (grid live) (ahead c (getVector d) 1) = true).
    { rewrite <- cellAvailable_prepare. apply Hfree. lia. }
    apply cellAvailable_spec in H1 as [H1 H2].
    split; [intros _; eauto|]. intros _.
    destruct (_ <$> Grid.cellContent (grid live) (ahead c (getVector d) (k + 1))) as [nxt|];
      [|reflexivity].
    destruct ((value nxt =? _) && TileOps.unmerged nxt); reflexivity.
Qed.

(** Resolving a move moves or merges a tile exactly when some tile has
    an empty cell or an equal tile next to it in the direction. *)
Lemma resolve_can_move d live :
  game_wf live -> snd (resolve d live) = true <-> can_move (grid live) d.
Proof.
  intros Hwf. pose proof Hwf as Hwf'. apply game_wf_spec in Hwf' as [Hsz Hg].
  unfold resolve. rewrite traverse_flat, resolve_fold_agree by exact Hwf.
  rewrite existsb_exists. unfold can_move. split.
  - intros (c & _ & Hc). apply tryMove_cell_true in Hc as (t & Ht); eauto.
  - intros (c & t & Hc & Hrest). exists c. split.
    + apply list_elem_of_In, elem_of_traversalCells. rewrite Hsz.
      apply withinBounds_spec. eapply cellContent_Some_bounds; eauto.
    + apply tryMove_cell_true; eauto.
Qed.

(** Between an occupied and an empty place of a line there is an
    occupied place next to an empty one. *)
Lemma line_transition (f : Z -> bool) (a : Z) (n : nat) :
  f a = true -> f (a + Z.of_nat n) = false ->
  exists i, a <= i < a + Z.of_nat n /\ f i = true /\ f (i + 1) = false.
Proof.
  revert a. induction n as [|n IH]; intros a Ha Hb.
  - rewrite Z.add_0_r in Hb. congruence.
  - destruct (f (a + 1)) eqn:E.
    + destruct (IH (a + 1) E) as (i & Hi & H1 & H2).
      { rewrite <- Hb. f_equal. lia. }
      exists i. split; [lia|auto].
    + exists a. split; [lia|auto].
Qed.

Lemma line_transition_either (f : Z -> bool) (a b : Z) :
  f a = true -> f b = false ->
  (exists i, a <= i < b /\ f i = true /\ f (i + 1) = false)
  \/ (exists i, b < i <= a /\ f i = true /\ f (i - 1) = false).
Proof.
  intros Ha Hb. destruct (Z_le_gt_dec a b) as [Hab|Hab].
  - left. destruct (line_transition f a (Z.to_nat (b - a)) Ha) as (i & Hi & H).
    { rewrite <- Hb. f_equal. lia. }
    exists i. split; [lia|auto].
  - right.
    destruct (line_transition (fun i => f (- i)) (- a) (Z.to_nat (a - b))) as (i & Hi & H1 & H2).
    { now rewrite Z.opp_involutive. }
    { rewrite <- Hb. f_equal. lia. }
    exists (- i). split; [lia|]. split; auto.
    rewrite <- H2. f_equal. lia.
Qed.

(** On a board with a tile and an empty cell, some tile has an empty
    cell of the board next to it. *)
Lemma tile_next_to_room g p t q :
  Grid.cellContent g p = Some t ->
  Grid.withinBounds g q = true -> Grid.cellContent g q = None ->
  exists d, can_move g d.
Proof.
  intros Hp Hqb Hq.
  pose proof (cellContent_Some_bounds _ _ _ Hp) as Hpb.
  apply withinBounds_spec in Hpb as [Hpx Hpy]. apply withinBounds_spec in Hqb as [Hqx Hqy].
  set (occ := fun x y => bool_decide (is_Some (Grid.cellContent g (mkPos x y)))).
  assert (Hocc : forall x y, occ x y = true -> exists u, Grid.cellContent g (mkPos x y) = Some u).
  { intros x y H. apply bool_decide_eq_true in H as [u Hu]. eauto. }
  assert (Hfree : forall x y, occ x y = false -> Grid.cellContent g (mkPos x y) = None).
  { intros x y H. apply bool_decide_eq_false in H.
    destruct (Grid.cellContent g (mkPos x y)); auto. exfalso. apply H. eauto. }
  assert (Hop : occ (pos_x p) (pos_y p) = true).
  { apply bool_decide_eq_true. destruct p. simpl. rewrite Hp. eauto. }
  assert (Hoq : occ (pos_x q) (pos_y q) = false).
  { apply bool_decide_eq_false. destruct q. simpl. rewrite Hq. intros [? ?]. discriminate. }
  destruct (occ (pos_x q) (pos_y p)) eqn:Hr.
  - (* along the column of [q] *)
    destruct (line_transition_either (occ (pos_x q)) (pos_y p) (pos_y q) Hr Hoq)
      as [(i & Hi & H1 & H2)|(i & Hi & H1 & H2)];
      apply Hocc in H1 as [u Hu]; apply Hfree in H2.
    + exists Down, (mkPos (pos_x q) i), u. split; auto.
      replace (ahead (mkPos (pos_x q) i) (getVector Down) 1) with (mkPos (pos_x q) (i + 1))
        by (unfold ahead; simpl; f_equal; lia).
      split; [apply withinBounds_spec; simpl; lia|left; exact H2].
    + exists Up, (mkPos (pos_x q) i), u. split; auto.
      replace (ahead (mkPos (pos_x q) i) (getVector Up) 1) with (mkPos (pos_x q) (i - 1))
        by (unfold ahead; simpl; f_equal; lia).
      split; [apply withinBounds_spec; simpl; lia|left; exact H2].
  - (* along the row of [p] *)
    destruct (line_transition_either (fun x => occ x (pos_y p)) (pos_x p) (pos_x q) Hop Hr)
      as [(i & Hi & H1 & H2)|(i & Hi & H1 & H2)];
      apply Hocc in H1 as [u Hu]; apply Hfree in H2.
    + exists Right, (mkPos i (pos_y p)), u. split; auto.
      replace (ahead (mkPos i (pos_y p)) (getVector Right) 1) with (mkPos (i + 1) (pos_y p))
        by (unfold ahead; simpl; f_equal; lia).
      split; [apply withinBounds_spec; simpl; lia|left; exact H2].
    + exists Left, (mkPos i (pos_y p)), u. split; auto.
      replace (ahead (mkPos i (pos_y p)) (getVector Left) 1) with (mkPos (i - 1) (pos_y p))
        by (unfold ahead; simpl; f_equal; lia).
      split; [apply withinBounds_spec; simpl; lia|left; exact H2].
Qed.

Lemma movesAvailable_can_move self :
  size self = Grid.size (grid self) ->
  (exists p t, Grid.cellContent (grid self) p = Some t) ->
  movesAvailable self = true <-> exists d, can_move (grid self) d.
Proof.
  intros Hsz (p0 & t0 & Hp0). unfold movesAvailable.
  rewrite tileMatchesAvailable_spec by exact Hsz. rewrite orb_true_iff. split.
  - intros [Hav|Hpair].
    + apply cellsAvailable_spec in Hav as (q & Hqb & Hq).
      eapply tile_next_to_room; eauto.
    + apply existsAdjacentEqualPair_spec in Hpair as (p & q & t & u & Hadj & Hp & Hq & Hv).
      apply adjacent_ahead in Hadj as [d ->].
      exists d, p, t. split; auto. split; [eapply cellContent_Some_bounds; eauto|].
      right. eauto.
  - intros (d & p & t & Hp & Hb & [Hn|(u & Hu & Hv)]).
    + left. apply cellsAvailable_spec. eauto.
    + right. apply existsAdjacentEqualPair_spec.
      exists p, (ahead p (getVector d) 1), t, u. repeat split; auto.
      apply adjacent_ahead. eauto.
Qed.

(** X4: a move in a direction moves or merges a tile exactly when some
    tile has, one step in that direction, an empty cell of the board or
    a tile of its own value. *)
Theorem move_legal_iff self d :
  game_wf self ->
  snd (resolve d self) = true
  <-> exists p t,
        Grid.cellContent (grid self) p = Some t
        /\ Grid.withinBounds (grid self) (ahead p (getVector d) 1) = true
        /\ (Grid.cellContent (grid self) (ahead p (getVector d) 1) = None
            \/ exists u, Grid.cellContent (grid self) (ahead p (getVector d) 1) = Some u
                         /\ value u = value t).
Proof. intros Hwf. now apply resolve_can_move. Qed.

(** X5: on a board that holds a tile, [movesAvailable] answers whether
    some direction is a move that changes the board: the game is
    declared over exactly when the player is stuck. *)
Theorem movesAvailable_iff_legal self :
  game_wf self ->
  (exists p t, Grid.cellContent (grid self) p = Some t) ->
  movesAvailable self = true <-> exists d, snd (resolve d self) = true.
Proof.
  intros Hwf Htile. pose proof Hwf as Hwf'. apply game_wf_spec in Hwf' as [Hsz _].
  rewrite movesAvailable_can_move by auto.
  split; intros [d Hd]; exists d; now apply resolve_can_move.
Qed.

End Legality.

Lemma move_legal_iff_witness :
  snd (GameManager.resolve Left (Boards.game Boards.three_twos)) = true.
Proof.
  assert (Hwf : game_wf (Boards.game Boards.three_twos)) by (vm_compute; reflexivity).
  refine (proj2 (move_legal_iff _ Left Hwf) _).
  exists (mkPos 1 0), (Boards.tile 1 0 2). split; [reflexivity|]. split; [reflexivity|].
  right. exists (Boards.tile 0 0 2). split; reflexivity.
Defined.

Lemma movesAvailable_iff_legal_witness :
  GameManager.movesAvailable (Boards.game Boards.lone_two) = true.
Proof.
  assert (Hwf : game_wf (Boards.game Boards.lone_two)) by (vm_compute; reflexivity).
  refine (proj2 (movesAvailable_iff_legal _ Hwf _) _).
  - exists (mkPos 0 0), (Boards.tile 0 0 2). reflexivity.
  - exists Right. vm_compute. reflexivity.
Defined.

(** ** What a move keeps and counts *)

Section Ledger.

Import GameManager.

Implicit Types (s self : t) (g : Grid.t) (c p q : Position) (d : Direction).

Lemma total_unmerged (F : option Tile -> Z) g :
  (forall t, mergedFrom t = None -> F (Some t) = 0) -> F None = 0 ->
  all_unmerged g -> total (fun _ x => F x) g = 0.
Proof.
  intros HF H0 H. unfold total.
  induction (Grid.positions (Grid.size g)) as [|p l IH]; auto.
  rewrite fmap_cons, sumZ_cons, IH.
  destruct (Grid.cellContent g p) as [t0|] eqn:E; [|lia].
  rewrite HF; [lia|]. eapply H; eauto.
Qed.

Lemma total_nonneg (F : Position -> option Tile -> Z) g :
  (forall p x, 0 <= F p x) -> 0 <= total F g.
Proof. intros H. unfold total. apply sumZ_nonneg. auto. Qed.

Lemma sumZ_pos {A : Type} (h : A -> Z) (l : list A) :
  (forall a, 0 <= h a) -> 0 < sumZ (h <$> l) <-> exists a, a ∈ l /\ 0 < h a.
Proof.
  intros Hh. induction l as [|a l IH].
  - simpl. split; [lia|]. intros (b & Hb & _). now apply elem_of_nil in Hb.
  - rewrite fmap_cons, sumZ_cons. split.
    + intros H. destruct (Z_lt_le_dec 0 (h a)) as [Ha|Ha].
      * exists a. split; [apply list_elem_of_here|auto].
      * destruct (proj1 IH) as (b & Hb & Hb'); [specialize (Hh a); lia|].
        exists b. split; [now apply list_elem_of_further|auto].
    + intros (b & Hb & Hb'). apply elem_of_cons in Hb as [->|Hb].
      * pose proof (sumZ_nonneg h l (fun b _ => Hh b)). lia.
      * assert (0 < sumZ (h <$> l)) by (apply IH; eauto). specialize (Hh a). lia.
Qed.

Lemma ledger_start s0 : all_unmerged (grid s0) -> ledger s0 s0.
Proof.
  intros Hun. unfold ledger, merged_count, winning_count.
  rewrite (total_unmerged merged_one), (total_unmerged winning); auto.
  - rewrite orb_false_r. repeat split; lia.
  - intros t Ht. simpl. apply unmerged_spec in Ht. now rewrite Ht.
  - intros t Ht. simpl. apply unmerged_spec in Ht. now rewrite Ht.
Qed.

(** One callback of [move] keeps the ledger. *)
Lemma ledger_step d s0 pre c post s m :
  size s0 = Grid.size (grid s0) ->
  all_unmerged (grid s0) ->
  traversalCells (buildTraversals s0 (getVector d)) = pre ++ c :: post ->
  step_inv d s0 pre s m ->
  ledger s0 s ->
  ledger s0 (fst (move_cell (getVector d) (s, m) c)).
Proof.
  intros Hsz Hun HT Hinv (Hsum & Hcount & Hw0 & Hwon).
  destruct (Grid.cellContent (grid s) c) as [tile|] eqn:Hc;
    [|rewrite move_cell_empty by auto; repeat split; auto].
  pose proof Hinv as [inv_wf0 inv_size0 inv_gsize0 _ _ _ _ inv_untouched0 _ _ _ _ _ _].
  pose proof (NoDup_traversalCells s0 (getVector d)) as Hnd.
  rewrite HT in Hnd. apply NoDup_app in Hnd as (_ & Hnd & _).
  assert (Hcpre : c ∉ pre).
  { intros H. apply (Hnd c H). apply list_elem_of_here. }
  pose proof (grid_wf_shaped _ inv_wf0) as Hshape.
  pose proof inv_wf0 as Hwf. apply grid_wf_spec in Hwf as [_ Htiles].
  destruct (Htiles _ _ Hc) as (Hx & Hy & Hp2).
  assert (Hum : mergedFrom tile = None).
  { apply (Hun c). now rewrite <- inv_untouched0. }
  pose proof (cellContent_Some_bounds _ _ _ Hc) as Hb.
  destruct (move_cell_cases d s m c tile Hc Hx Hy)
    as [k nxt Hk Hfree Hn Hv Hnu Hs' Hm'|k Hk Hfree Hno Hocc Hs' Hm'];
    rewrite Hs'; clear Hs' Hm'.
  - (* merge *)
    set (n := ahead c (getVector d) (k + 1)) in *.
    pose proof (cellContent_Some_bounds _ _ _ Hn) as Hbn.
    assert (Hnc : n <> c) by (apply ahead_ne; lia).
    set (g1 := put (grid s) n (Some (merged_tile tile nxt n))).
    assert (Hshape1 : shaped g1) by now apply put_shaped.
    assert (Hb1 : Grid.withinBounds g1 c = true) by (unfold g1; now rewrite put_withinBounds).
    assert (Hg : grid (after_merge s c n tile nxt) = put g1 c None).
    { unfold after_merge. now destruct (value tile * 2 =? 2048). }
    assert (Hc1 : Grid.cellContent g1 c = Some tile).
    { unfold g1. rewrite cellContent_put_ne; auto. }
    assert (Hwn : won (after_merge s c n tile nxt)
                  = won s || (value tile * 2 =? 2048)).
    { unfold after_merge. destruct (value tile * 2 =? 2048); simpl;
        [now rewrite orb_true_r|now rewrite orb_false_r]. }
    unfold ledger, value_sum, tile_count, merged_count, winning_count in *.
    rewrite Hg, Hwn. rewrite !(total_put _ g1) by auto. rewrite Hc1.
    unfold g1. rewrite !total_put by auto. rewrite Hn.
    set (V := total (fun _ x => tile_value x) (grid s)) in *.
    set (N := total (fun _ x => occupied x) (grid s)) in *.
    set (M := total (fun _ x => merged_one x) (grid s)) in *.
    set (W := total (fun _ x => winning x) (grid s)) in *.
    set (V0 := total (fun _ x => tile_value x) (grid s0)) in *.
    set (N0 := total (fun _ x => occupied x) (grid s0)) in *.
    unfold tile_value, occupied, merged_one, winning, merged_tile, TileOps.unmerged.
    cbn [value mergedFrom TileOps.set_mergedFrom TileOps.new]. rewrite Hum, Hnu.
    repeat split; try lia.
    + destruct (value tile * 2 =? 2048); lia.
    + rewrite Hwon. destruct (won s0); cbn [orb]; auto.
      destruct (value tile * 2 =? 2048).
      * rewrite orb_true_r. symmetry. apply Z.ltb_lt. lia.
      * rewrite orb_false_r. f_equal. lia.
  - (* slide *)
    destruct (Z.eqb_spec k 0) as [->|Hk0].
    + rewrite ahead_0, after_slide_same by auto. repeat split; auto.
    + set (f := ahead c (getVector d) k) in *.
      destruct (Hfree k ltac:(lia)) as [Hbf Hf].
      assert (Hfc : f <> c) by (apply ahead_ne; lia).
      set (g1 := put (grid s) c None).
      assert (Hshape1 : shaped g1) by now apply put_shaped.
      assert (Hbf1 : Grid.withinBounds g1 f = true)
        by (unfold g1; now rewrite put_withinBounds).
      assert (Hf1 : Grid.cellContent g1 f = None).
      { unfold g1. rewrite cellContent_put_ne; auto. }
      change (after_slide s c f tile)
        with (set_grid s (put g1 f (Some (TileOps.updatePosition tile f)))).
      unfold ledger, value_sum, tile_count, merged_count, winning_count in *.
      cbn [grid set_grid won]. rewrite !(total_put _ g1) by auto. rewrite Hf1.
      unfold g1. rewrite !total_put by auto. rewrite Hc.
      set (V := total (fun _ x => tile_value x) (grid s)) in *.
      set (N := total (fun _ x => occupied x) (grid s)) in *.
      set (M := total (fun _ x => merged_one x) (grid s)) in *.
      set (W := total (fun _ x => winning x) (grid s)) in *.
      set (V0 := total (fun _ x => tile_value x) (grid s0)) in *.
      set (N0 := total (fun _ x => occupied x) (grid s0)) in *.
      unfold tile_value, occupied, merged_one, winning, TileOps.unmerged.
      cbn [value mergedFrom TileOps.updatePosition]. rewrite Hum.
      repeat split; try lia. rewrite Hwon. do 2 f_equal. lia.
Qed.

(** The ledger of the traversal of a move. *)
Lemma resolve_ledger d self :
  game_wf self -> ledger (prepareTiles self) (fst (resolve d self)).
Proof.
  intros Hwf. pose proof Hwf as Hwf'. apply game_wf_spec in Hwf' as [Hsz Hg].
  destruct (prepareTiles_fields self) as (Fsz & Fgsz & _).
  unfold resolve. rewrite traverse_flat.
  apply (foldl_prefix_inv (move_cell (getVector d))
           (fun pre st => step_inv d (prepareTiles self) pre (fst st) (snd st)
                          /\ ledger (prepareTiles self) (fst st))).
  - split.
    + apply step_inv_start; [now apply prepareTiles_grid_wf|apply prepareTiles_all_unmerged].
    + apply ledger_start, prepareTiles_all_unmerged.
  - intros pre c post [s m] HT [Hinv Hled]. cbn [fst snd] in *.
    assert (HT' : traversalCells (buildTraversals (prepareTiles self) (getVector d))
                  = pre ++ c :: post).
    { rewrite <- HT. unfold buildTraversals. now rewrite Fsz. }
    assert (Hsz' : size (prepareTiles self) = Grid.size (grid (prepareTiles self)))
      by congruence.
    pose proof (prepareTiles_all_unmerged self) as Hun.
    split.
    + now apply (step_inv_step d _ pre c post s m).
    + now apply (ledger_step d _ pre c post s m).
Qed.

End Ledger.

Section MoveAccounts.

Import GameManager.

Implicit Types (s self : t) (g : Grid.t) (c p q : Position) (d : Direction).

Lemma prepareTiles_total (F : option Tile -> Z) self :
  (forall t, F (Some (prepareTile t)) = F (Some t)) ->
  total (fun _ x => F x) (grid (prepareTiles self)) = total (fun _ x => F x) (grid self).
Proof.
  intros HF. apply total_ext.
  - apply prepareTiles_fields.
  - intros p. rewrite prepareTiles_cellContent.
    destruct (Grid.cellContent (grid self) p); simpl; auto.
Qed.

Lemma prepareTiles_value_sum self :
  value_sum (grid (prepareTiles self)) = value_sum (grid self).
Proof. now apply (prepareTiles_total tile_value). Qed.

Lemma prepareTiles_tile_count self :
  tile_count (grid (prepareTiles self)) = tile_count (grid self).
Proof. now apply (prepareTiles_total occupied). Qed.

Lemma prepareTiles_merged_count self : merged_count (grid (prepareTiles self)) = 0.
Proof.
  apply (total_unmerged merged_one); auto using prepareTiles_all_unmerged.
  intros t Ht. simpl. apply unmerged_spec in Ht. now rewrite Ht.
Qed.

(** The spawn on a board with an empty cell, in the terms of the
    ledger. *)
Lemma addRandomTile_ledger rnd s :
  shaped (grid s) -> Grid.cellsAvailable (grid s) = true ->
  let s' := addRandomTile rnd s in
  value_sum (grid s') = value_sum (grid s) + (if value_draw rnd then 2 else 4)
  /\ tile_count (grid s') = tile_count (grid s) + 1
  /\ merged_count (grid s') = merged_count (grid s)
  /\ winning_count (grid s') = winning_count (grid s)
  /\ (exists p t, Grid.cellContent (grid s') p = Some t).
Proof.
  intros Hs Hav s'. subst s'.
  destruct (addRandomTile_spawn rnd s Hs Hav) as (p & Hb & Hc & E & Hp & _).
  cbv zeta in *. split; [|split; [|split; [|split]]]; [| | | |eauto].
  all: rewrite E; cbn [grid set_grid]; rewrite new_tile_put.
  all: unfold value_sum, tile_count, merged_count, winning_count.
  all: rewrite total_put by auto; rewrite Hc; simpl; lia.
Qed.

Lemma movesAvailable_fields s s' :
  size s' = size s -> grid s' = grid s -> movesAvailable s' = movesAvailable s.
Proof.
  intros Hs Hg. unfold movesAvailable, tileMatchesAvailable. now rewrite Hs, Hg.
Qed.

Lemma actuate_storage s :
  bestScore (storageManager (actuate s)) = Z.max (bestScore (storageManager s)) (score s)
  /\ gameState (storageManager (actuate s))
     = (if over s then None else Some (serialize s)).
Proof.
  unfold actuate. cbn [storageManager].
  destruct (Z.ltb_spec (bestScore (storageManager s)) (score s));
    destruct (over s); cbn [bestScore gameState]; split; auto; lia.
Qed.

Lemma actuate_serialize s : serialize (actuate s) = serialize s.
Proof. reflexivity. Qed.

(** An accepted move, step by step. *)
Lemma move_accepted d rnd self :
  game_wf self -> isGameTerminated self = false -> snd (resolve d self) = true ->
  let s1 := fst (resolve d self) in
  let s2 := addRandomTile rnd s1 in
  let after := move d rnd self in
  shaped (grid s1) /\ Grid.cellsAvailable (grid s1) = true
  /\ size after = size self
  /\ grid after = grid s2
  /\ score after = score s1
  /\ won after = won s1
  /\ keepPlaying after = keepPlaying self
  /\ over after = negb (movesAvailable after)
  /\ bestScore (storageManager after)
     = Z.max (bestScore (storageManager self)) (score after)
  /\ gameState (storageManager after)
     = (if over after then None else Some (serialize after)).
Proof.
  intros Hwf Hterm Hm s1 s2 after.
  pose proof (resolve_inv d self Hwf) as Hinv.
  destruct (prepareTiles_fields self) as (Fsz & Fgsz & Fsc & Fov & Fwon & Fkp & Fst & Fact).
  assert (Hs1 : shaped (grid s1)) by apply grid_wf_shaped, Hinv.
  assert (Hav : Grid.cellsAvailable (grid s1) = true) by now apply resolve_room.
  destruct (addRandomTile_inv rnd s1 (inv_wf _ _ _ _ _ Hinv))
    as (_ & Asz & _ & Asc & Aov & Awon & Akp & Ast & _).
  fold s2 in Asz, Asc, Aov, Awon, Akp, Ast.
  assert (Hover0 : over self = false).
  { unfold isGameTerminated in Hterm. destruct (over self); auto. }
  assert (Hov2 : over s2 = false).
  { rewrite Aov. unfold s1. rewrite (inv_over _ _ _ _ _ Hinv). congruence. }
  assert (E : after = actuate (if negb (movesAvailable s2) then set_over s2 true else s2)).
  { unfold after. rewrite move_not_terminated by auto. now rewrite Hm. }
  set (s3 := if negb (movesAvailable s2) then set_over s2 true else s2) in *.
  assert (H3 : size s3 = size s2 /\ grid s3 = grid s2 /\ score s3 = score s2
               /\ won s3 = won s2 /\ keepPlaying s3 = keepPlaying s2
               /\ storageManager s3 = storageManager s2
               /\ over s3 = negb (movesAvailable s2)).
  { unfold s3. destruct (movesAvailable s2); cbn [negb]; repeat split; auto. }
  destruct H3 as (Ssz & Sg & Ssc & Swon & Skp & Sst & Sov).
  destruct (actuate_fields s3) as (Csz & Cg & Csc & Cov & Cwon & Ckp).
  rewrite <- E in Csz, Cg, Csc, Cov, Cwon, Ckp.
  assert (Hma : movesAvailable after = movesAvailable s2).
  { apply movesAvailable_fields; congruence. }
  split; auto. split; auto.
  split; [rewrite Csz, Ssz, Asz; unfold s1; rewrite (inv_size _ _ _ _ _ Hinv); auto|].
  split; [congruence|]. split; [congruence|]. split; [congruence|].
  split; [rewrite Ckp, Skp, Akp; unfold s1; rewrite (inv_keep _ _ _ _ _ Hinv); auto|].
  split; [congruence|].
  assert (Hst : bestScore (storageManager s3) = bestScore (storageManager self)).
  { rewrite Sst, Ast. unfold s1. rewrite (inv_store _ _ _ _ _ Hinv). now rewrite Fst. }
  destruct (actuate_storage s3) as [Hbest Hstate].
  rewrite <- E in Hbest, Hstate.
  split; [rewrite Hbest; congruence|].
  rewrite Hstate, Cov. destruct (over s3); auto.
  f_equal. rewrite E. symmetry. apply actuate_serialize.
Qed.

(** A move that is not accepted. *)
Lemma move_refused d rnd self :
  game_wf self -> snd (resolve d self) = false ->
  move d rnd self = self \/ move d rnd self = prepareTiles self.
Proof.
  intros Hwf Hm. unfold move. destruct (isGameTerminated self); auto.
  rewrite <- (resolve_still d self Hwf Hm).
  destruct (resolve d self) as [s1 m]. cbn [snd fst] in *. subst m. auto.
Qed.

Lemma move_size d rnd self : game_wf self -> size (move d rnd self) = size self.
Proof.
  intros Hwf. destruct (isGameTerminated self) eqn:Hterm.
  - unfold move. now rewrite Hterm.
  - destruct (snd (resolve d self)) eqn:Hm.
    + apply (move_accepted d rnd self Hwf Hterm Hm).
    + destruct (move_refused d rnd self Hwf Hm) as [-> | ->]; auto;
        apply prepareTiles_fields.
Qed.

Lemma total_exists (F : option Tile -> Z) g :
  (forall x, 0 <= F x) -> F None = 0 ->
  0 < total (fun _ x => F x) g
  <-> exists p t, Grid.cellContent g p = Some t /\ 0 < F (Some t).
Proof.
  intros HF H0. unfold total. rewrite sumZ_pos by auto. split.
  - intros (p & _ & Hp). destruct (Grid.cellContent g p) as [t|] eqn:E; [eauto|lia].
  - intros (p & t & Hc & Ht). exists p. split.
    + apply withinBounds_positions. eapply cellContent_Some_bounds; eauto.
    + now rewrite Hc.
Qed.

Lemma winning_spec (t : Tile) :
  0 < winning (Some t) <-> mergedFrom t <> None /\ value t = 2048.
Proof.
  unfold winning, TileOps.unmerged.
  destruct (mergedFrom t); destruct (Z.eqb_spec (value t) 2048); split;
    try lia; try (intros [? ?]; congruence); intros _; split; congruence.
Qed.

Lemma winning_count_spec g :
  0 < winning_count g
  <-> exists p t, Grid.cellContent g p = Some t /\ mergedFrom t <> None /\ value t = 2048.
Proof.
  unfold winning_count. rewrite (total_exists winning); auto.
  - split; intros (p & t & Hc & H); exists p, t; split; auto; now apply winning_spec.
  - intros [t|]; simpl; [|lia].
    destruct (TileOps.unmerged t); [lia|]. destruct (value t =? 2048); lia.
Qed.

(** X6: a move keeps the sum of the tile values, apart from the tile
    it spawns: the sum grows by the 2 or 4 drawn when the move is
    accepted and is unchanged otherwise. The number of tiles falls by
    one for each tile created by a merge and grows by one for the
    spawn. *)
Theorem move_conserves_values self d rnd :
  game_wf self -> isGameTerminated self = false ->
  let after := move d rnd self in
  let spawned := if snd (resolve d self) then 1 else 0 in
  value_sum (grid after)
  = value_sum (grid self) + spawned * (if value_draw rnd then 2 else 4)
  /\ tile_count (grid after)
     = tile_count (grid self) - merged_count (grid after) + spawned.
Proof.
  intros Hwf Hterm after spawned.
  destruct (resolve_ledger d self Hwf) as (Hsum & Hcount & _).
  rewrite prepareTiles_value_sum in Hsum. rewrite prepareTiles_tile_count in Hcount.
  destruct (snd (resolve d self)) eqn:Hm.
  - destruct (move_accepted d rnd self Hwf Hterm Hm) as (Hs1 & Hav & _ & Hg & _).
    destruct (addRandomTile_ledger rnd _ Hs1 Hav) as (Asum & Acount & Amerged & _).
    unfold after, spawned. rewrite Hg. lia.
  - assert (E : after = prepareTiles self).
    { unfold after. rewrite move_not_terminated by auto. rewrite Hm.
      now apply resolve_still. }
    rewrite E, prepareTiles_value_sum, prepareTiles_tile_count, prepareTiles_merged_count.
    unfold spawned. lia.
Qed.

(** X7: [won] is raised by a move exactly when the move creates a tile
    of value 2048 by a merge; it is never lowered. *)
Theorem won_iff_2048_merged self d rnd :
  game_wf self -> isGameTerminated self = false ->
  let after := move d rnd self in
  won after = true
  <-> won self = true
      \/ exists p t, Grid.cellContent (grid after) p = Some t
                     /\ mergedFrom t <> None /\ value t = 2048.
Proof.
  intros Hwf Hterm after.
  destruct (resolve_ledger d self Hwf) as (_ & _ & _ & Hwon).
  destruct (prepareTiles_fields self) as (_ & _ & _ & _ & Fwon & _).
  rewrite Fwon in Hwon. rewrite <- winning_count_spec.
  destruct (snd (resolve d self)) eqn:Hm.
  - destruct (move_accepted d rnd self Hwf Hterm Hm) as (Hs1 & Hav & _ & Hg & _ & Hw & _).
    destruct (addRandomTile_ledger rnd _ Hs1 Hav) as (_ & _ & _ & Awin & _).
    unfold after. rewrite Hg, Hw, Awin, Hwon, orb_true_iff, Z.ltb_lt. reflexivity.
  - assert (E : after = prepareTiles self).
    { unfold after. rewrite move_not_terminated by auto. rewrite Hm.
      now apply resolve_still. }
    rewrite E, Fwon. split; auto. intros [H|H]; auto.
    unfold winning_count in H. rewrite (total_unmerged winning) in H;
      auto using prepareTiles_all_unmerged; [lia|].
    intros t Ht. simpl. apply unmerged_spec in Ht. now rewrite Ht.
Qed.

End MoveAccounts.

Section GameOver.

Import GameManager.

Implicit Types (s self : t) (g : Grid.t) (c p q : Position) (d : Direction).

Lemma stuck_iff_no_move self :
  game_wf self -> (exists p t, Grid.cellContent (grid self) p = Some t) ->
  movesAvailable self = false <-> forall d, snd (resolve d self) = false.
Proof.
  intros Hwf Htile. pose proof Hwf as Hwf'. apply game_wf_spec in Hwf' as [Hsz _].
  pose proof (movesAvailable_can_move self Hsz Htile) as H. split.
  - intros Hma d. destruct (snd (resolve d self)) eqn:E; auto.
    apply resolve_can_move in E; auto.
    assert (movesAvailable self = true) by (apply H; eauto). congruence.
  - intros Hall. destruct (movesAvailable self) eqn:E; auto.
    destruct (proj1 H eq_refl) as [d Hd]. apply resolve_can_move in Hd; auto.
    rewrite Hall in Hd. discriminate.
Qed.

Lemma over_terminated self : over self = true -> isGameTerminated self = true.
Proof. intros H. unfold isGameTerminated. now rewrite H. Qed.

Lemma play_over moves self : over self = true -> play moves self = self.
Proof.
  intros Hover. induction moves as [|[d rnd] moves IH]; auto.
  unfold play in *. cbn [foldl]. unfold move at 2.
  now rewrite (over_terminated self Hover).
Qed.

(** X8: a move sets [over] exactly when it is accepted and, on the
    board it leaves, no direction moves or merges a tile. An accepted
    move saves the game, or clears the saved game when it sets [over];
    once [over] is set no sequence of moves changes the state. *)
Theorem over_iff_stuck self d rnd :
  game_wf self -> isGameTerminated self = false ->
  let after := move d rnd self in
  (over after = true
   <-> snd (resolve d self) = true /\ forall d', snd (resolve d' after) = false)
  /\ (snd (resolve d self) = true ->
      gameState (storageManager after)
      = (if over after then None else Some (serialize after)))
  /\ (over after = true -> forall moves, play moves after = after).
Proof.
  intros Hwf Hterm after. split; [|split].
  - destruct (snd (resolve d self)) eqn:Hm.
    + destruct (move_accepted d rnd self Hwf Hterm Hm)
        as (Hs1 & Hav & _ & Hg & _ & _ & _ & Hover & _).
      destruct (addRandomTile_ledger rnd _ Hs1 Hav) as (_ & _ & _ & _ & Htile).
      fold after in Hg, Hover. rewrite <- Hg in Htile.
      rewrite Hover, negb_true_iff.
      rewrite (stuck_iff_no_move after (move_wf d rnd self Hwf) Htile). tauto.
    + assert (E : after = prepareTiles self).
      { unfold after. rewrite move_not_terminated by auto. rewrite Hm.
        now apply resolve_still. }
      assert (Hov : over after = false).
      { rewrite E. destruct (prepareTiles_fields self) as (_ & _ & _ & -> & _).
        unfold isGameTerminated in Hterm. now destruct (over self). }
      rewrite Hov. split; [discriminate|]. intros [? _]. discriminate.
  - intros Hm. apply (move_accepted d rnd self Hwf Hterm Hm).
  - intros Hover moves. now apply play_over.
Qed.

Lemma move_bestScore d rnd self :
  game_wf self -> score self <= bestScore (storageManager self) ->
  score (move d rnd self) <= bestScore (storageManager (move d rnd self))
  /\ bestScore (storageManager self) <= bestScore (storageManager (move d rnd self)).
Proof.
  intros Hwf Hle. destruct (isGameTerminated self) eqn:Hterm.
  { unfold move. rewrite Hterm. lia. }
  destruct (snd (resolve d self)) eqn:Hm.
  - destruct (move_accepted d rnd self Hwf Hterm Hm)
      as (_ & _ & _ & _ & _ & _ & _ & _ & -> & _). lia.
  - destruct (move_refused d rnd self Hwf Hm) as [-> | ->]; [lia|].
    destruct (prepareTiles_fields self) as (_ & _ & -> & _ & _ & _ & -> & _). lia.
Qed.

(** X9: [actuate] raises the stored best score to the score when the
    score is above it, and never lowers it; over any sequence of moves
    of a game whose best score is at least its score, the best score
    stays at least the score and never decreases. *)
Theorem bestScore_tracks_score self moves :
  game_wf self ->
  bestScore (storageManager (actuate self))
  = Z.max (bestScore (storageManager self)) (score self)
  /\ (score self <= bestScore (storageManager self) ->
      score (play moves self) <= bestScore (storageManager (play moves self))
      /\ bestScore (storageManager self) <= bestScore (storageManager (play moves self))).
Proof.
  intros Hwf. split; [apply actuate_storage|].
  revert self Hwf. induction moves as [|[d rnd] moves IH]; intros self Hwf Hle.
  - simpl. lia.
  - destruct (move_bestScore d rnd self Hwf Hle) as [H1 H2].
    destruct (IH (move d rnd self) (move_wf d rnd self Hwf) H1) as [H3 H4].
    unfold play in *. cbn [foldl]. lia.
Qed.

(** X10: every sequence of moves keeps the board well formed: the
    board keeps its size, every tile lies at the cell that holds it,
    and every tile value is a power of two. *)
Theorem play_keeps_board_well_formed self moves :
  game_wf self ->
  let after := play moves self in
  size after = size self
  /\ Grid.size (grid after) = size self
  /\ shaped (grid after)
  /\ forall p t, Grid.cellContent (grid after) p = Some t ->
       tile_x t = pos_x p /\ tile_y t = pos_y p /\ is_pow2 (value t) = true.
Proof.
  intros Hwf after.
  assert (H : game_wf after /\ size after = size self).
  { subst after. revert self Hwf.
    induction moves as [|[d rnd] moves IH]; intros self Hwf; [now split|].
    destruct (IH (move d rnd self) (move_wf d rnd self Hwf)) as [H1 H2].
    unfold play in *. cbn [foldl]. split; auto.
    rewrite H2. now apply move_size. }
  destruct H as [Hwf' Hsz]. apply game_wf_spec in Hwf' as [Hsz' Hg].
  apply grid_wf_spec in Hg as [Hs Ht].
  split; [exact Hsz|]. split; [congruence|]. split; [exact Hs|exact Ht].
Qed.

End GameOver.

Lemma move_conserves_values_witness :
  let self := Boards.game Boards.three_twos in
  let rnd := GameManager.mkRandom true 0 in
  value_sum (GameManager.grid (GameManager.move Left rnd self)) = 8
  /\ tile_count (GameManager.grid (GameManager.move Left rnd self)) = 3.
Proof.
  intros self rnd.
  assert (Hwf : game_wf self) by (vm_compute; reflexivity).
  destruct (move_conserves_values self Left rnd Hwf eq_refl) as [H1 H2].
  split.
  - rewrite H1. vm_compute. reflexivity.
  - rewrite H2. vm_compute. reflexivity.
Defined.

Lemma won_iff_2048_merged_witness :
  GameManager.won
    (GameManager.move Left (GameManager.mkRandom true 0)
       (Boards.game (Boards.board 4 [Boards.tile 0 0 1024; Boards.tile 1 0 1024])))
  = true.
Proof.
  set (self := Boards.game (Boards.board 4 [Boards.tile 0 0 1024; Boards.tile 1 0 1024])).
  assert (Hwf : game_wf self) by (vm_compute; reflexivity).
  refine (proj2 (won_iff_2048_merged self Left (GameManager.mkRandom true 0) Hwf eq_refl) _).
  right. exists (mkPos 0 0). eexists. split; [vm_compute; reflexivity|].
  split; [discriminate|reflexivity].
Defined.

Lemma over_iff_stuck_witness :
  let self := Boards.game Boards.three_twos in
  GameManager.over (GameManager.move Up (GameManager.mkRandom true 0) self) = true
  <-> snd (GameManager.resolve Up self) = true
      /\ forall d', snd (GameManager.resolve d'
                           (GameManager.move Up (GameManager.mkRandom true 0) self)) = false.
Proof.
  intros self.
  assert (Hwf : game_wf self) by (vm_compute; reflexivity).
  exact (proj1 (over_iff_stuck self Up (GameManager.mkRandom true 0) Hwf eq_refl)).
Defined.

Lemma bestScore_tracks_score_witness :
  let self := Boards.game Boards.three_twos in
  let moves := [(Left, GameManager.mkRandom true 0)] in
  GameManager.score (play moves self)
  <= GameManager.bestScore (GameManager.storageManager (play moves self)).
Proof.
  intros self moves.
  assert (Hwf : game_wf self) by (vm_compute; reflexivity).
  refine (proj1 (proj2 (bestScore_tracks_score self moves Hwf) _)).
  vm_compute. discriminate.
Defined.

Lemma play_keeps_board_well_formed_witness :
  let self := Boards.game Boards.three_twos in
  let moves := [(Left, GameManager.mkRandom true 0); (Down, GameManager.mkRandom false 2)] in
  Grid.size (GameManager.grid (play moves self)) = 4.
Proof.
  intros self moves.
  assert (Hwf : game_wf self) by (vm_compute; reflexivity).
  exact (proj1 (proj2 (play_keeps_board_well_formed self moves Hwf))).
Defined.

(** ** The reset of the tiles and the probe *)

Section Reset.

Import GameManager.

Implicit Types (s self live : t) (g : Grid.t) (c p q : Position) (d : Direction).

Lemma grid_ext g g' :
  shaped g -> shaped g' -> Grid.size g = Grid.size g' ->
  (forall p, Grid.cellContent g p = Grid.cellContent g' p) -> g = g'.
Proof.
  intros (H0 & Hl & Hr) (H0' & Hl' & Hr') Hsz Hc.
  destruct g as [n cs], g' as [n' cs']. cbn [Grid.size Grid.cells] in *. subst n'.
  f_equal. apply (cells_ext (Z.to_nat n)); auto.
  intros x y Hx Hy. rewrite Z2Nat.id in Hx, Hy by lia.
  specialize (Hc (mkPos x y)). unfold Grid.cellContent in Hc.
  assert (Hb : forall cs0, Grid.withinBounds (Grid.mk n cs0) (mkPos x y) = true).
  { intros cs0. apply withinBounds_spec. simpl. lia. }
  now rewrite !Hb in Hc.
Qed.

Lemma prepareTile_idem (tile : Tile) : prepareTile (prepareTile tile) = prepareTile tile.
Proof. reflexivity. Qed.

Lemma prepareTiles_set_grid self :
  prepareTiles self = set_grid self (grid (prepareTiles self)).
Proof. reflexivity. Qed.

Lemma prepareTiles_idem self :
  shaped (grid self) -> prepareTiles (prepareTiles self) = prepareTiles self.
Proof.
  intros Hs. rewrite (prepareTiles_set_grid (prepareTiles self)).
  replace (grid (prepareTiles (prepareTiles self))) with (grid (prepareTiles self)).
  - apply set_grid_same.
  - apply grid_ext.
    + now apply prepareTiles_shaped.
    + now do 2 apply prepareTiles_shaped.
    + symmetry. apply prepareTiles_fields.
    + intros p. rewrite !prepareTiles_cellContent.
      now destruct (Grid.cellContent (grid self) p).
Qed.

Lemma resolve_prepared d self :
  shaped (grid self) -> resolve d (prepareTiles self) = resolve d self.
Proof.
  intros Hs. unfold resolve. rewrite prepareTiles_idem by auto. reflexivity.
Qed.

Lemma move_prepared d rnd self :
  shaped (grid self) -> isGameTerminated self = false ->
  move d rnd (prepareTiles self) = move d rnd self.
Proof.
  intros Hs Hterm. unfold move. rewrite resolve_prepared by auto.
  replace (isGameTerminated (prepareTiles self)) with (isGameTerminated self)
    by reflexivity.
  now rewrite Hterm.
Qed.

(** X11: [prepareTiles] clears the merge information of every tile and
    saves its cell as previous position; it keeps the cells, the values
    and every other field of the game, doing it twice is doing it once,
    and a move gives the same state whether or not the tiles were reset
    before it. *)
Theorem prepareTiles_reset self :
  shaped (grid self) ->
  (forall p, Grid.cellContent (grid (prepareTiles self)) p
             = (fun t => mkTile (tile_x t) (tile_y t) (value t)
                           (Some (mkPos (tile_x t) (tile_y t))) None)
               <$> Grid.cellContent (grid self) p)
  /\ serialize (prepareTiles self) = serialize self
  /\ storageManager (prepareTiles self) = storageManager self
  /\ actuator (prepareTiles self) = actuator self
  /\ prepareTiles (prepareTiles self) = prepareTiles self
  /\ (forall d rnd, isGameTerminated self = false ->
        move d rnd (prepareTiles self) = move d rnd self).
Proof.
  intros Hs. split; [|split; [|split; [|split; [|split]]]].
  - intros p. rewrite prepareTiles_cellContent.
    now destruct (Grid.cellContent (grid self) p).
  - now apply prepareTiles_serialize.
  - apply prepareTiles_fields.
  - apply prepareTiles_fields.
  - now apply prepareTiles_idem.
  - intros d rnd Hterm. now apply move_prepared.
Qed.

(** X12: on the snapshot of the live board, [tryMove] answers whether
    the move in that direction moves or merges a tile; whatever grid it
    is given, it leaves the game as [prepareTiles] does. *)
Theorem tryMove_on_snapshot live d :
  game_wf live ->
  fst (tryMove d (copyGrid (size live) (grid live)) live) = snd (resolve d live)
  /\ (forall g, snd (tryMove d g live) = prepareTiles live).
Proof.
  intros Hwf. split.
  - now apply legal_resolve.
  - intros g. apply tryMove_state.
Qed.

End Reset.

Lemma prepareTiles_reset_witness :
  let self := GameManager.move Left (GameManager.mkRandom true 0)
                (Boards.game Boards.three_twos) in
  GameManager.prepareTiles (GameManager.prepareTiles self) = GameManager.prepareTiles self.
Proof.
  intros self.
  assert (Hs : shaped (GameManager.grid self))
    by (apply grid_wf_shaped; vm_compute; reflexivity).
  exact (proj1 (proj2 (proj2 (proj2 (proj2 (prepareTiles_reset self Hs)))))).
Defined.

Lemma tryMove_on_snapshot_witness :
  let live := Boards.game Boards.three_twos in
  fst (GameManager.tryMove Left
         (copyGrid (GameManager.size live) (GameManager.grid live)) live)
  = snd (GameManager.resolve Left live).
Proof.
  intros live.
  assert (Hwf : game_wf live) by (vm_compute; reflexivity).
  exact (proj1 (tryMove_on_snapshot live Left Hwf)).
Defined.

(** ** The strategies that score the copy once per direction *)

Section SimpleLoop.

Implicit Types (st live : GameManager.t) (g : Grid.t) (d : Direction) (best : Best).

Variable ev : Grid.t -> JSNum.t.

Local Abbreviation round :=
  (fun best direction =>
     bind (gets GameManager.size) (fun n =>
     bind (gets GameManager.grid) (fun snapshot =>
     bind (GameManager.tryMove direction (copyGrid n snapshot)) (fun moved : bool =>
       if moved then ret (better (ev (copyGrid n snapshot)) direction best)
       else ret best)))).

Lemma simple_round best d st :
  round best d st
  = (if fst (GameManager.tryMove d (copyGrid (GameManager.size st) (GameManager.grid st)) st)
     then better (ev (copyGrid (GameManager.size st) (GameManager.grid st))) d best
     else best,
     GameManager.prepareTiles st).
Proof.
  unfold bind, gets. cbn [fst snd].
  pose proof (tryMove_state d (copyGrid (GameManager.size st) (GameManager.grid st)) st)
    as Hst.
  destruct (GameManager.tryMove d _ st) as [m st'].
  cbn [fst snd] in *. subst st'. now destruct m.
Qed.

(** The loop over the directions, as a fold over the legal ones. *)
Lemma simple_loop live (l : list Direction) best st :
  same_snapshot st live ->
  fst (foldM round best l st)
  = foldl (fun best d =>
             if legal live d
             then better (ev (copyGrid (GameManager.size live) (GameManager.grid live))) d best
             else best)
          best l
  /\ snd (foldM round best l st)
     = match l with [] => st | _ => GameManager.prepareTiles st end.
Proof.
  revert best st. induction l as [|d l IH]; intros best st Hst; [now split|].
  cbn [foldM foldl]. rewrite bind_unfold, simple_round.
  assert (Hshape : shaped (GameManager.grid st)) by now destruct Hst.
  assert (Hst' : same_snapshot (GameManager.prepareTiles st) live).
  { eapply same_snapshot_trans; [|exact Hst]. now apply prepareTiles_same_snapshot. }
  rewrite (legal_same st live d Hst), (same_snapshot_copy st live Hst).
  destruct (IH (if legal live d
                then better (ev (copyGrid (GameManager.size live) (GameManager.grid live)))
                            d best
                else best)
              (GameManager.prepareTiles st) Hst') as [E1 E2].
  split; [exact E1|]. rewrite E2. destruct l; auto. now apply prepareTiles_idem.
Qed.

Lemma pick_keeps (lg : Direction -> bool) (v : JSNum.t) (l : list Direction) best :
  JSNum.gtb v v = false -> bestScore best = v ->
  foldl (fun best d => if lg d then better v d best else best) best l = best.
Proof.
  intros Hv Hb. induction l as [|d l IH]; auto.
  cbn [foldl]. destruct (lg d); auto.
  unfold better. now rewrite Hb, Hv.
Qed.

(** When every legal direction gets the same score, above the initial
    one, the loop keeps the first legal direction. *)
Lemma pick_first (lg : Direction -> bool) (v b0 : JSNum.t) (l : list Direction) :
  JSNum.gtb v b0 = true -> JSNum.gtb v v = false ->
  bestMove (foldl (fun best d => if lg d then better v d best else best)
              (mkBest b0 Up) l)
  = match List.find lg l with Some d => d | None => Up end.
Proof.
  intros Hb Hv. induction l as [|d l IH]; auto.
  cbn [foldl List.find]. destruct (lg d); auto.
  unfold better at 2. cbn [bestScore]. rewrite Hb.
  now rewrite pick_keeps.
Qed.

End SimpleLoop.

Section Scores.

Implicit Types (g : Grid.t).

Lemma ltb_of_Z (a b : Z) : JSNum.ltb (JSNum.of_Z a) (JSNum.of_Z b) = (a <? b).
Proof.
  unfold JSNum.of_Z, JSNum.fin, JSNum.ltb.
  rewrite (Qcompare_comp _ _ (Qred_correct (inject_Z a)) _ _ (Qred_correct (inject_Z b))).
  unfold Qcompare, inject_Z. cbn [Qnum Qden]. rewrite !Z.mul_1_r.
  unfold Z.ltb. reflexivity.
Qed.

Lemma elem_of_eachCell g (x y : Z) (c : option Tile) :
  (x, y, c) ∈ Grid.eachCell g -> c = Grid.cell_at (Grid.cells g) x y.
Proof.
  unfold Grid.eachCell. intros H. apply list_elem_of_fmap in H as (p & E & _).
  now inversion E.
Qed.

Lemma tile_sum_nonneg g :
  cells_positive (Grid.cells g) ->
  0 <= foldl (fun score '(_, _, tile) =>
                match tile with Some tile => score + value tile | None => score end)
             0 (Grid.eachCell g).
Proof.
  intros Hp. apply (foldl_inv_in (fun a => 0 <= a)); [lia|].
  intros a [[x y] [t|]] Hin Ha; auto.
  apply elem_of_eachCell in Hin. symmetry in Hin. apply Hp in Hin. lia.
Qed.

Lemma neighbour_step_fin g cur acc (inside : bool) cell :
  cells_positive (Grid.cells g) -> JSNum.is_fin cur -> JSNum.is_fin (fst acc) ->
  JSNum.is_fin (fst (SmartStrategy.neighbour_step g cur acc inside cell)).
Proof.
  intros Hp Hc Ha. destruct acc as [sm mo]. unfold SmartStrategy.neighbour_step.
  destruct inside; auto.
  destruct (Grid.cellContent g cell) as [t|] eqn:E; auto. cbn [fst] in *.
  apply is_fin_sub; auto. apply is_fin_abs, is_fin_sub; auto.
  apply is_fin_log2. eapply cells_positive_content; eauto.
Qed.

Lemma smart_scan_neighbours_fin g :
  cells_positive (Grid.cells g) -> JSNum.is_fin (fst (SmartStrategy.scan_neighbours g)).
Proof.
  intros Hp. unfold SmartStrategy.scan_neighbours.
  apply (foldl_inv (fun acc => JSNum.is_fin (fst acc))); [apply is_fin_of_Z|].
  intros acc x Hacc.
  apply (foldl_inv (fun acc => JSNum.is_fin (fst acc))); [exact Hacc|].
  intros acc' y Hacc'.
  destruct (Grid.cellContent g (mkPos x y)) as [t|] eqn:E; auto.
  assert (Hc : JSNum.is_fin (JSNum.log2 (value t))).
  { apply is_fin_log2. eapply cells_positive_content; eauto. }
  now repeat apply neighbour_step_fin.
Qed.

Lemma smart_evaluatePosition_fin g :
  cells_positive (Grid.cells g) -> JSNum.is_fin (SmartStrategy.evaluatePosition g).
Proof.
  intros Hp. unfold SmartStrategy.evaluatePosition.
  destruct (SmartStrategy.scan_cells g) as [tileSum emptyCells].
  pose proof (smart_scan_neighbours_fin g Hp) as Hs.
  destruct (SmartStrategy.scan_neighbours g) as [smoothness monotonicity].
  destruct (SmartStrategy.scan_max g) as [maxTile inCorner]. cbn [fst] in Hs.
  repeat apply is_fin_add; try apply is_fin_of_Z.
  apply is_fin_mul; auto. apply is_fin_of_Z.
Qed.

End Scores.

Section SimpleStrategies.

Import GameManager.

Implicit Types (live : t) (d : Direction).

Lemma find_legal live :
  game_wf live ->
  List.find (legal live) directions
  = List.find (fun d => snd (resolve d live)) directions.
Proof.
  intros Hwf. unfold directions. cbn [List.find]. now rewrite !legal_resolve.
Qed.

Lemma copy_positive live :
  game_wf live -> cells_positive (Grid.cells (copyGrid (size live) (grid live))).
Proof.
  intros Hwf. apply game_wf_spec in Hwf as [_ Hg].
  apply cells_positive_copy. now apply grid_wf_positive.
Qed.

Lemma live_snapshot live : game_wf live -> same_snapshot live live.
Proof.
  intros Hwf. apply game_wf_spec in Hwf as [_ Hg].
  apply same_snapshot_refl. now apply grid_wf_shaped.
Qed.

(** X13: [getNextMove] of the naive strategy returns the first
    direction, in the order up, right, down, left, in which the move
    moves or merges a tile, and up when there is none: every legal
    direction is scored on the same copy of the board, on which
    [tryMove] moves nothing. It leaves the game as [prepareTiles]
    does. *)
Theorem naive_getNextMove_first live :
  game_wf live ->
  fst (NaiveStrategy.getNextMove live)
  = match List.find (fun d => snd (resolve d live)) directions with
    | Some d => d
    | None => Up
    end
  /\ snd (NaiveStrategy.getNextMove live) = prepareTiles live.
Proof.
  intros Hwf. unfold NaiveStrategy.getNextMove.
  rewrite bind_ret_fst, bind_ret_snd.
  destruct (simple_loop NaiveStrategy.evaluatePosition live directions
              (mkBest (JSNum.of_Z (-1)) Up) live (live_snapshot live Hwf)) as [E1 E2].
  split; [|exact E2].
  rewrite E1, pick_first, find_legal; auto.
  - unfold JSNum.gtb, NaiveStrategy.evaluatePosition. rewrite ltb_of_Z.
    apply Z.ltb_lt. pose proof (tile_sum_nonneg _ (copy_positive live Hwf)). lia.
  - apply ltb_irrefl.
Qed.

(** X14: [getNextMove] of the game manager itself does the same: it
    returns the first direction in which the move moves or merges a
    tile, up when there is none, and leaves the game as [prepareTiles]
    does. *)
Theorem manager_getNextMove_first live :
  game_wf live ->
  fst (ManagerSearch.getNextMove live)
  = match List.find (fun d => snd (resolve d live)) directions with
    | Some d => d
    | None => Up
    end
  /\ snd (ManagerSearch.getNextMove live) = prepareTiles live.
Proof.
  intros Hwf. unfold ManagerSearch.getNextMove.
  rewrite bind_ret_fst, bind_ret_snd.
  destruct (simple_loop ManagerSearch.evaluatePosition live directions
              (mkBest (JSNum.of_Z (-1)) Up) live (live_snapshot live Hwf)) as [E1 E2].
  split; [|exact E2].
  rewrite E1, pick_first, find_legal; auto.
  - unfold JSNum.gtb, ManagerSearch.evaluatePosition. rewrite ltb_of_Z.
    apply Z.ltb_lt. pose proof (tile_sum_nonneg _ (copy_positive live Hwf)). lia.
  - apply ltb_irrefl.
Qed.

(** X15: [getNextMove] of the smart strategy returns the first
    direction in which the move moves or merges a tile, up when there
    is none: its evaluation is finite and is taken on the same copy of
    the board for every legal direction. It leaves the game as
    [prepareTiles] does. *)
Theorem smart_getNextMove_first live :
  game_wf live ->
  fst (SmartStrategy.getNextMove live)
  = match List.find (fun d => snd (resolve d live)) directions with
    | Some d => d
    | None => Up
    end
  /\ snd (SmartStrategy.getNextMove live) = prepareTiles live
  /\ JSNum.is_fin (SmartStrategy.evaluatePosition (copyGrid (size live) (grid live))).
Proof.
  intros Hwf. unfold SmartStrategy.getNextMove.
  rewrite bind_ret_fst, bind_ret_snd.
  destruct (simple_loop SmartStrategy.evaluatePosition live directions
              (mkBest JSNum.NegInf Up) live (live_snapshot live Hwf)) as [E1 E2].
  pose proof (smart_evaluatePosition_fin _ (copy_positive live Hwf)) as Hfin.
  split; [|split; [exact E2|exact Hfin]].
  rewrite E1, pick_first, find_legal; auto.
  - now apply is_fin_above.
  - apply ltb_irrefl.
Qed.

End SimpleStrategies.

Lemma naive_getNextMove_first_witness :
  fst (NaiveStrategy.getNextMove (Boards.game Boards.lone_two)) = Right.
Proof.
  assert (Hwf : game_wf (Boards.game Boards.lone_two)) by (vm_compute; reflexivity).
  rewrite (proj1 (naive_getNextMove_first _ Hwf)). vm_compute. reflexivity.
Defined.

Lemma manager_getNextMove_first_witness :
  fst (ManagerSearch.getNextMove (Boards.game Boards.lone_two)) = Right.
Proof.
  assert (Hwf : game_wf (Boards.game Boards.lone_two)) by (vm_compute; reflexivity).
  rewrite (proj1 (manager_getNextMove_first _ Hwf)). vm_compute. reflexivity.
Defined.

Lemma smart_getNextMove_first_witness :
  fst (SmartStrategy.getNextMove (Boards.game Boards.crowded)) = Right.
Proof.
  assert (Hwf : game_wf (Boards.game Boards.crowded)) by (vm_compute; reflexivity).
  rewrite (proj1 (smart_getNextMove_first _ Hwf)). vm_compute. reflexivity.
Defined.

(** ** The searches and the live game *)

Section SearchFrame.

Import GameManager.

Implicit Types (st live : t) (g : Grid.t) (d : Direction).

Lemma foldM_fixed {S A B : Type} (I : S -> Prop) (f : A -> B -> State S A) (l : list B) :
  (forall acc x (w : S), I w -> I (snd (f acc x w))) ->
  forall acc (w : S), I w -> I (snd (foldM f acc l w)).
Proof.
  intros Hf. induction l as [|x l IH]; intros acc w Hw; cbn [foldM]; auto.
  unfold bind. specialize (Hf acc x w Hw).
  destruct (f acc x w) as [acc' w']. now apply IH.
Qed.

(** On a game whose tiles are reset already, a search leaves the game
    as it is. *)
Lemma expectimax_prepared s g (depth : nat) (isMax : bool) st :
  prepareTiles st = st ->
  snd (AdvancedStrategy.expectimax s g depth isMax st) = st.
Proof.
  intros Hp. revert g isMax.
  induction depth as [|depth IH]; intros g isMax; cbn [AdvancedStrategy.expectimax]; auto.
  destruct isMax.
  - rewrite bind_ret_snd.
    apply (foldM_fixed (fun st' => st' = st)); auto.
    intros acc d st' ->. unfold bind, gets. cbn [fst snd].
    pose proof (tryMove_state d (copyGrid (size st) g) st) as Hst.
    destruct (tryMove d (copyGrid (size st) g) st) as [m st1].
    cbn [fst snd] in *. rewrite Hp in Hst. subst st1.
    destruct m; auto.
    specialize (IH (copyGrid (size st) g) false).
    destruct (AdvancedStrategy.expectimax s _ depth false st) as [v st2].
    cbn [fst snd] in *. exact IH.
  - destruct (length (emptyCellsOf g) =? 0)%nat; auto.
    rewrite bind_ret_snd.
    apply (foldM_fixed (fun st' => st' = st)); auto.
    intros [score count] [x y] st' ->. unfold bind, gets. cbn [fst snd].
    pose proof (IH (Grid.insertTile (copyGrid (size st) g) (TileOps.new (mkPos x y) 2)) true)
      as H2.
    destruct (AdvancedStrategy.expectimax s _ depth true st) as [v2 st2].
    cbn [fst snd] in *. subst st2.
    pose proof (IH (Grid.insertTile (copyGrid (size st) g) (TileOps.new (mkPos x y) 4)) true)
      as H4.
    destruct (AdvancedStrategy.expectimax s _ depth true st) as [v4 st4].
    cbn [fst snd] in *. exact H4.
Qed.

Lemma max_fold (probe : Direction -> bool) (V : JSNum.t) (l : list Direction) :
  JSNum.above_neginf V ->
  foldl (fun b d => if probe d then JSNum.max b V else b) JSNum.NegInf l
  = if existsb probe l then V else JSNum.NegInf.
Proof.
  intros HV.
  assert (Hkeep : forall l', foldl (fun b d => if probe d then JSNum.max b V else b) V l' = V).
  { induction l' as [|d l' IH]; auto. cbn [foldl].
    destruct (probe d); auto. now rewrite max_same. }
  induction l as [|d l IH]; auto. cbn [foldl existsb].
  destruct (probe d); cbn [orb]; auto.
  now rewrite max_neginf, Hkeep.
Qed.

(** X16: the move layer of [expectimax] never looks at a moved board:
    when [tryMove] reports some direction as a move, the value is the
    value of the chance layer on a copy of the same grid, one level
    down; otherwise it is the static evaluation of the grid. *)
Theorem expectimax_move_layer s live g (depth : nat) :
  game_wf live -> cells_positive (Grid.cells g) ->
  let gridCopy := copyGrid (size live) g in
  fst (AdvancedStrategy.expectimax s g (S depth) true live)
  = if existsb (fun d => fst (tryMove d gridCopy live)) directions
    then fst (AdvancedStrategy.expectimax s gridCopy depth false live)
    else AdvancedStrategy.evaluatePosition s g.
Proof.
  intros Hwf Hpos gridCopy.
  pose proof (live_snapshot live Hwf) as Hlive.
  assert (Hs : shaped (grid live)) by now destruct Hlive.
  set (V := fst (AdvancedStrategy.expectimax s gridCopy depth false live)).
  assert (HV : JSNum.above_neginf V).
  { apply expectimax_above. now apply cells_positive_copy. }
  cbn [AdvancedStrategy.expectimax]. rewrite bind_ret_fst.
  rewrite foldM_stable_fold; auto.
  - erewrite foldl_ext_all.
    + rewrite (max_fold (fun d => fst (tryMove d gridCopy live)) V) by exact HV.
      destruct (existsb _ directions); [|reflexivity].
      now rewrite eqb_neginf_above.
    + intros b d. unfold bind, gets. cbn [fst snd]. fold gridCopy.
      pose proof (tryMove_state d gridCopy live) as Hst.
      destruct (tryMove d gridCopy live) as [m st1]. cbn [fst snd] in *. subst st1.
      destruct m; auto.
      pose proof (expectimax_value s gridCopy depth false (prepareTiles live) live
                    (prepareTiles_same_snapshot live Hs)) as E.
      fold V in E.
      destruct (AdvancedStrategy.expectimax s gridCopy depth false (prepareTiles live))
        as [v st2].
      cbn [fst snd] in *. now subst v.
  - intros acc d.
    apply stable_bind; [apply stable_gets_size|]. intros n.
    apply stable_bind; [apply tryMove_stable|]. intros moved.
    destruct moved; [|apply stable_ret].
    apply stable_bind; [apply expectimax_stable|]. intros v. apply stable_ret.
Qed.

Lemma advanced_round_state s best d st :
  shaped (grid st) ->
  snd (bind (gets size) (fun n =>
       bind (gets grid) (fun snapshot =>
       bind (tryMove d (copyGrid n snapshot)) (fun moved : bool =>
         if moved
         then bind (AdvancedStrategy.expectimax s (copyGrid n snapshot)
                      (AdvancedStrategy.SEARCH_DEPTH s) false)
                   (fun score => ret (better score d best))
         else ret best))) st)
  = prepareTiles st.
Proof.
  intros Hst. unfold bind, gets. cbn [fst snd].
  pose proof (tryMove_state d (copyGrid (size st) (grid st)) st) as Hst1.
  destruct (tryMove d (copyGrid (size st) (grid st)) st) as [m st1].
  cbn [fst snd] in *. subst st1. destruct m; auto.
  pose proof (expectimax_prepared s (copyGrid (size st) (grid st))
                (AdvancedStrategy.SEARCH_DEPTH s) false (prepareTiles st)
                (prepareTiles_idem st Hst)) as H.
  destruct (AdvancedStrategy.expectimax s _ _ false (prepareTiles st)) as [v st2].
  exact H.
Qed.

Lemma advanced_loop_state s (l : list Direction) best st :
  shaped (grid st) ->
  snd (foldM (fun best d =>
                bind (gets size) (fun n =>
                bind (gets grid) (fun snapshot =>
                bind (tryMove d (copyGrid n snapshot)) (fun moved : bool =>
                  if moved
                  then bind (AdvancedStrategy.expectimax s (copyGrid n snapshot)
                               (AdvancedStrategy.SEARCH_DEPTH s) false)
                            (fun score => ret (better score d best))
                  else ret best))))
         best l st)
  = match l with [] => st | _ => prepareTiles st end.
Proof.
  revert best st. induction l as [|d l IH]; intros best st Hst; auto.
  cbn [foldM]. rewrite bind_unfold.
  pose proof (advanced_round_state s best d st Hst) as H.
  match type of H with
  | snd (?m st) = _ => destruct (m st) as [b1 st1]
  end.
  cbn [snd] in H. subst st1. rewrite IH by now apply prepareTiles_shaped.
  destruct l; auto. now apply prepareTiles_idem.
Qed.

(** X17: [getNextMove] of the expectimax strategy leaves the game as
    [prepareTiles] does, whatever the depth of the search: the cells,
    the values, the score, the flags, the storage and the actuator are
    as before. *)
Theorem advanced_getNextMove_frame s live :
  game_wf live ->
  snd (AdvancedStrategy.getNextMove s live) = prepareTiles live
  /\ serialize (snd (AdvancedStrategy.getNextMove s live)) = serialize live
  /\ storageManager (snd (AdvancedStrategy.getNextMove s live)) = storageManager live
  /\ actuator (snd (AdvancedStrategy.getNextMove s live)) = actuator live.
Proof.
  intros Hwf. pose proof (live_snapshot live Hwf) as Hlive.
  assert (Hs : shaped (grid live)) by now destruct Hlive.
  assert (E : snd (AdvancedStrategy.getNextMove s live) = prepareTiles live).
  { unfold AdvancedStrategy.getNextMove. rewrite bind_ret_snd.
    now apply (advanced_loop_state s directions). }
  rewrite E. split; auto. split; [now apply prepareTiles_serialize|].
  split; apply prepareTiles_fields.
Qed.

End SearchFrame.

Lemma expectimax_move_layer_witness :
  fst (AdvancedStrategy.expectimax (AdvancedStrategy.make 2) Boards.lone_two 1 true
         (Boards.game Boards.lone_two))
  = AdvancedStrategy.evaluatePosition (AdvancedStrategy.make 2)
      (copyGrid 4 Boards.lone_two).
Proof.
  assert (Hwf : game_wf (Boards.game Boards.lone_two)) by (vm_compute; reflexivity).
  assert (Hpos : cells_positive (Grid.cells Boards.lone_two)).
  { apply grid_wf_positive. vm_compute. reflexivity. }
  rewrite (expectimax_move_layer (AdvancedStrategy.make 2) (Boards.game Boards.lone_two)
             Boards.lone_two 0 Hwf Hpos).
  reflexivity.
Defined.

Lemma advanced_getNextMove_frame_witness :
  let live := Boards.game Boards.lone_two in
  snd (AdvancedStrategy.getNextMove (AdvancedStrategy.make 1) live)
  = GameManager.prepareTiles live.
Proof.
  intros live.
  assert (Hwf : game_wf live) by (vm_compute; reflexivity).
  exact (proj1 (advanced_getNextMove_frame (AdvancedStrategy.make 1) live Hwf)).
Defined.

Section MasterFrame.

Import GameManager.

Implicit Types (live : t) (g : Grid.t) (d : Direction) (w : World).

(** On a game whose tiles are reset already, the alpha-beta search
    leaves the game as it is; it only consumes random draws. *)
Lemma alphaBeta_prepared s g (depth : nat) alpha beta (isMax late : bool) live w :
  prepareTiles live = live -> manager w = live ->
  manager (snd (MasterStrategy.alphaBeta s g depth alpha beta isMax late w)) = live.
Proof.
  intros Hp. revert g alpha beta isMax w.
  induction depth as [|depth IH]; intros g alpha beta isMax w Hw;
    cbn [MasterStrategy.alphaBeta]; auto.
  destruct isMax.
  - rewrite bind_ret_snd.
    apply (foldM_fixed (fun w' => manager w' = live)); auto.
    intros acc d w' Hw'. destruct (MasterStrategy.lp_broken acc); auto.
    unfold bind, gets. cbn [fst snd]. rewrite liftGM_tryMove. cbn [fst snd].
    rewrite Hw', Hp.
    destruct (fst (tryMove d (copyGrid (size live) g) live)); auto.
    specialize (IH (copyGrid (size live) g) (MasterStrategy.lp_bound acc) beta false
                  (mkWorld live (draws w')) eq_refl).
    destruct (MasterStrategy.alphaBeta s _ depth _ beta false late _) as [v w2].
    exact IH.
  - destruct (length (emptyCellsOf g) =? 0)%nat; auto.
    rewrite bind_unfold. unfold MasterStrategy.sampleCells. cbv beta iota.
    rewrite bind_ret_snd.
    apply (foldM_fixed (fun w' => manager w' = live)); auto.
    intros acc [x y] w' Hw'. destruct (MasterStrategy.lp_broken acc); auto.
    unfold bind, gets. cbn [fst snd]. rewrite Hw'.
    pose proof (IH (Grid.insertTile (copyGrid (size live) g) (TileOps.new (mkPos x y) 2))
                  alpha (MasterStrategy.lp_bound acc) true w' Hw') as H2.
    destruct (MasterStrategy.alphaBeta s _ depth alpha _ true late w') as [v2 w2].
    cbn [fst snd] in *. rewrite H2.
    pose proof (IH (Grid.insertTile (copyGrid (size live) g) (TileOps.new (mkPos x y) 4))
                  alpha (MasterStrategy.lp_bound acc) true w2 H2) as H4.
    destruct (MasterStrategy.alphaBeta s _ depth alpha _ true late w2) as [v4 w4].
    exact H4.
Qed.

Lemma master_round_state s (late : bool) best d w :
  shaped (grid (manager w)) ->
  manager
    (snd (bind (gets (fun w => size (manager w))) (fun n =>
          bind (gets (fun w => grid (manager w))) (fun snapshot =>
          bind (liftGM (tryMove d (copyGrid n snapshot))) (fun moved : bool =>
            if moved
            then bind (MasterStrategy.alphaBeta s (copyGrid n snapshot)
                         (MasterStrategy.SEARCH_DEPTH s) JSNum.NegInf JSNum.PosInf false late)
                      (fun score => ret (better score d best))
            else ret best))) w))
  = prepareTiles (manager w).
Proof.
  intros Hs. unfold bind, gets. cbn [fst snd]. rewrite liftGM_tryMove. cbn [fst snd].
  destruct (fst (tryMove d _ (manager w))); auto.
  pose proof (alphaBeta_prepared s (copyGrid (size (manager w)) (grid (manager w)))
                (MasterStrategy.SEARCH_DEPTH s) JSNum.NegInf JSNum.PosInf false late
                (prepareTiles (manager w))
                (mkWorld (prepareTiles (manager w)) (draws w))
                (prepareTiles_idem _ Hs) eq_refl) as H.
  destruct (MasterStrategy.alphaBeta s _ _ _ _ false late _) as [v w2]. exact H.
Qed.

Lemma master_loop_state s (late : bool) (l : list Direction) best w :
  shaped (grid (manager w)) ->
  manager
    (snd (foldM (fun best d =>
                   bind (gets (fun w => size (manager w))) (fun n =>
                   bind (gets (fun w => grid (manager w))) (fun snapshot =>
                   bind (liftGM (tryMove d (copyGrid n snapshot))) (fun moved : bool =>
                     if moved
                     then bind (MasterStrategy.alphaBeta s (copyGrid n snapshot)
                                  (MasterStrategy.SEARCH_DEPTH s)
                                  JSNum.NegInf JSNum.PosInf false late)
                               (fun score => ret (better score d best))
                     else ret best))))
            best l w))
  = match l with [] => manager w | _ => prepareTiles (manager w) end.
Proof.
  revert best w. induction l as [|d l IH]; intros best w Hs; auto.
  cbn [foldM]. rewrite bind_unfold.
  pose proof (master_round_state s late best d w Hs) as H.
  match type of H with
  | manager (snd (?m w)) = _ => destruct (m w) as [b1 w1]
  end.
  cbn [snd] in H. rewrite IH by (rewrite H; now apply prepareTiles_shaped).
  rewrite H. destruct l; auto. now apply prepareTiles_idem.
Qed.

(** X18: [getNextMove] of the alpha-beta strategy leaves the game as
    [prepareTiles] does, whatever the depth and the random draws: the
    cells, the values, the score, the flags, the storage and the
    actuator are as before. *)
Theorem master_getNextMove_frame s live (ds : list nat) :
  game_wf live ->
  let after := manager (snd (MasterStrategy.getNextMove s (mkWorld live ds))) in
  after = prepareTiles live
  /\ serialize after = serialize live
  /\ storageManager after = storageManager live
  /\ actuator after = actuator live.
Proof.
  intros Hwf after. pose proof (live_snapshot live Hwf) as Hlive.
  assert (Hs : shaped (grid live)) by now destruct Hlive.
  assert (E : after = prepareTiles live).
  { unfold after, MasterStrategy.getNextMove.
    rewrite bind_unfold, gets_unfold. cbv beta iota. rewrite bind_ret_snd.
    now apply (master_loop_state s _ directions _ (mkWorld live ds)). }
  rewrite E. split; auto. split; [now apply prepareTiles_serialize|].
  split; apply prepareTiles_fields.
Qed.

End MasterFrame.

Section MasterHelpers.

Implicit Types (g : Grid.t).

Lemma getMaxTile_fold g (l : list (Z * Z * option Tile)) (m0 : Z) :
  let m := foldl (fun max '(_, _, tile) =>
                    match tile with
                    | Some tile => if value tile >? max then value tile else max
                    | None => max
                    end) m0 l in
  m0 <= m
  /\ (forall x y t, (x, y, Some t) ∈ l -> value t <= m)
  /\ (m = m0 \/ exists x y t, (x, y, Some t) ∈ l /\ value t = m).
Proof.
  revert m0. induction l as [|[[x y] c] l IH]; intros m0; cbn [foldl].
  - split; [lia|]. split; [|auto]. intros x y t H. now apply elem_of_nil in H.
  - set (m1 := match c with
               | Some tile => if value tile >? m0 then value tile else m0
               | None => m0
               end).
    destruct (IH m1) as (H1 & H2 & H3). cbv zeta in *.
    assert (Hm1 : m0 <= m1 /\ (forall t, c = Some t -> value t <= m1)
                  /\ (m1 = m0 \/ exists t, c = Some t /\ value t = m1)).
    { unfold m1. destruct c as [t|].
      - destruct (Z.gtb_spec (value t) m0); repeat split; try lia; eauto.
        + intros t' [= <-]. lia.
        + intros t' [= <-]. lia.
      - repeat split; try lia; auto. discriminate. }
    destruct Hm1 as (M1 & M2 & M3).
    split; [lia|]. split.
    + intros x' y' t H. apply elem_of_cons in H as [E|H].
      * inversion E; subst. specialize (M2 t eq_refl). lia.
      * eapply H2; eauto.
    + destruct H3 as [H3|(x' & y' & t & Hin & Ht)].
      * rewrite H3. destruct M3 as [M3|(t & -> & Ht)]; [left; auto|].
        right. exists x, y, t. split; [apply list_elem_of_here|auto].
      * right. exists x', y', t. split; [now apply list_elem_of_further|auto].
Qed.

(** X19: [getMaxTile] returns the largest tile value of the board, and
    0 for a board without a tile of positive value: it is at least
    every tile value, never negative, and unless it is 0 it is the
    value of some tile of the board. *)
Theorem getMaxTile_spec g :
  0 <= MasterStrategy.getMaxTile g
  /\ (forall p t, Grid.cellContent g p = Some t -> value t <= MasterStrategy.getMaxTile g)
  /\ (MasterStrategy.getMaxTile g = 0
      \/ exists p t, Grid.cellContent g p = Some t
                     /\ value t = MasterStrategy.getMaxTile g).
Proof.
  destruct (getMaxTile_fold g (Grid.eachCell g) 0) as (H1 & H2 & H3).
  fold (MasterStrategy.getMaxTile g) in H1, H2, H3. cbv zeta in *.
  split; [exact H1|]. split.
  - intros p t Hc. apply (H2 (pos_x p) (pos_y p)).
    pose proof (cellContent_Some_bounds _ _ _ Hc) as Hb.
    rewrite (cellContent_in _ _ Hb) in Hc. rewrite <- Hc.
    unfold Grid.eachCell. apply list_elem_of_fmap. exists p. split; auto.
    now apply withinBounds_positions.
  - destruct H3 as [H3|(x & y & t & Hin & Ht)]; [now left|]. right.
    unfold Grid.eachCell in Hin. apply list_elem_of_fmap in Hin as (p & E & Hp).
    inversion E; subst. exists p, t. split; auto.
    apply withinBounds_positions in Hp. rewrite (cellContent_in _ _ Hp). auto.
Qed.

(** X20: [sampleCells] returns [count] of the cells it is given, or all
    of them when there are fewer, each as often as it was given; it
    leaves the game alone. *)
Theorem sampleCells_spec (cells : list Position) (count : nat) (w : World) :
  let r := MasterStrategy.sampleCells cells count w in
  length (fst r) = Nat.min count (length cells)
  /\ fst r ⊆+ cells
  /\ ((length cells <= count)%nat -> fst r ≡ₚ cells)
  /\ manager (snd r) = manager w.
Proof.
  unfold MasterStrategy.sampleCells. cbn [fst snd manager].
  pose proof (shuffle_perm cells (draws w)) as Hperm.
  split; [|split; [|split]]; auto.
  - rewrite length_take, (Permutation_length Hperm). reflexivity.
  - transitivity (shuffle (length cells) (draws w) cells).
    + apply sublist_submseteq, sublist_take.
    + now apply Permutation_submseteq.
  - intros Hle. rewrite take_ge; auto. rewrite (Permutation_length Hperm). exact Hle.
Qed.

End MasterHelpers.

Lemma master_getNextMove_frame_witness :
  let live := Boards.game Boards.lone_two in
  GameManager.serialize
    (manager (snd (MasterStrategy.getNextMove (MasterStrategy.make 1)
                     (mkWorld live [14; 13; 12]%nat))))
  = GameManager.serialize live.
Proof.
  intros live.
  assert (Hwf : game_wf live) by (vm_compute; reflexivity).
  exact (proj1 (proj2 (master_getNextMove_frame (MasterStrategy.make 1) live
                         [14; 13; 12]%nat Hwf))).
Defined.

(** ** Starting, saving and restoring a game *)

Section Lifecycle.

Import GameManager Lifecycle.

Implicit Types (s self : t) (g : Grid.t) (p : Position).

Lemma serialize_fromState (n : Z) (cells : list (list (option SerializedTile))) :
  Grid.serialize_cells (fromState n cells) = cells.
Proof.
  unfold Grid.serialize_cells, fromState. cbn [Grid.cells].
  rewrite map_map. rewrite <- (map_id cells) at 2. apply map_ext. intros row.
  rewrite map_map. rewrite <- (map_id row) at 2. apply map_ext.
  intros [[x y v]|]; reflexivity.
Qed.

Lemma copy_shaped g : shaped g -> shaped (copyGrid (Grid.size g) g).
Proof.
  intros (H0 & Hl & Hr). unfold copyGrid, Grid.serialize_cells, shaped.
  cbn [Grid.size Grid.cells]. rewrite !length_map. repeat split; auto.
  rewrite map_map. apply Forall_fmap. eapply Forall_impl; [exact Hr|].
  intros row Hrow. simpl. now rewrite !length_map.
Qed.

Lemma copy_wf g : grid_wf g -> grid_wf (copyGrid (Grid.size g) g).
Proof.
  intros Hwf. apply grid_wf_spec in Hwf as [Hs Ht]. apply grid_wf_spec. split.
  - now apply copy_shaped.
  - intros p t. rewrite cellContent_copy by reflexivity.
    destruct (Grid.cellContent g p) as [t0|] eqn:E; [|discriminate].
    intros [= <-]. apply (Ht _ _ E).
Qed.

Lemma setup_saved rnds self st :
  gameState (storageManager self) = Some st ->
  serialize (setup rnds self) = st
  /\ size (setup rnds self) = size self
  /\ grid (setup rnds self) = fromState (ser_grid_size st) (ser_grid_cells st)
  /\ gameState (storageManager (setup rnds self)) = (if ser_over st then None else Some st)
  /\ exists call, actuator (setup rnds self) = actuator self ++ [call].
Proof.
  intros Hst. unfold setup. rewrite Hst.
  set (s := mk _ _ _ _ _ _ _ _).
  assert (Hser : serialize s = st).
  { unfold serialize, s. cbn [grid score over won keepPlaying].
    rewrite serialize_fromState. now destruct st. }
  split; [exact Hser|]. split; [reflexivity|]. split; [reflexivity|]. split.
  - rewrite (proj2 (actuate_storage s)), Hser. reflexivity.
  - unfold actuate. cbn [actuator]. eauto.
Qed.

(** X21: a game that is not over is saved by [actuate] and given back
    by [setup]: the game set up from that storage has the same cells,
    values, score and flags, and is well formed when the saved game
    was. A game that is over is not kept: [actuate] clears the saved
    game. *)
Theorem setup_restores_saved s self rnds :
  storageManager self = storageManager (actuate s) ->
  (over s = false ->
   serialize (setup rnds self) = serialize s
   /\ (size self = size s -> game_wf s -> game_wf (setup rnds self)))
  /\ (over s = true -> gameState (storageManager self) = None).
Proof.
  intros Hst. pose proof (proj2 (actuate_storage s)) as Hsaved. rewrite <- Hst in Hsaved.
  split; intros Hover; rewrite Hover in Hsaved; [|exact Hsaved].
  destruct (setup_saved rnds self _ Hsaved) as (Hser & Hsz & Hg & _).
  split; [exact Hser|]. intros Hsize Hwf.
  apply game_wf_spec in Hwf as [Hs1 Hs2]. apply game_wf_spec.
  rewrite Hsz, Hg. cbn [serialize ser_grid_size ser_grid_cells].
  change (fromState (Grid.size (grid s)) (Grid.serialize_cells (grid s)))
    with (copyGrid (Grid.size (grid s)) (grid s)).
  split; [cbn [copyGrid Grid.size]; congruence|now apply copy_wf].
Qed.

Lemma new_cellContent (n : Z) p : Grid.cellContent (Grid.new n) p = None.
Proof.
  unfold Grid.cellContent. destruct (Grid.withinBounds (Grid.new n) p); auto.
  unfold Grid.cell_at, Grid.new. cbn [Grid.cells].
  destruct ((0 <=? pos_x p) && (0 <=? pos_y p)); auto.
  destruct (replicate (Z.to_nat n) (replicate (Z.to_nat n) None) !! Z.to_nat (pos_x p))
    as [row|] eqn:E; auto.
  apply lookup_replicate in E as [-> _].
  destruct (replicate (Z.to_nat n) None !! Z.to_nat (pos_y p)) as [c|] eqn:E'; auto.
  now apply lookup_replicate in E' as [-> _].
Qed.

Lemma new_shaped (n : Z) : 0 <= n -> shaped (Grid.new n).
Proof.
  intros Hn. unfold shaped, Grid.new. cbn [Grid.size Grid.cells].
  rewrite length_replicate. repeat split; auto.
  apply Forall_replicate. apply length_replicate.
Qed.

Lemma new_wf (n : Z) : 0 <= n -> grid_wf (Grid.new n).
Proof.
  intros Hn. apply grid_wf_spec. split; [now apply new_shaped|].
  intros p t. now rewrite new_cellContent.
Qed.

Lemma new_tile_count (n : Z) : tile_count (Grid.new n) = 0.
Proof.
  unfold tile_count, total. cbn [Grid.size Grid.new].
  induction (Grid.positions n) as [|p l IH]; auto.
  rewrite fmap_cons, sumZ_cons, IH, new_cellContent. reflexivity.
Qed.

Lemma spawn_on_spawned rnd s :
  grid_wf (grid s) -> spawned_only (grid s) -> Grid.cellsAvailable (grid s) = true ->
  let s' := addRandomTile rnd s in
  spawned_only (grid s')
  /\ tile_count (grid s') = tile_count (grid s) + 1
  /\ exists p, Grid.withinBounds (grid s) p = true
               /\ forall q, q <> p ->
                    Grid.cellContent (grid s') q = Grid.cellContent (grid s) q.
Proof.
  intros Hwf Hsp Hav s'. pose proof (grid_wf_shaped _ Hwf) as Hs.
  destruct (addRandomTile_spawn rnd s Hs Hav) as (p & Hb & Hc & _ & Hp & Hq).
  cbv zeta in *. fold s' in Hp, Hq.
  destruct (addRandomTile_ledger rnd s Hs Hav) as (_ & Hcount & _).
  split; [|split; [exact Hcount|eauto]].
  intros q t Hqt. destruct (decide (q = p)) as [->|Hne].
  - rewrite Hp in Hqt. injection Hqt as <-. cbn [value previousPosition mergedFrom TileOps.new].
    split; auto. destruct (value_draw rnd); auto.
  - rewrite Hq in Hqt by auto. exact (Hsp q t Hqt).
Qed.

(** The game [setup] builds when nothing is saved, before [actuate]. *)
Lemma fresh_game rnds (n : Z) (st : StorageManager) (act : list (Grid.t * Metadata)) :
  2 <= n ->
  let s := addStartTiles rnds (mk n (Grid.new n) 0 false false false st act) in
  game_wf s /\ size s = n /\ score s = 0 /\ over s = false /\ won s = false
  /\ keepPlaying s = false /\ storageManager s = st /\ actuator s = act
  /\ tile_count (grid s) = 2 /\ spawned_only (grid s).
Proof.
  intros Hn s. set (s0 := mk n (Grid.new n) 0 false false false st act) in *.
  set (s1 := addRandomTile (rnds 0%nat) s0).
  assert (Es : s = addRandomTile (rnds 1%nat) s1) by reflexivity.
  assert (Hwf0 : grid_wf (grid s0)) by (apply new_wf; lia).
  assert (Hsp0 : spawned_only (grid s0)).
  { intros p t. cbn [grid s0]. now rewrite new_cellContent. }
  assert (Hav0 : Grid.cellsAvailable (grid s0) = true).
  { apply cellsAvailable_spec. exists (mkPos 0 0). split.
    - apply withinBounds_spec. cbn. lia.
    - apply new_cellContent. }
  destruct (spawn_on_spawned (rnds 0%nat) s0 Hwf0 Hsp0 Hav0) as (Hsp1 & Hc1 & p1 & Hb1 & Hq1).
  fold s1 in Hsp1, Hc1, Hq1.
  destruct (addRandomTile_inv (rnds 0%nat) s0 Hwf0)
    as (Hwf1 & A1 & A2 & A3 & A4 & A5 & A6 & A7 & A8 & _).
  fold s1 in Hwf1, A1, A2, A3, A4, A5, A6, A7, A8.
  assert (Hav1 : Grid.cellsAvailable (grid s1) = true).
  { apply cellsAvailable_spec.
    assert (Hq : exists q, q <> p1 /\ Grid.withinBounds (grid s0) q = true).
    { destruct (decide (p1 = mkPos 0 0)) as [->|Hne].
      - exists (mkPos 0 1). split; [discriminate|]. apply withinBounds_spec. cbn. lia.
      - exists (mkPos 0 0). split; [congruence|]. apply withinBounds_spec. cbn. lia. }
    destruct Hq as (q & Hne & Hbq). exists q. split.
    - apply withinBounds_spec. rewrite A2. now apply withinBounds_spec.
    - rewrite Hq1 by auto. apply new_cellContent. }
  destruct (spawn_on_spawned (rnds 1%nat) s1 Hwf1 Hsp1 Hav1) as (Hsp2 & Hc2 & _).
  destruct (addRandomTile_inv (rnds 1%nat) s1 Hwf1)
    as (Hwf2 & B1 & B2 & B3 & B4 & B5 & B6 & B7 & B8 & _).
  rewrite <- Es in Hsp2, Hc2, Hwf2, B1, B2, B3, B4, B5, B6, B7, B8.
  split.
  { apply game_wf_spec. split; auto. rewrite B1, B2, A1, A2. reflexivity. }
  split; [now rewrite B1, A1|]. split; [now rewrite B3, A3|].
  split; [now rewrite B4, A4|]. split; [now rewrite B5, A5|].
  split; [now rewrite B6, A6|]. split; [now rewrite B7, A7|].
  split; [now rewrite B8, A8|]. split; [|exact Hsp2].
  rewrite Hc2, Hc1. cbn [grid s0]. rewrite new_tile_count. reflexivity.
Qed.

Lemma setup_fresh rnds self :
  gameState (storageManager self) = None -> 2 <= size self ->
  let s := setup rnds self in
  game_wf s /\ size s = size self /\ score s = 0 /\ over s = false /\ won s = false
  /\ keepPlaying s = false
  /\ tile_count (grid s) = 2 /\ spawned_only (grid s)
  /\ gameState (storageManager s) = Some (serialize s)
  /\ bestScore (storageManager s) = Z.max (bestScore (storageManager self)) 0
  /\ exists call, actuator s = actuator self ++ [call].
Proof.
  intros Hst Hn s. unfold s, setup. rewrite Hst.
  destruct (fresh_game rnds (size self) (storageManager self) (actuator self) Hn)
    as (Hwf & Hsz & Hsc & Hov & Hwon & Hkp & Hsto & Hact & Hcount & Hsp).
  set (s2 := addStartTiles rnds _) in *.
  destruct (actuate_fields s2) as (Csz & Cg & Csc & Cov & Cwon & Ckp).
  destruct (actuate_storage s2) as [Hbest Hstate].
  split.
  { apply game_wf_spec in Hwf as [H1 H2]. apply game_wf_spec. rewrite Csz, Cg. auto. }
  split; [congruence|]. split; [congruence|]. split; [congruence|].
  split; [congruence|]. split; [congruence|].
  split; [now rewrite Cg|]. split; [now rewrite Cg|].
  split; [rewrite Hstate, Hov; reflexivity|].
  split; [rewrite Hbest, Hsto, Hsc; reflexivity|].
  unfold actuate. cbn [actuator]. rewrite Hact. eauto.
Qed.

(** X22: [setup] without a saved game, and [restart] whatever is saved,
    start a fresh game on a board of size at least 2: two tiles, each a
    2 or a 4 as the constructor leaves it, score 0, not over, not won;
    the game is saved and shown once, and the best score is the larger
    of the old one and 0. *)
Theorem restart_fresh rnds self (calls : nat) :
  2 <= size self ->
  let fresh_start (s : t) :=
    game_wf s /\ size s = size self /\ score s = 0 /\ over s = false /\ won s = false
    /\ keepPlaying s = false
    /\ tile_count (grid s) = 2 /\ spawned_only (grid s)
    /\ gameState (storageManager s) = Some (serialize s)
    /\ bestScore (storageManager s) = Z.max (bestScore (storageManager self)) 0
    /\ exists call, actuator s = actuator self ++ [call] in
  (gameState (storageManager self) = None -> fresh_start (setup rnds self))
  /\ fresh_start (game (restart rnds (mkSession self calls)))
  /\ continueGame_calls (restart rnds (mkSession self calls)) = S calls.
Proof.
  intros Hn fresh_start. split; [|split; [|reflexivity]].
  - intros Hst. now apply setup_fresh.
  - unfold restart. cbn [game].
    apply (setup_fresh rnds (clearGameState self)); auto.
Qed.

Lemma accepted_value_sum d rnd s :
  game_wf s -> isGameTerminated s = false -> snd (resolve d s) = true ->
  value_sum (grid (move d rnd s)) = value_sum (grid s) + (if value_draw rnd then 2 else 4).
Proof.
  intros Hwf Hterm Hm.
  destruct (resolve_ledger d s Hwf) as (Hsum & _).
  rewrite prepareTiles_value_sum in Hsum.
  destruct (move_accepted d rnd s Hwf Hterm Hm) as (Hs1 & Hav & _ & Hg & _).
  destruct (addRandomTile_ledger rnd _ Hs1 Hav) as (Asum & _).
  rewrite Hg. lia.
Qed.

(** X23: a game that is won and not over ignores every move until
    [keepPlaying] is called; after the call the game is no longer
    terminated, and a move that moves or merges a tile is accepted: a
    tile is spawned, so the sum of the tile values grows by the 2 or 4
    drawn. *)
Theorem keepPlaying_resumes (ss : Session) d rnd :
  let s := game ss in
  let s' := game (keepPlaying_ ss) in
  game_wf s -> won s = true -> keepPlaying s = false -> over s = false ->
  move d rnd s = s
  /\ isGameTerminated s' = false
  /\ (snd (resolve d s) = true ->
      value_sum (grid (move d rnd s'))
      = value_sum (grid s) + (if value_draw rnd then 2 else 4))
  /\ continueGame_calls (keepPlaying_ ss) = S (continueGame_calls ss).
Proof.
  intros s s' Hwf Hw Hk Hov.
  assert (Hterm' : isGameTerminated s' = false).
  { unfold s', isGameTerminated. cbn [game keepPlaying_ over won keepPlaying].
    fold s. rewrite Hov, Hw. reflexivity. }
  assert (Hwf' : game_wf s').
  { apply game_wf_spec in Hwf. apply game_wf_spec. exact Hwf. }
  split; [|split; [exact Hterm'|split; [|reflexivity]]].
  - unfold move, isGameTerminated. now rewrite Hw, Hk, Hov.
  - intros Hm.
    assert (Hm' : snd (resolve d s') = true).
    { apply resolve_can_move; auto. apply (resolve_can_move d s Hwf). exact Hm. }
    now rewrite (accepted_value_sum d rnd s' Hwf' Hterm' Hm').
Qed.

End Lifecycle.

Lemma setup_restores_saved_witness :
  let s := Boards.game Boards.three_twos in
  GameManager.serialize
    (Lifecycle.setup (fun _ => GameManager.mkRandom true 0) (GameManager.actuate s))
  = GameManager.serialize s.
Proof.
  intros s.
  exact (proj1 (proj1 (setup_restores_saved s (GameManager.actuate s)
                         (fun _ => GameManager.mkRandom true 0) eq_refl) eq_refl)).
Defined.

Lemma restart_fresh_witness :
  tile_count
    (GameManager.grid
       (Lifecycle.game
          (Lifecycle.restart (fun _ => GameManager.mkRandom true 0)
             (Lifecycle.mkSession (Boards.game Boards.three_twos) 0))))
  = 2.
Proof.
  assert (Hn : 2 <= GameManager.size (Boards.game Boards.three_twos))
    by (vm_compute; discriminate).
  destruct (restart_fresh (fun _ => GameManager.mkRandom true 0)
              (Boards.game Boards.three_twos) 0 Hn) as (_ & H & _).
  exact (proj1 (proj2 (proj2 (proj2 (proj2 (proj2 (proj2 H))))))).
Defined.

Lemma keepPlaying_resumes_witness :
  let s := GameManager.set_won (Boards.game Boards.three_twos) true in
  GameManager.move Left (GameManager.mkRandom true 0) s = s.
Proof.
  intros s.
  assert (Hwf : game_wf s) by (vm_compute; reflexivity).
  exact (proj1 (keepPlaying_resumes (Lifecycle.mkSession s 0) Left
                  (GameManager.mkRandom true 0) Hwf eq_refl eq_refl eq_refl)).
Defined.

(** ** The first custom strategy *)

Section DirectedLoop.

Implicit Types (st live : GameManager.t) (g : Grid.t) (d : Direction) (best : Best).

Variable sc : Grid.t -> Direction -> JSNum.t.

Local Abbreviation directed_round :=
  (fun best direction =>
     bind (gets GameManager.size) (fun n =>
     bind (gets GameManager.grid) (fun snapshot =>
     bind (GameManager.tryMove direction (copyGrid n snapshot)) (fun moved : bool =>
       if moved then ret (better (sc (copyGrid n snapshot) direction) direction best)
       else ret best)))).

Lemma directed_loop live (l : list Direction) best st :
  same_snapshot st live ->
  fst (foldM directed_round best l st)
  = foldl (fun best d =>
             if legal live d
             then better (sc (copyGrid (GameManager.size live) (GameManager.grid live)) d)
                         d best
             else best)
          best l
  /\ snd (foldM directed_round best l st)
     = match l with [] => st | _ => GameManager.prepareTiles st end.
Proof.
  revert best st. induction l as [|d l IH]; intros best st Hst; [now split|].
  cbn [foldM foldl]. rewrite bind_unfold.
  assert (Hround : directed_round best d st
            = (if legal live d
               then better (sc (copyGrid (GameManager.size live) (GameManager.grid live)) d)
                           d best
               else best, GameManager.prepareTiles st)).
  { unfold bind, gets. cbn [fst snd].
    rewrite <- (legal_same st live d Hst), <- (same_snapshot_copy st live Hst).
    pose proof (tryMove_state d (copyGrid (GameManager.size st) (GameManager.grid st)) st)
      as Hst1.
    destruct (GameManager.tryMove d _ st) as [m st1].
    cbn [fst snd] in *. subst st1. now destruct m. }
  rewrite Hround.
  assert (Hshape : shaped (GameManager.grid st)) by now destruct Hst.
  assert (Hst' : same_snapshot (GameManager.prepareTiles st) live).
  { eapply same_snapshot_trans; [|exact Hst]. now apply prepareTiles_same_snapshot. }
  destruct (IH (if legal live d
                then better (sc (copyGrid (GameManager.size live) (GameManager.grid live)) d)
                            d best
                else best)
              (GameManager.prepareTiles st) Hst') as [E1 E2].
  split; [exact E1|]. rewrite E2. destruct l; auto. now apply prepareTiles_idem.
Qed.

End DirectedLoop.

Section CustomPick.

Lemma gtb_of_Z (a b : Z) : JSNum.gtb (JSNum.of_Z a) (JSNum.of_Z b) = (b <? a).
Proof. unfold JSNum.gtb. apply ltb_of_Z. Qed.

Lemma gtb_of_Z_neginf (a : Z) : JSNum.gtb (JSNum.of_Z a) JSNum.NegInf = true.
Proof. reflexivity. Qed.

(** The loop of the first custom strategy over the four directions,
    for the scores it gives: the evaluation [e] of the copy, less the
    penalty for down, and for up when no horizontal move is possible. *)
Lemma custom_pick (up right down left hp : bool) (e : Z) :
  let lg d := match d with Up => up | Right => right | Down => down | Left => left end in
  let score d :=
    JSNum.of_Z
      (let s := if bool_decide (d = Down) then e - Custom_1.DOWN_PENALTY else e in
       if bool_decide (d = Up) && negb hp then s - Custom_1.DOWN_PENALTY else s) in
  bestMove
    (foldl (fun best d => if lg d then better (score d) d best else best)
       (mkBest JSNum.NegInf Up) directions)
  = if up && hp then Up
    else if right then Right
    else if left then Left
    else if up then Up
    else if down then Down
    else Up.
Proof.
  intros lg score. unfold directions, lg, score, Custom_1.DOWN_PENALTY.
  cbn [foldl].
  change (bool_decide (Up = Up)) with true.
  change (bool_decide (Down = Down)) with true.
  change (bool_decide (Up = Down)) with false.
  change (bool_decide (Down = Up)) with false.
  change (bool_decide (Right = Up)) with false.
  change (bool_decide (Right = Down)) with false.
  change (bool_decide (Left = Up)) with false.
  change (bool_decide (Left = Down)) with false.
  cbv iota. cbn [andb].
  destruct up, right, down, left, hp; cbn [andb negb orb];
    unfold better; cbn [bestScore bestMove];
    rewrite ?gtb_of_Z_neginf; cbn [bestScore bestMove];
    repeat (rewrite ?gtb_of_Z;
            repeat match goal with
                   | |- context [?a <? ?b] => destruct (Z.ltb_spec a b); try lia
                   end;
            cbn [bestScore bestMove]);
    reflexivity.
Qed.

End CustomPick.

Section Custom1.

Import GameManager.

Implicit Types (live : t) (g : Grid.t) (d : Direction) (p : Position).

Lemma hmp_copy live :
  size live = Grid.size (grid live) ->
  Custom_1.isHorizontalMovePossible (copyGrid (size live) (grid live))
  = Custom_1.isHorizontalMovePossible (grid live).
Proof.
  intros Hsz. unfold Custom_1.isHorizontalMovePossible.
  apply existsb_ext_all. intros y. apply existsb_ext_all. intros x.
  rewrite !cellContent_copy by exact Hsz.
  destruct (Grid.cellContent (grid live) (mkPos x y)),
           (Grid.cellContent (grid live) (mkPos (x + 1) y)); reflexivity.
Qed.

(** On a board of size 4, [isHorizontalMovePossible] answers whether
    some tile can move or merge to the right or to the left. *)
Lemma hmp_spec g :
  Grid.size g = 4 ->
  Custom_1.isHorizontalMovePossible g = true <-> can_move g Right \/ can_move g Left.
Proof.
  intros Hsz. unfold Custom_1.isHorizontalMovePossible. rewrite existsb_exists. split.
  - intros (y & Hy & H). apply existsb_exists in H as (x & Hx & H).
    apply list_elem_of_In, elem_of_seqZ in Hy. apply list_elem_of_In, elem_of_seqZ in Hx.
    assert (Hb : forall x', 0 <= x' < 4 -> Grid.withinBounds g (mkPos x' y) = true).
    { intros x' Hx'. apply withinBounds_spec. rewrite Hsz. simpl. lia. }
    destruct (Grid.cellContent g (mkPos x y)) as [t|] eqn:Ec;
      destruct (Grid.cellContent g (mkPos (x + 1) y)) as [u|] eqn:En; try discriminate.
    + left. exists (mkPos x y), t. split; auto.
      replace (ahead (mkPos x y) (getVector Right) 1) with (mkPos (x + 1) y)
        by (unfold ahead; simpl; f_equal; lia).
      split; [apply Hb; lia|]. right. exists u. split; auto.
      apply Z.eqb_eq in H. lia.
    + left. exists (mkPos x y), t. split; auto.
      replace (ahead (mkPos x y) (getVector Right) 1) with (mkPos (x + 1) y)
        by (unfold ahead; simpl; f_equal; lia).
      split; [apply Hb; lia|]. now left.
    + right. exists (mkPos (x + 1) y), u. split; auto.
      replace (ahead (mkPos (x + 1) y) (getVector Left) 1) with (mkPos x y)
        by (unfold ahead; simpl; f_equal; lia).
      split; [apply Hb; lia|]. now left.
  - intros [(p & t & Hc & Hb & Hn)|(p & t & Hc & Hb & Hn)].
    + pose proof (cellContent_Some_bounds _ _ _ Hc) as Hp.
      apply withinBounds_spec in Hp. apply withinBounds_spec in Hb.
      rewrite Hsz in Hp, Hb. cbn [ahead getVector pos_x pos_y] in Hb.
      replace (ahead p (getVector Right) 1) with (mkPos (pos_x p + 1) (pos_y p)) in Hn
        by (unfold ahead; simpl; f_equal; lia).
      exists (pos_y p). split; [apply list_elem_of_In, elem_of_seqZ; lia|].
      apply existsb_exists. exists (pos_x p).
      split; [apply list_elem_of_In, elem_of_seqZ; lia|].
      destruct p as [x y]. cbn [pos_x pos_y] in *. rewrite Hc.
      destruct Hn as [-> |(u & -> & Hv)]; auto. apply Z.eqb_eq. lia.
    + pose proof (cellContent_Some_bounds _ _ _ Hc) as Hp.
      apply withinBounds_spec in Hp. apply withinBounds_spec in Hb.
      rewrite Hsz in Hp, Hb. cbn [ahead getVector pos_x pos_y] in Hb.
      replace (ahead p (getVector Left) 1) with (mkPos (pos_x p - 1) (pos_y p)) in Hn
        by (unfold ahead; simpl; f_equal; lia).
      exists (pos_y p). split; [apply list_elem_of_In, elem_of_seqZ; lia|].
      apply existsb_exists. exists (pos_x p - 1).
      split; [apply list_elem_of_In, elem_of_seqZ; lia|].
      replace (pos_x p - 1 + 1) with (pos_x p) by lia.
      destruct p as [x y]. cbn [pos_x pos_y] in *. rewrite Hc.
      destruct Hn as [-> |(u & -> & Hv)]; auto. apply Z.eqb_eq. lia.
Qed.

Lemma hmp_legal live :
  game_wf live -> size live = 4 ->
  Custom_1.isHorizontalMovePossible (copyGrid (size live) (grid live))
  = snd (resolve Right live) || snd (resolve Left live).
Proof.
  intros Hwf H4. pose proof Hwf as Hwf'. apply game_wf_spec in Hwf' as [Hsz _].
  rewrite hmp_copy by exact Hsz. apply eq_true_iff_eq.
  rewrite hmp_spec by congruence.
  rewrite orb_true_iff, !resolve_can_move by exact Hwf. reflexivity.
Qed.

Lemma custom1_loop live st :
  game_wf live -> same_snapshot st live ->
  let G0 := copyGrid (size live) (grid live) in
  let r :=
    foldM (fun best direction =>
             bind (gets size) (fun n =>
             bind (gets grid) (fun snapshot =>
             bind (tryMove direction (copyGrid n snapshot)) (fun moved : bool =>
               if moved
               then ret (better (JSNum.of_Z
                                   (Custom_1.score_direction (copyGrid n snapshot) direction))
                                direction best)
               else ret best))))
          (mkBest JSNum.NegInf Up) directions st in
  bestMove (fst r)
  = (if legal live Up && Custom_1.isHorizontalMovePossible G0 then Up
     else if legal live Right then Right
     else if legal live Left then Left
     else if legal live Up then Up
     else if legal live Down then Down
     else Up)
  /\ snd r = prepareTiles st.
Proof.
  intros Hwf Hst G0 r.
  pose proof (directed_loop (fun g d => JSNum.of_Z (Custom_1.score_direction g d))
                live directions (mkBest JSNum.NegInf Up) st Hst) as [E1 E2].
  cbv beta in E1, E2. fold G0 in E1. subst r. split; [|exact E2].
  rewrite E1.
  rewrite <- (custom_pick (legal live Up) (legal live Right) (legal live Down)
                (legal live Left) (Custom_1.isHorizontalMovePossible G0)
                (Custom_1.evaluatePosition G0 Up)).
  cbv zeta. f_equal; try (apply foldl_ext_all; intros best d; destruct d; reflexivity).
Qed.

(** X24: [getNextMove] of the first custom strategy returns up when up
    is legal and a horizontal move is possible on the board, else
    right, else left, else up, else down, taking the first of these
    that is legal, and up when none is; the look at the top row does
    not change the answer. On a board of size 4 this is the first
    legal direction in the order up, right, left, down. The call
    leaves the game as [prepareTiles] does. *)
Theorem custom1_getNextMove live :
  game_wf live ->
  let lg d := snd (resolve d live) in
  let hp := Custom_1.isHorizontalMovePossible (copyGrid (size live) (grid live)) in
  fst (Custom_1.getNextMove live)
  = (if lg Up && hp then Up
     else if lg Right then Right
     else if lg Left then Left
     else if lg Up then Up
     else if lg Down then Down
     else Up)
  /\ snd (Custom_1.getNextMove live) = prepareTiles live
  /\ (size live = 4 ->
      hp = lg Right || lg Left
      /\ fst (Custom_1.getNextMove live)
         = (if lg Up then Up
            else if lg Right then Right
            else if lg Left then Left
            else if lg Down then Down
            else Up)).
Proof.
  intros Hwf lg hp.
  pose proof (live_snapshot live Hwf) as Hlive.
  assert (Hs : shaped (grid live)) by now destruct Hlive.
  assert (Hlg : forall d, legal live d = lg d) by (intros d; now apply legal_resolve).
  assert (Hprep : same_snapshot (prepareTiles live) live)
    by now apply prepareTiles_same_snapshot.
  assert (Hmain :
    fst (Custom_1.getNextMove live)
    = (if lg Up && hp then Up
       else if lg Right then Right
       else if lg Left then Left
       else if lg Up then Up
       else if lg Down then Down
       else Up)
    /\ snd (Custom_1.getNextMove live) = prepareTiles live).
  { unfold Custom_1.getNextMove. rewrite bind_unfold, gets_unfold. cbv beta iota.
    rewrite bind_unfold.
    destruct (Custom_1.possible (Custom_1.checkTopRowMerge (grid live))).
    - match goal with
      | |- context [let '(x, st') := ?m live in _] =>
          assert (Hup : m live = (legal live Up && hp, prepareTiles live))
      end.
      { unfold bind, gets. cbn [fst snd]. fold hp. unfold legal.
        pose proof (tryMove_state Up (copyGrid (size live) (grid live)) live) as Hst.
        destruct (tryMove Up (copyGrid (size live) (grid live)) live) as [m st1].
        cbn [fst snd] in *. now subst st1. }
      rewrite Hup. rewrite Hlg. destruct (lg Up && hp) eqn:Eup.
      + cbn [ret fst snd]. auto.
      + rewrite bind_ret_fst, bind_ret_snd.
        destruct (custom1_loop live (prepareTiles live) Hwf Hprep) as [E1 E2].
        cbv zeta in E1, E2. fold hp in E1. rewrite E1, E2, !Hlg, Eup.
        split; auto. now apply prepareTiles_idem.
    - cbn [ret]. rewrite bind_ret_fst, bind_ret_snd.
      destruct (custom1_loop live live Hwf Hlive) as [E1 E2].
      cbv zeta in E1, E2. fold hp in E1. rewrite E1, E2, !Hlg. auto. }
  destruct Hmain as [E1 E2]. split; [exact E1|]. split; [exact E2|].
  intros H4. pose proof (hmp_legal live Hwf H4) as Hhp. fold hp in Hhp.
  split; [exact Hhp|]. rewrite E1, Hhp. unfold lg.
  destruct (snd (resolve Up live)), (snd (resolve Right live)),
    (snd (resolve Left live)), (snd (resolve Down live)); reflexivity.
Qed.

End Custom1.

Lemma custom1_getNextMove_witness :
  fst (Custom_1.getNextMove (Boards.game Boards.lone_two)) = Right.
Proof.
  assert (Hwf : game_wf (Boards.game Boards.lone_two)) by (vm_compute; reflexivity).
  rewrite (proj1 (custom1_getNextMove _ Hwf)). vm_compute. reflexivity.
Defined.

(** ** The controls *)

Section Controls.

Import GameManager Controls.
Import Stdlib.Strings.String.


(** X26: one tick of the auto-solve timer. On a game that is over it
    stops the timer and leaves the game alone. Otherwise it asks the
    strategy for a direction and moves: with a strategy that leaves the
    game as [prepareTiles] does and answers a direction that moves or
    merges a tile, the move is accepted in a game that is not
    terminated, so a tile is spawned and the sum of the tile values
    grows; in a game that is won and not continued the move is
    ignored, the timer keeps running. *)
Theorem autoSolve_tick (next : State World Direction) rnd (c : Controls.t) :
  let live := manager (world c) in
  let after := tick next rnd c in
  game_wf live ->
  (over live = true ->
   after = Controls.mk (world c) false "Solve"%string)
  /\ (over live = false ->
      manager (snd (next (world c))) = prepareTiles live ->
      autoSolveInterval after = autoSolveInterval c
      /\ buttonText after = buttonText c
      /\ draws (world after) = draws (snd (next (world c)))
      /\ (isGameTerminated live = true -> manager (world after) = prepareTiles live)
      /\ (isGameTerminated live = false ->
          snd (resolve (fst (next (world c))) live) = true ->
          value_sum (grid (manager (world after)))
          = value_sum (grid live) + (if value_draw rnd then 2 else 4))).
Proof.
  intros live after Hwf. pose proof (live_snapshot live Hwf) as Hlive.
  assert (Hs : shaped (grid live)) by now destruct Hlive.
  split.
  - intros Hover. unfold after, tick. fold live. now rewrite Hover.
  - intros Hover Hnext. unfold after, tick. fold live. rewrite Hover. cbn [negb].
    destruct (next (world c)) as [d w] eqn:En. cbn [fst snd] in *.
    cbn [autoSolveInterval buttonText world draws manager]. rewrite Hnext.
    repeat split; auto.
    + intros Hterm. unfold move.
      replace (isGameTerminated (prepareTiles live)) with (isGameTerminated live)
        by reflexivity.
      now rewrite Hterm.
    + intros Hterm Hm. rewrite move_prepared by auto.
      now apply accepted_value_sum.
Qed.

End Controls.

Lemma autoSolve_tick_witness :
  let c := Controls.autoSolve
             (Controls.mk (mkWorld (Boards.game Boards.lone_two) []) false
                (Controls.textContent (Controls.toggleStrategy Controls.Master))) in
  value_sum
    (GameManager.grid
       (manager (Controls.world
          (Controls.tick (liftGM SmartStrategy.getNextMove)
             (GameManager.mkRandom true 0) c))))
  = 4.
Proof.
  intros c.
  assert (Hwf : game_wf (manager (Controls.world c))) by (vm_compute; reflexivity).
  destruct (autoSolve_tick (liftGM SmartStrategy.getNextMove)
              (GameManager.mkRandom true 0) c Hwf) as [_ H].
  destruct (H eq_refl) as (_ & _ & _ & _ & Hsum).
  - vm_compute. reflexivity.
  - rewrite Hsum; [vm_compute; reflexivity|reflexivity|vm_compute; reflexivity].
Defined.

(** ** Smaller parts *)

Section Parts.

Import GameManager.

Implicit Types (self live : t) (g : Grid.t) (p q : Position).

(** X27: [moveTile] takes the tile off its cell and puts it, with its
    position updated, on the cell given; every other cell and every
    other field of the game is as before. *)
Theorem moveTile_effect self (tile : Tile) (cell : Position) :
  shaped (grid self) ->
  Grid.withinBounds (grid self) (TileOps.position tile) = true ->
  Grid.withinBounds (grid self) cell = true ->
  let s := moveTile self tile cell in
  Grid.cellContent (grid s) cell = Some (TileOps.updatePosition tile cell)
  /\ (cell <> TileOps.position tile ->
      Grid.cellContent (grid s) (TileOps.position tile) = None)
  /\ (forall q, q <> cell -> q <> TileOps.position tile ->
        Grid.cellContent (grid s) q = Grid.cellContent (grid self) q)
  /\ Grid.size (grid s) = Grid.size (grid self)
  /\ score s = score self /\ over s = over self /\ won s = won self.
Proof.
  intros Hs Hbt Hbc s.
  assert (E : grid s = put (put (grid self) (TileOps.position tile) None) cell
                          (Some (TileOps.updatePosition tile cell))) by reflexivity.
  assert (Hs1 : shaped (put (grid self) (TileOps.position tile) None))
    by now apply put_shaped.
  rewrite E. split; [|split; [|split; [|now repeat split]]].
  - apply cellContent_put_eq; [exact Hs1 | now rewrite put_withinBounds].
  - intros Hne. rewrite cellContent_put_ne by auto. apply cellContent_put_eq; [exact Hs | exact Hbt].
  - intros q H1 H2. rewrite !cellContent_put_ne; auto.
Qed.

(** X28: on a grid of positive tile values the static evaluations and
    the values of both searches are numbers above [-Infinity], never
    [NaN]: the comparison with the initial best score of the top-level
    loops succeeds for every legal direction. *)
Theorem search_scores_comparable (s : AdvancedStrategy.t) (n : nat) g (depth : nat)
  (isMax late : bool) alpha beta live (w : World) :
  cells_positive (Grid.cells g) ->
  JSNum.above_neginf (AdvancedStrategy.evaluatePosition s g)
  /\ JSNum.above_neginf (fst (AdvancedStrategy.expectimax s g depth isMax live))
  /\ JSNum.is_fin (MasterStrategy.evaluatePosition (MasterStrategy.make n) g late)
  /\ (same_snapshot (manager w) live ->
      JSNum.above_neginf
        (fst (MasterStrategy.alphaBeta (MasterStrategy.make n) g depth alpha beta
                isMax late w))).
Proof.
  intros Hp. split; [now apply evaluatePosition_above|].
  split; [now apply expectimax_above|].
  split; [now apply master_evaluatePosition_fin|].
  intros Hw. now apply (alphaBeta_above n live).
Qed.

Lemma lowest_fold g (xs : list Z) (acc : option Z * Z) :
  foldl (fun '(lowestValue, lowestValueCount) x =>
           match Grid.cellContent g (mkPos x 0) with
           | Some tile =>
               match lowestValue with
               | None => (Some (value tile), 1)
               | Some lowest =>
                   if value tile <? lowest then (Some (value tile), 1)
                   else if value tile =? lowest then (lowestValue, lowestValueCount + 1)
                   else (lowestValue, lowestValueCount)
               end
           | None => (lowestValue, lowestValueCount)
           end) acc xs
  = foldl lowest_step acc
      (omap (fun x => value <$> Grid.cellContent g (mkPos x 0)) xs).
Proof.
  revert acc. induction xs as [|x xs IH]; intros [lo cnt]; auto.
  cbn [foldl]. rewrite IH.
  change (omap ?f (x :: xs)) with
    (match f x with Some y => y :: omap f xs | None => omap f xs end).
  cbv beta iota.
  destruct (Grid.cellContent g (mkPos x 0)) as [t|]; cbn [fmap option_fmap option_map]; auto.
Qed.

Lemma filter_none (m : Z) (l : list Z) :
  (forall v, v ∈ l -> v <> m) -> filter (fun v => v = m) l = [].
Proof.
  induction l as [|v l IH]; intros H; auto.
  rewrite filter_cons_False by (apply H, list_elem_of_here).
  apply IH. intros v' Hv'. apply H. now apply list_elem_of_further.
Qed.

(** What the first loop of [checkTopRowMerge] has found after the
    values [l]: nothing, or the least value with the number of times it
    occurs. *)
Lemma lowest_inv (l : list Z) :
  match fst (foldl lowest_step (None, 0) l) with
  | None => l = [] /\ snd (foldl lowest_step (None, 0) l) = 0
  | Some m =>
      m ∈ l /\ (forall v, v ∈ l -> m <= v)
      /\ snd (foldl lowest_step (None, 0) l)
         = Z.of_nat (length (filter (fun v => v = m) l))
  end.
Proof.
  induction l as [|v l IH] using rev_ind; [now split|].
  rewrite foldl_app. cbn [foldl].
  destruct (foldl lowest_step (None, 0) l) as [lo cnt]. cbn [fst snd] in *.
  unfold lowest_step. cbn [fst snd].
  destruct lo as [m|].
  - destruct IH as (Hin & Hmin & Hcnt).
    destruct (Z.ltb_spec v m) as [Hlt|Hge]; cbn [fst snd].
    + split; [apply elem_of_app; right; apply list_elem_of_here|]. split.
      * intros v' Hv'. apply elem_of_app in Hv' as [Hv'|Hv'].
        -- specialize (Hmin _ Hv'). lia.
        -- apply list_elem_of_singleton in Hv'. lia.
      * rewrite filter_app, length_app.
        rewrite (filter_none v l).
        -- rewrite filter_cons_True by reflexivity. reflexivity.
        -- intros v' Hv' ->. specialize (Hmin _ Hv'). lia.
    + destruct (Z.eqb_spec v m) as [->|Hne]; cbn [fst snd].
      * split; [apply elem_of_app; now left|]. split.
        -- intros v' Hv'. apply elem_of_app in Hv' as [Hv'|Hv']; auto.
           apply list_elem_of_singleton in Hv'. lia.
        -- rewrite filter_app, length_app, filter_cons_True by reflexivity.
           cbn [filter list_filter length]. rewrite Hcnt. lia.
      * split; [apply elem_of_app; now left|]. split.
        -- intros v' Hv'. apply elem_of_app in Hv' as [Hv'|Hv']; auto.
           apply list_elem_of_singleton in Hv'. lia.
        -- rewrite filter_app, length_app, filter_cons_False by auto.
           cbn [filter list_filter length]. rewrite Hcnt. lia.
  - destruct IH as [-> _]. cbn [fst snd app].
    split; [apply list_elem_of_here|]. split.
    + intros v' Hv'. apply list_elem_of_singleton in Hv'. lia.
    + rewrite filter_cons_True by reflexivity. reflexivity.
Qed.

(** X29: [checkTopRowMerge] finds the least value of the top row,
    [Infinity] when the row is empty, and answers that a merge is
    possible exactly when that value occurs more than once in the top
    row or occurs in the second row. *)
Theorem checkTopRowMerge_spec g :
  let r := Custom_1.checkTopRowMerge g in
  match Custom_1.lowest r with
  | None => row_values g 0 = [] /\ Custom_1.possible r = false
  | Some m =>
      m ∈ row_values g 0
      /\ (forall v, v ∈ row_values g 0 -> m <= v)
      /\ (Custom_1.possible r = true
          <-> (1 < length (filter (fun v => v = m) (row_values g 0)))%nat
              \/ m ∈ row_values g 1)
  end.
Proof.
  intros r. subst r. unfold Custom_1.checkTopRowMerge.
  rewrite lowest_fold. fold (row_values g 0).
  pose proof (lowest_inv (row_values g 0)) as Hinv.
  destruct (foldl lowest_step (None, 0) (row_values g 0)) as [lo cnt].
  cbn [fst snd Custom_1.lowest Custom_1.possible] in *.
  destruct lo as [m|].
  - destruct Hinv as (Hin & Hmin & Hcnt). split; auto. split; auto.
    rewrite orb_true_iff, existsb_exists.
    assert (forall A B C D : Prop, (A <-> C) -> (B <-> D) -> (A \/ B <-> C \/ D))
      as Hor by tauto.
    apply Hor.
    + rewrite Hcnt. destruct (Z.gtb_spec (Z.of_nat (length (filter (fun v => v = m) (row_values g 0)))) 1);
        split; auto; try lia; discriminate.
    + unfold row_values. rewrite list_elem_of_omap. split.
      * intros (x & Hx & H). exists x. split; [now apply list_elem_of_In|].
        destruct (Grid.cellContent g (mkPos x 1)) as [t|]; [|discriminate].
        apply Z.eqb_eq in H. simpl. congruence.
      * intros (x & Hx & H). exists x. split; [now apply list_elem_of_In|].
        destruct (Grid.cellContent g (mkPos x 1)) as [t|]; [|discriminate].
        simpl in H. apply Z.eqb_eq. congruence.
  - destruct Hinv as [Htop Hcnt]. split; auto. subst cnt. cbn [Z.gtb Z.compare orb].
    apply not_true_is_false. intros H. apply existsb_exists in H as (x & _ & H).
    now destruct (Grid.cellContent g (mkPos x 1)).
Qed.

End Parts.

Lemma moveTile_effect_witness :
  Grid.cellContent
    (GameManager.grid
       (GameManager.moveTile (Boards.game Boards.lone_four) (Boards.tile 1 0 4) (mkPos 0 0)))
    (mkPos 0 0)
  = Some (TileOps.updatePosition (Boards.tile 1 0 4) (mkPos 0 0)).
Proof.
  assert (Hs : shaped (GameManager.grid (Boards.game Boards.lone_four)))
    by (apply grid_wf_shaped; vm_compute; reflexivity).
  exact (proj1 (moveTile_effect (Boards.game Boards.lone_four) (Boards.tile 1 0 4)
                  (mkPos 0 0) Hs eq_refl eq_refl)).
Defined.

Lemma search_scores_comparable_witness :
  JSNum.above_neginf
    (fst (AdvancedStrategy.expectimax (AdvancedStrategy.make 1) Boards.lone_two 1 true
            (Boards.game Boards.lone_two))).
Proof.
  assert (Hp : cells_positive (Grid.cells Boards.lone_two)).
  { apply grid_wf_positive. vm_compute. reflexivity. }
  exact (proj1 (proj2 (search_scores_comparable (AdvancedStrategy.make 1) 1
                         Boards.lone_two 1 true false JSNum.NegInf JSNum.PosInf
                         (Boards.game Boards.lone_two)
                         (mkWorld (Boards.game Boards.lone_two) []) Hp))).
Defined.

(** * The merges of a move and the score *)

Section Merges.

Import GameManager.

Implicit Types (s self : t) (g : Grid.t) (c p q : Position) (d : Direction).

Lemma ahead_ahead p v k k' : ahead (ahead p v k) v k' = ahead p v (k + k').
Proof. unfold ahead. simpl. f_equal; lia. Qed.

Lemma merges_once_start d g0 : all_unmerged g0 -> merges_once d g0 g0 (fun p => p).
Proof.
  intros Hun. split.
  - intros q t0 Hq. eauto.
  - intros p t0 Hp. exists 0. split; [lia|]. now rewrite ahead_0.
  - intros p t0 Hp. exists t0. split; auto. left. repeat split; eauto.
Qed.

(** One tile goes from the cell [c] to the cell [n], which is empty or
    holds an unmerged tile of its value. *)
Lemma merges_once_step d g0 g g' dest c n (tile t' : Tile) k :
  merges_once d g0 g dest ->
  c <> n -> 0 <= k -> n = ahead c (getVector d) k ->
  Grid.cellContent g c = Some tile -> mergedFrom tile = None ->
  Grid.cellContent g' c = None ->
  Grid.cellContent g' n = Some t' ->
  (forall q, q <> c -> q <> n -> Grid.cellContent g' q = Grid.cellContent g q) ->
  (Grid.cellContent g n = None /\ value t' = value tile /\ mergedFrom t' = None)
  \/ (exists nxt, Grid.cellContent g n = Some nxt /\ mergedFrom nxt = None
                  /\ value nxt = value tile
                  /\ value t' = value tile * 2 /\ mergedFrom t' <> None) ->
  merges_once d g0 g' (fun p => if decide (dest p = c) then n else dest p).
Proof.
  intros [Hsrc Halong Hdest] Hcn Hk Hn Hc Hum Hc' Hn' Hother Hcase.
  (* the tile of [c] is one tile of [g0], alone *)
  destruct (Hsrc c tile Hc) as (pc & t0c & Hpc & Hdc).
  assert (Hpc' : value tile = value t0c
                 /\ forall p' t0', Grid.cellContent g0 p' = Some t0' -> dest p' = c -> p' = pc).
  { destruct (Hdest pc t0c Hpc) as (t & Ht & [(Hv & _ & Hu)|(_ & Hm & _)]);
      rewrite Hdc in *; rewrite Hc in Ht; injection Ht as <-; [|congruence].
    split; auto. }
  destruct Hpc' as [Hvc Huc].
  split.
  - intros q t Hq.
    destruct (decide (q = c)) as [->|Hqc]; [congruence|].
    destruct (decide (q = n)) as [->|Hqn].
    + exists pc, t0c. split; auto. rewrite decide_True; auto.
    + rewrite Hother in Hq by auto. destruct (Hsrc q t Hq) as (p & t0 & Hp & Hd).
      exists p, t0. split; auto. rewrite decide_False; congruence.
  - intros p t0 Hp. destruct (Halong p t0 Hp) as (j & Hj & Hd).
    destruct (decide (dest p = c)) as [E|E]; [|eauto].
    exists (j + k). split; [lia|]. rewrite Hn, <- E, Hd. apply ahead_ahead.
  - intros p t0 Hp.
    assert (Hu' : forall p' t0', Grid.cellContent g0 p' = Some t0' ->
                  (if decide (dest p' = c) then n else dest p') = n ->
                  dest p' = c \/ dest p' = n).
    { intros p' t0' _ H. destruct (decide (dest p' = c)); auto. }
    destruct (Hdest p t0 Hp) as (t & Ht & Hdisj).
    destruct (decide (dest p = c)) as [E|E].
    + (* the tile that leaves [c] *)
      assert (p = pc) by (eapply Huc; eauto). subst p.
      assert (t0 = t0c) by congruence. subst t0.
      exists t'. split; auto.
      destruct Hcase as [(Hgn & Hv' & Hm')|(nxt & Hgn & Hnu & Hnv & Hv' & Hm')].
      * left. repeat split; [congruence|auto|].
        intros p' t0' Hp' Hd'. destruct (Hu' p' t0' Hp' Hd') as [H|H]; [eauto|].
        destruct (Hdest p' t0' Hp') as (t1 & Ht1 & _). congruence.
      * right. repeat split; [congruence|auto|].
        destruct (Hsrc n nxt Hgn) as (pn & t0n & Hpn & Hdn).
        destruct (Hdest pn t0n Hpn) as (t1 & Ht1 & [(Hv1 & _ & Hu1)|(_ & Hm1 & _)]);
          rewrite Hdn in *; rewrite Hgn in Ht1; injection Ht1 as <-; [|congruence].
        exists pn, t0n. repeat split; auto.
        -- intros ->. congruence.
        -- congruence.
        -- rewrite decide_False; congruence.
        -- intros p' t0' Hp' Hd'. destruct (Hu' p' t0' Hp' Hd') as [H|H]; [left|right]; eauto.
    + destruct (decide (dest p = n)) as [En|En].
      * (* the tile that waits at [n] *)
        rewrite En in *.
        destruct Hcase as [(Hgn & _)|(nxt & Hgn & Hnu & Hnv & Hv' & Hm')]; [congruence|].
        rewrite Hgn in Ht. injection Ht as <-.
        destruct Hdisj as [(Hv & _ & Hu)|(_ & Hm & _)]; [|congruence].
        exists t'. split; auto. right. repeat split; [congruence|auto|].
        exists pc, t0c. repeat split; auto.
        -- intros ->. congruence.
        -- congruence.
        -- rewrite decide_True; auto.
        -- intros p' t0' Hp' Hd'. destruct (Hu' p' t0' Hp' Hd') as [H|H]; [right|left]; eauto.
      * (* a tile elsewhere *)
        exists t. split; [rewrite Hother; auto|].
        assert (Hsame : forall p', (if decide (dest p' = c) then n else dest p') = dest p ->
                                   dest p' = dest p).
        { intros p' H. destruct (decide (dest p' = c)); congruence. }
        destruct Hdisj as [(Hv & Hm & Hu)|(Hv & Hm & p2 & t2 & Hp2 & Hg2 & Hv2 & Hd2 & Hu)].
        -- left. repeat split; auto. intros p' t0' Hp' Hd'. eauto.
        -- right. repeat split; auto. exists p2, t2. repeat split; auto.
           ++ rewrite decide_False; congruence.
           ++ intros p' t0' Hp' Hd'. eauto.
Qed.

(** One callback of [move] keeps the tiles accounted for. *)
Lemma merges_once_cell d s0 pre c post s m :
  size s0 = Grid.size (grid s0) ->
  all_unmerged (grid s0) ->
  traversalCells (buildTraversals s0 (getVector d)) = pre ++ c :: post ->
  step_inv d s0 pre s m ->
  (exists dest, merges_once d (grid s0) (grid s) dest) ->
  exists dest,
    merges_once d (grid s0) (grid (fst (move_cell (getVector d) (s, m) c))) dest.
Proof.
  intros Hsz Hun HT Hinv [dest Hmo].
  destruct (Grid.cellContent (grid s) c) as [tile|] eqn:Hc;
    [|rewrite move_cell_empty by auto; eauto].
  pose proof Hinv as [inv_wf0 inv_size0 inv_gsize0 _ _ _ _ inv_untouched0 _ _ _ _ _ _].
  pose proof (NoDup_traversalCells s0 (getVector d)) as Hnd.
  rewrite HT in Hnd. apply NoDup_app in Hnd as (_ & Hnd & _).
  assert (Hcpre : c ∉ pre).
  { intros H. apply (Hnd c H). apply list_elem_of_here. }
  pose proof (grid_wf_shaped _ inv_wf0) as Hshape.
  pose proof inv_wf0 as Hwf. apply grid_wf_spec in Hwf as [_ Htiles].
  destruct (Htiles _ _ Hc) as (Hx & Hy & Hp2).
  assert (Hum : mergedFrom tile = None).
  { apply (Hun c). now rewrite <- inv_untouched0. }
  pose proof (cellContent_Some_bounds _ _ _ Hc) as Hb.
  destruct (move_cell_cases d s m c tile Hc Hx Hy)
    as [k nxt Hk Hfree Hn Hv Hnu Hs' Hm'|k Hk Hfree Hno Hocc Hs' Hm'];
    rewrite Hs'; clear Hs' Hm'.
  - (* merge *)
    set (n := ahead c (getVector d) (k + 1)) in *.
    pose proof (cellContent_Some_bounds _ _ _ Hn) as Hbn.
    assert (Hnc : n <> c) by (apply ahead_ne; lia).
    set (g1 := put (grid s) n (Some (merged_tile tile nxt n))).
    assert (Hshape1 : shaped g1) by now apply put_shaped.
    assert (Hb1 : Grid.withinBounds g1 c = true) by (unfold g1; now rewrite put_withinBounds).
    assert (Hg : grid (after_merge s c n tile nxt) = put g1 c None).
    { unfold after_merge. now destruct (value tile * 2 =? 2048). }
    exists (fun p => if decide (dest p = c) then n else dest p).
    apply (merges_once_step d (grid s0) (grid s) _ dest c n tile
             (merged_tile tile nxt n) (k + 1)); auto; try lia.
    + rewrite Hg. now apply cellContent_put_eq.
    + rewrite Hg. rewrite cellContent_put_ne by auto. unfold g1.
      now apply cellContent_put_eq.
    + intros q Hqc Hqn. rewrite Hg. rewrite cellContent_put_ne by auto.
      unfold g1. now rewrite cellContent_put_ne by auto.
    + right. exists nxt. repeat split; auto; discriminate.
  - (* slide *)
    destruct (Z.eqb_spec k 0) as [->|Hk0].
    + rewrite ahead_0, after_slide_same by auto. eauto.
    + set (f := ahead c (getVector d) k) in *.
      destruct (Hfree k ltac:(lia)) as [Hbf Hf].
      assert (Hfc : f <> c) by (apply ahead_ne; lia).
      set (g1 := put (grid s) c None).
      assert (Hshape1 : shaped g1) by now apply put_shaped.
      assert (Hbf1 : Grid.withinBounds g1 f = true)
        by (unfold g1; now rewrite put_withinBounds).
      change (after_slide s c f tile)
        with (set_grid s (put g1 f (Some (TileOps.updatePosition tile f)))).
      cbn [grid set_grid].
      exists (fun p => if decide (dest p = c) then f else dest p).
      apply (merges_once_step d (grid s0) (grid s) _ dest c f tile
               (TileOps.updatePosition tile f) k); auto; try lia.
      * rewrite cellContent_put_ne by auto. unfold g1. now apply cellContent_put_eq.
      * now apply cellContent_put_eq.
      * intros q Hqc Hqf. rewrite cellContent_put_ne by auto.
        unfold g1. now rewrite cellContent_put_ne by auto.
Qed.

(** The same account against the board as it was before the tiles were
    reset: the reset keeps the cells and the values. *)
Lemma merges_once_prepared d self g dest :
  merges_once d (grid (prepareTiles self)) g dest -> merges_once d (grid self) g dest.
Proof.
  intros [Hsrc Halong Hdest].
  assert (Hprep : forall p t0, Grid.cellContent (grid self) p = Some t0 ->
            Grid.cellContent (grid (prepareTiles self)) p = Some (prepareTile t0)
            /\ value (prepareTile t0) = value t0).
  { intros p t0 Hp. rewrite prepareTiles_cellContent, Hp. split; reflexivity. }
  assert (Hback : forall p t1, Grid.cellContent (grid (prepareTiles self)) p = Some t1 ->
            exists t0, Grid.cellContent (grid self) p = Some t0 /\ value t1 = value t0).
  { intros p t1 Hp. rewrite prepareTiles_cellContent in Hp.
    destruct (Grid.cellContent (grid self) p) as [t0|]; [|discriminate].
    injection Hp as <-. eauto. }
  split.
  - intros q t Hq. destruct (Hsrc q t Hq) as (p & t1 & Hp & Hd).
    destruct (Hback p t1 Hp) as (t0 & Hp0 & _). eauto.
  - intros p t0 Hp. destruct (Hprep p t0 Hp) as [Hp1 _]. eauto.
  - intros p t0 Hp. destruct (Hprep p t0 Hp) as [Hp1 Hv1].
    destruct (Hdest _ _ Hp1) as (t & Ht & Hdisj). exists t. split; auto.
    rewrite Hv1 in Hdisj.
    destruct Hdisj as [(Hv & Hm & Hu)|(Hv & Hm & p2 & t2 & Hp2 & Hg2 & Hv2 & Hd2 & Hu)].
    + left. repeat split; auto. intros p' t0' Hp' Hd'.
      destruct (Hprep p' t0' Hp') as [Hp1' _]. eauto.
    + right. repeat split; auto.
      destruct (Hback p2 t2 Hg2) as (t2' & Hg2' & Hv2').
      exists p2, t2'. repeat split; auto; [congruence|].
      intros p' t0' Hp' Hd'. destruct (Hprep p' t0' Hp') as [Hp1' _]. eauto.
Qed.

(** After the traversal of a move every tile of the board before it is
    accounted for, alone or merged with one other. *)
Lemma resolve_merges_once_routes d self :
  game_wf self ->
  exists dest, merges_once d (grid self) (grid (fst (resolve d self))) dest.
Proof.
  intros Hwf. pose proof Hwf as Hwf'. apply game_wf_spec in Hwf' as [Hsz Hg].
  destruct (prepareTiles_fields self) as (Fsz & Fgsz & _).
  cut (step_inv d (prepareTiles self)
         (traversalCells (buildTraversals self (getVector d)))
         (fst (resolve d self)) (snd (resolve d self))
       /\ exists dest, merges_once d (grid (prepareTiles self))
                         (grid (fst (resolve d self))) dest).
  { intros [_ [dest H]]. exists dest. now apply merges_once_prepared. }
  unfold resolve. rewrite traverse_flat.
  apply (foldl_prefix_inv (move_cell (getVector d))
           (fun pre st => step_inv d (prepareTiles self) pre (fst st) (snd st)
                          /\ exists dest, merges_once d (grid (prepareTiles self))
                                            (grid (fst st)) dest)).
  - split.
    + apply step_inv_start; [now apply prepareTiles_grid_wf|apply prepareTiles_all_unmerged].
    + exists (fun p => p). apply merges_once_start, prepareTiles_all_unmerged.
  - intros pre c post [s m] HT [Hinv Hmo]. cbn [fst snd] in *.
    assert (HT' : traversalCells (buildTraversals (prepareTiles self) (getVector d))
                  = pre ++ c :: post).
    { rewrite <- HT. unfold buildTraversals. now rewrite Fsz. }
    assert (Hsz' : size (prepareTiles self) = Grid.size (grid (prepareTiles self)))
      by congruence.
    pose proof (prepareTiles_all_unmerged self) as Hun.
    split.
    + now apply (step_inv_step d _ pre c post s m).
    + now apply (merges_once_cell d _ pre c post s m).
Qed.

(** A merge pays the value it creates. *)
Lemma tile_points_double v :
  0 < v -> (v * 2) * (Z.log2 (v * 2) - 1) = 2 * (v * (Z.log2 v - 1)) + v * 2.
Proof.
  intros Hv. rewrite (Z.mul_comm v 2), Z.log2_double by auto. lia.
Qed.

(** One callback of [move] adds to the score what it adds to the points
    of the board. *)
Lemma points_cell d s0 pre c post s m :
  size s0 = Grid.size (grid s0) ->
  all_unmerged (grid s0) ->
  traversalCells (buildTraversals s0 (getVector d)) = pre ++ c :: post ->
  step_inv d s0 pre s m ->
  score (fst (move_cell (getVector d) (s, m) c))
  - board_points (grid (fst (move_cell (getVector d) (s, m) c)))
  = score s - board_points (grid s).
Proof.
  intros Hsz Hun HT Hinv.
  destruct (Grid.cellContent (grid s) c) as [tile|] eqn:Hc;
    [|now rewrite move_cell_empty by auto].
  pose proof Hinv as [inv_wf0 inv_size0 inv_gsize0 _ _ _ _ inv_untouched0 _ _ _ _ _ _].
  pose proof (grid_wf_shaped _ inv_wf0) as Hshape.
  pose proof inv_wf0 as Hwf. apply grid_wf_spec in Hwf as [_ Htiles].
  destruct (Htiles _ _ Hc) as (Hx & Hy & Hp2).
  pose proof (is_pow2_pos _ Hp2) as Hpos.
  pose proof (cellContent_Some_bounds _ _ _ Hc) as Hb.
  destruct (move_cell_cases d s m c tile Hc Hx Hy)
    as [k nxt Hk Hfree Hn Hv Hnu Hs' Hm'|k Hk Hfree Hno Hocc Hs' Hm'];
    rewrite Hs'; clear Hs' Hm'.
  - (* merge *)
    set (n := ahead c (getVector d) (k + 1)) in *.
    pose proof (cellContent_Some_bounds _ _ _ Hn) as Hbn.
    assert (Hnc : n <> c) by (apply ahead_ne; lia).
    set (g1 := put (grid s) n (Some (merged_tile tile nxt n))).
    assert (Hshape1 : shaped g1) by now apply put_shaped.
    assert (Hb1 : Grid.withinBounds g1 c = true) by (unfold g1; now rewrite put_withinBounds).
    assert (Hg : grid (after_merge s c n tile nxt) = put g1 c None).
    { unfold after_merge. now destruct (value tile * 2 =? 2048). }
    assert (Hsc : score (after_merge s c n tile nxt) = score s + value tile * 2).
    { unfold after_merge. now destruct (value tile * 2 =? 2048). }
    assert (Hc1 : Grid.cellContent g1 c = Some tile).
    { unfold g1. rewrite cellContent_put_ne; auto. }
    unfold board_points. rewrite Hg, Hsc.
    rewrite (total_put _ g1) by auto. rewrite Hc1.
    unfold g1. rewrite total_put by auto. rewrite Hn.
    set (B := total (fun _ x => tile_points x) (grid s)).
    unfold tile_points, merged_tile.
    cbn [value TileOps.set_mergedFrom TileOps.new].
    rewrite Hv, tile_points_double by auto. lia.
  - (* slide *)
    destruct (Z.eqb_spec k 0) as [->|Hk0].
    + now rewrite ahead_0, after_slide_same by auto.
    + set (f := ahead c (getVector d) k) in *.
      destruct (Hfree k ltac:(lia)) as [Hbf Hf].
      assert (Hfc : f <> c) by (apply ahead_ne; lia).
      set (g1 := put (grid s) c None).
      assert (Hshape1 : shaped g1) by now apply put_shaped.
      assert (Hbf1 : Grid.withinBounds g1 f = true)
        by (unfold g1; now rewrite put_withinBounds).
      assert (Hf1 : Grid.cellContent g1 f = None).
      { unfold g1. rewrite cellContent_put_ne; auto. }
      change (after_slide s c f tile)
        with (set_grid s (put g1 f (Some (TileOps.updatePosition tile f)))).
      unfold board_points. cbn [grid set_grid score].
      rewrite (total_put _ g1) by auto. rewrite Hf1.
      unfold g1. rewrite total_put by auto. rewrite Hc.
      unfold tile_points. cbn [value TileOps.updatePosition]. lia.
Qed.

Lemma prepareTiles_board_points self :
  board_points (grid (prepareTiles self)) = board_points (grid self).
Proof. now apply (prepareTiles_total tile_points). Qed.

(** The traversal of a move adds to the score what it adds to the
    points of the board. *)
Lemma resolve_points d self :
  game_wf self ->
  score (fst (resolve d self))
  = score self + board_points (grid (fst (resolve d self))) - board_points (grid self).
Proof.
  intros Hwf. pose proof Hwf as Hwf'. apply game_wf_spec in Hwf' as [Hsz Hg].
  destruct (prepareTiles_fields self) as (Fsz & Fgsz & Fsc & _).
  cut (step_inv d (prepareTiles self)
         (traversalCells (buildTraversals self (getVector d)))
         (fst (resolve d self)) (snd (resolve d self))
       /\ score (fst (resolve d self)) - board_points (grid (fst (resolve d self)))
          = score (prepareTiles self) - board_points (grid (prepareTiles self))).
  { intros [_ H]. rewrite prepareTiles_board_points, Fsc in H. lia. }
  unfold resolve. rewrite traverse_flat.
  apply (foldl_prefix_inv (move_cell (getVector d))
           (fun pre st => step_inv d (prepareTiles self) pre (fst st) (snd st)
                          /\ score (fst st) - board_points (grid (fst st))
                             = score (prepareTiles self)
                               - board_points (grid (prepareTiles self)))).
  - split; [|reflexivity].
    apply step_inv_start; [now apply prepareTiles_grid_wf|apply prepareTiles_all_unmerged].
  - intros pre c post [s m] HT [Hinv Hpts]. cbn [fst snd] in *.
    assert (HT' : traversalCells (buildTraversals (prepareTiles self) (getVector d))
                  = pre ++ c :: post).
    { rewrite <- HT. unfold buildTraversals. now rewrite Fsz. }
    assert (Hsz' : size (prepareTiles self) = Grid.size (grid (prepareTiles self)))
      by congruence.
    pose proof (prepareTiles_all_unmerged self) as Hun.
    split.
    + now apply (step_inv_step d _ pre c post s m).
    + rewrite (points_cell d (prepareTiles self) pre c post s m); auto.
Qed.

(** The spawned tile is not marked as merged; a spawned 4 brings the 4
    points of a merge that did not take place. *)
Lemma addRandomTile_points rnd s :
  shaped (grid s) -> Grid.cellsAvailable (grid s) = true ->
  board_points (grid (addRandomTile rnd s))
  = board_points (grid s) + (if value_draw rnd then 0 else 4)
  /\ merged_total (grid (addRandomTile rnd s)) = merged_total (grid s).
Proof.
  intros Hs Hav.
  destruct (addRandomTile_spawn rnd s Hs Hav) as (p & Hb & Hc & E & Hp & _).
  cbv zeta in *. split.
  all: rewrite E; cbn [grid set_grid]; rewrite new_tile_put.
  all: unfold board_points, merged_total.
  all: rewrite total_put by auto; rewrite Hc.
  - destruct (value_draw rnd); cbn [tile_points value TileOps.new];
      [change (Z.log2 2) with 1|change (Z.log2 4) with 2]; lia.
  - simpl. lia.
Qed.

(** What a move in a game that is not terminated does to the score, in
    the terms of the boards before and after it. *)
Lemma move_points d rnd self :
  game_wf self -> isGameTerminated self = false ->
  let mid := fst (resolve d self) in
  let after := move d rnd self in
  let spawned := if snd (resolve d self) then 1 else 0 in
  score after = score mid
  /\ merged_total (grid after) = merged_total (grid mid)
  /\ merged_count (grid after)
     = tile_count (grid self) + spawned - tile_count (grid after)
  /\ score after
     = score self + board_points (grid after) - board_points (grid self)
       - spawned * (if value_draw rnd then 0 else 4).
Proof.
  intros Hwf Hterm mid after spawned.
  pose proof (resolve_points d self Hwf) as Hpts.
  destruct (resolve_ledger d self Hwf) as (_ & Hcount & _).
  rewrite prepareTiles_tile_count in Hcount.
  destruct (snd (resolve d self)) eqn:Hm.
  - destruct (move_accepted d rnd self Hwf Hterm Hm) as (Hs1 & Hav & _ & Hg & Hsc & _).
    destruct (addRandomTile_ledger rnd _ Hs1 Hav) as (_ & Acount & Amerged & _).
    destruct (addRandomTile_points rnd _ Hs1 Hav) as (Apts & Atot).
    unfold after, spawned, mid. rewrite Hg, Hsc. repeat split; auto; lia.
  - assert (E : after = mid).
    { unfold after, mid. rewrite move_not_terminated by auto. now rewrite Hm. }
    rewrite E. unfold spawned, mid in *. repeat split; auto; lia.
Qed.

End Merges.

Section MergeTheorems.

Import GameManager.

(** C7: over any sequence of moves the score never decreases. A move
    in a game that is not terminated adds to the score exactly the sum
    of the values of the tiles it created by merging, none when nothing
    merged or the move is not accepted. Those tiles are the ones marked
    as merged on the board after the move, and the marks are tied to
    the boards: after the traversal every marked tile holds exactly two
    tiles of the board before the move, each of half its value, every
    other tile holds one of its own value, the spawn adds no mark, and
    there are as many marked tiles as the move took tiles off the
    board. Read off the two boards alone, the gain is the difference
    of their points, [v * (log2 v - 1)] for a tile of value [v], less
    the 4 points of a spawned 4. *)
Theorem score_monotone self :
  game_wf self ->
  (forall moves, score self <= score (play moves self))
  /\ (forall d rnd, isGameTerminated self = false ->
        let mid := fst (resolve d self) in
        let after := move d rnd self in
        let spawned := if snd (resolve d self) then 1 else 0 in
        score after = score self + merged_total (grid after)
        /\ 0 <= merged_total (grid after)
        /\ merged_total (grid after) = merged_total (grid mid)
        /\ (exists dest, merges_once d (grid self) (grid mid) dest)
        /\ merged_count (grid after)
           = tile_count (grid self) + spawned - tile_count (grid after)
        /\ score after
           = score self + board_points (grid after) - board_points (grid self)
             - spawned * (if value_draw rnd then 0 else 4)).
Proof.
  intros Hwf. split.
  - intros moves. revert self Hwf.
    induction moves as [|[d rnd] moves IH]; intros self Hwf; simpl; [lia|].
    pose proof (move_score_le d rnd self Hwf).
    pose proof (IH _ (move_wf d rnd self Hwf)).
    unfold play in *. lia.
  - intros d rnd Hterm mid after spawned.
    destruct (move_points d rnd self Hwf Hterm) as (_ & Htot & Hcount & Hpts).
    split; [now apply move_score|].
    split.
    { pose proof (move_wf d rnd self Hwf) as Hw. apply game_wf_spec in Hw as [_ Hw].
      now apply merged_total_nonneg. }
    split; [exact Htot|].
    split; [now apply resolve_merges_once_routes|].
    split; [exact Hcount|exact Hpts].
Qed.

(** C5: after the traversal of a move every tile of the board holds
    one tile of the board before the move, of its own value, or exactly
    two, of equal value, half its own, and never three or more: no tile
    produced by a merge took part in a second merge. The tiles that
    hold two are the ones marked as merged, and the two sources they
    record were not themselves merged in this move. On the row
    [{(0,0):2, (1,0):2, (2,0):2}] moved left this gives
    [{(0,0):4, (1,0):2}] and 4 more points; on
    [{(0,0):2, (1,0):2, (2,0):4}] moved left it gives
    [{(0,0):4, (1,0):4}] and 4 more points: the 4 does not merge into
    the 4 the move has just made. *)
Theorem merge_once_per_move :
  (forall self d p, game_wf self ->
     merge_once (Grid.cellContent (grid (fst (resolve d self))) p))
  /\ (forall self d, game_wf self ->
        exists dest, merges_once d (grid self) (grid (fst (resolve d self))) dest)
  /\ (let r := resolve Left (Boards.game Boards.three_twos) in
      Boards.values (grid (fst r))
      = [ [Some 4; None; None; None]; [Some 2; None; None; None];
          [None; None; None; None]; [None; None; None; None] ]
      /\ score (fst r) = score (Boards.game Boards.three_twos) + 4
      /\ snd r = true)
  /\ (let r := resolve Left (Boards.game Boards.two_two_four) in
      Boards.values (grid (fst r))
      = [ [Some 4; None; None; None]; [Some 4; None; None; None];
          [None; None; None; None]; [None; None; None; None] ]
      /\ score (fst r) = score (Boards.game Boards.two_two_four) + 4
      /\ snd r = true).
Proof.
  split; [|split; [|split]].
  - intros self d p Hwf. now apply resolve_merge_once.
  - intros self d Hwf. now apply resolve_merges_once_routes.
  - vm_compute. repeat split.
  - vm_compute. repeat split.
Qed.

End MergeTheorems.

Lemma score_monotone_witness :
  let self := Boards.game Boards.three_twos in
  let rnd := GameManager.mkRandom true 0 in
  let after := GameManager.move Left rnd self in
  GameManager.score self
  <= GameManager.score (play [(Left, rnd); (Right, GameManager.mkRandom false 3)] self)
  /\ GameManager.score after = 4
  /\ merged_total (GameManager.grid after) = 4
  /\ merged_count (GameManager.grid after) = 1
  /\ board_points (GameManager.grid after) - board_points (GameManager.grid self) = 4.
Proof.
  intros self rnd after.
  assert (Hwf : game_wf self) by (vm_compute; reflexivity).
  assert (Hterm : GameManager.isGameTerminated self = false) by reflexivity.
  destruct (score_monotone self Hwf) as [Hmono Hgain].
  destruct (Hgain Left rnd Hterm) as (Hscore & _ & _ & _ & Hcount & Hpts).
  cbv zeta in Hscore, Hcount, Hpts. fold self rnd after in Hscore, Hcount, Hpts.
  assert (Hs : GameManager.score after = 4) by (vm_compute; reflexivity).
  assert (Hs0 : GameManager.score self = 0) by reflexivity.
  assert (Hn0 : tile_count (GameManager.grid self) = 3) by (vm_compute; reflexivity).
  assert (Hn : tile_count (GameManager.grid after) = 3) by (vm_compute; reflexivity).
  assert (Hm : snd (GameManager.resolve Left self) = true) by (vm_compute; reflexivity).
  rewrite Hm in Hcount, Hpts. change (GameManager.value_draw rnd) with true in Hpts.
  split; [apply Hmono|]. repeat split; lia.
Defined.

Lemma merge_once_per_move_witness :
  exists dest,
    merges_once Left (GameManager.grid (Boards.game Boards.two_two_four))
      (GameManager.grid
         (fst (GameManager.resolve Left (Boards.game Boards.two_two_four)))) dest.
Proof.
  apply (proj1 (proj2 merge_once_per_move)). vm_compute. reflexivity.
Defined.
